(* ===== verification/_CoqProject ===== *)
-Q . S2P
Prelude.v
Float64.v
Prog.v
SipHash.v
Config.v
Deserialize.v
Balancer.v
Http.v
Errors.v
Router.v
Health.v
Breaker.v
RetryBudget.v
RateLimiter.v
Metrics.v
State.v
Trace.v
Proxy.v
Middleware.v
RetryPolicy.v
PolicyFacts.v
ProxySpec.v
Sample.v
ProxyFacts.v
HeaderFacts.v
MiddlewareFacts.v
Connections.v
Reload.v
HealthCheck.v
ActiveChecks.v
MockUpstream.v
Total.v
CutRequests.v
System.v
Tasks.v
History.v
ActiveConnections.v
Shutdown.v
Server.v
Containment.v
Amplification.v
Requests.v
Circuits.v
Timeliness.v
Main.v
