(* ===== verification/Prelude.v ===== *)
(** * L7-Proxy: a verification development

    The program is a layer-7 reverse proxy in Rust ([src/src/*.rs]): it accepts
    HTTP requests, picks a route by the longest matching path prefix, picks an
    upstream with the route's load balancer, forwards the request, and retries at
    other upstreams under a retry limit, a retry budget and exponential backoff.
    A passive health tracker and an active checker steer requests away from
    failing upstreams, a per-address token bucket limits clients, the routes and
    the configuration can be replaced while requests are in flight.  This library
    models it as executable definitions and proves what makes each part, and the
    whole under concurrency, correct.

    ** How effectful code is modelled

    - Pure and single-component code is functions on records: an operation of
      [HealthTracker], say, takes the tracker, its arguments and the clock
      readings it makes, and returns the new tracker with an [outcome] (this
      file): a value or a panic.  A panic under a lock poisons the [Mutex].
    - Asynchronous code ([proxy.rs], [middleware.rs], [config_reloader.rs],
      [health_check.rs]) is a tree of effects, [prog] ([Prog]).  One node is one
      atomic access to the shared state (a load of an atomic, a lock taken and
      released, a load of an [ArcSwap]) or one wait (the points where a future is
      suspended and can be dropped).  [State] lists the effects ([sysE]), the
      shared state ([AppState]) and what each effect does to it ([handle]).
    - A tree is run against the state ([run_sys]), observed as a sequence of
      effects with their answers ([steps], [events]), or interleaved with other
      tasks ([System.sys_step]).  Trees are finite: the loops of the code run over
      the upstreams of a route, and the two endless background tasks are modelled
      for any number [n] of rounds, so no fuel is needed to execute them.
    - Code that is not under [src/] is a parameter: header maps and URIs of
      [hyper] are the class [Hyper] with the laws [HyperLaws] ([Http], with a small
      instance, so that hypotheses are seen to hold); the nodes of a YAML document
      are the class [Document] ([Deserialize], with an instance); reading YAML,
      socket addresses and binds, text encoding and the iteration order of a
      [HashSet] are function arguments; the network,
      the clock and random numbers answer effects ([Oracle]), and
      [State.sys_ok] states what their answers are known to satisfy.
    - The standard library is modelled: binary64 arithmetic by [SpecFloat]
      ([Float64], exact on the integers the code meets), [DefaultHasher] by
      SipHash-1-3 ([SipHash]), [IpAddr] printing ([Http]), stable sort and binary
      search ([Balancer]), [max_by_key] and [strip_prefix] ([Router]).
    - Whether overflow checks are compiled in, and how far back the monotonic
      clock reaches, is the class [Platform] of this file; results hold for both
      settings unless they name one.

    ** The parts

    - [Config], [Deserialize]: [config.rs], data and defaults; the derived
      deserialisers ([deserialize_config] and below) over the nodes of a document.
    - [Balancer]: [balancer.rs], the trait as the class [LoadBalancer], its four
      strategies, [create_balancer]; the atomics are cells outside the balancer.
    - [Http], [Errors], [Router]: requests and responses; [errors.rs]; [router.rs].
    - [Health], [RetryBudget], [RateLimiter], [Metrics]: the file of that name.
    - [State]: [state.rs]; router generations stand for the values an [ArcSwap]
      held, with each generation's atomics.
    - [Proxy]: [proxy.rs]; [proxy_request] is composed of [loop_body],
      [may_attempt], [make_attempt], [forward_once], [after_attempt] as the code's
      loop is.
    - [Middleware]: [middleware.rs] and the stack [start_server] builds.
    - [Reload], [HealthCheck], [MockUpstream]: [config_reloader.rs],
      [health_check.rs], [bin/mock_upstream.rs].
    - [Server], [Shutdown]: [server.rs], the shared state and the services; the
      shutdown signal and the race at the end of [start_server].
    - [Main]: [main.rs] and the starters of [server.rs], as programs over the
      effects of start-up ([mainE]) run on a [Machine].
    - [Trace]: events of a run, and the unary logic [emits] for them.
    - [RetryPolicy]: the abstract specification of a request, a relation between
      the events it may show and its result; [PolicyFacts] is what follows from it.
    - [Sample]: a small deployment, on which witnesses evaluate.

    ** What the theorems show

    - Requests ([ProxySpec], [ProxyFacts]): [proxy_request] refines the retry
      policy; hence attempts are bounded, retries are budgeted and backed off,
      each retry after its grant and its pause, the result, the metrics and the
      health reports agree with the upstreams' answers, attempt by attempt, and
      only healthy upstreams are called while there are any.
    - Headers, and paths with the authority (RFC 3986) the rewritten address has
      ([HeaderFacts]); rate limiting ([MiddlewareFacts]).
    - Configuration ([Deserialize]): what is written is read back, key order and
      unknown keys do not matter, an accepted document's integers are the fields'
      values as they are written, and so within their types.
    - The overall timeout ([MiddlewareFacts], [CutRequests]): a cut request is a
      prefix of a run, with the same limits on its calls.
    - Connection counting: balanced by returning requests, leaked by those the
      overall timeout cuts ([Connections]); under every interleaving a counter is
      the number of tasks that hold a slot ([ActiveConnections]).
    - The active checker drives the circuit breaker ([HealthCheck],
      [ActiveChecks]).
    - Components: fairness, proportionality, least load and minimal disruption of
      the balancers; longest-prefix routing; the tracker against one circuit breaker
      per upstream ([Breaker]); the float bucket against an integer one, and the
      bound on what one client is let through among others' checks and the
      limiter's cleanups.  The loads of a least-connections scan are separate effects, so its
      theorem names the counters as the scan read them.
    - The whole ([Total], [System], [Server]): from the state [main] builds out of
      a usable configuration, under every interleaving of requests, reloads and
      health checks, and whichever tasks are dropped at a wait, no task panics,
      and the state's invariant holds; a request alone always returns.
    - The tasks of the whole ([Tasks], [Requests]): a task carries what it was
      spawned for ([System.origin]), a request with its client's address, a reload
      or the checker.  [Tasks] is the induction over the system's steps for
      properties of single tasks; by it every request of a reachable pool follows
      the retry policy for that very request, of one configuration that was
      current and one stored router, the limits on calls hold for every task, and
      the metrics are exactly what the tasks recorded, each request once.
    - The whole as one sequence ([History]): every reachable state is made by the
      tasks' operations in one order, so that what is proved of calls on one
      tracker or one budget holds of concurrent requests: an upstream is called
      only after its circuit breaker let the request through, or all breakers of
      the route refused ([Circuits]); and the retry budget's cap on the calls of
      all requests together ([Amplification]).
    - Unusable configurations ([Containment]): they make requests that load them
      panic, and do no other harm.
    - Time ([Timeliness], [Shutdown]): a request is answered within the overall
      timeout; [start_server] ends within the drain timeout of the signal, and
      cuts no request before it is answered when the drain timeout is the longer
      of the two (the body of an answer, whose streaming no timeout bounds, may
      still be cut).
    - Start-up ([Main]): [main] never panics; it ends with an error whose cause is
      named, or serves a state the system reaches, on the addresses of the file.
    - Defects: connections leaked by timeouts, a wrapping [max_retries], budgets
      and limiters that poison their locks, weights of zero, bursts handed back by
      the cleanup, paths glued to the upstream's authority.

    ** Bounds

    Integers keep their Rust width where the code can reach it.  The theorems on
    the retry budget and the rate limiter ask for percentages, rates, bursts and
    counts whose products stay below [2^51] or [2^53], where binary64 is exact.
    [Total.usable_config] is what configurations must satisfy for the safety
    theorems: upstreams in every route, weights that are not all zero, and a
    backoff that does not overflow where overflow is checked.  [Containment]
    states what holds without it.

    ** Not modelled

    Log lines; the internals of hyper, tokio, prometheus, serde and reqwest: that
    hyper's graceful shutdown ends with the last connection, whose response is
    then written to its end, is the hypothesis [Shutdown.graceful], that timers
    fire in time is built into [Timeliness.takes], where computations take no
    time; the body of a response is not streamed; the capacity overflow of [Vec::with_capacity]; benchmarks,
    tests, deployment. *)

(** ** This file: what every component shares

    Panics ([outcome]), errors ([result]), machine integers of 32 and 64 bits
    with both behaviours on overflow, time, locks with poisoning, and the list
    lemmas and tactics the component files use. *)

From stdpp Require Export base numbers list strings gmap.
From Stdlib Require Export ZArith Lia.

Local Open Scope Z_scope.

(** ** Panics *)

(** The value of an expression that may panic. *)
Inductive outcome (A : Type) : Type :=
| Value (a : A)
| Panicked.
Arguments Value {A} _.
Arguments Panicked {A}.

#[global] Instance outcome_ret : MRet outcome := @Value.
#[global] Instance outcome_bind : MBind outcome := λ A B f o,
  match o with Value a => f a | Panicked => Panicked end.
#[global] Instance outcome_fmap : FMap outcome := λ A B f o,
  match o with Value a => Value (f a) | Panicked => Panicked end.
#[global] Instance outcome_eq_dec {A} `{EqDecision A} : EqDecision (outcome A).
Proof. solve_decision. Defined.

(** [Option::unwrap] and [Result::unwrap]. *)
Definition unwrap {A} (o : option A) : outcome A :=
  match o with Some a => Value a | None => Panicked end.

(** Whether there is a value, and the value or a default. *)
Definition is_value {A} (o : outcome A) : bool :=
  match o with Value _ => true | Panicked => false end.
Definition value_or {A} (d : A) (o : outcome A) : A :=
  match o with Value a => a | Panicked => d end.

Lemma is_value_or {A} (d : A) (o : outcome A) : is_value o = true → o = Value (value_or d o).
Proof. by destruct o. Qed.

(** Rust's [Result]. *)
Inductive result (A E : Type) : Type :=
| Ok (a : A)
| Err (e : E).
Arguments Ok {A E} _.
Arguments Err {A E} _.

Definition is_ok {A E} (r : result A E) : bool := match r with Ok _ => true | Err _ => false end.
Definition ok_or {A E} (d : A) (r : result A E) : A := match r with Ok a => a | Err _ => d end.

Lemma is_ok_or {A E} (d : A) (r : result A E) : is_ok r = true → r = Ok (ok_or d r).
Proof. by destruct r. Qed.

Lemma outcome_bind_value {A B} (o : outcome A) (f : A → outcome B) (b : B) :
  o ≫= f = Value b ↔ ∃ a, o = Value a ∧ f a = Value b.
Proof.
  split.
  - destruct o as [a|]; simpl; [eauto | discriminate].
  - intros (a & -> & Hf). exact Hf.
Qed.

(** ** The build and the platform

    [overflow_checks] is the profile's setting of the same name: on in a debug
    build, off in [cargo build --release].  [instant_min] is the least
    instant the platform's [Instant] represents, in nanoseconds: far below
    zero where an instant is a signed count of seconds (Linux), zero where it
    is an unsigned count since boot. *)
Class Platform := {
  overflow_checks : bool;
  instant_min : Z;
}.

(** A release build on a platform whose instants start at zero. *)
Definition release_build : Platform := {| overflow_checks := false; instant_min := 0 |}.

(** ** Machine integers *)

Definition wrap (w z : Z) : Z := z mod 2 ^ w.

Definition in_width (w z : Z) : Prop := 0 ≤ z < 2 ^ w.
#[global] Instance in_width_dec w z : Decision (in_width w z).
Proof. unfold in_width. apply _. Defined.

Abbreviation in_u32 := (in_width 32).
Abbreviation in_u64 := (in_width 64).
Abbreviation in_usize := (in_width 64).

Section arithmetic.
Context `{Platform}.

(** The exact result of an operator at width [w]: itself when it fits, a panic
    or the wrapped value when it does not. *)
Definition checked (w z : Z) : outcome Z :=
  if decide (in_width w z) then Value z
  else if overflow_checks then Panicked
  else Value (wrap w z).

Definition add_w (w a b : Z) : outcome Z := checked w (a + b).

(** [1 << n] at width 64: a shift of 64 or more panics, or uses the low six
    bits of the amount. *)
Definition shl_one_u64 (n : Z) : outcome Z :=
  if decide (n < 64) then Value (wrap 64 (Z.shiftl 1 n))
  else if overflow_checks then Panicked
  else Value (wrap 64 (Z.shiftl 1 (n mod 64))).

(** [a % b] on unsigned integers: a zero divisor panics in every build. *)
Definition rem_u (a b : Z) : outcome Z :=
  if decide (b = 0) then Panicked else Value (a mod b).

Lemma checked_fits w z : in_width w z → checked w z = Value z.
Proof. intros Hz. unfold checked. by rewrite decide_True. Qed.

Lemma rem_u_pos a b : 0 < b → rem_u a b = Value (a mod b).
Proof. intros Hb. unfold rem_u. rewrite decide_False; [done|lia]. Qed.
End arithmetic.

(** [u64::saturating_mul]. *)
Definition saturating_mul_u64 (a b : Z) : Z := Z.min (a * b) (2 ^ 64 - 1).

Lemma wrap_in_width w z : 0 ≤ w → in_width w (wrap w z).
Proof. intros Hw. unfold in_width, wrap. apply Z.mod_pos_bound. lia. Qed.

Lemma wrap_small w z : in_width w z → wrap w z = z.
Proof. intros Hz. unfold wrap. by apply Z.mod_small. Qed.

Lemma wrap_add_l w a b : wrap w (wrap w a + b) = wrap w (a + b).
Proof. unfold wrap. apply Zplus_mod_idemp_l. Qed.

Lemma wrap_sub_l w a b : wrap w (wrap w a - b) = wrap w (a - b).
Proof. unfold wrap. apply Zminus_mod_idemp_l. Qed.

(** ** Time: nanoseconds *)

Abbreviation Instant := Z (only parsing).
Abbreviation Duration := Z (only parsing).

Definition nanos_per_sec : Z := 1000000000.
Definition from_secs (s : Z) : Duration := s * nanos_per_sec.
Definition from_millis (ms : Z) : Duration := ms * 1000000.

(** [Instant - Duration]: panics when the platform cannot represent it. *)
Definition instant_sub `{Platform} (t : Instant) (d : Duration) : outcome Instant :=
  if decide (instant_min ≤ t - d) then Value (t - d) else Panicked.

(** [Instant::duration_since] and [Instant::elapsed] saturate at zero. *)
Definition duration_since (now earlier : Instant) : Duration := Z.max 0 (now - earlier).

(** The readings of [Instant::now()] one operation makes, in its order. *)
Abbreviation Readings := (nat → Z) (only parsing).

(** ** [std::sync::Mutex]

    A panic while the lock is held poisons it, and [lock().unwrap()] on a
    poisoned lock panics. *)
Record Mutex (A : Type) := mk_mutex { guarded : A; poisoned : bool }.
Arguments mk_mutex {A} _ _.
Arguments guarded {A} _.
Arguments poisoned {A} _.

Definition mutex_new {A} (a : A) : Mutex A := mk_mutex a false.

(** A critical section: [let mut g = m.lock().unwrap(); body]. *)
Definition with_lock {A B} (m : Mutex A) (body : A → A * outcome B) : Mutex A * outcome B :=
  if poisoned m then (m, Panicked)
  else
    let '(a, r) := body (guarded m) in
    (mk_mutex a (match r with Panicked => true | Value _ => false end), r).

Lemma with_lock_value {A B} (a a' : A) (body : A → A * outcome B) (b : B) :
  body a = (a', Value b) →
  with_lock (mutex_new a) body = (mutex_new a', Value b).
Proof. intros Hb. unfold with_lock. simpl. by rewrite Hb. Qed.

(** A poisoned lock stays poisoned and every later critical section panics. *)
Lemma with_lock_poisoned {A B} (m : Mutex A) (body : A → A * outcome B) :
  poisoned m = true → with_lock m body = (m, Panicked).
Proof. intros Hp. unfold with_lock. by rewrite Hp. Qed.

(** ** Vectors: indices are [usize], out of range panics *)

Definition index {A} (l : list A) (i : Z) : outcome A := unwrap (l !! Z.to_nat i).
Definition len {A} (l : list A) : Z := Z.of_nat (length l).

Lemma len_snoc {A} (l : list A) x : len (l ++ [x]) = len l + 1.
Proof. unfold len. rewrite length_app. simpl. lia. Qed.

Lemma len_nonneg {A} (l : list A) : 0 ≤ len l.
Proof. unfold len. lia. Qed.

Lemma index_lookup {A} (l : list A) i x :
  l !! Z.to_nat i = Some x → index l i = Value x.
Proof. intros Hl. unfold index. by rewrite Hl. Qed.

Lemma index_in_range {A} (l : list A) i :
  0 ≤ i < len l → ∃ x, index l i = Value x ∧ l !! Z.to_nat i = Some x.
Proof.
  intros Hi. destruct (lookup_lt_is_Some_2 l (Z.to_nat i)) as [x Hx].
  - unfold len in Hi. lia.
  - exists x. split; [by apply index_lookup | done].
Qed.

(** ** Automation *)

Create HintDb proxy.
Create Rewrite HintDb proxy.
#[export] Hint Resolve wrap_in_width len_nonneg : proxy.
#[export] Hint Rewrite @wrap_add_l @wrap_sub_l @len_snoc : proxy.

(** Splits the binds of an [outcome] computation known to return a value. *)
Ltac inv_outcome :=
  repeat match goal with
  | H : _ ≫= _ = Value _ |- _ =>
      let a := fresh "a" in let Ha := fresh "Ha" in
      apply outcome_bind_value in H as (a & Ha & H)
  | H : Value _ = Value _ |- _ => injection H as H
  | H : Panicked = Value _ |- _ => discriminate H
  | H : Value _ = Panicked |- _ => discriminate H
  end; simplify_eq/=.

(** Case analysis on every [decide] and boolean test of the goal. *)
Ltac split_decide := repeat (case_decide || case_match); simplify_eq/=.
