(* ===== verification/Float64.v ===== *)
(** Float64: the [f64] arithmetic the rate limiter and the retry budget use.

    A value is an IEEE 754 binary64 number of the standard library's
    [SpecFloat] (53 bits of mantissa, exponents below 1024, round to nearest
    even); the operations are the ones the Rust source applies: the [as f64]
    and [as usize] casts, [+], [-], [*], [/], the comparisons, [f64::min],
    [f64::ceil] and [Duration::as_secs_f64].

    The second half shows that on whole numbers below [2^53] these operations
    are the integer ones, and that the ceiling of a rounded quotient by 100 is
    the exact ceiling, which is what the retry budget relies on. *)

From S2P Require Import Prelude.
From Corelib Require Export SpecFloat.
Local Open Scope Z_scope.

Abbreviation f64 := spec_float.

(** ** Operations *)

(** [z as f64] for an integer [z]. *)
Definition f64_of_Z (z : Z) : f64 := binary_normalize 53 1024 z 0 false.

Definition f64_add : f64 → f64 → f64 := SFadd 53 1024.
Definition f64_sub : f64 → f64 → f64 := SFsub 53 1024.
Definition f64_mul : f64 → f64 → f64 := SFmul 53 1024.
Definition f64_div : f64 → f64 → f64 := SFdiv 53 1024.

(** [x >= y]; false when one of them is not a number. *)
Definition f64_ge (x y : f64) : bool := SFleb y x.
Definition f64_gt (x y : f64) : bool := SFltb y x.
Definition f64_lt (x y : f64) : bool := SFltb x y.

Definition f64_is_nan (x : f64) : bool :=
  match x with S754_nan => true | _ => false end.

(** [f64::min]: the other operand when one of them is not a number. *)
Definition f64_min (x y : f64) : f64 :=
  if f64_is_nan x then y
  else if f64_is_nan y then x
  else if SFltb y x then y else x.

(** [f64::ceil]. *)
Definition f64_ceil (x : f64) : f64 :=
  match x with
  | S754_finite s m e =>
      if 0 <=? e then x
      else if s then SFopp (f64_of_Z (Zpos m / 2 ^ (- e)))
      else f64_of_Z (- (- Zpos m / 2 ^ (- e)))
  | _ => x
  end.

(** [x as usize]: truncates, and saturates at the ends of the range; a value
    that is not a number gives 0. *)
Definition f64_to_usize (x : f64) : Z :=
  match x with
  | S754_finite false m e =>
      Z.min (if 0 <=? e then Zpos m * 2 ^ e else Zpos m / 2 ^ (- e)) (2 ^ 64 - 1)
  | S754_infinity false => 2 ^ 64 - 1
  | _ => 0
  end.

(** [Duration::as_secs_f64]. *)
Definition as_secs_f64 (d : Duration) : f64 :=
  f64_add (f64_of_Z (d / nanos_per_sec))
          (f64_div (f64_of_Z (d mod nanos_per_sec)) (f64_of_Z nanos_per_sec)).

(** ** Whole numbers

    [int_float n] is the canonical binary64 representation of [n]: 53 bits of
    mantissa, the leading one set. *)
Definition digits (n : Z) : Z := Z.log2 n + 1.

Definition int_float (n : Z) : f64 :=
  match n with
  | Zpos _ => S754_finite false (Z.to_pos (n * 2 ^ (53 - digits n))) (digits n - 53)
  | _ => S754_zero false
  end.

Lemma digits_pos n : 0 < n → 1 ≤ digits n.
Proof. intros Hn. unfold digits. pose proof (Z.log2_nonneg n). lia. Qed.

Lemma digits_spec n : 0 < n → 2 ^ (digits n - 1) ≤ n < 2 ^ digits n.
Proof.
  intros Hn. unfold digits. replace (Z.log2 n + 1 - 1) with (Z.log2 n) by lia.
  apply Z.log2_spec. done.
Qed.

Lemma digits_le n k : 0 < n < 2 ^ k → digits n ≤ k.
Proof.
  intros [Hn Hk]. unfold digits. apply Z.log2_lt_pow2 in Hk; lia.
Qed.

Lemma digits_mul_pow2 n j : 0 < n → 0 ≤ j → digits (n * 2 ^ j) = digits n + j.
Proof. intros Hn Hj. unfold digits. rewrite Z.log2_mul_pow2 by lia. lia. Qed.

Lemma digits_eq n d : 0 < d → 2 ^ (d - 1) ≤ n < 2 ^ d → digits n = d.
Proof.
  intros Hd Hn. unfold digits.
  rewrite (Z.log2_unique n (d - 1)); [lia|lia|].
  by replace (Z.succ (d - 1)) with d by lia.
Qed.

Lemma digits2_pos_digits p : Zpos (digits2_pos p) = digits (Zpos p).
Proof.
  unfold digits. induction p as [p IH|p IH|]; simpl digits2_pos.
  - rewrite Pos2Z.inj_succ, IH, (Pos2Z.inj_xI p), Z.log2_succ_double by lia. lia.
  - rewrite Pos2Z.inj_succ, IH, (Pos2Z.inj_xO p), Z.log2_double by lia. lia.
  - done.
Qed.

Lemma Zdigits2_digits n : 0 < n → Zdigits2 n = digits n.
Proof. destruct n; try lia. intros _. apply digits2_pos_digits. Qed.

(** ** Shifting a mantissa to the right *)

Lemma iter_pos_nat {A} (f : A → A) p x : SpecFloat.iter_pos f p x = Nat.iter (Pos.to_nat p) f x.
Proof.
  revert x. induction p as [p IH|p IH|]; intros x; simpl SpecFloat.iter_pos.
  - rewrite !IH, <-Nat.iter_add, <-Nat.iter_succ_r. f_equal. lia.
  - rewrite !IH, <-Nat.iter_add. f_equal. lia.
  - done.
Qed.

Lemma shr_1_m mrs : 0 ≤ shr_m mrs → shr_m (shr_1 mrs) = shr_m mrs / 2.
Proof.
  destruct mrs as [[|[p|p|]|p] r s]; simpl; intros Hm; try done; try lia.
  - rewrite (Pos2Z.inj_xI p). apply Z.div_unique with 1; lia.
  - rewrite (Pos2Z.inj_xO p). apply Z.div_unique with 0; lia.
Qed.

Lemma shr_1_exact m :
  0 ≤ m → shr_1 (Build_shr_record (2 * m) false false) = Build_shr_record m false false.
Proof. intros Hm. by destruct m. Qed.

Lemma iter_shr_m k mrs : 0 ≤ shr_m mrs →
  shr_m (Nat.iter k shr_1 mrs) = shr_m mrs / 2 ^ Z.of_nat k.
Proof.
  revert mrs. induction k as [|k IH]; intros mrs Hm.
  - simpl. by rewrite Z.div_1_r.
  - rewrite Nat.iter_succ_r, IH by (rewrite shr_1_m by done; apply Z.div_pos; lia).
    rewrite shr_1_m, Z.div_div by lia. f_equal.
    rewrite Nat2Z.inj_succ, Z.pow_succ_r by lia. lia.
Qed.

(** Bits are lost only when the mantissa is not a multiple. *)
Lemma iter_shr_exact k m : 0 ≤ m →
  Nat.iter k shr_1 (Build_shr_record (m * 2 ^ Z.of_nat k) false false)
  = Build_shr_record m false false.
Proof.
  intros Hm. induction k as [|k IH]; [simpl; f_equal; lia|].
  rewrite Nat.iter_succ_r, Nat2Z.inj_succ, Z.pow_succ_r by lia.
  replace (m * (2 * 2 ^ Z.of_nat k)) with (2 * (m * 2 ^ Z.of_nat k)) by lia.
  rewrite shr_1_exact by lia. done.
Qed.

Lemma shr_exact m e k : 0 ≤ m → 0 ≤ k →
  shr (Build_shr_record (m * 2 ^ k) false false) e k
  = (Build_shr_record m false false, e + k).
Proof.
  intros Hm Hk. unfold shr. destruct k as [|p|p]; [|..|lia].
  - rewrite Z.add_0_r. repeat f_equal. lia.
  - rewrite iter_pos_nat. f_equal.
    rewrite <-(iter_shr_exact (Pos.to_nat p) m) by done.
    by rewrite positive_nat_Z.
Qed.

(** ** Rounding a mantissa that needs no rounding *)

Abbreviation fexp64 := (SpecFloat.fexp 53 1024).

Lemma fexp64_eq e : -1021 ≤ e → fexp64 e = e - 53.
Proof. intros He. unfold SpecFloat.fexp, SpecFloat.emin. lia. Qed.

Lemma shr_fexp_exact n k e : 0 < n → 0 ≤ k → -1021 ≤ digits n + k + e →
  fexp64 (digits n + k + e) - e = k →
  shr_fexp 53 1024 (n * 2 ^ k) e loc_Exact = (Build_shr_record n false false, e + k).
Proof.
  intros Hn Hk He Hf. unfold shr_fexp. simpl.
  rewrite Zdigits2_digits, digits_mul_pow2 by nia. rewrite Hf.
  apply shr_exact; lia.
Qed.

Lemma shr_fexp_id n e : 0 < n → digits n = 53 → -1000 ≤ e →
  shr_fexp 53 1024 n e loc_Exact = (Build_shr_record n false false, e).
Proof.
  intros Hn Hd He. pose proof (shr_fexp_exact n 0 e Hn) as Hs.
  rewrite Z.pow_0_r, Z.mul_1_r, Hd, fexp64_eq, !Z.add_0_r in Hs by lia. apply Hs; lia.
Qed.

Lemma normal_mantissa n : 0 < n < 2 ^ 53 →
  0 < n * 2 ^ (53 - digits n) ∧ digits (n * 2 ^ (53 - digits n)) = 53.
Proof.
  intros Hn. pose proof (digits_le n 53 Hn). pose proof (digits_pos n ltac:(lia)).
  rewrite digits_mul_pow2 by lia. split; nia.
Qed.

Lemma round_aux_exact n j : 0 < n < 2 ^ 53 → 0 ≤ j → 53 ≤ digits n + j →
  binary_round_aux 53 1024 false (n * 2 ^ j) (- j) loc_Exact = int_float n.
Proof.
  intros Hn Hj Hd. pose proof (digits_le n 53 Hn). pose proof (digits_pos n ltac:(lia)).
  destruct (normal_mantissa n Hn) as [Hpos Hdig].
  set (m := n * 2 ^ (53 - digits n)) in *.
  replace (n * 2 ^ j) with (m * 2 ^ (digits n + j - 53))
    by (unfold m; rewrite <-Z.mul_assoc, <-Z.pow_add_r by lia; do 2 f_equal; lia).
  unfold binary_round_aux.
  rewrite shr_fexp_exact by (rewrite ?fexp64_eq; lia). simpl.
  rewrite shr_fexp_id by lia. simpl.
  unfold int_float. destruct n as [|p|p]; try lia. fold m.
  destruct m as [|q|q]; try lia.
  rewrite (proj2 (Z.leb_le _ _)) by lia. f_equal; lia.
Qed.

(** Aligning to the left multiplies by a power of two. *)
Lemma shl_align_le m e e' : e' ≤ e →
  Zpos (fst (shl_align m e e')) = Zpos m * 2 ^ (e - e') ∧ snd (shl_align m e e') = e'.
Proof.
  intros He. unfold shl_align. destruct (e' - e) as [|d|d] eqn:Hd; try lia; simpl.
  - replace (e - e') with 0 by lia. lia.
  - replace (e - e') with (Zpos d) by lia. split; [|done].
    rewrite <-(positive_nat_Z d), Pos2Nat.inj_iter. clear Hd He.
    induction (Pos.to_nat d) as [|k IH]; [simpl; lia|].
    rewrite Nat2Z.inj_succ, Z.pow_succ_r by lia.
    transitivity (2 * (Zpos m * 2 ^ Z.of_nat k)); [by rewrite <-IH | lia].
Qed.

Lemma shl_align_gt m e e' : e < e' → shl_align m e e' = (m, e).
Proof. intros He. unfold shl_align. destruct (e' - e) eqn:Hd; done || lia. Qed.

(** A whole number, at whatever scale it is held, normalises to its canonical
    representation. *)
Lemma normalize_exact n j : 0 ≤ n < 2 ^ 53 → 0 ≤ j →
  binary_normalize 53 1024 (n * 2 ^ j) (- j) false = int_float n.
Proof.
  intros Hn Hj. destruct (decide (n = 0)) as [->|]; [by rewrite Z.mul_0_l|].
  assert (0 < n < 2 ^ 53) as Hn' by lia.
  pose proof (digits_le n 53 Hn') as Hd. pose proof (digits_pos n ltac:(lia)).
  assert (0 < n * 2 ^ j) by nia.
  destruct (n * 2 ^ j) as [|p|p] eqn:Hp; try lia. simpl.
  assert (Zpos (digits2_pos p) = digits n + j) as Hdp.
  { rewrite digits2_pos_digits, <-Hp. apply digits_mul_pow2; lia. }
  unfold binary_round. rewrite Hdp, fexp64_eq by lia.
  destruct (decide (digits n + j + - j - 53 ≤ - j)) as [Hle|Hgt].
  - pose proof (shl_align_le p (- j) (digits n + j + - j - 53) Hle) as [Hm He].
    destruct (shl_align _ _ _) as [mz ez]. simpl in Hm, He. subst ez.
    rewrite Hm, <-Hp, <-Z.mul_assoc, <-Z.pow_add_r by lia.
    rewrite <-(round_aux_exact n (53 - digits n)) by lia. f_equal; [f_equal; f_equal|]; lia.
  - rewrite shl_align_gt by lia. rewrite <-Hp. apply round_aux_exact; lia.
Qed.

Lemma f64_of_Z_int n : 0 ≤ n < 2 ^ 53 → f64_of_Z n = int_float n.
Proof.
  intros Hn. rewrite <-(normalize_exact n 0) by lia. unfold f64_of_Z.
  f_equal; lia.
Qed.

(** ** Arithmetic on whole numbers is exact *)

Lemma int_float_pos n : 0 < n →
  int_float n = S754_finite false (Z.to_pos (n * 2 ^ (53 - digits n))) (digits n - 53).
Proof. by destruct n. Qed.

(** The mantissa of a whole number aligned to a smaller exponent. *)
Lemma int_float_align n ez : 0 < n < 2 ^ 53 → ez ≤ digits n - 53 →
  Zpos (fst (shl_align (Z.to_pos (n * 2 ^ (53 - digits n))) (digits n - 53) ez))
  = n * 2 ^ (- ez).
Proof.
  intros Hn Hez. pose proof (digits_le n 53 Hn). pose proof (digits_pos n ltac:(lia)).
  destruct (normal_mantissa n Hn) as [Hpos _].
  rewrite (proj1 (shl_align_le _ _ _ Hez)), Z2Pos.id by lia.
  rewrite <-Z.mul_assoc, <-Z.pow_add_r by lia. do 2 f_equal. lia.
Qed.

Lemma digits_mul_ge a b : 0 < a → 0 < b → digits a + digits b - 1 ≤ digits (a * b).
Proof.
  intros Ha Hb. unfold digits. pose proof (Z.log2_mul_below a b Ha Hb). lia.
Qed.

Lemma f64_mul_int a b : 0 ≤ a → 0 ≤ b → a * b < 2 ^ 53 → a < 2 ^ 53 → b < 2 ^ 53 →
  f64_mul (int_float a) (int_float b) = int_float (a * b).
Proof.
  intros Ha Hb Hab Ha' Hb'.
  destruct (decide (a = 0)) as [->|]; [by destruct b|].
  destruct (decide (b = 0)) as [->|]; [rewrite Z.mul_0_r; by destruct a|].
  pose proof (digits_le a 53 ltac:(lia)). pose proof (digits_le b 53 ltac:(lia)).
  pose proof (digits_pos a ltac:(lia)). pose proof (digits_pos b ltac:(lia)).
  pose proof (digits_mul_ge a b ltac:(lia) ltac:(lia)).
  destruct (normal_mantissa a ltac:(lia)) as [Hma _].
  destruct (normal_mantissa b ltac:(lia)) as [Hmb _].
  rewrite (int_float_pos a), (int_float_pos b) by lia.
  unfold f64_mul, SFmul. rewrite Pos2Z.inj_mul, !Z2Pos.id by lia. simpl xorb.
  rewrite <-(round_aux_exact (a * b) (106 - digits a - digits b)) by nia.
  f_equal; [|lia].
  replace (a * 2 ^ (53 - digits a) * (b * 2 ^ (53 - digits b)))
    with (a * b * (2 ^ (53 - digits a) * 2 ^ (53 - digits b))) by ring.
  rewrite <-Z.pow_add_r by lia. do 2 f_equal. lia.
Qed.

Lemma f64_add_int a b : 0 ≤ a → 0 ≤ b → a + b < 2 ^ 53 →
  f64_add (int_float a) (int_float b) = int_float (a + b).
Proof.
  intros Ha Hb Hab.
  destruct (decide (a = 0)) as [->|]; [by destruct b|].
  destruct (decide (b = 0)) as [->|]; [rewrite Z.add_0_r; by destruct a|].
  pose proof (digits_le a 53 ltac:(lia)). pose proof (digits_le b 53 ltac:(lia)).
  rewrite (int_float_pos a), (int_float_pos b) by lia.
  unfold f64_add, SFadd. cbv zeta. simpl cond_Zopp.
  rewrite !int_float_align by lia. rewrite <-Z.mul_add_distr_r.
  rewrite <-(normalize_exact (a + b) (- Z.min (digits a - 53) (digits b - 53))) by lia.
  f_equal. lia.
Qed.

Lemma f64_sub_int a b : 0 ≤ b ≤ a → a < 2 ^ 53 →
  f64_sub (int_float a) (int_float b) = int_float (a - b).
Proof.
  intros Hb Ha.
  destruct (decide (b = 0)) as [->|]; [rewrite Z.sub_0_r; by destruct a|].
  pose proof (digits_le a 53 ltac:(lia)). pose proof (digits_le b 53 ltac:(lia)).
  rewrite (int_float_pos a), (int_float_pos b) by lia.
  unfold f64_sub, SFsub. cbv zeta. simpl cond_Zopp.
  rewrite !int_float_align by lia. rewrite <-Z.mul_sub_distr_r.
  rewrite <-(normalize_exact (a - b) (- Z.min (digits a - 53) (digits b - 53))) by lia.
  f_equal. lia.
Qed.

(** Larger numbers have larger exponents. *)
Lemma digits_lt_lt a b : 0 < a → 0 < b → digits a < digits b → a < b.
Proof.
  intros Ha Hb Hd. pose proof (digits_spec a Ha). pose proof (digits_spec b Hb).
  assert (2 ^ digits a ≤ 2 ^ (digits b - 1)) by (apply Z.pow_le_mono_r; lia). lia.
Qed.

Lemma compare_int_float a b : 0 ≤ a < 2 ^ 53 → 0 ≤ b < 2 ^ 53 →
  SFcompare (int_float a) (int_float b) = Some (a ?= b).
Proof.
  intros Ha Hb.
  destruct (decide (a = 0)) as [->|]; [destruct b; done || lia|].
  destruct (decide (b = 0)) as [->|]; [destruct a; done || lia|].
  destruct (normal_mantissa a ltac:(lia)) as [Hma _].
  destruct (normal_mantissa b ltac:(lia)) as [Hmb _].
  rewrite (int_float_pos a), (int_float_pos b) by lia. simpl. f_equal.
  destruct (Z.compare_spec (digits a - 53) (digits b - 53)) as [He|He|He].
  - match goal with |- Pos.compare_cont Eq ?x ?y = _ => change ((Zpos x ?= Zpos y) = (a ?= b)) end.
    rewrite !Z2Pos.id by lia.
    replace (digits b) with (digits a) by lia.
    pose proof (digits_le a 53 ltac:(lia)).
    rewrite Z.compare_sub, <-Z.mul_sub_distr_r, (Z.compare_sub a).
    pose proof (Z.pow_pos_nonneg 2 (53 - digits a) ltac:(lia) ltac:(lia)).
    destruct (Z.compare_spec (a - b) 0); [|apply Z.compare_lt_iff|apply Z.compare_gt_iff];
      [apply Z.compare_eq_iff|..]; nia.
  - symmetry. apply Z.compare_lt_iff, digits_lt_lt; lia.
  - symmetry. apply Z.compare_gt_iff, digits_lt_lt; lia.
Qed.

Lemma f64_ge_int a b : 0 ≤ a < 2 ^ 53 → 0 ≤ b < 2 ^ 53 →
  f64_ge (int_float a) (int_float b) = (b <=? a).
Proof.
  intros Ha Hb. unfold f64_ge, SFleb. rewrite compare_int_float by done.
  unfold Z.leb. by destruct (b ?= a).
Qed.

Lemma f64_min_int a b : 0 ≤ a < 2 ^ 53 → 0 ≤ b < 2 ^ 53 →
  f64_min (int_float a) (int_float b) = int_float (Z.min a b).
Proof.
  intros Ha Hb. unfold f64_min, SFltb.
  assert (∀ n, f64_is_nan (int_float n) = false) as Hnan by (by intros []).
  rewrite !Hnan, compare_int_float by done.
  destruct (Z.compare_spec b a); f_equal; lia.
Qed.

(** ** A quotient by 100 and its ceiling *)

Lemma round_nearest_even_bounds m l :
  m ≤ round_nearest_even m l ≤ m + 1 ∧ (l = loc_Exact → round_nearest_even m l = m).
Proof. destruct l as [|[]]; simpl; try destruct (Z.even m); repeat split; lia || done. Qed.

(** The first rounding step of a mantissa of 53 or 54 bits. *)
Lemma round_step mx t lx : 2 ^ 52 ≤ mx < 2 ^ 54 → t ≤ 1000 →
  ∃ m k, 0 ≤ k ≤ 1 ∧ 2 ^ 52 ≤ m ≤ 2 ^ 53 ∧ mx / 2 ^ k ≤ m ≤ mx / 2 ^ k + 1 ∧
    (lx = loc_Exact → mx mod 2 ^ k = 0 → m = mx / 2 ^ k) ∧
    (let '(mrs, e) := shr_fexp 53 1024 mx (- t) lx in
     (round_nearest_even (shr_m mrs) (loc_of_shr_record mrs), e)) = (m, - t + k).
Proof.
  intros Hmx Ht. unfold shr_fexp. rewrite Zdigits2_digits by lia.
  assert (shr_m (shr_record_of_loc mx lx) = mx) as Hrec by (by destruct lx as [|[]]).
  destruct (decide (mx < 2 ^ 53)) as [Hsmall|Hbig].
  - rewrite (digits_eq mx 53), fexp64_eq by lia.
    replace (53 + - t - 53 - - t) with 0 by lia. cbn [shr].
    destruct (round_nearest_even_bounds mx lx) as [Hb He].
    exists (round_nearest_even mx lx), 0. rewrite Z.pow_0_r, Z.div_1_r, Z.add_0_r, Hrec.
    split_and!; try lia; [auto|]. do 2 f_equal. by destruct lx as [|[]].
  - rewrite (digits_eq mx 54), fexp64_eq by lia.
    replace (54 + - t - 53 - - t) with 1 by lia. cbn [shr SpecFloat.iter_pos].
    set (mrs := shr_1 _).
    assert (shr_m mrs = mx / 2) as Hm by (unfold mrs; rewrite shr_1_m; rewrite Hrec; lia).
    destruct (round_nearest_even_bounds (shr_m mrs) (loc_of_shr_record mrs)) as [Hb He].
    exists (round_nearest_even (shr_m mrs) (loc_of_shr_record mrs)), 1.
    assert (2 ^ 52 ≤ mx / 2 < 2 ^ 53) by (Z.div_mod_to_equations; lia).
    rewrite Z.pow_1_r, <-Hm in *. split_and!; try lia; try done.
    intros -> Hmod. apply He. subst mrs. cbn [shr_record_of_loc].
    replace mx with (2 * (mx / 2)) by (Z.div_mod_to_equations; lia).
    rewrite shr_1_exact by lia. done.
Qed.

(** The rounded value compares with whole numbers as the exact one does: [lx]
    says whether the exact value is [mx * 2^-t] or lies strictly above it. *)
Lemma round_bounds mx t lx : 2 ^ 52 ≤ mx < 2 ^ 54 → 3 ≤ t ≤ 1000 →
  ∃ M E, binary_round_aux 53 1024 false mx (- t) lx = S754_finite false M E ∧ E < 0 ∧
    ∀ c, (c * 2 ^ t + 4 ≤ mx → c * 2 ^ (- E) < Zpos M) ∧
         (c * 2 ^ t ≤ mx → c * 2 ^ (- E) ≤ Zpos M) ∧
         (mx < c * 2 ^ t ∨ (mx = c * 2 ^ t ∧ lx = loc_Exact) → Zpos M ≤ c * 2 ^ (- E)).
Proof.
  intros Hmx Ht. destruct (round_step mx t lx Hmx ltac:(lia)) as (m & k & Hk & Hm & Hb & Hex & Heq).
  unfold binary_round_aux. destruct (shr_fexp 53 1024 mx (- t) lx) as [mrs e]. simplify_eq.
  assert (∀ c, (c * 2 ^ t + 4 ≤ mx → c * 2 ^ (t - k) < round_nearest_even (shr_m mrs) (loc_of_shr_record mrs)) ∧
         (c * 2 ^ t ≤ mx → c * 2 ^ (t - k) ≤ round_nearest_even (shr_m mrs) (loc_of_shr_record mrs)) ∧
         (mx < c * 2 ^ t ∨ (mx = c * 2 ^ t ∧ lx = loc_Exact) →
            round_nearest_even (shr_m mrs) (loc_of_shr_record mrs) ≤ c * 2 ^ (t - k))) as Hc.
  { intros c. assert (2 ^ t = 2 ^ (t - k) * 2 ^ k) as Hpow by (rewrite <-Z.pow_add_r; [f_equal|..]; lia).
    assert (k = 0 ∨ k = 1) as [->| ->] by lia; rewrite ?Z.pow_0_r, ?Z.pow_1_r, ?Z.div_1_r in *; rewrite Hpow;
      split_and!; intros; try (Z.div_mod_to_equations; nia).
    - destruct H as [?|[? ->]]; [nia|]. rewrite Hex; [nia|done|apply Z.mod_1_r].
    - destruct H as [?|[-> ->]]; [Z.div_mod_to_equations; nia|].
      rewrite Hex; [|done|rewrite Z.mul_assoc; apply Z.mod_mul; lia].
      rewrite Z.mul_assoc, Z.div_mul by lia. lia. }
  set (m := round_nearest_even _ _) in *. clearbody m. clear Hb Hex mrs.
  destruct (decide (m = 2 ^ 53)) as [->|].
  - exists (Z.to_pos (2 ^ 52)), (- t + k + 1).
    rewrite (shr_fexp_exact (2 ^ 52) 1); [|done|done|change (digits (2^52)) with 53; lia|].
    2: { change (digits (2 ^ 52)) with 53. rewrite fexp64_eq; lia. }
    cbn [shr_m Z.pow]. rewrite (proj2 (Z.leb_le _ _)) by lia. split_and!; [done|lia|].
    intros c. destruct (Hc c) as (H1 & H2 & H3).
    replace (t - k) with (- (- t + k + 1) + 1) in H1, H2, H3 by lia.
    rewrite Z.pow_add_r in H1, H2, H3 by lia.
    change (Zpos (Z.to_pos (2 ^ 52))) with (2 ^ 52). split_and!; intros HH;
      [specialize (H1 HH)|specialize (H2 HH)|specialize (H3 HH)]; lia.
  - exists (Z.to_pos m), (- t + k).
    rewrite shr_fexp_id by (lia || apply digits_eq; lia). cbn [shr_m].
    destruct m as [|p|p]; try lia.
    rewrite (proj2 (Z.leb_le _ _)) by lia. split_and!; [f_equal; lia|lia|].
    intros c. replace (- (- t + k)) with (t - k) by lia. apply Hc.
Qed.

Lemma f64_to_usize_int n : 0 ≤ n < 2 ^ 53 → f64_to_usize (int_float n) = n.
Proof.
  intros Hn. destruct (decide (n = 0)) as [->|]; [done|].
  pose proof (digits_le n 53 ltac:(lia)). pose proof (digits_pos n ltac:(lia)).
  destruct (normal_mantissa n ltac:(lia)) as [Hm _].
  rewrite int_float_pos by lia. unfold f64_to_usize. rewrite Z2Pos.id by done.
  destruct (0 <=? digits n - 53) eqn:He.
  - replace (digits n) with 53 by lia. rewrite Z.sub_diag, Z.pow_0_r. lia.
  - replace (- (digits n - 53)) with (53 - digits n) by lia. rewrite Z.div_mul; lia.
Qed.

(** The ceiling of a number caught between two consecutive whole numbers. *)
Lemma f64_ceil_between M E c : E < 0 → 0 ≤ c < 2 ^ 53 →
  (c - 1) * 2 ^ (- E) < Zpos M ≤ c * 2 ^ (- E) →
  f64_ceil (S754_finite false M E) = int_float c.
Proof.
  intros HE Hc HM. unfold f64_ceil. rewrite (proj2 (Z.leb_gt _ _)) by lia.
  rewrite <-f64_of_Z_int by done. f_equal.
  assert (- Zpos M / 2 ^ (- E) = - c); [|lia].
  symmetry. apply Z.div_unique with (c * 2 ^ (- E) - Zpos M); [left|]; nia.
Qed.

(** The quotient of the canonical mantissas is the quotient of the numbers, in
    units of [2^-t] with [t = 60 - digits n]. *)
Lemma f64_div_100 n : 0 < n < 2 ^ 51 →
  f64_div (int_float n) (int_float 100)
  = binary_round_aux 53 1024 false (n * 2 ^ (60 - digits n) / 100) (- (60 - digits n))
      (new_location (100 * 2 ^ 46) (n * 2 ^ (60 - digits n) mod 100 * 2 ^ 46)).
Proof.
  intros Hn. pose proof (digits_le n 51 Hn). pose proof (digits_pos n ltac:(lia)).
  destruct (normal_mantissa n ltac:(lia)) as [Hm Hd].
  rewrite (int_float_pos n) by lia. change (int_float 100) with (S754_finite false (Z.to_pos (100 * 2 ^ 46)) (-46)).
  unfold f64_div, SFdiv, SFdiv_core_binary. rewrite !Z2Pos.id by lia.
  rewrite !Zdigits2_digits, Hd by lia. change (digits (100 * 2 ^ 46)) with 53.
  rewrite fexp64_eq by lia.
  replace (Z.min _ _) with (- (60 - digits n)) by lia.
  replace (digits n - 53 - -46 - - (60 - digits n)) with 53 by lia.
  rewrite Z.shiftl_mul_pow2 by lia.
  replace (n * 2 ^ (53 - digits n) * 2 ^ 53) with (n * 2 ^ (60 - digits n) * 2 ^ 46)
    by (rewrite <-!Z.mul_assoc, <-!Z.pow_add_r by lia; do 2 f_equal; lia).
  pose proof (Z.div_mul_cancel_r (n * 2 ^ (60 - digits n)) 100 (2 ^ 46)) as Hq.
  pose proof (Z.mul_mod_distr_r (n * 2 ^ (60 - digits n)) 100 (2 ^ 46)) as Hr.
  unfold Z.div, Z.modulo in Hq, Hr |- *.
  destruct (Z.div_eucl (n * 2 ^ (60 - digits n) * 2 ^ 46) _) as [q r].
  rewrite Hq, Hr by lia. done.
Qed.

(** [(n as f64 / 100.0).ceil() as usize] is the exact ceiling. *)
Lemma ceil_div_100 n : 0 ≤ n < 2 ^ 51 →
  f64_to_usize (f64_ceil (f64_div (int_float n) (int_float 100))) = (n + 99) / 100.
Proof.
  intros Hn. destruct (decide (n = 0)) as [->|]; [done|].
  pose proof (digits_le n 51 ltac:(lia)). pose proof (digits_pos n ltac:(lia)).
  pose proof (digits_spec n ltac:(lia)) as Hs.
  rewrite f64_div_100 by lia. set (t := 60 - digits n).
  assert (2 ^ 59 ≤ n * 2 ^ t < 2 ^ 60) as Hnt.
  { replace (2 ^ 59) with (2 ^ (digits n - 1) * 2 ^ t) by (rewrite <-Z.pow_add_r; [f_equal|..]; lia).
    replace (2 ^ 60) with (2 ^ digits n * 2 ^ t) by (rewrite <-Z.pow_add_r; [f_equal|..]; lia).
    nia. }
  assert (2 ^ 9 ≤ 2 ^ t) as Ht by (apply Z.pow_le_mono_r; lia).
  destruct (round_bounds (n * 2 ^ t / 100) t
              (new_location (100 * 2 ^ 46) (n * 2 ^ t mod 100 * 2 ^ 46)))
    as (M & E & -> & HE & HM); [Z.div_mod_to_equations; lia|lia|].
  destruct (HM ((n + 99) / 100 - 1)) as [Hlo _]. destruct (HM ((n + 99) / 100)) as (_ & _ & Hhi).
  rewrite (f64_ceil_between M E ((n + 99) / 100)); [|lia|Z.div_mod_to_equations; lia|].
  - apply f64_to_usize_int. Z.div_mod_to_equations; lia.
  - set (c := (n + 99) / 100) in *. assert (100 * (c - 1) + 1 ≤ n ≤ 100 * c)
      by (unfold c; Z.div_mod_to_equations; lia).
    split; [apply Hlo | apply Hhi].
    + Z.div_mod_to_equations; nia.
    + destruct (decide (n = 100 * c)) as [Heq|].
      * right. replace (n * 2 ^ t) with (c * 2 ^ t * 100) by lia.
        rewrite Z.div_mul, Z.mod_mul by lia. done.
      * left. Z.div_mod_to_equations; nia.
Qed.

Lemma as_secs_f64_whole s : 0 ≤ s < 2 ^ 53 → as_secs_f64 (from_secs s) = int_float s.
Proof.
  intros Hs. unfold as_secs_f64, from_secs. rewrite Z.div_mul, Z.mod_mul by done.
  rewrite f64_of_Z_int by done. by destruct s.
Qed.

(** [f64::min] never exceeds its second operand. *)
Lemma f64_min_le_r x y : f64_gt (f64_min x y) y = false.
Proof.
  unfold f64_gt, f64_min. destruct (f64_is_nan x) eqn:Hx.
  - unfold SFltb. destruct y as [[]|[]| |[] m e]; simpl; try done;
      rewrite Z.compare_refl; by rewrite ?Pos.compare_cont_refl.
  - destruct (f64_is_nan y) eqn:Hy; [by destruct y, x|].
    destruct (SFltb y x) eqn:Hlt; [|done].
    unfold SFltb. destruct y as [[]|[]| |[] m e]; simpl; try done;
      rewrite Z.compare_refl; by rewrite ?Pos.compare_cont_refl.
Qed.
