(* ===== verification/Prog.v ===== *)
(** Prog: programs as finite trees of effects.

    A value of [prog E A] is a Rust computation that returns an [A], panics, or
    performs an effect of [E] and continues with its answer.  Each effect is one
    atomic action on shared state or one suspension point, so the same program
    has two readings: [run] executes it alone against a handler, and [steps]
    lets the environment answer every effect as it likes, which is what a
    program interleaved with others sees.

    [safe I p Φ tr] is a unary program logic over the second reading: whatever
    the answers, the invariant [I] holds of the trace of effects at every point
    and [Φ] of the trace and the value at the end. *)

From S2P Require Import Prelude.

Inductive prog (E : Type → Type) (A : Type) : Type :=
| Ret (a : A)
| Panic
| Vis (X : Type) (e : E X) (k : X → prog E A).
Arguments Ret {E A} _.
Arguments Panic {E A}.
Arguments Vis {E A X} _ _.

Fixpoint prog_bind {E A B} (f : A → prog E B) (p : prog E A) : prog E B :=
  match p with
  | Ret a => f a
  | Panic => Panic
  | Vis e k => Vis e (λ x, prog_bind f (k x))
  end.

#[global] Instance prog_ret E : MRet (prog E) := @Ret E.
#[global] Instance prog_mbind E : MBind (prog E) := @prog_bind E.

(** One effect. *)
Definition trigger {E X} (e : E X) : prog E X := Vis e Ret.

(** A pure computation that may panic. *)
Definition lift {E A} (o : outcome A) : prog E A :=
  match o with Value a => Ret a | Panicked => Panic end.

(** Renames the effects. *)
Fixpoint translate {E F A} (h : ∀ X, E X → F X) (p : prog E A) : prog F A :=
  match p with
  | Ret a => Ret a
  | Panic => Panic
  | Vis e k => Vis (h _ e) (λ x, translate h (k x))
  end.

(** ** Running alone *)
Section run.
Context {E : Type → Type} {S : Type} (handle : ∀ X, E X → S → S * outcome X).

Fixpoint run {A} (p : prog E A) (s : S) : S * outcome A :=
  match p with
  | Ret a => (s, Value a)
  | Panic => (s, Panicked)
  | Vis e k =>
      let '(s', o) := handle _ e s in
      match o with Value x => run (k x) s' | Panicked => (s', Panicked) end
  end.

Lemma run_bind {A B} (p : prog E A) (f : A → prog E B) s :
  run (p ≫= f) s =
  let '(s', o) := run p s in
  match o with Value a => run (f a) s' | Panicked => (s', Panicked) end.
Proof.
  unfold mbind, prog_mbind. revert s.
  induction p as [a| |X e k IH]; intros s; simpl; [done|done|].
  destruct (handle X e s) as [s' [x|]]; [apply IH|done].
Qed.

Lemma run_bind_value {A B} (p : prog E A) (f : A → prog E B) s s' a :
  run p s = (s', Value a) → run (p ≫= f) s = run (f a) s'.
Proof. intros Hp. by rewrite run_bind, Hp. Qed.
End run.

(** ** Running against any environment *)
Section steps.
Context {E : Type → Type}.

(** An effect and its answer. *)
Inductive obs : Type := Obs (X : Type) (e : E X) (x : X).
Arguments Obs {X} _ _.

(** [ok e x]: [x] is an answer the environment may give to [e]. *)
Context (ok : ∀ X, E X → X → Prop).
Arguments ok {X} _ _.

Inductive steps {A} : prog E A → list obs → prog E A → Prop :=
| steps_nil p : steps p [] p
| steps_cons X (e : E X) k x tr p' :
    ok e x → steps (k x) tr p' → steps (Vis e k) (Obs e x :: tr) p'.

Lemma steps_inv {A} (p q : prog E A) tr : steps p tr q →
  tr = [] ∧ q = p ∨
  match p with
  | Vis e k => ∃ x tr', tr = Obs e x :: tr' ∧ ok e x ∧ steps (k x) tr' q
  | _ => False
  end.
Proof. destruct 1; [by left|right; eauto 10]. Qed.

(** A step towards a value. *)
Lemma steps_vis_ret {A X} (e : E X) (k : X → prog E A) tr a :
  steps (Vis e k) tr (Ret a) → ∃ x tr', tr = Obs e x :: tr' ∧ ok e x ∧ steps (k x) tr' (Ret a).
Proof. intros [[_ ?]|?]%steps_inv; [done|done]. Qed.

Lemma steps_app {A} (p q q' : prog E A) tr tr' :
  steps p tr q → steps q tr' q' → steps p (tr ++ tr') q'.
Proof. induction 1; simpl; [done|]. intros. constructor; auto. Qed.

Lemma steps_ret_inv {A} (a : A) tr q : steps (Ret a) tr q → tr = [] ∧ q = Ret a.
Proof. by intros [|[]]%steps_inv. Qed.

Lemma steps_bind {A B} (p q : prog E A) (f : A → prog E B) tr :
  steps p tr q → steps (p ≫= f) tr (q ≫= f).
Proof. induction 1; [constructor|]. by constructor. Qed.

(** A run of a sequence is a run of its first part, cut or followed by one of
    the second. *)
Lemma steps_bind_inv {A B} (p : prog E A) (f : A → prog E B) tr q :
  steps (p ≫= f) tr q →
  (∃ p', steps p tr p' ∧ q = p' ≫= f) ∨
  ∃ a tr1 tr2, tr = tr1 ++ tr2 ∧ steps p tr1 (Ret a) ∧ steps (f a) tr2 q.
Proof.
  revert tr. induction p as [a| |X e k IH]; intros tr Hs.
  - right. exists a, [], tr. by repeat constructor.
  - left. exists Panic. apply steps_inv in Hs as [[-> ->]|[]]. split; [constructor|done].
  - apply steps_inv in Hs as [[-> ->]|(x & tr' & -> & Hok & Hs)].
    { left. exists (Vis e k). split; [constructor|done]. }
    destruct (IH x tr' Hs) as [(p' & Hp' & ->)|(a & tr1 & tr2 & -> & H1 & H2)].
    + left. exists p'. split; [by constructor|done].
    + right. exists a, (Obs e x :: tr1), tr2. split_and!; [done|by constructor|done].
Qed.

(** A complete run of a sequence splits. *)
Lemma steps_bind_ret {A B} (p : prog E A) (f : A → prog E B) tr b :
  steps (p ≫= f) tr (Ret b) →
  ∃ a tr1 tr2, tr = tr1 ++ tr2 ∧ steps p tr1 (Ret a) ∧ steps (f a) tr2 (Ret b).
Proof.
  intros [(p' & Hp & Hq)|?]%steps_bind_inv; [|done].
  destruct p' as [a| |X e k]; try discriminate. exists a, tr, [].
  rewrite app_nil_r. split_and!; [done|done|]. simpl in Hq. rewrite Hq. constructor.
Qed.

Lemma steps_snoc {A} (p : prog E A) tr X (e : E X) k x :
  steps p tr (Vis e k) → ok e x → steps p (tr ++ [Obs e x]) (k x).
Proof.
  remember (Vis e k) as q eqn:Hq. intros Hs Hok. revert Hq.
  induction Hs as [p|Y e' k' y tr p' Hok' Hs IH]; intros ->; simpl.
  - by repeat constructor.
  - constructor; [done|]. by apply IH.
Qed.

Fixpoint safe (I : list obs → Prop) {A} (p : prog E A)
    (Φ : list obs → A → Prop) (tr : list obs) : Prop :=
  I tr ∧
  match p with
  | Ret a => Φ tr a
  | Panic => True
  | Vis e k => ∀ x, ok e x → safe I (k x) Φ (tr ++ [Obs e x])
  end.

Context (I : list obs → Prop).

Lemma safe_inv {A} (p : prog E A) Φ tr : safe I p Φ tr → I tr.
Proof. by destruct p; intros [? ?]. Qed.

Lemma safe_ret {A} (a : A) Φ tr : I tr → Φ tr a → safe I (Ret a) Φ tr.
Proof. done. Qed.

Lemma safe_panic {A} (Φ : _ → A → Prop) tr : I tr → safe I Panic Φ tr.
Proof. done. Qed.

Lemma safe_lift {A} (o : outcome A) Φ tr :
  I tr → (∀ a, o = Value a → Φ tr a) → safe I (lift o) Φ tr.
Proof. intros ? HΦ. destruct o; simpl; auto. Qed.

Lemma safe_vis {A X} (e : E X) (k : X → prog E A) Φ tr :
  I tr → (∀ x, ok e x → safe I (k x) Φ (tr ++ [Obs e x])) → safe I (Vis e k) Φ tr.
Proof. done. Qed.

Lemma safe_bind {A B} (p : prog E A) (f : A → prog E B) Φ tr :
  safe I p (λ tr a, safe I (f a) Φ tr) tr → safe I (p ≫= f) Φ tr.
Proof.
  unfold mbind, prog_mbind. revert tr.
  induction p as [a| |X e k IH]; intros tr [Hi Hp]; simpl in *; [done|done|].
  split; [done|]. intros x Hx. by apply IH, Hp.
Qed.

Lemma safe_trigger {X} (e : E X) Φ tr :
  I tr → (∀ x, ok e x → I (tr ++ [Obs e x]) ∧ Φ (tr ++ [Obs e x]) x) →
  safe I (trigger e) Φ tr.
Proof. intros Hi HΦ. split; [done|]. intros x Hx. by apply HΦ. Qed.

Lemma safe_mono {A} (p : prog E A) (Φ Φ' : list obs → A → Prop) tr :
  safe I p Φ tr → (∀ tr a, Φ tr a → Φ' tr a) → safe I p Φ' tr.
Proof.
  intros Hp HΦ. revert tr Hp. induction p as [a| |X e k IH]; intros tr [Hi Hp]; simpl in *;
    split; auto.
Qed.

(** Whatever the environment answered, the invariant holds and the rest of
    the program is still safe. *)
Lemma safe_steps {A} (p p' : prog E A) Φ tr0 tr :
  safe I p Φ tr0 → steps p tr p' → safe I p' Φ (tr0 ++ tr).
Proof.
  intros Hsafe Hs. revert tr0 Hsafe.
  induction Hs as [p|X e k x tr p' Hok Hs IH]; intros tr0 Hsafe.
  - by rewrite app_nil_r.
  - destruct Hsafe as [_ Hk]. specialize (IH _ (Hk x Hok)).
    by rewrite <-app_assoc in IH.
Qed.
End steps.
Arguments obs : clear implicits.
Arguments Obs {E X} _ _.

(** More answers allow more runs. *)
Lemma steps_weaken {E} (ok ok' : ∀ X, E X → X → Prop) {A} (p q : prog E A) tr :
  (∀ X (e : E X) x, ok X e x → ok' X e x) → steps ok p tr q → steps ok' p tr q.
Proof. intros Hok. induction 1; constructor; auto. Qed.

(** ** Playing a program against a table of answers *)
Section play.
Context {E : Type → Type} (ok : ∀ X, E X → X → Prop) (ans : ∀ X, nat → E X → X).

(** The trace and the outcome when the [n]-th effect is answered by [ans n]. *)
Fixpoint play {A} (n : nat) (p : prog E A) : list (obs E) * outcome A :=
  match p with
  | Ret a => ([], Value a)
  | Panic => ([], Panicked)
  | Vis e k =>
      let x := ans _ n e in
      let '(tr, o) := play (S n) (k x) in
      (Obs e x :: tr, o)
  end.

Fixpoint answers_ok (tr : list (obs E)) : Prop :=
  match tr with
  | [] => True
  | Obs e x :: tr' => ok _ e x ∧ answers_ok tr'
  end.

Lemma play_steps {A} (p : prog E A) n a :
  answers_ok (play n p).1 → (play n p).2 = Value a → steps ok p (play n p).1 (Ret a).
Proof.
  revert n. induction p as [b| |X e k IH]; intros n; simpl; [|done|].
  - intros _ [= ->]. constructor.
  - specialize (IH (ans X n e) (S n)). destruct (play (S n) (k (ans X n e))) as [tr o].
    simpl in *. intros [Hok Htr] Ho. constructor; [done|by apply IH].
Qed.

(** The value of a closed run is compared with [true] only, which keeps its
    normal form out of the proof. *)
Lemma play_value_steps {A} (p : prog E A) n d :
  answers_ok (play n p).1 → is_value (play n p).2 = true →
  steps ok p (play n p).1 (Ret (value_or d (play n p).2)).
Proof. intros Hok Hv. apply play_steps; [done|]. by apply is_value_or. Qed.
End play.

(** ** Results

    [returns ok p Ψ]: whatever valid answers [p] gets, a value it returns
    satisfies [Ψ]. *)
Section returns.
Context {E : Type → Type} (ok : ∀ X, E X → X → Prop).

Fixpoint returns {A} (p : prog E A) (Ψ : A → Prop) : Prop :=
  match p with
  | Ret a => Ψ a
  | Panic => True
  | Vis e k => ∀ x, ok _ e x → returns (k x) Ψ
  end.

Lemma returns_bind {A B} (p : prog E A) (f : A → prog E B) Ψ :
  returns p (λ a, returns (f a) Ψ) → returns (p ≫= f) Ψ.
Proof. unfold mbind, prog_mbind. induction p as [a| |X e k IH]; simpl; auto. Qed.

Lemma returns_mono {A} (p : prog E A) (Ψ Ψ' : A → Prop) :
  returns p Ψ → (∀ a, Ψ a → Ψ' a) → returns p Ψ'.
Proof. intros Hp HΨ. induction p as [a| |X e k IH]; simpl in *; auto. Qed.

Lemma returns_lift {A} (o : outcome A) Ψ : (∀ a, o = Value a → Ψ a) → returns (lift o) Ψ.
Proof. destruct o; simpl; auto. Qed.

Lemma returns_true {A} (p : prog E A) : returns p (λ _, True).
Proof. induction p as [a| |X e k IH]; simpl; auto. Qed.
End returns.

(** ** Programs that never panic

    [no_panic ok enabled p Ψ]: whatever valid answers it gets, [p] performs only
    enabled effects, does not panic, and returns a value that satisfies [Ψ]. *)
Section no_panic.
Context {E : Type → Type} (ok : ∀ X, E X → X → Prop) (enabled : ∀ X, E X → Prop).

Fixpoint no_panic {A} (p : prog E A) (Ψ : A → Prop) : Prop :=
  match p with
  | Ret a => Ψ a
  | Panic => False
  | Vis e k => enabled _ e ∧ ∀ x, ok _ e x → no_panic (k x) Ψ
  end.

Lemma no_panic_bind {A B} (p : prog E A) (f : A → prog E B) Ψ :
  no_panic p (λ a, no_panic (f a) Ψ) → no_panic (p ≫= f) Ψ.
Proof.
  unfold mbind, prog_mbind.
  induction p as [a| |X e k IH]; simpl; [done|done|].
  intros [He Hk]. split; [done|]. intros x Hx. by apply IH, Hk.
Qed.

Lemma no_panic_mono {A} (p : prog E A) (Ψ Ψ' : A → Prop) :
  no_panic p Ψ → (∀ a, Ψ a → Ψ' a) → no_panic p Ψ'.
Proof.
  intros Hp HΨ. induction p as [a| |X e k IH]; simpl in *; [auto|done|].
  destruct Hp as [He Hk]. split; [done|]. auto.
Qed.

Lemma no_panic_trigger {X} (e : E X) (Ψ : X → Prop) :
  enabled X e → (∀ x, ok X e x → Ψ x) → no_panic (trigger e) Ψ.
Proof. done. Qed.

Lemma no_panic_lift {A} (o : outcome A) (Ψ : A → Prop) :
  (∃ a, o = Value a ∧ Ψ a) → no_panic (lift o) Ψ.
Proof. by intros (a & -> & Ha). Qed.

Lemma no_panic_returns {A} (p : prog E A) (Ψ Ψ' : A → Prop) :
  no_panic p Ψ → returns ok p Ψ' → no_panic p (λ a, Ψ a ∧ Ψ' a).
Proof.
  induction p as [a| |X e k IH]; simpl; [done|done|]. intros [He Hk] Hr. split; [done|].
  intros x Hx. auto.
Qed.

Lemma no_panic_steps {A} (p q : prog E A) Ψ tr :
  no_panic p Ψ → steps ok p tr q → no_panic q Ψ.
Proof. intros Hp Hs. induction Hs as [p|X e k x tr p' Hok Hs IH]; [done|]. by apply IH, Hp. Qed.

(** Every effect it performed was enabled. *)
Lemma no_panic_trace {A} (p q : prog E A) Ψ tr :
  no_panic p Ψ → steps ok p tr q → Forall (λ o, match o with Obs e _ => enabled _ e end) tr.
Proof.
  intros Hp Hs. induction Hs as [p|X e k x tr p' Hok Hs IH]; [constructor|]. destruct Hp as [He Hk].
  constructor; [done|]. by apply IH, Hk.
Qed.

(** Where every enabled effect has an answer, it can run to its end. *)
Lemma no_panic_extends (ok' : ∀ X, E X → X → Prop) {A} (p : prog E A) Ψ :
  (∀ X (e : E X), enabled X e → ∃ x, ok' X e x) → (∀ X (e : E X) x, ok' X e x → ok X e x) →
  no_panic p Ψ → ∃ tr a, steps ok' p tr (Ret a).
Proof.
  intros Hans Hok. induction p as [a| |X e k IH]; [by exists [], a; constructor|done|].
  intros [He Hk]. destruct (Hans X e He) as [x Hx]. destruct (IH x (Hk x (Hok X e x Hx))) as (tr & a & Hs).
  exists (Obs e x :: tr), a. by constructor.
Qed.

(** Against a handler that serves every enabled effect, a no_panic program
    returns. *)
Lemma no_panic_run {S} (handle : ∀ X, E X → S → S * outcome X) (Inv : S → Prop) :
  (∀ X (e : E X) s, enabled X e → Inv s →
     ∃ s' x, handle X e s = (s', Value x) ∧ ok X e x ∧ Inv s') →
  ∀ A (p : prog E A) Ψ s, no_panic p Ψ → Inv s →
    ∃ s' a, run handle p s = (s', Value a) ∧ Ψ a ∧ Inv s'.
Proof.
  intros Hserve A p Ψ. induction p as [a| |X e k IH]; intros s Hp Hs; simpl in *.
  - eauto.
  - done.
  - destruct Hp as [He Hk]. destruct (Hserve X e s He Hs) as (s' & x & -> & Hx & Hs').
    by apply IH; [apply Hk|].
Qed.
End no_panic.

Lemma no_panic_weaken {E A} (ok : ∀ X, E X → X → Prop) (en en' : ∀ X, E X → Prop) (p : prog E A) Ψ :
  (∀ X e, en X e → en' X e) → no_panic ok en p Ψ → no_panic ok en' p Ψ.
Proof.
  intros Hen. induction p as [a| |X e k IH]; simpl; [done..|]. intros [He Hk]. split; [auto|].
  intros x Hx. auto.
Qed.

(** ** Monitors

    A monitor watches a trace: from a state it takes an observation to a next
    state, or objects.  [monitored m p Φ]: whatever answers [p] gets, a monitor
    that starts in [m] never objects, and [Φ] holds of its state and the value
    at the end. *)
Section monitor.
Context {E : Type → Type} {M : Type} (watch : M → obs E → option M).

Fixpoint observe (m : M) (tr : list (obs E)) : option M :=
  match tr with
  | [] => Some m
  | o :: tr' => m' ← watch m o; observe m' tr'
  end.

Fixpoint monitored {A} (m : M) (p : prog E A) (Φ : M → A → Prop) : Prop :=
  match p with
  | Ret a => Φ m a
  | Panic => True
  | Vis e k => ∀ x, match watch m (Obs e x) with Some m' => monitored m' (k x) Φ | None => False end
  end.

Lemma monitored_mono {A} m (p : prog E A) (Φ Φ' : M → A → Prop) :
  monitored m p Φ → (∀ m a, Φ m a → Φ' m a) → monitored m p Φ'.
Proof.
  intros Hp HΦ. revert m Hp. induction p as [a| |X e k IH]; intros m Hp; simpl in *; [auto|done|].
  intros x. specialize (Hp x). destruct (watch m (Obs e x)); [eauto|done].
Qed.

Lemma monitored_bind {A B} m (p : prog E A) (f : A → prog E B) Φ :
  monitored m p (λ m a, monitored m (f a) Φ) → monitored m (p ≫= f) Φ.
Proof.
  unfold mbind, prog_mbind. revert m. induction p as [a| |X e k IH]; intros m Hp; simpl in *; [done|done|].
  intros x. specialize (Hp x). destruct (watch m (Obs e x)); [by apply IH|done].
Qed.

Lemma monitored_lift {A} m (o : outcome A) (Φ : M → A → Prop) :
  (∀ a, o = Value a → Φ m a) → monitored m (lift o) Φ.
Proof. destruct o; simpl; auto. Qed.

Lemma monitored_steps {A} ok m (p q : prog E A) tr Φ : monitored m p Φ → steps ok p tr q →
  ∃ m', observe m tr = Some m' ∧ monitored m' q Φ.
Proof.
  intros Hp Hs. revert m Hp. induction Hs as [p|X e k x tr p' Hok Hs IH]; intros m Hp; [by exists m|].
  specialize (Hp x). simpl. destruct (watch m (Obs e x)) as [m'|]; [|done]. by apply IH.
Qed.
End monitor.

