(* ===== verification/SipHash.v ===== *)
(** SipHash: [std::collections::hash_map::DefaultHasher].

    [DefaultHasher::new()] is SipHash-1-3 with two zero keys, and hashing a
    [str] feeds it the bytes followed by [0xff].  The standard library leaves
    the algorithm unspecified, so nothing in the balancer's theorems uses more
    than the range of the digest; the definition makes them executable. *)

From S2P Require Import Prelude.
From Stdlib Require Import Ascii.
Local Open Scope Z_scope.

Record sip_state := Sip { v0 : Z; v1 : Z; v2 : Z; v3 : Z }.

Definition rotl64 (x n : Z) : Z := wrap 64 (Z.lor (Z.shiftl x n) (Z.shiftr x (64 - n))).

Definition sip_round (s : sip_state) : sip_state :=
  let a0 := wrap 64 (v0 s + v1 s) in
  let a2 := wrap 64 (v2 s + v3 s) in
  let a1 := Z.lxor (rotl64 (v1 s) 13) a0 in
  let a3 := Z.lxor (rotl64 (v3 s) 16) a2 in
  let b0 := wrap 64 (rotl64 a0 32 + a3) in
  let b2 := wrap 64 (a2 + a1) in
  Sip b0 (Z.lxor (rotl64 a1 17) b2) (rotl64 b2 32) (Z.lxor (rotl64 a3 21) b0).

Definition sip_init : sip_state :=
  Sip 0x736f6d6570736575 0x646f72616e646f6d 0x6c7967656e657261 0x7465646279746573.

(** Absorbs one 64-bit word: one compression round. *)
Definition sip_absorb (s : sip_state) (m : Z) : sip_state :=
  let s' := sip_round (Sip (v0 s) (v1 s) (v2 s) (Z.lxor (v3 s) m)) in
  Sip (Z.lxor (v0 s') m) (v1 s') (v2 s') (v3 s').

Fixpoint le_word (bs : list Z) : Z :=
  match bs with [] => 0 | b :: bs' => b + 256 * le_word bs' end.

(** Full words first; the last one carries the remaining bytes and the length. *)
Fixpoint sip_blocks (fuel : nat) (total : Z) (bs : list Z) (s : sip_state) : sip_state :=
  match fuel with
  | O => s
  | S fuel' =>
      if decide (8 ≤ length bs)%nat
      then sip_blocks fuel' total (drop 8 bs) (sip_absorb s (le_word (take 8 bs)))
      else sip_absorb s (Z.lor (Z.shiftl (total mod 256) 56) (le_word bs))
  end.

Definition sip_finish (s : sip_state) : Z :=
  let s' := sip_round (sip_round (sip_round
              (Sip (v0 s) (v1 s) (Z.lxor (v2 s) 0xff) (v3 s)))) in
  wrap 64 (Z.lxor (Z.lxor (v0 s') (v1 s')) (Z.lxor (v2 s') (v3 s'))).

(** One block per eight bytes and the final one: the length is fuel enough. *)
Definition siphash13 (bs : list Z) : Z :=
  sip_finish (sip_blocks (S (length bs)) (len bs) bs sip_init).

Definition string_bytes (s : string) : list Z :=
  map (λ c, Z.of_N (N_of_ascii c)) (String.list_ascii_of_string s).

(** [Hash for str], then [finish]. *)
Definition hash_str (s : string) : Z := siphash13 (string_bytes s ++ [0xff]).

Lemma hash_str_range s : in_u64 (hash_str s).
Proof. apply wrap_in_width. lia. Qed.

(** The digest of the empty input. *)
Example siphash13_empty : siphash13 [] = 15130871412783076140.
Proof. reflexivity. Qed.
