(* ===== verification/Config.v ===== *)
(** Config: the configuration structures of [config.rs] and their defaults; how
    they are read from a document is [Deserialize]. *)

From S2P Require Import Prelude Float64.
Local Open Scope Z_scope.

Record RateLimitConfig := mk_rate_limit_config {
  requests_per_second : f64;
  burst_size : Z; (* u32 *)
}.

Record HealthCheckConfig := mk_health_check_config {
  hc_path : string;
  interval_secs : Z; (* u64 *)
  timeout_secs : Z; (* u64 *)
}.

Record ServerConfig := mk_server_config {
  bind : string;
  request_timeout_secs : Z; (* u64 *)
  max_retries : Z; (* usize *)
  failure_threshold : Z; (* u32 *)
  health_cooldown_secs : Z; (* u64 *)
  health_check : option HealthCheckConfig;
  retry_backoff_ms : Z; (* u64 *)
  retry_budget_percent : f64;
  retry_budget_window_secs : Z; (* u64 *)
  metrics_bind : option string;
  overall_timeout_secs : Z; (* u64 *)
  rate_limit : option RateLimitConfig;
  drain_timeout_secs : Z; (* u64 *)
  pool_idle_timeout_secs : Z; (* u64 *)
  pool_max_idle_per_host : Z; (* usize *)
}.

Inductive BalancerStrategy := StRoundRobin | StLeastConnections | StWeightedRoundRobin | StConsistentHash.

#[global] Instance strategy_eq_dec : EqDecision BalancerStrategy.
Proof. solve_decision. Defined.

Record RouteConfig := mk_route_config {
  rc_prefix : string;
  rc_upstream : list string;
  rc_strategy : BalancerStrategy;
  rc_weights : option (list Z); (* u32 *)
}.

Record Config := mk_config {
  server : ServerConfig;
  routes : list RouteConfig;
}.

(** ** Defaults *)

Definition default_failure_threshold : Z := 3.
Definition default_health_cooldown_secs : Z := 30.
Definition default_health_check_path : string := "/health".
Definition default_health_check_interval : Z := 10.
Definition default_health_check_timeout : Z := 3.
Definition default_retry_backoff_ms : Z := 100.
Definition default_retry_budget_percent : f64 := f64_of_Z 20.
Definition default_retry_budget_window_secs : Z := 10.
Definition default_overall_timeout_secs : Z := 30.
Definition default_drain_timeout_secs : Z := 30.
Definition default_pool_idle_timeout_secs : Z := 90.
Definition default_pool_max_idle_per_host : Z := 32.
Definition default_strategy : BalancerStrategy := StRoundRobin.
