(* ===== verification/Deserialize.v ===== *)
(** Deserialize: how the structures of [config.rs] are read from a document,
    following their [#[derive(Deserialize)]] and [#[serde(...)]] attributes.

    A derived deserialiser asks the format for a mapping and matches its keys
    against the field names: a key that occurs twice is an error, an unknown key
    is ignored, and a field without a key takes its [#[serde(default)]], is
    [None] where its type is an [Option], and is an error otherwise.  The format
    is [serde_yaml], whose node type and questions to a node are the class
    [Document]. *)

From S2P Require Import Prelude Float64 Config.
Local Open Scope Z_scope.

(** The questions a deserialiser asks a node; [None] is a type error, except in
    [content], where it is a null. *)
Class Document (Y : Type) := {
  entries : Y → option (list (string * Y)); (* [deserialize_struct] *)
  elements : Y → option (list Y); (* [deserialize_seq] *)
  text : Y → option string; (* [deserialize_string] *)
  variant : Y → option string; (* [deserialize_enum], of a unit variant *)
  unsigned : Y → option Z; (* [deserialize_u64] *)
  float : Y → option f64; (* [deserialize_f64] *)
  content : Y → option Y; (* [deserialize_option] *)
}.

(** ** Fields *)

Inductive Field (Y : Type) := Missing | Present (y : Y) | Duplicated.
Arguments Missing {Y}.
Arguments Present {Y} _.
Arguments Duplicated {Y}.

Section fields.
Context `{Document Y}.

Definition lookup_field (name : string) (kvs : list (string * Y)) : Field Y :=
  match filter (λ kv, kv.1 = name) kvs with
  | [] => Missing
  | [kv] => Present kv.2
  | _ => Duplicated
  end.

Definition required {A} (read : Y → option A) (f : Field Y) : option A :=
  match f with Present y => read y | _ => None end.

(** [#[serde(default = ...)]]. *)
Definition or_default {A} (d : A) (read : Y → option A) (f : Field Y) : option A :=
  match f with Missing => Some d | Present y => read y | Duplicated => None end.

(** A field of type [Option]. *)
Definition optional {A} (read : Y → option A) (f : Field Y) : option (option A) :=
  match f with
  | Missing => Some None
  | Present y => match content y with None => Some None | Some y' => Some <$> read y' end
  | Duplicated => None
  end.

(** Integers of [w] bits; a number out of range is an error. *)
Definition read_uint (w : Z) (y : Y) : option Z :=
  n ← unsigned y; if decide (in_width w n) then Some n else None.

Definition read_vec {A} (read : Y → option A) (y : Y) : option (list A) :=
  elements y ≫= mapM read.

(** ** The structures *)

Definition strategy_name (s : BalancerStrategy) : string :=
  match s with
  | StRoundRobin => "round_robin"
  | StLeastConnections => "least_connections"
  | StWeightedRoundRobin => "weighted_round_robin"
  | StConsistentHash => "consistent_hash"
  end.

(** [#[serde(rename_all = "snake_case")]]. *)
Definition deserialize_strategy (y : Y) : option BalancerStrategy :=
  n ← variant y;
  if decide (n = "round_robin") then Some StRoundRobin
  else if decide (n = "least_connections") then Some StLeastConnections
  else if decide (n = "weighted_round_robin") then Some StWeightedRoundRobin
  else if decide (n = "consistent_hash") then Some StConsistentHash
  else None.

Definition deserialize_rate_limit (y : Y) : option RateLimitConfig :=
  m ← entries y;
  rps ← required float (lookup_field "requests_per_second" m);
  burst ← required (read_uint 32) (lookup_field "burst_size" m);
  Some (mk_rate_limit_config rps burst).

Definition deserialize_health_check (y : Y) : option HealthCheckConfig :=
  m ← entries y;
  path ← or_default default_health_check_path text (lookup_field "path" m);
  interval ← or_default default_health_check_interval (read_uint 64) (lookup_field "interval_secs" m);
  timeout ← or_default default_health_check_timeout (read_uint 64) (lookup_field "timeout_secs" m);
  Some (mk_health_check_config path interval timeout).

Definition deserialize_server (y : Y) : option ServerConfig :=
  m ← entries y;
  bind ← required text (lookup_field "bind" m);
  request_timeout ← required (read_uint 64) (lookup_field "request_timeout_secs" m);
  retries ← required (read_uint 64) (lookup_field "max_retries" m);
  threshold ← or_default default_failure_threshold (read_uint 32) (lookup_field "failure_threshold" m);
  cooldown ← or_default default_health_cooldown_secs (read_uint 64) (lookup_field "health_cooldown_secs" m);
  hc ← optional deserialize_health_check (lookup_field "health_check" m);
  backoff ← or_default default_retry_backoff_ms (read_uint 64) (lookup_field "retry_backoff_ms" m);
  percent ← or_default default_retry_budget_percent float (lookup_field "retry_budget_percent" m);
  budget_window ← or_default default_retry_budget_window_secs (read_uint 64)
                    (lookup_field "retry_budget_window_secs" m);
  mbind ← optional text (lookup_field "metrics_bind" m);
  overall ← or_default default_overall_timeout_secs (read_uint 64) (lookup_field "overall_timeout_secs" m);
  rl ← optional deserialize_rate_limit (lookup_field "rate_limit" m);
  drain ← or_default default_drain_timeout_secs (read_uint 64) (lookup_field "drain_timeout_secs" m);
  idle ← or_default default_pool_idle_timeout_secs (read_uint 64) (lookup_field "pool_idle_timeout_secs" m);
  max_idle ← or_default default_pool_max_idle_per_host (read_uint 64)
               (lookup_field "pool_max_idle_per_host" m);
  Some (mk_server_config bind request_timeout retries threshold cooldown hc backoff percent budget_window
    mbind overall rl drain idle max_idle).

Definition deserialize_route (y : Y) : option RouteConfig :=
  m ← entries y;
  prefix ← required text (lookup_field "prefix" m);
  upstream ← required (read_vec text) (lookup_field "upstream" m);
  strategy ← or_default default_strategy deserialize_strategy (lookup_field "strategy" m);
  weights ← optional (read_vec (read_uint 32)) (lookup_field "weights" m);
  Some (mk_route_config prefix upstream strategy weights).

Definition deserialize_config (y : Y) : option Config :=
  m ← entries y;
  s ← required deserialize_server (lookup_field "server" m);
  rs ← required (read_vec deserialize_route) (lookup_field "routes" m);
  Some (mk_config s rs).
End fields.

Definition field_names : list string :=
  ["server"; "routes"; "bind"; "request_timeout_secs"; "max_retries"; "failure_threshold";
   "health_cooldown_secs"; "health_check"; "retry_backoff_ms"; "retry_budget_percent";
   "retry_budget_window_secs"; "metrics_bind"; "overall_timeout_secs"; "rate_limit";
   "drain_timeout_secs"; "pool_idle_timeout_secs"; "pool_max_idle_per_host"; "requests_per_second";
   "burst_size"; "path"; "interval_secs"; "timeout_secs"; "prefix"; "upstream"; "strategy"; "weights"].

(** ** Widths *)

Definition rate_limit_in_range (rl : RateLimitConfig) : Prop := in_u32 (burst_size rl).

Definition health_check_in_range (hc : HealthCheckConfig) : Prop :=
  in_u64 (interval_secs hc) ∧ in_u64 (timeout_secs hc).

Definition option_all {A} (P : A → Prop) (o : option A) : Prop :=
  match o with Some a => P a | None => True end.

Definition server_in_range (s : ServerConfig) : Prop :=
  in_u64 (request_timeout_secs s) ∧ in_usize (max_retries s) ∧ in_u32 (failure_threshold s) ∧
  in_u64 (health_cooldown_secs s) ∧ option_all health_check_in_range (health_check s) ∧
  in_u64 (retry_backoff_ms s) ∧ in_u64 (retry_budget_window_secs s) ∧ in_u64 (overall_timeout_secs s) ∧
  option_all rate_limit_in_range (rate_limit s) ∧ in_u64 (drain_timeout_secs s) ∧
  in_u64 (pool_idle_timeout_secs s) ∧ in_usize (pool_max_idle_per_host s).

Definition route_in_range (r : RouteConfig) : Prop := option_all (Forall in_u32) (rc_weights r).

Definition config_in_range (c : Config) : Prop :=
  server_in_range (server c) ∧ Forall route_in_range (routes c).

Section types.
Context `{Document Y}.

Lemma read_uint_range w y n : read_uint w y = Some n → in_width w n.
Proof. unfold read_uint. destruct (unsigned y); simpl; [case_decide; by intros [= <-]|done]. Qed.

Lemma required_sat {A} (P : A → Prop) (read : Y → option A) f a :
  (∀ y a, read y = Some a → P a) → required read f = Some a → P a.
Proof. intros Hr. destruct f; simpl; [done|apply Hr|done]. Qed.

Lemma or_default_sat {A} (P : A → Prop) d (read : Y → option A) f a :
  (∀ y a, read y = Some a → P a) → P d → or_default d read f = Some a → P a.
Proof. intros Hr Hd. destruct f; simpl; [by intros [= <-]|apply Hr|done]. Qed.

Lemma optional_sat {A} (P : A → Prop) (read : Y → option A) f o :
  (∀ y a, read y = Some a → P a) → optional read f = Some o → option_all P o.
Proof.
  intros Hr. destruct f as [|y|]; simpl; [by intros [= <-]| |done].
  destruct (content y) as [y'|]; [|by intros [= <-]].
  destruct (read y') eqn:Hy'; simpl; intros [= <-]. by eapply Hr.
Qed.

Lemma read_vec_sat {A} (P : A → Prop) (read : Y → option A) y l :
  (∀ y a, read y = Some a → P a) → read_vec read y = Some l → Forall P l.
Proof.
  intros Hr. unfold read_vec. destruct (elements y) as [ys|]; simpl; [|done].
  intros Hl. apply mapM_Some in Hl. induction Hl; constructor; eauto.
Qed.

Lemma deserialize_rate_limit_range y rl : deserialize_rate_limit y = Some rl → rate_limit_in_range rl.
Proof.
  unfold deserialize_rate_limit. intros Hy. repeat (apply bind_Some in Hy as (? & ? & Hy)). simplify_eq.
  eapply (required_sat in_u32); [apply read_uint_range|eassumption].
Qed.

Lemma deserialize_health_check_range y hc : deserialize_health_check y = Some hc → health_check_in_range hc.
Proof.
  unfold deserialize_health_check. intros Hy. repeat (apply bind_Some in Hy as (? & ? & Hy)). simplify_eq.
  split; simpl; (eapply or_default_sat; [apply read_uint_range| |eassumption]); by split.
Qed.

Lemma deserialize_server_range y s : deserialize_server y = Some s → server_in_range s.
Proof.
  unfold deserialize_server. intros Hy. repeat (apply bind_Some in Hy as (? & ? & Hy)). simplify_eq.
  unfold server_in_range; cbn -[in_width].
  split_and!;
    first [ eapply required_sat; [apply read_uint_range|eassumption]
          | eapply or_default_sat; [apply read_uint_range| |eassumption]; by split
          | eapply optional_sat; [|eassumption];
            [apply deserialize_health_check_range || apply deserialize_rate_limit_range] ].
Qed.

Lemma deserialize_route_range y r : deserialize_route y = Some r → route_in_range r.
Proof.
  unfold deserialize_route. intros Hy. repeat (apply bind_Some in Hy as (? & ? & Hy)). simplify_eq.
  unfold route_in_range. simpl. eapply optional_sat; [|eassumption].
  intros y' l. apply read_vec_sat, read_uint_range.
Qed.

Lemma deserialize_config_range y c : deserialize_config y = Some c → config_in_range c.
Proof.
  unfold deserialize_config. intros Hy. repeat (apply bind_Some in Hy as (? & ? & Hy)). simplify_eq.
  split; simpl.
  - eapply required_sat; [apply deserialize_server_range|eassumption].
  - eapply required_sat; [|eassumption]. intros y' l. apply read_vec_sat, deserialize_route_range.
Qed.

(** ** Integers are read as written

    What a mapping says of a field, without the deserialiser: every node it has
    under the name is the integer [v], which fits the width, and [v] is the
    default, if there is one, when it has none. *)
Definition as_written (w : Z) (default : option Z) (m : list (string * Y)) (name : string) (v : Z) : Prop :=
  (∀ y, (name, y) ∈ m → unsigned y = Some v ∧ in_width w v) ∧
  ((∀ y, (name, y) ∉ m) → default = Some v).

(** The same of a structure in an [Option] field: present, and written so. *)
Definition section_written {A} (P : list (string * Y) → A → Prop) (m : list (string * Y)) (name : string)
    (o : option A) : Prop :=
  ∀ y y' m', (name, y) ∈ m → content y = Some y' → entries y' = Some m' → ∃ a, o = Some a ∧ P m' a.

Definition health_check_written (m : list (string * Y)) (hc : HealthCheckConfig) : Prop :=
  as_written 64 (Some 10) m "interval_secs" (interval_secs hc) ∧
  as_written 64 (Some 3) m "timeout_secs" (timeout_secs hc).

Definition rate_limit_written (m : list (string * Y)) (rl : RateLimitConfig) : Prop :=
  as_written 32 None m "burst_size" (burst_size rl).

Definition server_written (m : list (string * Y)) (s : ServerConfig) : Prop :=
  as_written 64 None m "request_timeout_secs" (request_timeout_secs s) ∧
  as_written 64 None m "max_retries" (max_retries s) ∧
  as_written 32 (Some 3) m "failure_threshold" (failure_threshold s) ∧
  as_written 64 (Some 30) m "health_cooldown_secs" (health_cooldown_secs s) ∧
  section_written health_check_written m "health_check" (health_check s) ∧
  as_written 64 (Some 100) m "retry_backoff_ms" (retry_backoff_ms s) ∧
  as_written 64 (Some 10) m "retry_budget_window_secs" (retry_budget_window_secs s) ∧
  as_written 64 (Some 30) m "overall_timeout_secs" (overall_timeout_secs s) ∧
  section_written rate_limit_written m "rate_limit" (rate_limit s) ∧
  as_written 64 (Some 30) m "drain_timeout_secs" (drain_timeout_secs s) ∧
  as_written 64 (Some 90) m "pool_idle_timeout_secs" (pool_idle_timeout_secs s) ∧
  as_written 64 (Some 32) m "pool_max_idle_per_host" (pool_max_idle_per_host s).

Definition route_written (y : Y) (r : RouteConfig) : Prop :=
  ∀ m wy wy' ws, entries y = Some m → ("weights", wy) ∈ m → content wy = Some wy' → elements wy' = Some ws →
    ∃ l, rc_weights r = Some l ∧ Forall2 (λ w v, unsigned w = Some v ∧ in_u32 v) ws l.

Lemma lookup_field_present name (m : list (string * Y)) y : (name, y) ∈ m →
  lookup_field name m = Present y ∨ lookup_field name m = Duplicated.
Proof.
  intros Hin. unfold lookup_field.
  assert ((name, y) ∈ filter (λ kv, kv.1 = name) m) as Hf by (by apply list_elem_of_filter).
  destruct (filter _ m) as [|kv [|kv' l]]; [by apply elem_of_nil in Hf| |by right].
  apply list_elem_of_singleton in Hf as <-. by left.
Qed.

Lemma lookup_field_missing name (m : list (string * Y)) : (∀ y, (name, y) ∉ m) → lookup_field name m = Missing.
Proof.
  intros Hout. unfold lookup_field. destruct (filter (λ kv, kv.1 = name) m) as [|[n y] l] eqn:Hf; [done|].
  assert ((n, y) ∈ filter (λ kv, kv.1 = name) m) as [Hn Hin]%list_elem_of_filter by (rewrite Hf; left).
  simpl in Hn. subst n. by destruct (Hout y).
Qed.

Lemma read_uint_written w y v : read_uint w y = Some v → unsigned y = Some v ∧ in_width w v.
Proof. unfold read_uint. destruct (unsigned y); simpl; [case_decide; by intros [= <-]|done]. Qed.

Lemma required_written w m name v :
  required (read_uint w) (lookup_field name m) = Some v → as_written w None m name v.
Proof.
  intros Hr. split.
  - intros y Hy. destruct (lookup_field_present name m y Hy) as [Hf|Hf]; rewrite Hf in Hr; [|done].
    by apply read_uint_written.
  - intros Hout. by rewrite lookup_field_missing in Hr.
Qed.

Lemma or_default_written w d m name v :
  or_default d (read_uint w) (lookup_field name m) = Some v → as_written w (Some d) m name v.
Proof.
  intros Hr. split.
  - intros y Hy. destruct (lookup_field_present name m y Hy) as [Hf|Hf]; rewrite Hf in Hr; [|done].
    by apply read_uint_written.
  - intros Hout. by rewrite lookup_field_missing in Hr.
Qed.

Lemma optional_written {A} (read : Y → option A) m name o y y' :
  optional read (lookup_field name m) = Some o → (name, y) ∈ m → content y = Some y' →
  ∃ a, o = Some a ∧ read y' = Some a.
Proof.
  intros Hr Hy Hc. destruct (lookup_field_present name m y Hy) as [Hf|Hf]; rewrite Hf in Hr; [|done].
  simpl in Hr. rewrite Hc in Hr. destruct (read y') as [a|] eqn:Ha; [|done]. injection Hr as <-. by exists a.
Qed.

Lemma section_reads {A} (P : list (string * Y) → A → Prop) (read : Y → option A) m name o :
  (∀ y m a, entries y = Some m → read y = Some a → P m a) →
  optional read (lookup_field name m) = Some o → section_written P m name o.
Proof.
  intros HP Hr y y' m' Hy Hc He. destruct (optional_written _ _ _ _ _ _ Hr Hy Hc) as (a & -> & Ha). eauto.
Qed.

Lemma deserialize_health_check_written y m hc :
  entries y = Some m → deserialize_health_check y = Some hc → health_check_written m hc.
Proof.
  unfold deserialize_health_check. intros He Hy. rewrite He in Hy. cbn [mbind option_bind] in Hy.
  repeat (apply bind_Some in Hy as (? & ? & Hy)). simplify_eq. split; by apply or_default_written.
Qed.

Lemma deserialize_rate_limit_written y m rl :
  entries y = Some m → deserialize_rate_limit y = Some rl → rate_limit_written m rl.
Proof.
  unfold deserialize_rate_limit. intros He Hy. rewrite He in Hy. cbn [mbind option_bind] in Hy.
  repeat (apply bind_Some in Hy as (? & ? & Hy)). simplify_eq. by apply required_written.
Qed.

Lemma deserialize_server_written y m s :
  entries y = Some m → deserialize_server y = Some s → server_written m s.
Proof.
  unfold deserialize_server. intros He Hy. rewrite He in Hy. cbn [mbind option_bind] in Hy.
  repeat (apply bind_Some in Hy as (? & ? & Hy)). simplify_eq. unfold server_written.
  cbn -[as_written section_written]. split_and!;
    first [ by apply required_written | by apply or_default_written
          | by eapply section_reads; [exact deserialize_health_check_written|]
          | by eapply section_reads; [exact deserialize_rate_limit_written|] ].
Qed.

Lemma deserialize_route_written y r : deserialize_route y = Some r → route_written y r.
Proof.
  unfold deserialize_route. intros Hy m wy wy' ws He Hw Hc Hel. rewrite He in Hy. cbn [mbind option_bind] in Hy.
  apply bind_Some in Hy as (p & _ & Hy). apply bind_Some in Hy as (us & _ & Hy).
  apply bind_Some in Hy as (st & _ & Hy). apply bind_Some in Hy as (l & Hl & [= <-]).
  destruct (optional_written _ _ _ _ _ _ Hl Hw Hc) as (vs & -> & Hvs). exists vs. split; [done|].
  unfold read_vec in Hvs. rewrite Hel in Hvs. simpl in Hvs. apply mapM_Some in Hvs.
  eapply Forall2_impl; [exact Hvs|]. intros w v. apply read_uint_written.
Qed.

(** C24. Integers are read as they are written: in a document that is accepted,
    each integer the document has for a field of the configuration fits the
    field's Rust type and is the field's value, unchanged; a field the document
    does not have is its default, and has one.  So a number that a type cannot
    hold is never wrapped: the document is rejected. *)
Theorem integers_as_written (y : Y) (c : Config) (m : list (string * Y)) :
  deserialize_config y = Some c → entries y = Some m →
  config_in_range c ∧
  (∀ sy sm, ("server", sy) ∈ m → entries sy = Some sm → server_written sm (server c)) ∧
  ∀ ry rs, ("routes", ry) ∈ m → elements ry = Some rs → Forall2 route_written rs (routes c).
Proof.
  intros Hy He. split; [by eapply deserialize_config_range|].
  unfold deserialize_config in Hy. rewrite He in Hy. cbn [mbind option_bind] in Hy.
  apply bind_Some in Hy as (s & Hs & Hy). apply bind_Some in Hy as (rcs & Hr & [= <-]). cbn [server routes].
  split.
  - intros sy sm Hin Hsm. destruct (lookup_field_present _ _ _ Hin) as [Hf|Hf]; rewrite Hf in Hs; [|done].
    by eapply deserialize_server_written.
  - intros ry rs Hin Hrs. destruct (lookup_field_present _ _ _ Hin) as [Hf|Hf]; rewrite Hf in Hr; [|done].
    simpl in Hr. unfold read_vec in Hr. rewrite Hrs in Hr. simpl in Hr. apply mapM_Some in Hr.
    eapply Forall2_impl; [exact Hr|]. exact deserialize_route_written.
Qed.
End types.

(** ** Documents that mean the same

    A relation between nodes is a rearrangement when related nodes answer alike,
    up to the order of a mapping's entries and entries no structure has. *)
Section rearrangements.
Context `{Document Y}.

Definition known (kvs : list (string * Y)) : list (string * Y) :=
  filter (λ kv, kv.1 ∈ field_names) kvs.

Definition rearranged (R : Y → Y → Prop) (m m' : list (string * Y)) : Prop :=
  ∃ m1, known m ≡ₚ m1 ∧ Forall2 (prod_relation eq R) m1 (known m').

Definition rearrangement (R : Y → Y → Prop) : Prop :=
  ∀ y y', R y y' →
    option_Forall2 (rearranged R) (entries y) (entries y') ∧
    option_Forall2 (Forall2 R) (elements y) (elements y') ∧
    option_Forall2 R (content y) (content y') ∧
    text y = text y' ∧ variant y = variant y' ∧ unsigned y = unsigned y' ∧ float y = float y'.

Definition field_rel (R : Y → Y → Prop) (f f' : Field Y) : Prop :=
  match f, f' with
  | Missing, Missing | Duplicated, Duplicated => True
  | Present y, Present y' => R y y'
  | _, _ => False
  end.

Lemma lookup_field_known name m : name ∈ field_names → lookup_field name m = lookup_field name (known m).
Proof.
  intros Hn. unfold lookup_field, known. rewrite list_filter_filter_l; [done|]. by intros [k v] <-.
Qed.

Lemma filter_Forall2 (R : Y → Y → Prop) (name : string) m m' :
  Forall2 (prod_relation eq R) m m' →
  Forall2 (prod_relation eq R) (filter (λ kv, kv.1 = name) m) (filter (λ kv, kv.1 = name) m').
Proof.
  induction 1 as [|[k v] [k' v'] m m' [Hk Hv] _ IH]; [constructor|]. simpl in Hk. subst k'.
  rewrite !filter_cons. simpl. case_decide; [by constructor|done].
Qed.

Lemma rearranged_lookup (R : Y → Y → Prop) m m' name :
  rearranged R m m' → name ∈ field_names → field_rel R (lookup_field name m) (lookup_field name m').
Proof.
  intros (m1 & Hp & Hm) Hn. rewrite (lookup_field_known name m Hn), (lookup_field_known name m' Hn).
  apply (filter_Forall2 _ name) in Hm.
  assert (filter (λ kv, kv.1 = name) (known m) ≡ₚ filter (λ kv, kv.1 = name) m1) as Hp' by (by rewrite Hp).
  unfold lookup_field. revert Hm Hp'. generalize (filter (λ kv : string * Y, kv.1 = name) m1) as l1.
  intros l1 Hm Hp'. destruct Hm as [|[k v] [k' v'] l1 l2 [_ Hv] Hm].
  - by apply Permutation_nil_r in Hp' as ->.
  - destruct Hm as [|kv2 kv2' l1 l2 _ _]; [by apply Permutation_singleton_r in Hp' as ->|].
    apply Permutation_length in Hp'. destruct (filter _ (known m)) as [|? [|??]]; done.
Qed.

Section reads.
Context (R : Y → Y → Prop) (HR : rearrangement R).

Definition reads_alike {A} (read : Y → option A) : Prop := ∀ y y', R y y' → read y = read y'.

Lemma scalars_alike : reads_alike text ∧ reads_alike variant ∧ reads_alike unsigned ∧ reads_alike float.
Proof. split_and!; intros y y' Hy; by destruct (HR y y' Hy) as (_ & _ & _ & ? & ? & ? & ?). Qed.

Lemma read_uint_alike w : reads_alike (read_uint w).
Proof. intros y y' Hy. unfold read_uint. by rewrite (proj1 (proj2 (proj2 scalars_alike)) y y' Hy). Qed.

Lemma required_alike {A} (read : Y → option A) f f' :
  reads_alike read → field_rel R f f' → required read f = required read f'.
Proof. intros Hr Hf. destruct f, f'; simpl in *; try done. by apply Hr. Qed.

Lemma or_default_alike {A} (d : A) (read : Y → option A) f f' :
  reads_alike read → field_rel R f f' → or_default d read f = or_default d read f'.
Proof. intros Hr Hf. destruct f, f'; simpl in *; try done. by apply Hr. Qed.

Lemma optional_alike {A} (read : Y → option A) f f' :
  reads_alike read → field_rel R f f' → optional read f = optional read f'.
Proof.
  intros Hr Hf. destruct f as [|y|], f' as [|y'|]; simpl in *; try done.
  destruct (HR y y' Hf) as (_ & _ & Hc & _). destruct Hc as [u u' Hu|]; [|done]. by rewrite (Hr u u' Hu).
Qed.

Lemma read_vec_alike {A} (read : Y → option A) : reads_alike read → reads_alike (read_vec read).
Proof.
  intros Hr y y' Hy. unfold read_vec. destruct (HR y y' Hy) as (_ & He & _).
  destruct He as [l l' Hl|]; [|done]. simpl.
  induction Hl as [|u u' l l' Hu _ IH]; [done|]. simpl. by rewrite (Hr u u' Hu), IH.
Qed.

Lemma entries_alike {A} (f : list (string * Y) → option A) y y' :
  R y y' → (∀ m m', rearranged R m m' → f m = f m') → (entries y ≫= f) = (entries y' ≫= f).
Proof. intros Hy Hf. destruct (HR y y' Hy) as (He & _). destruct He; simpl; auto. Qed.

Ltac field H := apply H; [|apply rearranged_lookup; [assumption|apply (bool_decide_unpack _); vm_compute; exact I]].
Ltac alike :=
  repeat first
    [ apply option_bind_ext; [intros ?|]
    | reflexivity
    | match goal with |- required _ _ = _ => idtac end; field required_alike
    | match goal with |- or_default _ _ _ = _ => idtac end; field or_default_alike
    | match goal with |- optional _ _ = _ => idtac end; field optional_alike
    | apply scalars_alike | apply read_uint_alike | apply read_vec_alike | assumption ].

Lemma rate_limit_alike : reads_alike deserialize_rate_limit.
Proof. intros y y' Hy. apply entries_alike; [done|]. intros m m' Hm. alike. Qed.

Lemma health_check_alike : reads_alike deserialize_health_check.
Proof. intros y y' Hy. apply entries_alike; [done|]. intros m m' Hm. alike. Qed.

Lemma strategy_alike : reads_alike deserialize_strategy.
Proof.
  intros y y' Hy. unfold deserialize_strategy. by rewrite (proj1 (proj2 scalars_alike) y y' Hy).
Qed.

Lemma route_alike : reads_alike deserialize_route.
Proof. intros y y' Hy. apply entries_alike; [done|]. intros m m' Hm. alike. apply strategy_alike. Qed.

Lemma server_alike : reads_alike deserialize_server.
Proof.
  intros y y' Hy. apply entries_alike; [done|]. intros m m' Hm.
  alike; first [apply health_check_alike|apply rate_limit_alike].
Qed.
End reads.

(** C23. The order of the keys of a document and keys the structures do not have
    do not matter: documents that differ in these alone, at any depth, give the
    same configuration or are both rejected. *)
Theorem key_order_irrelevant (R : Y → Y → Prop) (y y' : Y) :
  rearrangement R → R y y' → deserialize_config y = deserialize_config y'.
Proof.
  intros HR Hy. apply (entries_alike R HR); [done|]. intros m m' Hm.
  apply option_bind_ext; [intros s|].
  - apply option_bind_ext; [done|]. apply (required_alike R).
    + by apply (read_vec_alike R HR), route_alike.
    + apply rearranged_lookup; [done|set_solver].
  - apply (required_alike R); [by apply server_alike|]. apply rearranged_lookup; [done|set_solver].
Qed.
End rearrangements.

(** ** Writing a configuration

    Nodes that answer as the values they are written from. *)
Class DocumentWriter (Y : Type) `{Document Y} := {
  mapping : list (string * Y) → Y;
  sequence : list Y → Y;
  string_node : string → Y;
  uint_node : Z → Y;
  float_node : f64 → Y;
}.

Class DocumentWriterLaws (Y : Type) `{DocumentWriter Y} := {
  entries_mapping m : entries (mapping m) = Some m;
  elements_sequence l : elements (sequence l) = Some l;
  text_string s : text (string_node s) = Some s;
  variant_string s : variant (string_node s) = Some s;
  unsigned_uint n : in_u64 n → unsigned (uint_node n) = Some n;
  float_float x : float (float_node x) = Some x;
  content_mapping m : content (mapping m) = Some (mapping m);
  content_sequence l : content (sequence l) = Some (sequence l);
  content_string s : content (string_node s) = Some (string_node s);
}.

Section writing.
Context `{DocumentWriterLaws Y}.

(** The entry of an optional field: none for [None]. *)
Definition optional_entry {A} (name : string) (write : A → Y) (o : option A) : list (string * Y) :=
  match o with Some a => [(name, write a)] | None => [] end.

Definition serialize_rate_limit (rl : RateLimitConfig) : Y :=
  mapping [("requests_per_second", float_node (requests_per_second rl));
           ("burst_size", uint_node (burst_size rl))].

Definition serialize_health_check (hc : HealthCheckConfig) : Y :=
  mapping [("path", string_node (hc_path hc)); ("interval_secs", uint_node (interval_secs hc));
           ("timeout_secs", uint_node (timeout_secs hc))].

Definition serialize_server (s : ServerConfig) : Y :=
  mapping
    ([("bind", string_node (bind s)); ("request_timeout_secs", uint_node (request_timeout_secs s));
      ("max_retries", uint_node (max_retries s)); ("failure_threshold", uint_node (failure_threshold s));
      ("health_cooldown_secs", uint_node (health_cooldown_secs s))] ++
     optional_entry "health_check" serialize_health_check (health_check s) ++
     [("retry_backoff_ms", uint_node (retry_backoff_ms s));
      ("retry_budget_percent", float_node (retry_budget_percent s));
      ("retry_budget_window_secs", uint_node (retry_budget_window_secs s))] ++
     optional_entry "metrics_bind" string_node (metrics_bind s) ++
     [("overall_timeout_secs", uint_node (overall_timeout_secs s))] ++
     optional_entry "rate_limit" serialize_rate_limit (rate_limit s) ++
     [("drain_timeout_secs", uint_node (drain_timeout_secs s));
      ("pool_idle_timeout_secs", uint_node (pool_idle_timeout_secs s));
      ("pool_max_idle_per_host", uint_node (pool_max_idle_per_host s))]).

Definition serialize_route (r : RouteConfig) : Y :=
  mapping
    ([("prefix", string_node (rc_prefix r)); ("upstream", sequence (string_node <$> rc_upstream r));
      ("strategy", string_node (strategy_name (rc_strategy r)))] ++
     optional_entry "weights" (λ ws, sequence (uint_node <$> ws)) (rc_weights r)).

Definition serialize_config (c : Config) : Y :=
  mapping [("server", serialize_server (server c)); ("routes", sequence (serialize_route <$> routes c))].

Lemma read_uint_node w n : 0 ≤ w ≤ 64 → in_width w n → read_uint w (uint_node n) = Some n.
Proof.
  intros Hw Hn. unfold read_uint. rewrite unsigned_uint.
  - simpl. by rewrite decide_True.
  - unfold in_width in *. pose proof (Z.pow_le_mono_r 2 w 64). lia.
Qed.

Lemma read_vec_sequence {A B} (read : Y → option A) (write : B → Y) (out : B → A) l :
  Forall (λ b, read (write b) = Some (out b)) l →
  read_vec read (sequence (write <$> l)) = Some (out <$> l).
Proof.
  intros Hl. unfold read_vec. rewrite elements_sequence. simpl.
  apply mapM_Some, Forall2_fmap, Forall_Forall2_diag, Hl.
Qed.

(** Looks the fields up in the entries that are written. *)
Ltac lookup_fields :=
  rewrite entries_mapping; cbn [option_bind mbind app optional_entry];
  repeat match goal with
  | |- context [lookup_field ?n ?m] =>
      let f := eval cbv -[serialize_health_check serialize_rate_limit serialize_server serialize_route
                          mapping sequence string_node uint_node float_node strategy_name fmap list_fmap]
               in (lookup_field n m) in
      change (lookup_field n m) with f
  end;
  cbn [required or_default optional].

Lemma deserialize_rate_limit_node rl :
  rate_limit_in_range rl → deserialize_rate_limit (serialize_rate_limit rl) = Some rl.
Proof.
  intros Hrl. destruct rl as [rps burst]. unfold rate_limit_in_range in Hrl. cbn [burst_size] in Hrl.
  unfold deserialize_rate_limit, serialize_rate_limit. lookup_fields.
  by rewrite float_float, read_uint_node.
Qed.

Lemma deserialize_health_check_node hc :
  health_check_in_range hc → deserialize_health_check (serialize_health_check hc) = Some hc.
Proof.
  intros [Hi Ht]. destruct hc as [path i t]. cbn [interval_secs timeout_secs] in *.
  unfold deserialize_health_check, serialize_health_check. lookup_fields.
  by rewrite text_string, !read_uint_node.
Qed.

Lemma deserialize_strategy_node s : deserialize_strategy (string_node (strategy_name s)) = Some s.
Proof. unfold deserialize_strategy. rewrite variant_string. by destruct s. Qed.

Lemma deserialize_route_node r : route_in_range r → deserialize_route (serialize_route r) = Some r.
Proof.
  intros Hr. destruct r as [p us s ws]. unfold route_in_range in Hr. cbn [rc_weights] in Hr.
  unfold deserialize_route, serialize_route.
  assert (read_vec text (sequence (string_node <$> us)) = Some us) as Hus.
  { rewrite (read_vec_sequence _ _ id), list_fmap_id; [done|].
    apply Forall_forall. intros u _. apply text_string. }
  destruct ws as [ws|]; cbn [rc_weights rc_upstream rc_strategy rc_prefix]; lookup_fields;
    rewrite text_string; cbn [option_bind mbind];
    rewrite Hus; cbn [option_bind mbind];
    rewrite deserialize_strategy_node; cbn [option_bind mbind]; [|done].
  rewrite content_sequence, (read_vec_sequence _ _ id), list_fmap_id; [done|].
  eapply Forall_impl; [exact Hr|]. intros w Hw. by apply read_uint_node.
Qed.

Lemma content_health_check hc : content (serialize_health_check hc) = Some (serialize_health_check hc).
Proof. apply content_mapping. Qed.

Lemma content_rate_limit rl : content (serialize_rate_limit rl) = Some (serialize_rate_limit rl).
Proof. apply content_mapping. Qed.

Lemma deserialize_server_node s : server_in_range s → deserialize_server (serialize_server s) = Some s.
Proof.
  destruct s as [b rt mr ft cd hc bo pc bw mb ov rl dr idl mx]. unfold server_in_range.
  cbn -[in_width]. intros (Hrt & Hmr & Hft & Hcd & Hhc & Hbo & Hbw & Hov & Hrl & Hdr & Hid & Hmx).
  unfold deserialize_server, serialize_server.
  destruct hc as [hc|], mb as [mb|], rl as [rl|];
    cbn [bind request_timeout_secs max_retries failure_threshold health_cooldown_secs health_check
         retry_backoff_ms retry_budget_percent retry_budget_window_secs metrics_bind overall_timeout_secs
         rate_limit drain_timeout_secs pool_idle_timeout_secs pool_max_idle_per_host];
    lookup_fields;
    rewrite ?content_string, ?content_health_check, ?content_rate_limit, ?text_string, ?float_float;
    rewrite ?deserialize_health_check_node, ?deserialize_rate_limit_node by assumption;
    by rewrite !read_uint_node by done.
Qed.

(** C22. Every configuration whose integers fit their types can be written down
    and is read back as it was: no field is read under another's name, none is
    forgotten, and no default takes the place of a value that is present. *)
Theorem config_round_trip (c : Config) :
  config_in_range c → deserialize_config (serialize_config c) = Some c.
Proof.
  destruct c as [s rs]. intros [Hs Hrs]. cbn [server routes] in *.
  unfold deserialize_config, serialize_config. lookup_fields. cbn [server routes].
  rewrite deserialize_server_node by done. cbn [option_bind mbind].
  rewrite (read_vec_sequence _ _ id), list_fmap_id; [done|].
  eapply Forall_impl; [exact Hrs|]. intros r. apply deserialize_route_node.
Qed.
End writing.

(** ** A small document type

    Documents whose scalars are already resolved: enough to show that the
    questions of [Document] have consistent answers. *)
Inductive Node :=
| NNull
| NUint (n : Z)
| NFloat (x : f64)
| NString (s : string)
| NSequence (l : list Node)
| NMapping (m : list (string * Node)).

#[global] Instance node_document : Document Node := {|
  entries y := match y with NMapping m => Some m | _ => None end;
  elements y := match y with NSequence l => Some l | _ => None end;
  text y := match y with NString s => Some s | _ => None end;
  variant y := match y with NString s => Some s | _ => None end;
  unsigned y := match y with NUint n => Some n | _ => None end;
  float y := match y with NFloat x => Some x | NUint n => Some (f64_of_Z n) | _ => None end;
  content y := match y with NNull => None | _ => Some y end;
|}.

#[global] Instance node_writer : DocumentWriter Node := {|
  mapping := NMapping; sequence := NSequence; string_node := NString; uint_node := NUint;
  float_node := NFloat;
|}.

#[global] Instance node_writer_laws : DocumentWriterLaws Node.
Proof. by constructor. Qed.

(** [config.yaml], the file the proxy ships with, and what it is read as. *)
Definition shipped_document : Node :=
  NMapping
    [("server", NMapping [("bind", NString "127.0.0.1:8080"); ("metrics_bind", NString "127.0.0.1:9090");
                          ("request_timeout_secs", NUint 5); ("max_retries", NUint 2)]);
     ("routes", NSequence [NMapping [("prefix", NString "/api");
                                     ("upstream", NSequence [NString "http://127.0.0.1:10001"])]])].

Definition shipped_config : Config :=
  mk_config
    (mk_server_config "127.0.0.1:8080" 5 2 3 30 None 100 (f64_of_Z 20) 10 (Some "127.0.0.1:9090") 30 None
       30 90 32)
    [mk_route_config "/api" ["http://127.0.0.1:10001"] StRoundRobin None].

Lemma shipped_config_read : deserialize_config shipped_document = Some shipped_config.
Proof. vm_compute. reflexivity. Qed.

(** What is rejected: a missing field, a key given twice, a number that does not
    fit, an unknown strategy; and a null is no default for a plain field. *)
Definition server_of (m : list (string * Node)) : option ServerConfig := deserialize_server (NMapping m).
Definition three_fields : list (string * Node) :=
  [("bind", NString "a"); ("request_timeout_secs", NUint 1); ("max_retries", NUint 1)].

Lemma rejected_documents :
  server_of (tail three_fields) = None ∧
  server_of (("max_retries", NUint 1) :: three_fields) = None ∧
  server_of (("failure_threshold", NUint (2 ^ 32)) :: three_fields) = None ∧
  server_of (("drain_timeout_secs", NNull) :: three_fields) = None ∧
  metrics_bind <$> server_of (("metrics_bind", NNull) :: three_fields) = Some None ∧
  deserialize_strategy (NString "RoundRobin") = None.
Proof. vm_compute. done. Qed.

(** ** Witnesses *)

(** [config.yaml] with its sections swapped and a key nobody reads. *)
Definition swapped_document : Node :=
  NMapping
    [("comment", NNull);
     ("routes", NSequence [NMapping [("prefix", NString "/api");
                                     ("upstream", NSequence [NString "http://127.0.0.1:10001"])]]);
     ("server", NMapping [("bind", NString "127.0.0.1:8080"); ("metrics_bind", NString "127.0.0.1:9090");
                          ("request_timeout_secs", NUint 5); ("max_retries", NUint 2)])].

Definition swapped (y y' : Node) : Prop := y = y' ∨ (y = swapped_document ∧ y' = shipped_document).

Lemma swapped_rearrangement : rearrangement swapped.
Proof.
  assert (∀ l : list Node, Forall2 swapped l l) as Hl by (intros l; apply Forall_Forall2_diag, Forall_forall; by left).
  assert (∀ l : list (string * Node), Forall2 (prod_relation eq swapped) l l) as Hm
    by (intros l; apply Forall_Forall2_diag, Forall_forall; intros ??; split; [done|by left]).
  intros y y' [<-|[-> ->]].
  - split_and!; try done.
    + destruct (entries y) as [m|]; constructor. exists (known m). by split.
    + destruct (elements y); by constructor.
    + destruct (content y); constructor. by left.
  - split_and!; try done; constructor; [|by right].
    eexists. split; [|apply Hm]. apply (Permutation_swap _ _ []).
Qed.

Lemma key_order_irrelevant_witness : deserialize_config swapped_document = deserialize_config shipped_document.
Proof. apply (key_order_irrelevant swapped); [apply swapped_rearrangement|by right]. Defined.

Lemma config_round_trip_witness :
  deserialize_config (serialize_config shipped_config : Node) = Some shipped_config.
Proof.
  apply config_round_trip. split; [|repeat constructor].
  split_and!; try exact I; split; (discriminate || reflexivity).
Defined.

Lemma integers_as_written_witness :
  server_written
    [("bind", NString "127.0.0.1:8080"); ("metrics_bind", NString "127.0.0.1:9090");
     ("request_timeout_secs", NUint 5); ("max_retries", NUint 2)] (server shipped_config).
Proof.
  refine (proj1 (proj2 (integers_as_written shipped_document shipped_config _ shipped_config_read eq_refl)) _ _ _ _).
  - left.
  - reflexivity.
Defined.
