(* ===== verification/Balancer.v ===== *)
(** Balancer: the load balancing strategies of [balancer.rs].

    The four strategies share one trait, [LoadBalancer].  What a strategy keeps
    in atomics is a list of cells, touched only through the effects of [balE];
    what it computes once (a schedule, a hash ring) is a record.  The trait's
    methods are programs over those effects, so that calls of concurrent
    requests interleave at the granularity of single atomic instructions.

    [LoadBalancerSpec] is what the strategies promise to the proxy. *)

From S2P Require Import Prelude Prog SipHash Config.
From stdpp Require Import pretty sorting.
From Stdlib Require Import Sorted.
Local Open Scope Z_scope.

(** ** Atomics *)

Variant balE : Type → Type :=
| Load (i : Z) : balE Z
| FetchAdd (i n : Z) : balE Z
| FetchSub (i n : Z) : balE Z.

(** Replaces a cell and returns its old value; the cells are a [Vec]. *)
Definition swap_cell (c : list Z) (i : Z) (f : Z → Z) : list Z * outcome Z :=
  match c !! Z.to_nat i with
  | Some v => (<[Z.to_nat i := f v]> c, Value v)
  | None => (c, Panicked)
  end.

Definition handle_bal (X : Type) (e : balE X) (c : list Z) : list Z * outcome X :=
  match e with
  | Load i => swap_cell c i id
  | FetchAdd i n => swap_cell c i (λ v, wrap 64 (v + n))
  | FetchSub i n => swap_cell c i (λ v, wrap 64 (v - n))
  end.

(** ** The trait *)

Class LoadBalancer (B : Type) := {
  next_index : B → Z → prog balE Z;
  next_index_for_key : B → Z → string → prog balE Z;
  record_start : B → Z → prog balE unit;
  record_done : B → Z → prog balE unit;
}.

(** The default methods. *)
Definition ignore_key {B} (next : B → Z → prog balE Z) (b : B) (pool_size : Z) (_ : string) :
  prog balE Z := next b pool_size.
Definition untracked {B} (_ : B) (_ : Z) : prog balE unit := Ret tt.

(** ** Round robin *)

Record RoundRobin := mk_round_robin {}.

Definition round_robin_next (_ : RoundRobin) (pool_size : Z) : prog balE Z :=
  current ← trigger (FetchAdd 0 1);
  lift (rem_u current pool_size).

#[global] Instance round_robin_balancer : LoadBalancer RoundRobin := {
  next_index := round_robin_next;
  next_index_for_key := ignore_key round_robin_next;
  record_start := untracked;
  record_done := untracked;
}.

(** ** Least connections *)

Record LeastConnections := mk_least_connections { active_len : Z }.

Fixpoint least_connections_scan (idxs : list Z) (min_idx min_val : Z) : prog balE Z :=
  match idxs with
  | [] => Ret min_idx
  | i :: idxs' =>
      val ← trigger (Load i);
      if decide (val < min_val)
      then least_connections_scan idxs' i val
      else least_connections_scan idxs' min_idx min_val
  end.

Definition least_connections_next (b : LeastConnections) (pool_size : Z) : prog balE Z :=
  let n := Z.min pool_size (active_len b) in
  min_val ← trigger (Load 0);
  least_connections_scan (seqZ 1 (n - 1)) 0 min_val.

Definition least_connections_start (b : LeastConnections) (index : Z) : prog balE unit :=
  if decide (index < active_len b) then _ ← trigger (FetchAdd index 1); Ret tt else Ret tt.

Definition least_connections_done (b : LeastConnections) (index : Z) : prog balE unit :=
  if decide (index < active_len b) then _ ← trigger (FetchSub index 1); Ret tt else Ret tt.

#[global] Instance least_connections_balancer : LoadBalancer LeastConnections := {
  next_index := least_connections_next;
  next_index_for_key := ignore_key least_connections_next;
  record_start := least_connections_start;
  record_done := least_connections_done;
}.

(** ** Weighted round robin *)

Record WeightedRoundRobin := mk_weighted { schedule : list Z }.

(** Weights [3; 1] give the schedule [0; 0; 0; 1]. *)
Definition weighted_new (weights : list Z) : WeightedRoundRobin :=
  mk_weighted (mjoin (imap (λ i w, replicate (Z.to_nat w) (Z.of_nat i)) weights)).

Definition weighted_next (b : WeightedRoundRobin) (_ : Z) : prog balE Z :=
  current ← trigger (FetchAdd 0 1);
  i ← lift (rem_u current (len (schedule b)));
  lift (index (schedule b) i).

#[global] Instance weighted_balancer : LoadBalancer WeightedRoundRobin := {
  next_index := weighted_next;
  next_index_for_key := ignore_key weighted_next;
  record_start := untracked;
  record_done := untracked;
}.

(** ** Consistent hashing *)

Definition hash_key (key : string) : Z := hash_str key.

(** [slice::sort_by_key], a stable sort. *)
Section sort.
Context {A : Type} (key : A → Z).

Fixpoint insert_by_key (x : A) (l : list A) : list A :=
  match l with
  | [] => [x]
  | y :: l' => if decide (key x ≤ key y) then x :: y :: l' else y :: insert_by_key x l'
  end.

Definition sort_by_key (l : list A) : list A := foldr insert_by_key [] l.
End sort.

(** [slice::binary_search_by_key]: [Ok] with the position of a match, or [Err]
    with the insertion point.  The size halves at every step, so the length
    of the slice is fuel enough. *)
Section search.
Context {A : Type} (key : A → Z) (l : list A) (target : Z).

Definition key_at (i : Z) : Z := default 0 (key <$> l !! Z.to_nat i).

Fixpoint search_loop (fuel : nat) (base size : Z) : Z :=
  match fuel with
  | O => base
  | S fuel' =>
      if decide (1 < size) then
        let half := size / 2 in
        let mid := base + half in
        search_loop fuel' (if decide (target < key_at mid) then base else mid) (size - half)
      else base
  end.

Definition binary_search_by_key : result Z Z :=
  if decide (len l = 0) then Err 0
  else
    let base := search_loop (length l) 0 (len l) in
    if decide (key_at base = target) then Ok base
    else Err (base + if decide (key_at base < target) then 1 else 0).
End search.

(** Sorted pairs of a hash and an upstream index. *)
Record ConsistentHash := mk_consistent { ring : list (Z * Z) }.

Definition vnode_key (i r : Z) : string := pretty i +:+ ":" +:+ pretty r.

Definition ring_entries (pool_size replicas : Z) : list (Z * Z) :=
  i ← seqZ 0 pool_size; r ← seqZ 0 replicas; [(hash_key (vnode_key i r), i)].

Definition consistent_new (pool_size replicas : Z) : ConsistentHash :=
  mk_consistent (sort_by_key fst (ring_entries pool_size replicas)).

Definition consistent_next (_ : ConsistentHash) (_ : Z) : prog balE Z := Ret 0.

Definition consistent_next_for_key (b : ConsistentHash) (_ : Z) (key : string) : prog balE Z :=
  let hash := hash_key key in
  match binary_search_by_key fst (ring b) hash with
  | Ok pos => lift (snd <$> index (ring b) pos)
  | Err pos =>
      if decide (len (ring b) ≤ pos)
      then lift (snd <$> index (ring b) 0)
      else lift (snd <$> index (ring b) pos)
  end.

#[global] Instance consistent_balancer : LoadBalancer ConsistentHash := {
  next_index := consistent_next;
  next_index_for_key := consistent_next_for_key;
  record_start := untracked;
  record_done := untracked;
}.

(** ** The factory *)

(** [Box<dyn LoadBalancer>]: one of the four implementations. *)
Inductive AnyBalancer :=
| ARoundRobin (b : RoundRobin)
| ALeastConnections (b : LeastConnections)
| AWeighted (b : WeightedRoundRobin)
| AConsistent (b : ConsistentHash).

(** Dynamic dispatch. *)
Definition dispatch {R} (f : ∀ B, LoadBalancer B → B → R) (b : AnyBalancer) : R :=
  match b with
  | ARoundRobin b => f _ _ b
  | ALeastConnections b => f _ _ b
  | AWeighted b => f _ _ b
  | AConsistent b => f _ _ b
  end.

#[global] Instance any_balancer : LoadBalancer AnyBalancer := {
  next_index := dispatch (λ _ _, next_index);
  next_index_for_key := dispatch (λ _ _, next_index_for_key);
  record_start := dispatch (λ _ _, record_start);
  record_done := dispatch (λ _ _, record_done);
}.

(** The atomics a new balancer owns, all zero. *)
Definition cell_count (b : AnyBalancer) : Z :=
  match b with
  | ARoundRobin _ | AWeighted _ => 1
  | ALeastConnections b => active_len b
  | AConsistent _ => 0
  end.

Definition init_cells (b : AnyBalancer) : list Z := replicate (Z.to_nat (cell_count b)) 0.

Definition default_weights (pool_size : Z) : list Z := replicate (Z.to_nat pool_size) 1.

Definition create_balancer (strategy : BalancerStrategy) (pool_size : Z)
    (weights : option (list Z)) : AnyBalancer :=
  match strategy with
  | StRoundRobin => ARoundRobin mk_round_robin
  | StLeastConnections => ALeastConnections (mk_least_connections pool_size)
  | StWeightedRoundRobin =>
      AWeighted (weighted_new (default (default_weights pool_size) weights))
  | StConsistentHash => AConsistent (consistent_new pool_size 150)
  end.

(** ** Running the counter strategies *)

(** [m] successive picks. *)
Fixpoint next_many {B} `{LoadBalancer B} (b : B) (pool_size : Z) (m : nat) : prog balE (list Z) :=
  match m with
  | O => Ret []
  | S m' => i ← next_index b pool_size; l ← next_many b pool_size m'; Ret (i :: l)
  end.

(** How many of the picks are [i]. *)
Definition picks (i : Z) (l : list Z) : nat := length (filter (λ j, j = i) l).

Section counter.
Context {B} `{LoadBalancer B} (b : B) (pool_size : Z) (pick : Z → Z).
Hypothesis next_counter : ∀ c, run handle_bal (next_index b pool_size) [c]
  = ([wrap 64 (c + 1)], Value (pick c)).

Lemma next_many_counter m c : 0 ≤ c → c + Z.of_nat m ≤ 2 ^ 64 →
  (run handle_bal (next_many b pool_size m) [c]).2
  = Value ((λ j, pick (c + j)) <$> seqZ 0 (Z.of_nat m)).
Proof.
  revert c. induction m as [|m IH]; intros c Hc Hm; [done|].
  cbn [next_many]. erewrite run_bind_value by apply next_counter.
  rewrite run_bind.
  destruct (decide (m = O)) as [->|].
  - simpl. by rewrite Z.add_0_r.
  - rewrite wrap_small by (unfold in_width; lia).
    specialize (IH (c + 1) ltac:(lia) ltac:(lia)).
    destruct (run handle_bal (next_many b pool_size m) [c + 1]) as [s' o].
    simpl in IH |- *. subst o. simpl. f_equal.
    rewrite (seqZ_cons 0 (Z.of_nat (S m))) by lia. rewrite fmap_cons, Z.add_0_r. f_equal.
    rewrite Nat2Z.inj_succ, Z.pred_succ, <-(fmap_add_seqZ 1 0), <-list_fmap_compose.
    apply list_fmap_ext. intros j x _. simpl. f_equal. lia.
Qed.
End counter.

(** A full turn of a counter modulo [n] visits every residue once. *)
Lemma turn_permutation c n : 0 < n →
  (λ j, (c + j) mod n) <$> seqZ 0 n ≡ₚ seqZ 0 n.
Proof.
  intros Hn. apply NoDup_Permutation.
  - apply NoDup_fmap_2_strong; [|apply NoDup_seqZ].
    intros x y [Hx ?]%elem_of_seqZ [Hy ?]%elem_of_seqZ Heq.
    assert ((x - y) mod n = 0) as Hd.
    { replace (x - y) with ((c + x) - (c + y)) by lia.
      rewrite Zminus_mod, Heq, Z.sub_diag. apply Z.mod_0_l. lia. }
    apply Z.mod_divide in Hd as [q Hq]; [|lia].
    assert (q = 0) by nia. lia.
  - apply NoDup_seqZ.
  - intros x. rewrite list_elem_of_fmap, elem_of_seqZ. split.
    + intros (j & -> & _). pose proof (Z.mod_pos_bound (c + j) n Hn). lia.
    + intros Hx. exists ((x - c) mod n). rewrite elem_of_seqZ.
      pose proof (Z.mod_pos_bound (x - c) n Hn). split; [|lia].
      rewrite Zplus_mod_idemp_r. replace (c + (x - c)) with x by lia.
      rewrite Z.mod_small; lia.
Qed.

Lemma picks_app i l1 l2 : picks i (l1 ++ l2) = (picks i l1 + picks i l2)%nat.
Proof. unfold picks. by rewrite filter_app, length_app. Qed.

Lemma picks_none i l : i ∉ l → picks i l = O.
Proof.
  unfold picks. induction l as [|x l IH]; [done|]. rewrite not_elem_of_cons. intros [Hx Hl].
  rewrite filter_cons_False by congruence. auto.
Qed.

#[global] Instance picks_proper i : Proper ((≡ₚ) ==> eq) (picks i).
Proof. intros l1 l2 Hl. unfold picks. by rewrite Hl. Qed.

(** [k] turns pick every position of a table [k] times. *)
Lemma turns_picks (pick : Z → Z) i n (k : nat) c : 0 < n →
  picks i ((λ j, pick ((c + j) mod n)) <$> seqZ 0 (Z.of_nat k * n))
  = (k * picks i (pick <$> seqZ 0 n))%nat.
Proof.
  intros Hn. revert c. induction k as [|k IH]; intros c; [done|].
  rewrite Nat2Z.inj_succ, Z.mul_succ_l, Z.add_comm, seqZ_app, fmap_app, picks_app by nia.
  rewrite (Nat.mul_succ_l k), Nat.add_comm. f_equal.
  - rewrite <-(IH (c + n)).
    replace (seqZ (0 + n) (Z.of_nat k * n)) with (Z.add n <$> seqZ 0 (Z.of_nat k * n))
      by (rewrite fmap_add_seqZ; f_equal; lia).
    rewrite <-list_fmap_compose. f_equal.
    apply list_fmap_ext. intros j x _. simpl. do 2 f_equal. lia.
  - rewrite <-(turn_permutation c n Hn) at 2. by rewrite <-list_fmap_compose.
Qed.

Section counters.
Context `{Platform}.

Lemma round_robin_run pool_size c : 0 < pool_size →
  run handle_bal (next_index mk_round_robin pool_size) [c]
  = ([wrap 64 (c + 1)], Value (c mod pool_size)).
Proof. intros Hp. simpl. by rewrite rem_u_pos. Qed.

Lemma picks_seqZ i n : 0 ≤ i < n → picks i (seqZ 0 n) = 1%nat.
Proof.
  intros Hi. replace n with (i + (1 + (n - i - 1))) by lia.
  rewrite seqZ_app, picks_app, (seqZ_app (0 + i) 1) by lia. rewrite picks_app.
  rewrite (picks_none i (seqZ 0 i)), (picks_none i (seqZ (0 + i + 1) _))
    by (rewrite elem_of_seqZ; lia).
  rewrite seqZ_cons, seqZ_nil by lia. unfold picks. by rewrite filter_cons_True by lia.
Qed.

(** C30. Round robin is fair: from any counter value that does not wrap, [k]
    times the pool size successive picks choose every upstream of the pool
    exactly [k] times. *)
Theorem round_robin_fair (pool_size c : Z) (k : nat) (i : Z) :
  0 ≤ c → c + Z.of_nat k * pool_size ≤ 2 ^ 64 → 0 ≤ i < pool_size →
  ∃ l, (run handle_bal (next_many mk_round_robin pool_size (k * Z.to_nat pool_size)) [c]).2
       = Value l ∧ picks i l = k.
Proof.
  intros Hc Hk Hi. eexists. split.
  - apply next_many_counter; [|done|lia]. intros c'. apply round_robin_run. lia.
  - rewrite Nat2Z.inj_mul, Z2Nat.id by lia.
    rewrite (turns_picks (λ x, x)), list_fmap_id, picks_seqZ by lia. lia.
Qed.

(** *** The weighted schedule *)

Definition weight_at (ws : list Z) (i : Z) : Z := default 0 (ws !! Z.to_nat i).

Lemma picks_replicate i j n : picks i (replicate n j) = if decide (j = i) then n else O.
Proof.
  unfold picks. induction n as [|n IH]; [by destruct (decide _)|].
  rewrite replicate_S, filter_cons. destruct (decide (j = i)); simpl; auto.
Qed.

Lemma picks_join_imap (ws : list Z) (i : Z) (off : nat) : Z.of_nat off ≤ i →
  picks i (mjoin (imap (λ j w, replicate (Z.to_nat w) (Z.of_nat (off + j))) ws))
  = Z.to_nat (default 0 (ws !! (Z.to_nat i - off)%nat)).
Proof.
  revert off. induction ws as [|w ws IH]; intros off Hi; [done|].
  simpl mjoin. rewrite picks_app, picks_replicate, Nat.add_0_r.
  destruct (decide (Z.of_nat off = i)) as [<-|Hne].
  - rewrite Nat2Z.id, Nat.sub_diag, picks_none; [simpl; lia|].
    rewrite list_elem_of_join. intros (l & Hl & (j & x & -> & _)%elem_of_lookup_imap).
    apply elem_of_replicate in Hl as [? _]. simpl in *. lia.
  - rewrite (imap_ext _ (λ j w, replicate (Z.to_nat w) (Z.of_nat (S off + j)))).
    + rewrite IH by lia. replace (Z.to_nat i - off)%nat with (S (Z.to_nat i - S off)) by lia.
      done.
    + intros j x _. simpl. f_equal. lia.
Qed.

Lemma weighted_schedule_picks (ws : list Z) i : 0 ≤ i →
  picks i (schedule (weighted_new ws)) = Z.to_nat (weight_at ws i).
Proof.
  intros Hi. transitivity (Z.to_nat (default 0 (ws !! (Z.to_nat i - 0)%nat))).
  - exact (picks_join_imap ws i 0 Hi).
  - by rewrite Nat.sub_0_r.
Qed.

Lemma weighted_run (b : WeightedRoundRobin) pool_size c : 0 < len (schedule b) →
  run handle_bal (next_index b pool_size) [c]
  = ([wrap 64 (c + 1)],
     Value (default 0 (schedule b !! Z.to_nat (c mod len (schedule b))))).
Proof.
  intros Hl. simpl. rewrite rem_u_pos by done. simpl.
  destruct (index_in_range (schedule b) (c mod len (schedule b))) as (x & -> & Hx).
  - apply Z.mod_pos_bound. done.
  - by rewrite Hx.
Qed.

Lemma map_lookup_seqZ (l : list Z) :
  (λ j, default 0 (l !! Z.to_nat j)) <$> seqZ 0 (len l) = l.
Proof.
  unfold len, seqZ. rewrite Nat2Z.id, <-list_fmap_compose.
  apply list_eq. intros k. rewrite list_lookup_fmap.
  destruct (decide (k < length l)%nat) as [Hk|Hk].
  - rewrite lookup_seq_lt by done. destruct (lookup_lt_is_Some_2 l k Hk) as [x Hx].
    simpl. replace (Z.to_nat _) with k by lia. by rewrite Hx.
  - rewrite lookup_seq_ge by lia. symmetry. apply lookup_ge_None. lia.
Qed.

(** C31. Weighted round robin is proportional: over [k] turns of the schedule,
    from any counter value that does not wrap, upstream [i] is picked [k]
    times its weight. *)
Theorem weighted_proportional (ws : list Z) (pool_size c : Z) (k : nat) (i : Z) :
  let b := weighted_new ws in
  0 < len (schedule b) → 0 ≤ c → c + Z.of_nat k * len (schedule b) ≤ 2 ^ 64 → 0 ≤ i →
  ∃ l, (run handle_bal (next_many b pool_size (k * length (schedule b))) [c]).2 = Value l
       ∧ picks i l = (k * Z.to_nat (weight_at ws i))%nat.
Proof.
  intros b Hl Hc Hk Hi. eexists. split.
  - apply (next_many_counter b pool_size); [|done|unfold len in *; lia].
    intros c'. by apply weighted_run.
  - rewrite Nat2Z.inj_mul. fold (len (schedule b)).
    rewrite (turns_picks (λ x, default 0 (schedule b !! Z.to_nat x))), map_lookup_seqZ by done.
    unfold b. by rewrite weighted_schedule_picks.
Qed.
End counters.

(** ** Least connections *)

(** [i] is the first of the first [n] cells with the least value. *)
Definition first_min (c : list Z) (n i : Z) : Prop :=
  0 ≤ i < n ∧ ∃ v, c !! Z.to_nat i = Some v ∧
    ∀ j w, 0 ≤ j < n → c !! Z.to_nat j = Some w → v ≤ w ∧ (j < i → v < w).

Lemma handle_load c i v : c !! Z.to_nat i = Some v →
  handle_bal Z (Load i) c = (c, Value v).
Proof.
  intros Hv. simpl. unfold swap_cell. rewrite Hv. simpl. by rewrite list_insert_id.
Qed.

Lemma least_connections_scan_run c n d i v : 0 ≤ d → 0 ≤ n → n + d ≤ len c →
  first_min c n i → c !! Z.to_nat i = Some v →
  ∃ i', run handle_bal (least_connections_scan (seqZ n d) i v) c = (c, Value i')
        ∧ first_min c (n + d) i'.
Proof.
  intros Hd. revert n i v. pattern d. apply natlike_ind; [|clear d Hd; intros d Hd IH|done];
    intros n i v Hn Hlen Hmin Hv.
  - rewrite seqZ_nil by lia. exists i. by rewrite Z.add_0_r.
  - rewrite seqZ_cons, Z.pred_succ by lia. cbn [least_connections_scan].
    destruct (index_in_range c n) as (w & _ & Hw); [unfold len in *; lia|].
    erewrite run_bind_value by (cbn [run trigger]; rewrite (handle_load c n w Hw); done).
    replace (n + Z.succ d) with (Z.succ n + d) by lia.
    destruct Hmin as (Hi & v' & Hv' & Hall). assert (v' = v) as -> by congruence.
    destruct (decide (w < v)); (eapply IH; [lia|lia| |done]); split; [lia| |lia|].
    + exists w. split; [done|]. intros j u Hj Hu. destruct (decide (j = n)) as [->|].
      * assert (u = w) as -> by congruence. lia.
      * destruct (Hall j u ltac:(lia) Hu). lia.
    + exists v. split; [done|]. intros j u Hj Hu. destruct (decide (j = n)) as [->|].
      * assert (u = w) as -> by congruence. lia.
      * destruct (Hall j u ltac:(lia) Hu). lia.
Qed.

(** Least connections picks an upstream whose number of active requests is
    least, the first of them when several tie, and changes no counter. *)
Theorem least_connections_picks_min (pool_size : Z) (active : list Z) :
  0 < pool_size → len active = pool_size →
  ∃ i, run handle_bal (next_index (mk_least_connections pool_size) pool_size) active
       = (active, Value i) ∧ first_min active pool_size i.
Proof.
  intros Hp Hl. simpl next_index. unfold least_connections_next. simpl active_len.
  rewrite Z.min_id. destruct (index_in_range active 0) as (v & _ & Hv); [lia|].
  erewrite run_bind_value by (cbn [run trigger]; rewrite (handle_load active 0 v Hv); done).
  replace (first_min active pool_size) with (first_min active (1 + (pool_size - 1)))
    by (f_equal; lia).
  apply least_connections_scan_run; [lia|lia|lia| |done].
  split; [lia|]. exists v. split; [done|].
  intros j w Hj. replace j with 0 by lia. rewrite Hv. intros. simplify_eq. lia.
Qed.

(** The reads of a scan, each of one counter, in the order of the upstreams. *)
Definition reads_from (n : Z) (vs : list Z) : list (obs balE) :=
  imap (λ j v, Obs (Load (n + Z.of_nat j)) v) vs.

Lemma first_min_step vs n i v w : len vs = n → first_min vs n i → vs !! Z.to_nat i = Some v →
  first_min (vs ++ [w]) (n + 1) (if decide (w < v) then n else i) ∧
  (vs ++ [w]) !! Z.to_nat (if decide (w < v) then n else i) = Some (if decide (w < v) then w else v).
Proof.
  intros Hlen (Hi & v' & Hv' & Hall) Hv. assert (v' = v) as -> by congruence.
  assert (∀ j u, 0 ≤ j < n + 1 → (vs ++ [w]) !! Z.to_nat j = Some u →
    j = n ∧ u = w ∨ 0 ≤ j < n ∧ vs !! Z.to_nat j = Some u) as Hcase.
  { intros j u Hj Hu. apply lookup_app_Some in Hu as [Hu|[Hge Hu]].
    - right. apply lookup_lt_Some in Hu as Hlt. unfold len in Hlen. split; [lia|done].
    - left. apply list_lookup_singleton_Some in Hu as [Hz <-]. unfold len in Hlen. split; [lia|done]. }
  assert ((vs ++ [w]) !! Z.to_nat n = Some w) as Hw.
  { apply lookup_app_Some. right. unfold len in Hlen. split; [lia|]. by replace (Z.to_nat n - length vs)%nat with O by lia. }
  assert ((vs ++ [w]) !! Z.to_nat i = Some v) as Hv2 by (by apply lookup_app_l_Some).
  case_decide as Hlt; (split; [|done]).
  - split; [lia|]. exists w. split; [done|]. intros j u Hj Hu. destruct (Hcase j u Hj Hu) as [[-> ->]|[Hj' Hu']]; [lia|].
    destruct (Hall j u Hj' Hu'). lia.
  - split; [lia|]. exists v. split; [done|]. intros j u Hj Hu. destruct (Hcase j u Hj Hu) as [[-> ->]|[Hj' Hu']]; [lia|].
    by apply Hall.
Qed.

Lemma least_connections_scan_steps ok d vs n i v tr i' : 0 ≤ d → len vs = n →
  first_min vs n i → vs !! Z.to_nat i = Some v →
  steps ok (least_connections_scan (seqZ n d) i v) tr (Ret i') →
  ∃ ws, len ws = d ∧ tr = reads_from n ws ∧ first_min (vs ++ ws) (n + d) i'.
Proof.
  intros Hd. revert vs n i v tr. pattern d. apply natlike_ind; [|clear d Hd; intros d Hd IH|done];
    intros vs n i v tr Hlen Hmin Hv Hs.
  - rewrite seqZ_nil in Hs by lia. apply steps_ret_inv in Hs as [-> [= ->]]. exists [].
    split_and!; [done|done|]. by rewrite app_nil_r, Z.add_0_r.
  - rewrite seqZ_cons, Z.pred_succ in Hs by lia. cbn [least_connections_scan] in Hs.
    apply steps_vis_ret in Hs as (w & tr' & -> & _ & Hs). cbn [prog_bind] in Hs.
    destruct (first_min_step vs n i v w Hlen Hmin Hv) as [Hmin' Hv'].
    destruct (IH (vs ++ [w]) (Z.succ n) (if decide (w < v) then n else i) (if decide (w < v) then w else v) tr')
      as (ws & Hws & -> & Hfin).
    + rewrite len_snoc. lia.
    + done.
    + done.
    + by case_decide.
    + exists (w :: ws). split_and!.
      * unfold len in *. simpl. lia.
      * unfold reads_from. simpl. rewrite Z.add_0_r. f_equal. apply imap_ext. intros j u _. simpl.
        do 2 f_equal. lia.
      * rewrite <-app_assoc in Hfin. by replace (n + Z.succ d) with (Z.succ n + d) by lia.
Qed.

(** C32. Least connections under concurrency: whatever other requests do to the
    counters during the scan, it reads each upstream's counter once, in order,
    and picks the first upstream whose value was least among the values read. *)
Theorem least_connections_reads_min (ok : ∀ X, balE X → X → Prop) (pool_size : Z) (tr : list (obs balE)) (i : Z) :
  0 < pool_size → steps ok (next_index (mk_least_connections pool_size) pool_size) tr (Ret i) →
  ∃ vs, len vs = pool_size ∧ tr = reads_from 0 vs ∧ first_min vs pool_size i.
Proof.
  intros Hp Hs. simpl next_index in Hs. unfold least_connections_next in Hs. simpl active_len in Hs.
  rewrite Z.min_id in Hs. apply steps_vis_ret in Hs as (v & tr' & -> & _ & Hs). cbn [prog_bind] in Hs.
  destruct (least_connections_scan_steps ok (pool_size - 1) [v] 1 0 v tr' i) as (ws & Hws & -> & Hmin);
    [lia|done| |done|done|].
  - split; [lia|]. exists v. split; [done|]. intros j w Hj. replace j with 0 by lia. simpl. intros [= ->]. lia.
  - exists (v :: ws). split_and!.
    + unfold len in *. simpl. lia.
    + unfold reads_from. simpl. f_equal. apply imap_ext. intros j u _. simpl. do 2 f_equal. lia.
    + by replace pool_size with (1 + (pool_size - 1)) by lia.
Qed.

(** Starting and finishing a request add and remove one unit. *)
Lemma least_connections_start_run b c i v :
  0 ≤ i < active_len b → c !! Z.to_nat i = Some v →
  run handle_bal (record_start b i) c = (<[Z.to_nat i := wrap 64 (v + 1)]> c, Value tt).
Proof.
  intros Hi Hv. simpl. unfold least_connections_start. rewrite decide_True by lia.
  cbn. unfold swap_cell. by rewrite Hv.
Qed.

Lemma least_connections_done_run b c i v :
  0 ≤ i < active_len b → c !! Z.to_nat i = Some v →
  run handle_bal (record_done b i) c = (<[Z.to_nat i := wrap 64 (v - 1)]> c, Value tt).
Proof.
  intros Hi Hv. simpl. unfold least_connections_done. rewrite decide_True by lia.
  cbn. unfold swap_cell. by rewrite Hv.
Qed.

(** ** Consistent hashing *)

Section sorted.
Context {A : Type} (key : A → Z).

Definition sorted_by_key : list A → Prop := StronglySorted (λ x y, key x ≤ key y).

Lemma insert_by_key_perm x l : insert_by_key key x l ≡ₚ x :: l.
Proof.
  induction l as [|y l IH]; simpl; [done|]. case_decide; [done|].
  rewrite IH. constructor.
Qed.

Lemma sort_by_key_perm l : sort_by_key key l ≡ₚ l.
Proof. induction l as [|x l IH]; simpl; [done|]. by rewrite insert_by_key_perm, IH. Qed.

Lemma insert_by_key_sorted x l : sorted_by_key l → sorted_by_key (insert_by_key key x l).
Proof.
  induction 1 as [|y l Hl IH Hy]; simpl; [repeat constructor|]. case_decide as Hxy.
  - constructor; [by constructor|]. constructor; [done|].
    eapply Forall_impl; [exact Hy|]. simpl. lia.
  - constructor; [done|]. rewrite insert_by_key_perm. constructor; [lia|done].
Qed.

Lemma sort_by_key_sorted l : sorted_by_key (sort_by_key key l).
Proof. induction l as [|x l IH]; simpl; [constructor|]. by apply insert_by_key_sorted. Qed.

Lemma sorted_lookup l i j x y : sorted_by_key l →
  (i < j)%nat → l !! i = Some x → l !! j = Some y → key x ≤ key y.
Proof.
  intros Hl. revert i j. induction Hl as [|z l Hl IH Hz]; intros i j Hij Hi Hj; [done|].
  destruct j as [|j]; [lia|]. destruct i as [|i]; simpl in *; simplify_eq.
  - rewrite Forall_lookup in Hz. eauto.
  - apply (IH i j); done || lia.
Qed.

(** *** Binary search *)
Context (l : list A) (target : Z).
Hypothesis Hsorted : sorted_by_key l.

Abbreviation key_at := (key_at key l).

Lemma key_at_lookup i x : l !! Z.to_nat i = Some x → key_at i = key x.
Proof. intros Hx. unfold Balancer.key_at. by rewrite Hx. Qed.

Lemma key_at_mono i j : 0 ≤ i ≤ j → j < len l → key_at i ≤ key_at j.
Proof.
  intros Hij Hj. destruct (decide (i = j)) as [->|]; [lia|].
  destruct (index_in_range l i) as (x & _ & Hx); [unfold len in *; lia|].
  destruct (index_in_range l j) as (y & _ & Hy); [unfold len in *; lia|].
  rewrite (key_at_lookup i x), (key_at_lookup j y) by done.
  eapply sorted_lookup; [..|exact Hx|exact Hy]; [done|lia].
Qed.

Lemma search_loop_spec fuel base size :
  0 ≤ base → 1 ≤ size → size ≤ Z.of_nat fuel → base + size ≤ len l →
  (base = 0 ∨ key_at base ≤ target) →
  (∀ i, base + size ≤ i < len l → target < key_at i) →
  let r := search_loop key l target fuel base size in
  0 ≤ r < len l ∧ (r = 0 ∨ key_at r ≤ target) ∧ (∀ i, r < i < len l → target < key_at i).
Proof.
  revert base size. induction fuel as [|fuel IH]; intros base size Hb Hs Hf Hl Hlo Hhi; [lia|].
  simpl. case_decide as H1.
  - assert (1 ≤ size / 2 < size ∧ size / 2 ≤ size - size / 2 ≤ size / 2 + 1)
      by (Z.div_mod_to_equations; lia).
    case_decide as Hmid; apply IH; try lia; intros i Hi; [|apply Hhi; lia].
    pose proof (key_at_mono (base + size / 2) i ltac:(lia) ltac:(lia)). lia.
  - split_and!; [lia|lia|done|]. intros i Hi. apply Hhi. lia.
Qed.

(** The documented contract of [binary_search_by_key]. *)
Lemma binary_search_spec :
  match binary_search_by_key key l target with
  | Ok pos => 0 ≤ pos < len l ∧ key_at pos = target
  | Err pos => 0 ≤ pos ≤ len l ∧ (∀ i, 0 ≤ i < pos → key_at i < target)
               ∧ (∀ i, pos ≤ i < len l → target < key_at i)
  end.
Proof.
  unfold binary_search_by_key. case_decide as H0; [split_and!; intros; lia|].
  destruct (search_loop_spec (length l) 0 (len l)) as (Hr & Hlo & Hhi);
    try (unfold len in *; lia).
  set (r := search_loop _ _ _ _ _ _) in *. case_decide as Heq; [done|].
  case_decide as Hlt.
  - split_and!; [lia|lia| |intros i Hi; apply Hhi; lia].
    intros i Hi. pose proof (key_at_mono i r ltac:(lia) ltac:(lia)). lia.
  - destruct Hlo as [Hr0|]; [|lia]. rewrite Hr0, Z.add_0_r in *.
    split_and!; [lia|lia|lia|]. intros i Hi.
    destruct (decide (i = 0)) as [->|]; [lia|]. apply Hhi. lia.
Qed.
End sorted.

(** [e] serves the hash [h] on a ring: the least entry at or above [h], or the
    least entry of all when [h] is above every entry (the wrap around). *)
Definition successor (h : Z) (l : list (Z * Z)) (e : Z * Z) : Prop :=
  e ∈ l ∧ ((h ≤ e.1 ∧ ∀ e', e' ∈ l → h ≤ e'.1 → e.1 ≤ e'.1)
           ∨ ((∀ e', e' ∈ l → e'.1 < h) ∧ ∀ e', e' ∈ l → e.1 ≤ e'.1)).

#[global] Instance successor_proper h : Proper ((≡ₚ) ==> (=) ==> iff) (successor h).
Proof. intros l1 l2 Hl e _ <-. unfold successor. by setoid_rewrite Hl. Qed.

Lemma elem_of_key_at (l : list (Z * Z)) e : e ∈ l →
  ∃ i, 0 ≤ i < len l ∧ key_at fst l i = e.1 ∧ l !! Z.to_nat i = Some e.
Proof.
  intros (i & Hi)%list_elem_of_lookup. exists (Z.of_nat i).
  pose proof (lookup_lt_Some _ _ _ Hi). rewrite Nat2Z.id.
  split_and!; [lia|unfold len; lia| |done]. apply key_at_lookup. by rewrite Nat2Z.id.
Qed.

(** A lookup on a sorted, non-empty ring touches no shared state and returns the
    upstream of the key's successor. *)
Lemma consistent_lookup (b : ConsistentHash) pool_size key :
  sorted_by_key fst (ring b) → 0 < len (ring b) →
  ∃ e, successor (hash_key key) (ring b) e ∧
       next_index_for_key b pool_size key = Ret e.2.
Proof.
  intros Hs Hl. simpl next_index_for_key. unfold consistent_next_for_key.
  pose proof (binary_search_spec fst (ring b) (hash_key key) Hs) as Hb.
  assert (∀ pos, 0 ≤ pos < len (ring b) → ∃ e, e ∈ ring b ∧ key_at fst (ring b) pos = e.1
            ∧ index (ring b) pos = Value e) as Hget.
  { intros pos Hpos. destruct (index_in_range (ring b) pos Hpos) as (e & He & Hel).
    exists e. split_and!; [by eapply list_elem_of_lookup_2|by apply key_at_lookup|done]. }
  destruct (binary_search_by_key fst (ring b) (hash_key key)) as [pos|pos].
  - destruct Hb as [Hpos Heq]. destruct (Hget pos Hpos) as (e & Hin & Hk & ->).
    exists e. split; [|done]. split; [done|]. left. split; [lia|]. intros e' _. lia.
  - destruct Hb as (Hpos & Hlo & Hhi). case_decide as Hend.
    + destruct (Hget 0 ltac:(lia)) as (e & Hin & Hk & ->). exists e. split; [|done].
      split; [done|]. right. split; intros e' (i & Hi & Hk' & _)%elem_of_key_at.
      * rewrite <-Hk'. apply Hlo. lia.
      * rewrite <-Hk, <-Hk'. apply key_at_mono; done || lia.
    + destruct (Hget pos ltac:(lia)) as (e & Hin & Hk & ->). exists e. split; [|done].
      split; [done|]. left. split; [rewrite <-Hk; specialize (Hhi pos); lia|].
      intros e' (i & Hi & Hk' & _)%elem_of_key_at Hge. rewrite <-Hk, <-Hk'.
      destruct (decide (pos ≤ i)); [apply key_at_mono; done || lia|].
      specialize (Hlo i). lia.
Qed.

Lemma consistent_new_ring pool_size replicas :
  sorted_by_key fst (ring (consistent_new pool_size replicas)) ∧
  ring (consistent_new pool_size replicas) ≡ₚ ring_entries pool_size replicas.
Proof. split; [apply sort_by_key_sorted|apply sort_by_key_perm]. Qed.

Lemma elem_of_ring_entries pool_size replicas e :
  e ∈ ring_entries pool_size replicas ↔
  ∃ r, e = (hash_key (vnode_key e.2 r), e.2) ∧ 0 ≤ e.2 < pool_size ∧ 0 ≤ r < replicas.
Proof.
  unfold ring_entries. rewrite list_elem_of_bind. split.
  - intros (i & Hi & Hin). apply list_elem_of_bind in Hi as (r & Hr & Hir).
    apply list_elem_of_singleton in Hr as ->. apply elem_of_seqZ in Hin, Hir.
    exists r. simpl. split_and!; done || lia.
  - destruct e as [h i]. simpl. intros (r & [= ->] & Hi & Hr).
    exists i. rewrite elem_of_seqZ. split; [|lia]. apply list_elem_of_bind.
    exists r. rewrite elem_of_seqZ, list_elem_of_singleton. split; [done|lia].
Qed.

Lemma ring_nonempty pool_size replicas : 0 < pool_size → 0 < replicas →
  0 < len (ring (consistent_new pool_size replicas)).
Proof.
  intros Hp Hr. destruct (consistent_new_ring pool_size replicas) as [_ Hperm].
  unfold len. rewrite (Permutation_length Hperm).
  assert ((hash_key (vnode_key 0 0), 0) ∈ ring_entries pool_size replicas) as Hin.
  { apply elem_of_ring_entries. exists 0. simpl. split_and!; done || lia. }
  destruct (ring_entries pool_size replicas); [by apply not_elem_of_nil in Hin|simpl; lia].
Qed.

(** C33. Consistent hashing sends a key to the successor of its hash on the ring
    of virtual nodes: one of the pool's upstreams, chosen from the key and the
    pool size alone, without reading or changing shared state. *)
Theorem consistent_hash_successor (pool_size replicas : Z) (key : string) :
  0 < pool_size → 0 < replicas →
  ∃ e, successor (hash_key key) (ring_entries pool_size replicas) e ∧ 0 ≤ e.2 < pool_size ∧
       next_index_for_key (consistent_new pool_size replicas) pool_size key = Ret e.2.
Proof.
  intros Hp Hr. destruct (consistent_new_ring pool_size replicas) as [Hs Hperm].
  destruct (consistent_lookup (consistent_new pool_size replicas) pool_size key Hs)
    as (e & He & Hn); [by apply ring_nonempty|].
  exists e. rewrite Hperm in He. split_and!; try done;
    destruct He as [(r & ? & ? & ?)%elem_of_ring_entries _]; lia.
Qed.

Lemma successor_unique h l e1 e2 : NoDup (fst <$> l) →
  successor h l e1 → successor h l e2 → e1 = e2.
Proof.
  intros Hnd [Hin1 H1] [Hin2 H2].
  assert (e1.1 = e2.1) as Heq.
  { destruct H1 as [[? H1]|[H1 H1']], H2 as [[? H2]|[H2 H2']];
      repeat match goal with
      | H : ∀ e', e' ∈ l → _ |- _ =>
          pose proof (H e1 Hin1); pose proof (H e2 Hin2); clear H
      end; lia. }
  apply list_elem_of_lookup in Hin1 as [i Hi], Hin2 as [j Hj].
  assert (i = j) as ->; [|congruence].
  eapply (NoDup_lookup (fst <$> l)); [done|..]; rewrite list_lookup_fmap.
  - by rewrite Hi.
  - rewrite Hj. simpl. by rewrite Heq.
Qed.

Lemma ring_entries_succ pool_size replicas : 0 ≤ pool_size →
  ring_entries (pool_size + 1) replicas
  = ring_entries pool_size replicas ++
    (i ← seqZ pool_size 1; r ← seqZ 0 replicas; [(hash_key (vnode_key i r), i)]).
Proof. intros Hp. unfold ring_entries. by rewrite seqZ_app, bind_app by lia. Qed.

Lemma ring_entries_grow pool_size replicas e : 0 ≤ pool_size →
  e ∈ ring_entries pool_size replicas → e ∈ ring_entries (pool_size + 1) replicas.
Proof. intros Hp He. rewrite ring_entries_succ by done. apply elem_of_app. by left. Qed.

(** C34. Adding an upstream to a consistent-hash pool moves a key only to the new
    upstream: every key keeps its old upstream or goes to the added one, when
    the virtual nodes of the larger pool have distinct hashes. *)
Theorem consistent_hash_minimal_disruption (pool_size replicas : Z) (key : string) :
  0 < pool_size → 0 < replicas →
  NoDup (fst <$> ring_entries (pool_size + 1) replicas) →
  ∃ old new,
    next_index_for_key (consistent_new pool_size replicas) pool_size key = Ret old ∧
    next_index_for_key (consistent_new (pool_size + 1) replicas) (pool_size + 1) key = Ret new ∧
    (new = old ∨ new = pool_size).
Proof.
  intros Hp Hr Hnd.
  destruct (consistent_new_ring pool_size replicas) as [Hs Hperm].
  destruct (consistent_new_ring (pool_size + 1) replicas) as [Hs' Hperm'].
  destruct (consistent_lookup (consistent_new pool_size replicas) pool_size key Hs)
    as (e & He & Hn); [by apply ring_nonempty|].
  destruct (consistent_lookup (consistent_new (pool_size + 1) replicas) (pool_size + 1) key Hs')
    as (e' & He' & Hn'); [apply ring_nonempty; lia|].
  exists e.2, e'.2. split_and!; [done..|]. rewrite Hperm in He. rewrite Hperm' in He'.
  destruct (decide (e'.2 = pool_size)) as [->|Hold]; [by right|left].
  destruct He' as [Hin' Hsucc'].
  assert (e' ∈ ring_entries pool_size replicas) as Hin.
  { apply elem_of_ring_entries in Hin' as (r & ? & ? & ?). apply elem_of_ring_entries.
    exists r. split_and!; done || lia. }
  assert (successor (hash_key key) (ring_entries pool_size replicas) e') as Hsucc.
  { split; [done|]. destruct Hsucc' as [[? H2]|[H1 H2]]; [left|right].
    - split; [done|]. intros. apply H2; [apply ring_entries_grow; done || lia|done].
    - split; intros; [apply H1|apply H2]; apply ring_entries_grow; done || lia. }
  f_equal. eapply successor_unique; [|done|done].
  rewrite ring_entries_succ, fmap_app in Hnd by lia. by apply NoDup_app in Hnd as [? _].
Qed.

(** ** What a strategy promises to its caller *)

(** The answers an atomic gives, and the cells a balancer may touch. *)
Definition bal_ok (X : Type) (e : balE X) : X → Prop :=
  match e with Load _ | FetchAdd _ _ | FetchSub _ _ => in_u64 end.

Definition bal_enabled (n : Z) (X : Type) (e : balE X) : Prop :=
  match e with Load i | FetchAdd i _ | FetchSub i _ => 0 ≤ i < n end.

Definition cells_ok (n : Z) (c : list Z) : Prop := len c = n ∧ Forall in_u64 c.

(** Every effect keeps the cells well formed. *)
Lemma handle_bal_keeps n X (e : balE X) c : cells_ok n c → cells_ok n (handle_bal X e c).1.
Proof.
  assert (∀ i f, cells_ok n c → (∀ v, in_u64 v → in_u64 (f v)) → cells_ok n (swap_cell c i f).1) as Hswap.
  { intros i f [Hl Hc] Hf. unfold swap_cell. destruct (c !! _) as [v|] eqn:Hv; [|done]. split; simpl.
    - unfold len. by rewrite length_insert.
    - apply Forall_insert; [done|]. by eapply Hf, Forall_lookup_1. }
  destruct e; simpl; intros Hc; apply Hswap; try done; intros v _; apply wrap_in_width; lia.
Qed.

(** Enabled effects do not panic and keep the cells well formed. *)
Lemma handle_bal_serves n X (e : balE X) c :
  bal_enabled n X e → cells_ok n c →
  ∃ c' x, handle_bal X e c = (c', Value x) ∧ bal_ok X e x ∧ cells_ok n c'.
Proof.
  assert (∀ i f, 0 ≤ i < n → cells_ok n c → (∀ v, in_u64 v → in_u64 (f v)) →
    ∃ c' x, swap_cell c i f = (c', Value x) ∧ in_u64 x ∧ cells_ok n c') as Hswap.
  { intros i f Hi [Hl Hc] Hf. unfold swap_cell.
    destruct (index_in_range c i ltac:(lia)) as (v & _ & Hv). rewrite Hv.
    assert (in_u64 v) by (by eapply Forall_lookup_1 in Hv).
    eexists _, _. split_and!; [done|done|split].
    - unfold len. by rewrite length_insert.
    - apply Forall_insert; auto. }
  destruct e; simpl; intros Hi Hc; apply Hswap; try done;
    intros v _; apply wrap_in_width; lia.
Qed.

(** The contract of the trait: for a pool the balancer was built for, picking is
    safe under any interleaving, and so is tracking a request. *)
Class LoadBalancerSpec (B : Type) `{LoadBalancer B} := {
  owned_cells : B → Z;
  serves : B → Z → Prop;
  next_total b n key : serves b n →
    no_panic bal_ok (bal_enabled (owned_cells b)) (next_index_for_key b n key) (λ i, 0 ≤ i);
  start_total b i : 0 ≤ i →
    no_panic bal_ok (bal_enabled (owned_cells b)) (record_start b i) (λ _, True);
  done_total b i : 0 ≤ i →
    no_panic bal_ok (bal_enabled (owned_cells b)) (record_done b i) (λ _, True);
}.

Section contracts.
Context `{Platform}.

#[export, refine] Instance round_robin_spec : LoadBalancerSpec RoundRobin := {
  owned_cells := λ _, 1;
  serves := λ _ n, 0 < n;
}.
Proof.
  - intros b n key Hn. simpl. split; [lia|]. intros x _. rewrite rem_u_pos by done.
    apply Z.mod_pos_bound. done.
  - done.
  - done.
Defined.

#[export, refine] Instance weighted_spec : LoadBalancerSpec WeightedRoundRobin := {
  owned_cells := λ _, 1;
  serves := λ b _, 0 < len (schedule b) ∧ Forall (λ i, 0 ≤ i) (schedule b);
}.
Proof.
  - intros b n key [Hl Hall]. simpl. split; [lia|]. intros x _.
    rewrite rem_u_pos by done. simpl.
    destruct (index_in_range (schedule b) (x mod len (schedule b))) as (i & -> & Hi).
    + by apply Z.mod_pos_bound.
    + simpl. by eapply Forall_lookup_1 in Hi.
  - done.
  - done.
Defined.

#[export, refine] Instance consistent_spec : LoadBalancerSpec ConsistentHash := {
  owned_cells := λ _, 0;
  serves := λ b _, sorted_by_key fst (ring b) ∧ 0 < len (ring b)
                   ∧ Forall (λ e, 0 ≤ e.2) (ring b);
}.
Proof.
  - intros b n key (Hs & Hl & Hall).
    destruct (consistent_lookup b n key Hs Hl) as (e & [Hin _] & ->).
    simpl. by eapply Forall_forall in Hall.
  - done.
  - done.
Defined.

Lemma least_connections_scan_total n idxs i v :
  Forall (λ j, 0 ≤ j < n) idxs → 0 ≤ i →
  no_panic bal_ok (bal_enabled n) (least_connections_scan idxs i v) (λ i, 0 ≤ i).
Proof.
  intros Hidxs. revert i v. induction Hidxs as [|j idxs Hj Hidxs IH]; intros i v Hi; [done|].
  simpl. split; [done|]. intros x _. case_decide; apply IH; lia.
Qed.

#[export, refine] Instance least_connections_spec : LoadBalancerSpec LeastConnections := {
  owned_cells := active_len;
  serves := λ b n, 0 < active_len b;
}.
Proof.
  - intros b n key Hb. simpl. split; [lia|]. intros x _.
    apply least_connections_scan_total; [|done].
    apply Forall_forall. intros j Hj%elem_of_seqZ. lia.
  - intros b i Hi. simpl. unfold least_connections_start. by case_decide.
  - intros b i Hi. simpl. unfold least_connections_done. by case_decide.
Defined.

#[export, refine] Instance any_balancer_spec : LoadBalancerSpec AnyBalancer := {
  owned_cells := cell_count;
  serves := λ b n, match b with
                   | ARoundRobin b => serves b n
                   | ALeastConnections b => serves b n
                   | AWeighted b => serves b n
                   | AConsistent b => serves b n
                   end;
}.
Proof.
  - intros [b|b|b|b] n key; exact (next_total b n key).
  - intros [b|b|b|b] i; exact (start_total b i).
  - intros [b|b|b|b] i; exact (done_total b i).
Defined.

(** The weights a route gives a positive total. *)
Definition positive_weights (ws : option (list Z)) : Prop :=
  match ws with None => True | Some ws => 0 < len (schedule (weighted_new ws)) end.

Lemma default_schedule n : 0 < n → 0 < len (schedule (weighted_new (default_weights n))).
Proof.
  intros Hn. unfold default_weights. destruct (Z.to_nat n) eqn:Hz; [lia|].
  simpl. unfold len. simpl. lia.
Qed.

Lemma create_balancer_serves strategy n ws : 0 < n → positive_weights ws →
  serves (create_balancer strategy n ws) n.
Proof.
  intros Hn Hws. destruct strategy; simpl; try done.
  - split; [destruct ws; [done|by apply default_schedule]|].
    apply Forall_forall. intros i (l & Hl & (j & x & -> & _)%elem_of_lookup_imap)%list_elem_of_join.
    apply elem_of_replicate in Hl as [-> _]. lia.
  - destruct (consistent_new_ring n 150) as [Hs Hp].
    split_and!; [done|by apply ring_nonempty|]. rewrite Forall_forall. intros e He.
    change (e ∈ ring (consistent_new n 150)) in He. rewrite Hp in He.
    apply elem_of_ring_entries in He as (r & _ & He & _). lia.
Qed.

(** Lengths of [Vec]s are at most [isize::MAX]. *)
Definition vec_fits {A} (l : list A) : Prop := len l < 2 ^ 63.

Lemma scan_returns n idxs i v : Forall (λ j, 0 ≤ j < n) idxs → 0 ≤ i < n →
  returns bal_ok (least_connections_scan idxs i v) (λ i, 0 ≤ i < n).
Proof.
  intros Hidxs. revert i v. induction Hidxs as [|j idxs Hj Hidxs IH]; intros i v Hi; [done|].
  simpl. intros x _. case_decide; by apply IH.
Qed.

(** The index a balancer picks, for any pool, fits half a word. *)
Lemma next_index_bound strategy n ws key :
  0 ≤ n < 2 ^ 63 → (∀ l, ws = Some l → vec_fits l) →
  returns bal_ok (next_index_for_key (create_balancer strategy n ws) n key) (λ i, 0 ≤ i < 2 ^ 63).
Proof.
  intros Hn Hws. destruct strategy; cbn [create_balancer next_index_for_key any_balancer dispatch
    round_robin_balancer least_connections_balancer weighted_balancer consistent_balancer ignore_key].
  - intros x _. cbn. unfold rem_u. case_decide; [done|]. simpl.
    pose proof (Z.mod_pos_bound x n ltac:(lia)). lia.
  - intros v _. eapply returns_mono; [apply (scan_returns (Z.max 1 n))|simpl; lia]; [|lia].
    apply Forall_forall. intros j [? ?]%elem_of_seqZ. simpl in *. lia.
  - set (b := weighted_new _).
    assert (∀ i, i ∈ schedule b → 0 ≤ i < 2 ^ 63) as Hb.
    { intros i (l & Hl & (j & w & -> & Hj)%elem_of_lookup_imap)%list_elem_of_join.
      apply elem_of_replicate in Hl as [-> _]. apply lookup_lt_Some in Hj.
      destruct ws as [ws|]; simpl in Hj.
      - specialize (Hws ws eq_refl). unfold vec_fits, len in Hws. lia.
      - unfold default_weights in Hj. rewrite length_replicate in Hj. lia. }
    intros x _. apply returns_bind. apply returns_lift. intros k _. apply returns_lift.
    intros i Hi. apply Hb. unfold index in Hi.
    destruct (schedule b !! Z.to_nat k) eqn:Hk; simplify_eq/=. by eapply list_elem_of_lookup_2.
  - assert (∀ k i, snd <$> index (ring (consistent_new n 150)) k = Value i → 0 ≤ i < 2 ^ 63) as Hr.
    { intros k i. unfold index. destruct (_ !! Z.to_nat k) as [e|] eqn:He; [|done].
      intros [= <-]. apply list_elem_of_lookup_2 in He.
      destruct (consistent_new_ring n 150) as [_ Hp]. rewrite Hp in He.
      apply elem_of_ring_entries in He as (r & _ & He & _). lia. }
    unfold consistent_next_for_key. destruct (binary_search_by_key _ _ _) as [pos|pos];
      [|case_decide]; apply returns_lift; eauto.
Qed.

(** A balancer built for a non-empty pool with positive weights picks an
    index from its own cells without panicking, whatever well-formed values
    concurrent requests left in them. *)
Theorem create_balancer_picks (strategy : BalancerStrategy) (n : Z) (ws : option (list Z))
    (key : string) (c : list Z) :
  0 < n → positive_weights ws → cells_ok (cell_count (create_balancer strategy n ws)) c →
  ∃ c' i, run handle_bal (next_index_for_key (create_balancer strategy n ws) n key) c
          = (c', Value i)
          ∧ 0 ≤ i ∧ cells_ok (cell_count (create_balancer strategy n ws)) c'.
Proof.
  intros Hn Hws Hc. eapply no_panic_run; [|apply next_total, create_balancer_serves|]; try done.
  apply handle_bal_serves.
Qed.

(** With an empty list of upstreams and no weights, every strategy panics
    on the first pick. *)
Theorem create_balancer_empty_panics (strategy : BalancerStrategy) (key : string) :
  let b := create_balancer strategy 0 None in
  (run handle_bal (next_index_for_key b 0 key) (init_cells b)).2 = Panicked.
Proof. by destruct strategy. Qed.

(** Weights that are all zero make the weighted strategy panic on every
    pick, however many upstreams the route has. *)
Theorem zero_weights_panic (k : nat) (n c : Z) (key : string) :
  let b := create_balancer StWeightedRoundRobin n (Some (replicate k 0)) in
  (run handle_bal (next_index_for_key b n key) [c]).2 = Panicked.
Proof.
  assert (∀ off, mjoin (imap (λ i w, replicate (Z.to_nat w) (Z.of_nat (off + i))) (replicate k 0)) = [])
    as Hnil.
  { induction k as [|k IH]; intros off; [done|]. simpl.
    rewrite (imap_ext _ (λ i w, replicate (Z.to_nat w) (Z.of_nat (S off + i)))); [apply IH|].
    intros i x _. simpl. f_equal. lia. }
  assert (schedule (weighted_new (replicate k 0)) = []) as Hs by exact (Hnil O).
  intros b. change ((run handle_bal (weighted_next (weighted_new (replicate k 0)) n) [c]).2 = Panicked).
  unfold weighted_next. by rewrite Hs.
Qed.
End contracts.

(** ** Witnesses *)

(** Ten turns over three upstreams. *)
Lemma round_robin_fair_witness :
  ∃ l, (run handle_bal (next_many mk_round_robin 3 (10 * Z.to_nat 3)) [5]).2 = Value l ∧ picks 2 l = 10%nat.
Proof. apply (round_robin_fair 3 5 10 2); lia. Defined.

Lemma weighted_proportional_witness :
  ∃ l, (run handle_bal (next_many (weighted_new [3; 1]) 2 (2 * 4)) [0]).2 = Value l ∧ picks 0 l = 6%nat.
Proof. apply (weighted_proportional [3; 1] 2 0 2 0); vm_compute; congruence. Defined.

(** The third counter drops while the scan runs. *)
Lemma least_connections_reads_min_witness :
  ∃ vs, len vs = 3 ∧ reads_from 0 [4; 2; 1] = reads_from 0 vs ∧ first_min vs 3 2.
Proof.
  apply (least_connections_reads_min (λ _ _ _, True) 3 (reads_from 0 [4; 2; 1]) 2); [reflexivity|].
  do 3 (apply (steps_cons _ _ (Load _)); [exact I|]). apply steps_nil.
Defined.

Lemma least_connections_picks_min_witness :
  ∃ i, run handle_bal (next_index (mk_least_connections 3) 3) [4; 1; 1] = ([4; 1; 1], Value i)
       ∧ first_min [4; 1; 1] 3 i.
Proof. apply (least_connections_picks_min 3 [4; 1; 1]); [lia|reflexivity]. Defined.

Lemma consistent_hash_successor_witness :
  ∃ e, successor (hash_key "/foo") (ring_entries 2 3) e ∧ 0 ≤ e.2 < 2 ∧
       next_index_for_key (consistent_new 2 3) 2 "/foo" = Ret e.2.
Proof. apply (consistent_hash_successor 2 3 "/foo"); lia. Defined.

Lemma consistent_hash_minimal_disruption_witness :
  ∃ old new, next_index_for_key (consistent_new 2 3) 2 "/foo" = Ret old ∧
    next_index_for_key (consistent_new 3 3) 3 "/foo" = Ret new ∧ (new = old ∨ new = 2).
Proof.
  apply (consistent_hash_minimal_disruption 2 3 "/foo"); [lia|lia|].
  apply (bool_decide_eq_true_1 _). vm_compute. reflexivity.
Defined.

Lemma create_balancer_picks_witness :
  ∃ c' i, run handle_bal (next_index_for_key (create_balancer StWeightedRoundRobin 2 (Some [3; 1])) 2 "/") [7]
          = (c', Value i) ∧ 0 ≤ i ∧ cells_ok 1 c'.
Proof.
  apply (create_balancer_picks StWeightedRoundRobin 2 (Some [3; 1]) "/" [7]); [lia|vm_compute; reflexivity|].
  split; [reflexivity|]. constructor; [|constructor]. split; [lia|vm_compute; reflexivity].
Defined.
