(* ===== verification/Http.v ===== *)
(** Http: addresses of [std::net] and the interface to the [hyper] and [http]
    crates.

    The crates are not part of the repository: [Hyper] lists the operations the
    proxy calls and [HyperLaws] the documented behaviour it relies on.
    [SimpleHyper] is a small implementation of both, used to run the model. *)

From S2P Require Import Prelude.
From stdpp Require Import pretty.
From Stdlib Require Import Ascii.
Local Open Scope Z_scope.

(** ** [std::net::IpAddr] *)

Inductive IpAddr :=
| V4 (a b c d : Z)
| V6 (segments : list Z).

#[global] Instance ip_eq_dec : EqDecision IpAddr.
Proof. solve_decision. Defined.
#[global] Instance ip_countable : Countable IpAddr.
Proof.
  refine (inj_countable'
    (λ ip, match ip with V4 a b c d => inl (a, b, c, d) | V6 s => inr s end)
    (λ x, match x with inl (a, b, c, d) => V4 a b c d | inr s => V6 s end) _).
  by intros [].
Defined.

Definition hex_digit (n : Z) : string :=
  default "0" (["0";"1";"2";"3";"4";"5";"6";"7";"8";"9";"a";"b";"c";"d";"e";"f"] !! Z.to_nat n).

(** [{:x}] of a [u16]: no leading zeros. *)
Definition hex_u16 (n : Z) : string :=
  (if decide (n < 4096) then "" else hex_digit (n / 4096 mod 16)) +:+
  (if decide (n < 256) then "" else hex_digit (n / 256 mod 16)) +:+
  (if decide (n < 16) then "" else hex_digit (n / 16 mod 16)) +:+
  hex_digit (n mod 16).

Definition v4_to_string (a b c d : Z) : string :=
  pretty a +:+ "." +:+ pretty b +:+ "." +:+ pretty c +:+ "." +:+ pretty d.

(** The first longest run of zero segments, as (start, length). *)
Fixpoint zero_span (i : nat) (segs : list Z) (current longest : nat * nat) : nat * nat :=
  match segs with
  | [] => longest
  | s :: segs' =>
      let current' := if decide (s = 0)
                      then ((if decide (current.2 = O) then i else current.1), S current.2)
                      else (O, O) in
      zero_span (S i) segs' current' (if decide (longest.2 < current'.2)%nat then current' else longest)
  end.

Definition colon_separated (segs : list Z) : string := String.concat ":" (hex_u16 <$> segs).

(** [Display for IpAddr]. *)
Definition ip_to_string (ip : IpAddr) : string :=
  match ip with
  | V4 a b c d => v4_to_string a b c d
  | V6 [0; 0; 0; 0; 0; 65535; ab; cd] =>
      "::ffff:" +:+ v4_to_string (ab / 256) (ab mod 256) (cd / 256) (cd mod 256)
  | V6 segs =>
      let '(start, n) := zero_span 0 segs (O, O) (O, O) in
      if decide (1 < n)%nat
      then colon_separated (take start segs) +:+ "::" +:+ colon_separated (drop (start + n) segs)
      else colon_separated segs
  end.

Example ip_to_string_examples :
  map ip_to_string [V4 127 0 0 1; V6 [0; 0; 0; 0; 0; 0; 0; 1]; V6 [8193; 3512; 0; 0; 1; 0; 0; 255];
                    V6 [0; 0; 0; 0; 0; 65535; 49320; 266]]
  = ["127.0.0.1"; "::1"; "2001:db8::1:0:0:ff"; "::ffff:192.168.1.10"]%string.
Proof. vm_compute. reflexivity. Qed.

(** ** Strings *)

(** The bytes a header value may carry: visible ASCII, space and tab. *)
Definition visible_char (c : ascii) : bool :=
  let n := N_of_ascii c in ((32 <=? n) && (n <? 127) || (n =? 9))%N.
Fixpoint visible (s : string) : bool :=
  match s with
  | EmptyString => true
  | String c s' => visible_char c && visible s'
  end.

Lemma visible_app s1 s2 : visible (s1 +:+ s2) = visible s1 && visible s2.
Proof. induction s1 as [|c s1 IH]; simpl; [done|]. by rewrite IH, andb_assoc. Qed.

(** Printed numbers and addresses are visible. *)
Lemma visible_pretty_N (n : N) : visible (pretty n) = true.
Proof.
  assert (∀ n s, visible s = true → visible (pretty_N_go n s) = true) as Hgo.
  { intros m. induction (N.lt_wf_0 m) as [m _ IH]. intros s Hs.
    destruct (decide (m = 0)%N) as [->|]; [by rewrite pretty_N_go_0|].
    rewrite pretty_N_go_step by lia. apply IH; [apply N.div_lt; lia|]. simpl. rewrite Hs, andb_true_r.
    unfold pretty_N_char. by repeat case_match. }
  unfold pretty, pretty_N. case_decide; [done|]. by apply Hgo.
Qed.

Lemma visible_pretty (z : Z) : visible (pretty z) = true.
Proof.
  destruct z as [|p|p]; [done|exact (visible_pretty_N (Npos p))|].
  change (pretty (Zneg p)) with ("-" +:+ pretty (Npos p)). rewrite visible_app.
  by rewrite visible_pretty_N.
Qed.

Lemma visible_hex_u16 n : visible (hex_u16 n) = true.
Proof.
  assert (∀ d, visible (hex_digit d) = true) as Hd.
  { intros d. unfold hex_digit. destruct (_ !! Z.to_nat d) as [x|] eqn:Hx; [|done].
    eapply (Forall_lookup_1 (λ x, visible x = true)); [|exact Hx]. by repeat constructor. }
  unfold hex_u16. rewrite !visible_app, Hd. by repeat case_decide; rewrite ?Hd.
Qed.

Lemma visible_concat sep l : visible sep = true → Forall (λ s, visible s = true) l →
  visible (String.concat sep l) = true.
Proof.
  intros Hsep. induction 1 as [|s l Hs Hl IH]; [done|]. simpl. destruct l; [done|].
  by rewrite !visible_app, Hs, Hsep, IH.
Qed.

Lemma visible_v4 a b c d : visible (v4_to_string a b c d) = true.
Proof. unfold v4_to_string. by rewrite !visible_app, !visible_pretty. Qed.

Lemma visible_segs l : visible (colon_separated l) = true.
Proof.
  apply visible_concat; [done|]. apply Forall_fmap, Forall_true. intros x. apply visible_hex_u16.
Qed.

Lemma visible_ip (ip : IpAddr) : visible (ip_to_string ip) = true.
Proof.
  destruct ip as [a b c d|segs]; [apply visible_v4|]. unfold ip_to_string.
  repeat case_match; rewrite ?visible_app, ?visible_v4, ?visible_segs; done.
Qed.

(** ** The crates' interface *)

Class Hyper := {
  HeaderValue : Type;
  HeaderMap : Type;
  (** The values of a (lower-case) header name, in order. *)
  hm_get_all : HeaderMap → string → list HeaderValue;
  hm_empty : HeaderMap;
  (** [HeaderMap::insert] replaces every value of the name. *)
  hm_insert : HeaderMap → string → HeaderValue → HeaderMap;
  (** [HeaderMap::remove] removes every value of the name. *)
  hm_remove : HeaderMap → string → HeaderMap;
  (** [HeaderValue::to_str().ok()] and [HeaderValue::from_str(..).ok()]. *)
  hv_to_str : HeaderValue → option string;
  hv_from_str : string → option HeaderValue;
  Uri : Type;
  (** [str::parse::<Uri>().ok()]. *)
  uri_parse : string → option Uri;
  uri_path : Uri → string;
  (** [uri.path_and_query().map(|x| x.as_str())]. *)
  uri_path_and_query : Uri → option string;
}.

(** [HeaderMap::get]: the first value of the name. *)
Definition hm_get `{Hyper} (h : HeaderMap) (name : string) : option HeaderValue :=
  head (hm_get_all h name).

Class HyperLaws `(Hyper) := {
  get_all_empty name : hm_get_all hm_empty name = [];
  get_all_insert h name v name' :
    hm_get_all (hm_insert h name v) name' = if decide (name' = name) then [v] else hm_get_all h name';
  get_all_remove h name name' :
    hm_get_all (hm_remove h name) name' = if decide (name' = name) then [] else hm_get_all h name';
  (** A visible string is a header value and is read back unchanged; [to_str]
      gives visible strings only. *)
  from_str_visible s : visible s = true → ∃ v, hv_from_str s = Some v ∧ hv_to_str v = Some s;
  to_str_visible v s : hv_to_str v = Some s → visible s = true;
}.

(** A request as hyper delivers it; the body is a stream read later.
    [remote_addr] is the [RemoteAddr] extension. *)
Record Request `{Hyper} := mk_request {
  req_method : string;
  req_uri : Uri;
  req_headers : HeaderMap;
  remote_addr : option IpAddr;
}.

(** A request the proxy sends, with its buffered body. *)
Record Outgoing `{Hyper} := mk_outgoing {
  out_method : string;
  out_uri : Uri;
  out_headers : HeaderMap;
  out_body : string;
}.

Record Response `{Hyper} := mk_response {
  resp_status : Z;
  resp_headers : HeaderMap;
  resp_body : string;
}.

Arguments mk_request {_} _ _ _ _.
Arguments mk_outgoing {_} _ _ _ _.
Arguments mk_response {_} _ _ _.

(** [Response::builder().status(s).body(b)]. *)
Definition build_response `{Hyper} (status : Z) (body : string) : Response :=
  mk_response status hm_empty body.

(** ** A small implementation *)

Module SimpleHyper.
Definition until (stop : ascii) : string → string :=
  fix go s := match s with
              | EmptyString => EmptyString
              | String c s' => if decide (c = stop) then EmptyString else String c (go s')
              end.

#[export] Instance simple_hyper : Hyper := {
  HeaderValue := string;
  HeaderMap := gmap string (list string);
  hm_get_all h name := default [] (h !! name);
  hm_empty := ∅;
  hm_insert h name v := <[name := [v]]> h;
  hm_remove h name := delete name h;
  hv_to_str v := if visible v then Some v else None;
  hv_from_str s := if visible s then Some s else None;
  Uri := string;
  uri_parse s := if String.eqb s "" then None else Some s;
  uri_path u := until "?"%char u;
  uri_path_and_query u := Some u;
}.

#[export] Instance simple_laws : HyperLaws simple_hyper.
Proof.
  split; simpl.
  - intros name. by rewrite lookup_empty.
  - intros h name v name'. case_decide; subst; by simplify_map_eq.
  - intros h name name'. case_decide; subst; by simplify_map_eq.
  - intros s Hs. exists s. by rewrite Hs.
  - intros v s. by destruct (visible v) eqn:Hv; intros; simplify_eq.
Qed.
End SimpleHyper.
