(* ===== verification/Errors.v ===== *)
(** Errors: [ProxyError] and its conversion to a response, from [errors.rs]. *)

From S2P Require Import Prelude Http.
Local Open Scope Z_scope.

Inductive ProxyError :=
| UpstreamFailure
| UpstreamTimeout
| NoRoute
| UpstreamFailed
| InvalidUri
| NoUpstream.

#[global] Instance proxy_error_eq_dec : EqDecision ProxyError.
Proof. solve_decision. Defined.

(** [Display for ProxyError]. *)
Definition error_to_string (e : ProxyError) : string :=
  match e with
  | UpstreamFailure => "Upstream failure"
  | UpstreamTimeout => "Upstream timeout"
  | NoRoute => "No route found"
  | UpstreamFailed => "Upstream request failed"
  | InvalidUri => "Invalid URI"
  | NoUpstream => "No upstream available"
  end.

Definition into_response `{Hyper} (e : ProxyError) : Response :=
  match e with
  | UpstreamFailure => build_response 502 "Bad Gateway"
  | UpstreamTimeout => build_response 504 "Gateway Timeout"
  | NoRoute => build_response 404 "No route found"
  | UpstreamFailed => build_response 502 "Upstream request failed"
  | InvalidUri => build_response 400 "Invalid URI"
  | NoUpstream => build_response 503 "No upstream available"
  end.
