(* ===== verification/Router.v ===== *)
(** Router: longest-prefix route matching, from [router.rs]. *)

From S2P Require Import Prelude Config Balancer.
From stdpp Require Import sorting.
From Stdlib Require Import Sorted Ascii.
Local Open Scope Z_scope.

Record Route := mk_route {
  prefix : string;
  upstreams : list string;
  balancer : AnyBalancer;
}.

Record Router := mk_router { router_routes : list Route }.

(** The closure [main], [apply_config] and [build_proxy] map over the configured
    routes. *)
Definition build_route (rc : RouteConfig) : Route :=
  mk_route (rc_prefix rc) (rc_upstream rc)
    (create_balancer (rc_strategy rc) (len (rc_upstream rc)) (rc_weights rc)).

Definition build_router (config : Config) : Router := mk_router (build_route <$> routes config).

(** [str::starts_with] and [str::len], on bytes. *)
Definition starts_with (s p : string) : bool := String.prefix p s.
Definition str_len (s : string) : Z := Z.of_nat (String.length s).

(** [str::strip_prefix]. *)
Definition strip_prefix (s p : string) : option string :=
  if starts_with s p then Some (String.substring (String.length p) (String.length s - String.length p) s)
  else None.

(** [Iterator::max_by_key]: the last of the greatest elements. *)
Definition max_by_key {A} (key : A → Z) (l : list A) : option A :=
  match l with
  | [] => None
  | x :: l' => Some (foldl (λ acc y, if decide (key y < key acc) then acc else y) x l')
  end.

(** A route by reference: its position in the router, and what it holds. *)
Definition match_route (r : Router) (path : string) : option (nat * Route) :=
  max_by_key (λ ir, str_len (prefix ir.2))
    (filter (λ ir, starts_with path (prefix ir.2) = true)
       (imap pair (router_routes r))).

(** ** Correctness *)

Lemma max_by_key_spec {A} (key : A → Z) (l : list A) :
  match max_by_key key l with
  | None => l = []
  | Some x => ∃ l1 l2, l = l1 ++ x :: l2 ∧ (∀ y, y ∈ l1 → key y ≤ key x)
                       ∧ (∀ y, y ∈ l2 → key y < key x)
  end.
Proof.
  destruct l as [|x l]; [done|]. simpl.
  induction l as [|y l IH] using rev_ind; simpl.
  - exists [], []. by split_and!; [|intros ? ?%not_elem_of_nil..].
  - rewrite foldl_app. simpl. set (m := foldl _ x l) in *.
    destruct IH as (l1 & l2 & Heq & H1 & H2).
    case_decide as Hy.
    + exists l1, (l2 ++ [y]). split_and!; [|done|].
      * change (x :: l ++ [y]) with ((x :: l) ++ [y]). rewrite Heq. by rewrite <-app_assoc.
      * intros z [Hz|Hz%list_elem_of_singleton]%elem_of_app; [auto|by subst].
    + exists (x :: l), []. split_and!; [done| |intros ? ?%not_elem_of_nil; done].
      intros z. rewrite Heq, elem_of_app, elem_of_cons.
      intros [Hz|[->|Hz]]; [specialize (H1 z Hz)| |specialize (H2 z Hz)]; lia.
Qed.

Lemma elem_of_indexed {A} (l : list A) i x : (i, x) ∈ imap pair l ↔ l !! i = Some x.
Proof.
  rewrite list_elem_of_lookup. setoid_rewrite list_lookup_imap. split.
  - intros (j & Hj). destruct (l !! j) as [y|] eqn:Hy; simplify_eq/=. done.
  - intros Hx. exists i. by rewrite Hx.
Qed.

Lemma indexed_sorted {A} (l : list A) off :
  StronglySorted (λ x y, (x.1 < y.1)%nat) (imap (λ i x, ((off + i)%nat, x)) l).
Proof.
  revert off. induction l as [|x l IH]; intros off; simpl; [constructor|]. constructor.
  - rewrite (imap_ext _ (λ i y, ((S off + i)%nat, y))); [apply IH|].
    intros i y _. simpl. f_equal. lia.
  - apply Forall_forall. intros [j y] (k & z & ? & _)%elem_of_lookup_imap. simplify_eq/=. lia.
Qed.

Lemma sorted_filter {A} (R : A → A → Prop) P `{∀ x, Decision (P x)} (l : list A) :
  StronglySorted R l → StronglySorted R (filter P l).
Proof.
  induction 1 as [|x l Hl IH Hx]; [constructor|]. rewrite filter_cons.
  case_decide; [|done]. constructor; [done|]. rewrite Forall_forall in Hx |- *.
  intros y [_ Hy]%list_elem_of_filter. auto.
Qed.

Lemma match_route_lookup (r : Router) (path : string) i route :
  match_route r path = Some (i, route) → router_routes r !! i = Some route.
Proof.
  unfold match_route. intros Hm. pose proof (max_by_key_spec (λ ir : nat * Route, str_len (prefix ir.2))
    (filter (λ ir, starts_with path (prefix ir.2) = true) (imap pair (router_routes r)))) as Hspec.
  rewrite Hm in Hspec. destruct Hspec as (l1 & l2 & Heq & _).
  assert ((i, route) ∈ l1 ++ (i, route) :: l2) as Hin by (rewrite elem_of_app, elem_of_cons; auto).
  rewrite <-Heq in Hin. apply list_elem_of_filter in Hin as [_ Hin]. by apply elem_of_indexed.
Qed.

(** C21. Routing is longest-prefix matching: the chosen route's prefix starts the
    path, no matching route has a longer prefix, and among equals the one
    listed last wins; no route is chosen only when none matches. *)
Theorem match_route_longest_prefix (r : Router) (path : string) :
  match match_route r path with
  | None => ∀ route, route ∈ router_routes r → starts_with path (prefix route) = false
  | Some (i, route) =>
      router_routes r !! i = Some route ∧ starts_with path (prefix route) = true ∧
      ∀ j other, router_routes r !! j = Some other → starts_with path (prefix other) = true →
        str_len (prefix other) ≤ str_len (prefix route)
        ∧ ((i < j)%nat → str_len (prefix other) < str_len (prefix route))
  end.
Proof.
  unfold match_route. set (key := λ ir : nat * Route, str_len (prefix ir.2)).
  set (cands := filter _ (imap pair (router_routes r))).
  assert (∀ i x, (i, x) ∈ cands ↔ starts_with path (prefix x) = true ∧ router_routes r !! i = Some x)
    as Hin by (intros i x; unfold cands; by rewrite list_elem_of_filter, elem_of_indexed).
  pose proof (max_by_key_spec key cands) as Hmax.
  destruct (max_by_key key cands) as [[i route]|].
  - destruct Hmax as (l1 & l2 & Heq & H1 & H2).
    assert ((i, route) ∈ cands) as [Hp Hi]%Hin by (rewrite Heq, elem_of_app, elem_of_cons; auto).
    split_and!; [done|done|]. intros j other Hj Hother.
    assert ((j, other) ∈ cands) as Hjin by (by apply Hin).
    rewrite Heq, elem_of_app, elem_of_cons in Hjin.
    assert (StronglySorted (λ x y, (x.1 < y.1)%nat) cands) as Hsort
      by (apply sorted_filter, (indexed_sorted _ 0)).
    destruct Hjin as [Hjin|[[= -> ->]|Hjin]].
    + pose proof (H1 _ Hjin). rewrite Heq in Hsort.
      pose proof (StronglySorted_app_1_elem_of _ _ _ _ _ Hsort Hjin (list_elem_of_here _ _)).
      unfold key in *. simpl in *. lia.
    + split; lia.
    + specialize (H2 _ Hjin). unfold key in *. simpl in *. lia.
  - intros route (i & Hi)%list_elem_of_lookup.
    destruct (starts_with path (prefix route)) eqn:Hp; [|done].
    assert ((i, route) ∈ cands) as Hc by (by apply Hin). rewrite Hmax in Hc.
    by apply not_elem_of_nil in Hc.
Qed.

(** ** Prefixes *)

Lemma starts_with_app s p : starts_with s p = true ↔ ∃ r, s = p +:+ r.
Proof.
  unfold starts_with. revert s. induction p as [|c p IH]; intros s.
  - split; [eauto|]. by destruct s.
  - destruct s as [|c' s]; simpl; [split; [done|by intros (r & ?)]|].
    destruct (ascii_dec c c') as [->|Hne].
    + rewrite IH. split; intros (r & Hr); exists r; [by rewrite Hr|by injection Hr].
    + split; [done|]. intros (r & Hr). by injection Hr.
Qed.

Lemma substring_all s : String.substring 0 (String.length s) s = s.
Proof. induction s as [|c s IH]; simpl; [done|]. by rewrite IH. Qed.

Lemma strip_prefix_app p r : strip_prefix (p +:+ r) p = Some r.
Proof.
  unfold strip_prefix. rewrite (proj2 (starts_with_app _ _)) by eauto. f_equal.
  induction p as [|c p IH]; simpl; [by rewrite Nat.sub_0_r, substring_all|done].
Qed.

Lemma strip_prefix_none s p : starts_with s p = false → strip_prefix s p = None.
Proof. intros Hs. unfold strip_prefix. by rewrite Hs. Qed.
