(* ===== verification/Health.v ===== *)
(** Health: the passive health tracker of [health.rs].

    Per upstream, a count of consecutive failures and the instant it was marked
    unhealthy; [HealthTracker] holds them in a map behind a mutex. *)

From S2P Require Import Prelude.
Local Open Scope Z_scope.

Record UpstreamHealth := mk_upstream_health {
  consecutive_failures : Z; (* u32 *)
  marked_unhealthy_at : option Instant;
}.

Abbreviation health_map := (gmap string UpstreamHealth).

Record HealthTracker := mk_health_tracker {
  ht_state : Mutex health_map;
  ht_failure_threshold : Z; (* u32 *)
  ht_cooldown : Duration;
}.

Definition health_new (failure_threshold : Z) (cooldown : Duration) : HealthTracker :=
  mk_health_tracker (mutex_new ∅) failure_threshold cooldown.

Definition fresh_health : UpstreamHealth := mk_upstream_health 0 None.

(** Runs a critical section of the tracker. *)
Definition locked {B} (self : HealthTracker) (body : health_map → health_map * outcome B) :
  HealthTracker * outcome B :=
  let '(m, r) := with_lock (ht_state self) body in
  (mk_health_tracker m (ht_failure_threshold self) (ht_cooldown self), r).

Section operations.
Context `{Platform}.

(** The entry after one more failure at [now]. *)
Definition fail_entry (threshold : Z) (now : Instant) (e : UpstreamHealth) :
  UpstreamHealth * outcome unit :=
  match add_w 32 (consecutive_failures e) 1 with
  | Panicked => (e, Panicked)
  | Value n =>
      (if decide (threshold ≤ n)
       then mk_upstream_health threshold (Some now)
       else mk_upstream_health n (marked_unhealthy_at e), Value tt)
  end.

Definition record_failure (self : HealthTracker) (upstream : string) (now : Instant) :
  HealthTracker * outcome unit :=
  locked self (λ state,
    let entry := default fresh_health (state !! upstream) in
    let '(entry', r) := fail_entry (ht_failure_threshold self) now entry in
    (<[upstream := entry']> state, r)).

Definition record_success (self : HealthTracker) (upstream : string) :
  HealthTracker * outcome unit :=
  locked self (λ state,
    match state !! upstream with
    | Some _ => (<[upstream := fresh_health]> state, Value tt)
    | None => (state, Value tt)
    end).

(** Reads the clock only when the upstream is marked; an expired mark is
    cleared on the way. *)
Definition is_healthy (self : HealthTracker) (upstream : string) (now : Instant) :
  HealthTracker * outcome bool :=
  locked self (λ state,
    match state !! upstream with
    | None => (state, Value true)
    | Some entry =>
        match marked_unhealthy_at entry with
        | None => (state, Value true)
        | Some marked_at =>
            if decide (ht_cooldown self ≤ duration_since now marked_at)
            then (<[upstream := fresh_health]> state, Value true)
            else (state, Value false)
        end
    end).
End operations.

(** ** The invariant

    Below the threshold an upstream is unmarked, and a marked upstream sits
    exactly at the threshold: the count never grows past it. *)
Definition entry_ok (threshold : Z) (e : UpstreamHealth) : Prop :=
  match marked_unhealthy_at e with
  | None => 0 ≤ consecutive_failures e ∧ (consecutive_failures e = 0 ∨ consecutive_failures e < threshold)
  | Some _ => consecutive_failures e = threshold
  end.

Definition health_ok (self : HealthTracker) : Prop :=
  poisoned (ht_state self) = false ∧
  0 ≤ ht_failure_threshold self < 2 ^ 32 - 1 ∧
  map_Forall (λ _, entry_ok (ht_failure_threshold self)) (guarded (ht_state self)).

(** The entry of an upstream; one never seen counts as fresh. *)
Definition entry_of (self : HealthTracker) (u : string) : UpstreamHealth :=
  default fresh_health (guarded (ht_state self) !! u).

(** Same configuration. *)
Definition same_config (a b : HealthTracker) : Prop :=
  ht_failure_threshold a = ht_failure_threshold b ∧ ht_cooldown a = ht_cooldown b.

Lemma fresh_ok t : 0 ≤ t → entry_ok t fresh_health.
Proof. intros Ht. unfold entry_ok. simpl. lia. Qed.

Lemma entry_of_ok self u : health_ok self → entry_ok (ht_failure_threshold self) (entry_of self u).
Proof.
  intros (_ & Ht & Hall). unfold entry_of. destruct (_ !! u) as [e|] eqn:He; simpl.
  - exact (map_Forall_lookup_1 _ _ _ _ Hall He).
  - apply fresh_ok. lia.
Qed.

Section correctness.
Context `{Platform}.

Lemma fail_entry_ok t now e : 0 ≤ t < 2 ^ 32 - 1 → entry_ok t e →
  ∃ e', fail_entry t now e = (e', Value tt) ∧ entry_ok t e' ∧
    e' = if decide (t ≤ consecutive_failures e + 1) then mk_upstream_health t (Some now)
         else mk_upstream_health (consecutive_failures e + 1) (marked_unhealthy_at e).
Proof.
  intros Ht He. unfold fail_entry, add_w.
  assert (0 ≤ consecutive_failures e ≤ t) as Hc.
  { unfold entry_ok in He. destruct (marked_unhealthy_at e); lia. }
  rewrite checked_fits by (unfold in_width; lia).
  eexists. split_and!; [done| |done]. unfold entry_ok in *.
  case_decide; simpl; [done|]. destruct (marked_unhealthy_at e); lia.
Qed.

(** What each operation does to the tracker, in a well-formed state. *)
Lemma record_failure_spec self u now : health_ok self →
  ∃ self', record_failure self u now = (self', Value tt) ∧ health_ok self' ∧ same_config self self' ∧
    (let t := ht_failure_threshold self in let e := entry_of self u in
     entry_of self' u = if decide (t ≤ consecutive_failures e + 1)
                        then mk_upstream_health t (Some now)
                        else mk_upstream_health (consecutive_failures e + 1) (marked_unhealthy_at e)) ∧
    ∀ v, v ≠ u → entry_of self' v = entry_of self v.
Proof.
  intros Hok. pose proof (entry_of_ok self u Hok) as He. destruct Hok as (Hp & Ht & Hall).
  destruct (fail_entry_ok _ now _ Ht He) as (e' & Hf & He' & Heq).
  unfold record_failure, locked, with_lock. rewrite Hp. fold (entry_of self u). rewrite Hf.
  eexists. split_and!; [done|split_and!; simpl; [done|lia|lia|]|done| |].
  - by apply map_Forall_insert_2.
  - unfold entry_of at 1. simpl. rewrite lookup_insert_eq. done.
  - intros v Hv. unfold entry_of. simpl. by rewrite lookup_insert_ne.
Qed.

Lemma record_success_spec self u : health_ok self →
  ∃ self', record_success self u = (self', Value tt) ∧ health_ok self' ∧ same_config self self' ∧
    entry_of self' u = fresh_health ∧ ∀ v, v ≠ u → entry_of self' v = entry_of self v.
Proof.
  intros (Hp & Ht & Hall). unfold record_success, locked, with_lock. rewrite Hp.
  destruct (guarded (ht_state self) !! u) as [e|] eqn:He.
  - eexists. split_and!; [done|split_and!; simpl; [done|lia|lia|]|done| |].
    + apply map_Forall_insert_2; [apply fresh_ok; lia|done].
    + unfold entry_of. simpl. by rewrite lookup_insert_eq.
    + intros v Hv. unfold entry_of. simpl. by rewrite lookup_insert_ne.
  - eexists. split_and!; [done|split_and!; simpl; done || lia|done| |done].
    unfold entry_of. simpl. by rewrite He.
Qed.

(** An upstream is healthy unless it is marked and its cooldown runs. *)
Definition healthy_entry (cooldown : Duration) (now : Instant) (e : UpstreamHealth) : bool :=
  match marked_unhealthy_at e with
  | None => true
  | Some m => bool_decide (cooldown ≤ duration_since now m)
  end.

Lemma is_healthy_spec self u now : health_ok self →
  let h := healthy_entry (ht_cooldown self) now (entry_of self u) in
  ∃ self', is_healthy self u now = (self', Value h) ∧ health_ok self' ∧ same_config self self' ∧
    entry_of self' u = (if h then
        match marked_unhealthy_at (entry_of self u) with
        | Some _ => fresh_health | None => entry_of self u end
      else entry_of self u) ∧
    ∀ v, v ≠ u → entry_of self' v = entry_of self v.
Proof.
  intros Hok. pose proof Hok as (Hp & Ht & Hall).
  unfold is_healthy, locked, with_lock, healthy_entry. rewrite Hp.
  assert (Heq : entry_of self u = default fresh_health (guarded (ht_state self) !! u)) by done.
  assert (Hsame : health_ok (mk_health_tracker (mk_mutex (guarded (ht_state self)) false)
            (ht_failure_threshold self) (ht_cooldown self))) by done.
  destruct (guarded (ht_state self) !! u) as [e|] eqn:He; simpl in Heq; rewrite !Heq.
  2: { eexists. split_and!; [done|exact Hsame|done| |done]. exact Heq. }
  destruct (marked_unhealthy_at e) as [m|] eqn:Hm.
  2: { eexists. split_and!; [done|exact Hsame|done| |done]. exact Heq. }
  case_decide as Hc.
  - rewrite bool_decide_true by done.
    eexists. split_and!; [done|split_and!; simpl; [done|lia|lia|]|done| |].
    + apply map_Forall_insert_2; [apply fresh_ok; lia|done].
    + unfold entry_of. simpl. by rewrite lookup_insert_eq.
    + intros v Hv. unfold entry_of. simpl. by rewrite lookup_insert_ne.
  - rewrite bool_decide_false by done.
    eexists. split_and!; [done|exact Hsame|done| |done]. exact Heq.
Qed.
End correctness.

(** ** Histories *)

(** The calls the proxy makes on the tracker, with the clock they read. *)
Inductive health_op :=
| HFailure (u : string) (now : Instant)
| HSuccess (u : string)
| HCheck (u : string) (now : Instant).

Section histories.
Context `{Platform}.

Definition health_step (self : HealthTracker) (op : health_op) : HealthTracker * outcome bool :=
  match op with
  | HFailure u now => let '(s, r) := record_failure self u now in (s, (λ _, true) <$> r)
  | HSuccess u => let '(s, r) := record_success self u in (s, (λ _, true) <$> r)
  | HCheck u now => is_healthy self u now
  end.

Definition health_run (self : HealthTracker) (ops : list health_op) : HealthTracker :=
  foldl (λ s op, (health_step s op).1) self ops.

Definition op_upstream (op : health_op) : string :=
  match op with HFailure u _ | HSuccess u | HCheck u _ => u end.

Lemma health_step_ok self op : health_ok self →
  health_ok (health_step self op).1 ∧ same_config self (health_step self op).1
  ∧ (health_step self op).2 ≠ Panicked
  ∧ ∀ v, v ≠ op_upstream op → entry_of (health_step self op).1 v = entry_of self v.
Proof.
  intros Hok. destruct op as [u now|u|u now]; simpl.
  - destruct (record_failure_spec self u now Hok) as (s' & -> & ? & ? & _ & ?). done.
  - destruct (record_success_spec self u Hok) as (s' & -> & ? & ? & _ & ?). done.
  - destruct (is_healthy_spec self u now Hok) as (s' & -> & ? & ? & _ & ?). done.
Qed.

Lemma health_run_app self ops1 ops2 :
  health_run self (ops1 ++ ops2) = health_run (health_run self ops1) ops2.
Proof. apply foldl_app. Qed.

Lemma health_run_ok self ops : health_ok self →
  health_ok (health_run self ops) ∧ same_config self (health_run self ops).
Proof.
  revert self. induction ops as [|op ops IH]; intros self Hok; [done|]. simpl.
  destruct (health_step_ok self op Hok) as (Hok' & [Hc1 Hc2] & _).
  destruct (IH _ Hok') as [? [Hc3 Hc4]]. split; [done|]. split; congruence.
Qed.

(** Every history of calls on a new tracker keeps its invariant (a count
    never above the threshold, a mark exactly at it, an unpoisoned lock), and
    no call panics, for every threshold below the largest [u32]. *)
Theorem health_never_panics (threshold : Z) (cooldown : Duration) (ops : list health_op)
    (op : health_op) :
  0 ≤ threshold < 2 ^ 32 - 1 →
  health_ok (health_run (health_new threshold cooldown) ops) ∧
  (health_step (health_run (health_new threshold cooldown) ops) op).2 ≠ Panicked.
Proof.
  intros Ht. destruct (health_run_ok (health_new threshold cooldown) ops) as [Hok _].
  - split_and!; simpl; try done || lia.
  - split; [done|]. by apply health_step_ok.
Qed.

(** The instants of the failures of [u] in a history. *)
Definition failures_of (u : string) : list health_op → list Instant :=
  omap (λ op, match op with
              | HFailure v now => if decide (v = u) then Some now else None
              | _ => None
              end).

(** [u] only fails in this history; other upstreams are unconstrained. *)
Definition only_fails (u : string) (ops : list health_op) : Prop :=
  Forall (λ op, op_upstream op = u → match op with HFailure _ _ => True | _ => False end) ops.

Definition entry_after (threshold : Z) (ts : list Instant) : UpstreamHealth :=
  match last ts with
  | None => fresh_health
  | Some t => if decide (threshold ≤ len ts) then mk_upstream_health threshold (Some t)
              else mk_upstream_health (len ts) None
  end.

Lemma entry_after_snoc threshold ts now :
  let e := entry_after threshold ts in
  (if decide (threshold ≤ consecutive_failures e + 1) then mk_upstream_health threshold (Some now)
   else mk_upstream_health (consecutive_failures e + 1) (marked_unhealthy_at e))
  = entry_after threshold (ts ++ [now]).
Proof.
  unfold entry_after. rewrite last_snoc. unfold len. rewrite length_app. simpl.
  destruct ts as [|t ts] using rev_ind; simpl; [by repeat case_decide; try lia|].
  rewrite last_snoc, length_app. simpl. clear IHts.
  repeat (case_decide; simpl in * ); try lia; try done.
  f_equal; lia.
Qed.

Lemma failures_entry self u ops : health_ok self → entry_of self u = fresh_health →
  only_fails u ops →
  entry_of (health_run self ops) u = entry_after (ht_failure_threshold self) (failures_of u ops).
Proof.
  intros Hok Hfresh. induction ops as [|op ops IH] using rev_ind; intros Honly; [done|].
  apply Forall_app in Honly as [Hops [Hop _]%Forall_cons_1]. specialize (IH Hops).
  destruct (health_run_ok self ops Hok) as [Hok' [Hcfg _]].
  rewrite health_run_app. simpl. unfold failures_of. rewrite omap_app. fold (failures_of u).
  destruct (decide (op_upstream op = u)) as [Hu|Hu].
  - specialize (Hop Hu). destruct op as [v now|v|v now]; try done. simpl in Hu |- *. subst v.
    rewrite decide_True by done.
    destruct (record_failure_spec (health_run self ops) u now Hok') as (s' & -> & _ & _ & He & _).
    simpl. rewrite He, IH, <-Hcfg. apply entry_after_snoc.
  - destruct (health_step_ok (health_run self ops) op Hok') as (_ & _ & _ & Hother).
    rewrite Hother, IH by congruence. f_equal.
    destruct op; simpl in *; try rewrite decide_False by done; by rewrite app_nil_r.
Qed.

(** An upstream with these failures on record. *)
Lemma healthy_after_failures cooldown now threshold ts :
  healthy_entry cooldown now (entry_after threshold ts)
  = match last ts with
    | None => true
    | Some t => bool_decide (len ts < threshold) || bool_decide (cooldown ≤ duration_since now t)
    end.
Proof.
  unfold healthy_entry, entry_after. destruct (last ts) as [t|]; [|done]. case_decide; simpl.
  - by rewrite (bool_decide_false (_ < _)) by lia.
  - by rewrite (bool_decide_true (_ < _)) by lia.
Qed.

(** The circuit breaker: once an upstream has succeeded, it is reported
    unhealthy exactly while it has since failed at least [threshold] times
    (at least once) and less than the cooldown has passed since the last of
    those failures, whatever happens to other upstreams meanwhile. *)
Theorem health_circuit_breaker (self : HealthTracker) (u : string) (ops : list health_op)
    (now : Instant) :
  health_ok self → only_fails u ops →
  (health_step (health_run self (HSuccess u :: ops)) (HCheck u now)).2
  = Value match last (failures_of u ops) with
          | None => true
          | Some t => bool_decide (len (failures_of u ops) < ht_failure_threshold self)
                      || bool_decide (ht_cooldown self ≤ duration_since now t)
          end.
Proof.
  intros Hok Honly. cbn [health_run foldl].
  destruct (record_success_spec self u Hok) as (s1 & Hs1 & Hok1 & [Hc1 Hc2] & Hf & _).
  simpl. rewrite Hs1. simpl. fold (health_run s1 ops).
  destruct (health_run_ok s1 ops Hok1) as [Hok2 [Hc3 Hc4]].
  destruct (is_healthy_spec (health_run s1 ops) u now Hok2) as (s' & -> & _).
  simpl. f_equal. rewrite (failures_entry s1 u ops Hok1 Hf Honly), healthy_after_failures.
  by rewrite Hc1, <-Hc4, Hc2.
Qed.
End histories.

(** ** Witnesses *)

(** Three failures open the circuit for thirty seconds. *)
Definition three_failures : list health_op :=
  [HFailure "a" 0; HFailure "b" 1; HFailure "a" 2; HFailure "a" 3].

Lemma health_never_panics_witness :
  health_ok (health_run (H := release_build) (health_new 3 (from_secs 30)) three_failures).
Proof.
  apply (proj1 (health_never_panics (H := release_build) 3 (from_secs 30) three_failures (HSuccess "a")
    ltac:(lia))).
Defined.

Lemma health_circuit_breaker_witness :
  (health_step (H := release_build) (health_run (H := release_build) (health_new 3 (from_secs 30))
     (HSuccess "a" :: three_failures)) (HCheck "a" 4)).2 = Value false.
Proof.
  rewrite (health_circuit_breaker (H := release_build) (health_new 3 (from_secs 30)) "a" three_failures 4).
  - vm_compute. reflexivity.
  - split_and!; simpl; [reflexivity|lia|lia|]. apply map_Forall_empty.
  - repeat constructor; simpl; try discriminate; exact I.
Defined.
