(* ===== verification/Breaker.v ===== *)
(** Breaker: the abstract specification of the health tracker.

    Each upstream has a circuit breaker of its own: closed with a count of
    consecutive failures, or open since an instant.  The tracker of [Health], one
    map behind a mutex with capped counts and optional marks, refines it. *)

From S2P Require Import Prelude Health.
Local Open Scope Z_scope.

Inductive Breaker :=
| Closed (failures : Z)
| Open (since : Instant).

Section breaker.
Context (threshold : Z) (cooldown : Duration).

(** Whether a breaker lets a call through. *)
Definition admits (b : Breaker) (now : Instant) : bool :=
  match b with
  | Closed _ => true
  | Open since => bool_decide (cooldown ≤ duration_since now since)
  end.

(** A failure counts, and opens the breaker at the threshold or renews the time
    it is open; a success closes it, and so does a call let through by an open
    breaker. *)
Definition breaker_step (b : Breaker) (op : health_op) : Breaker :=
  match op with
  | HFailure _ now =>
      match b with
      | Closed n => if decide (threshold ≤ n + 1) then Open now else Closed (n + 1)
      | Open _ => Open now
      end
  | HSuccess _ => Closed 0
  | HCheck _ now =>
      match b with
      | Closed n => Closed n
      | Open since => if admits (Open since) now then Closed 0 else Open since
      end
  end.

(** The breaker of an upstream after a history of calls on all of them. *)
Definition breaker_run (u : string) (b : Breaker) (ops : list health_op) : Breaker :=
  foldl breaker_step b (filter (λ op, op_upstream op = u) ops).
End breaker.

Definition breaker_of (e : UpstreamHealth) : Breaker :=
  match marked_unhealthy_at e with
  | Some since => Open since
  | None => Closed (consecutive_failures e)
  end.

(** The breaker the tracker keeps for an upstream. *)
Definition breaker (self : HealthTracker) (u : string) : Breaker := breaker_of (entry_of self u).

Section refinement.
Context `{Platform}.

Lemma breaker_step_refines self op u : health_ok self →
  breaker (health_step self op).1 u
  = if decide (op_upstream op = u)
    then breaker_step (ht_failure_threshold self) (ht_cooldown self) (breaker self u) op
    else breaker self u.
Proof.
  intros Hok. destruct (health_step_ok self op Hok) as (_ & _ & _ & Hother). unfold breaker.
  case_decide as Hu; [|by rewrite Hother by congruence].
  pose proof (entry_of_ok self u Hok) as He. unfold entry_ok in He. unfold breaker_of.
  destruct op as [v now|v|v now]; simpl in Hu |- *; subst v.
  - destruct (record_failure_spec self u now Hok) as (s & -> & _ & _ & Hs & _). simpl. rewrite Hs.
    destruct (marked_unhealthy_at (entry_of self u)) eqn:Hm; simpl.
    + by rewrite decide_True by lia.
    + by case_decide; simpl; rewrite ?Hm.
  - destruct (record_success_spec self u Hok) as (s & -> & _ & _ & Hs & _). simpl. by rewrite Hs.
  - destruct (is_healthy_spec self u now Hok) as (s & -> & _ & _ & Hs & _). simpl. rewrite Hs.
    unfold healthy_entry. destruct (marked_unhealthy_at (entry_of self u)) eqn:Hm; simpl.
    + by case_bool_decide; simpl; rewrite ?Hm.
    + by rewrite ?Hm.
Qed.

Lemma check_refines self u now : health_ok self →
  (health_step self (HCheck u now)).2 = Value (admits (ht_cooldown self) (breaker self u) now).
Proof.
  intros Hok. destruct (is_healthy_spec self u now Hok) as (s & Hs & _). cbn [health_step]. rewrite Hs.
  unfold healthy_entry, breaker, breaker_of. simpl. by destruct (marked_unhealthy_at _).
Qed.

Lemma breaker_run_refines self ops u : health_ok self →
  breaker (health_run self ops) u
  = breaker_run (ht_failure_threshold self) (ht_cooldown self) u (breaker self u) ops.
Proof.
  intros Hok. induction ops as [|op ops IH] using rev_ind; [done|].
  rewrite health_run_app. destruct (health_run_ok self ops Hok) as [Hok' [Hc1 Hc2]].
  change (health_run (health_run self ops) [op]) with (health_step (health_run self ops) op).1.
  rewrite (breaker_step_refines _ op u Hok'), <-Hc1, <-Hc2, IH.
  unfold breaker_run. rewrite filter_app, foldl_app. simpl. rewrite filter_cons. by case_decide.
Qed.

(** C26. The health tracker refines one circuit breaker per upstream: after any
    history of failures, successes and checks, each upstream's entry is that of
    its breaker run on its own calls alone, and a check answers what the breaker
    admits: everything while it is closed (fewer than [threshold] failures in a
    row), and a call once [cooldown] has passed since the last failure while it
    is open, which closes it again. *)
Theorem health_refines_breakers (self : HealthTracker) (ops : list health_op) (u : string) (now : Instant) :
  health_ok self →
  let b := breaker_run (ht_failure_threshold self) (ht_cooldown self) u (breaker self u) ops in
  breaker (health_run self ops) u = b ∧
  (health_step (health_run self ops) (HCheck u now)).2 = Value (admits (ht_cooldown self) b now).
Proof.
  intros Hok b. destruct (health_run_ok self ops Hok) as [Hok' [_ Hc]].
  rewrite (check_refines _ u now Hok'), <-Hc, (breaker_run_refines self ops u Hok). done.
Qed.
End refinement.

(** ** Witness: a breaker that opens, lets a call through and closes *)

Definition breaker_history : list health_op :=
  [HFailure "a" 0; HSuccess "b"; HFailure "a" 1; HFailure "a" 2; HCheck "a" 3; HCheck "a" (from_secs 40)].

Lemma health_refines_breakers_witness :
  breaker (health_run (H := release_build) (health_new 3 (from_secs 30)) breaker_history) "a" = Closed 0.
Proof.
  refine (eq_trans (proj1 (health_refines_breakers (H := release_build) (health_new 3 (from_secs 30))
    breaker_history "a" 0 _)) _); [|vm_compute; reflexivity].
  split_and!; simpl; [reflexivity|discriminate|reflexivity|]. apply map_Forall_empty.
Defined.
