(* ===== verification/RetryBudget.v ===== *)
(** RetryBudget: the sliding-window retry budget of [retry_budget.rs].

    The instants of recent requests and granted retries sit behind one mutex; a
    retry is granted while the retries of the window stay below a percentage of
    its requests. *)

From S2P Require Import Prelude Float64.
Local Open Scope Z_scope.

Record BudgetState := mk_budget_state {
  requests : list Instant;
  retries : list Instant;
}.

Record RetryBudget := mk_retry_budget {
  rb_state : Mutex BudgetState;
  budget_percent : f64;
  window : Duration;
}.

Definition budget_new (percent : f64) (window_secs : Z) : RetryBudget :=
  mk_retry_budget (mutex_new (mk_budget_state [] [])) percent (from_secs window_secs).

Definition budget_locked {B} (self : RetryBudget)
    (body : BudgetState → BudgetState * outcome B) : RetryBudget * outcome B :=
  let '(m, r) := with_lock (rb_state self) body in
  (mk_retry_budget m (budget_percent self) (window self), r).

Definition record_request (self : RetryBudget) (now : Instant) : RetryBudget * outcome unit :=
  budget_locked self (λ state,
    (mk_budget_state (requests state ++ [now]) (retries state), Value tt)).

(** [(total as f64 * percent / 100.0).ceil() as usize]. *)
Definition max_retries_of (percent : f64) (total : Z) : Z :=
  f64_to_usize (f64_ceil (f64_div (f64_mul (f64_of_Z total) percent) (f64_of_Z 100))).

(** [Vec::retain] of the instants after the cutoff. *)
Definition after (cutoff : Instant) (ts : list Instant) : list Instant :=
  filter (λ t, cutoff < t) ts.

(** [clk 0] is read for the cutoff, [clk 1] for the retry granted. *)
Definition allow_retry `{Platform} (self : RetryBudget) (clk : Readings) :
  RetryBudget * outcome bool :=
  budget_locked self (λ state,
    match instant_sub (clk 0%nat) (window self) with
    | Panicked => (state, Panicked)
    | Value cutoff =>
        let reqs := after cutoff (requests state) in
        let rets := after cutoff (retries state) in
        let total := len reqs in
        if decide (total = 0) then (mk_budget_state reqs rets, Value true)
        else if decide (len rets < max_retries_of (budget_percent self) total)
        then (mk_budget_state reqs (rets ++ [clk 1%nat]), Value true)
        else (mk_budget_state reqs rets, Value false)
    end).

(** ** The limit *)

(** For a whole percentage the limit the code computes in floating point is
    the exact one: [ceil (total * percent / 100)]. *)
Lemma max_retries_spec (p total : Z) :
  0 ≤ p → 0 ≤ total → total * p < 2 ^ 51 → p < 2 ^ 53 → total < 2 ^ 53 →
  max_retries_of (f64_of_Z p) total = (total * p + 99) / 100.
Proof.
  intros Hp Ht Htp Hp' Ht'. unfold max_retries_of.
  rewrite !f64_of_Z_int, f64_mul_int by lia. apply ceil_div_100. nia.
Qed.

(** ** Histories *)

Inductive budget_op :=
| BRequest (now : Instant)
| BRetry (clk : Readings).

Section histories.
Context `{Platform}.

Definition budget_step (self : RetryBudget) (op : budget_op) : RetryBudget * outcome bool :=
  match op with
  | BRequest now => let '(s, r) := record_request self now in (s, (λ _, false) <$> r)
  | BRetry clk => allow_retry self clk
  end.

Definition budget_run (self : RetryBudget) (ops : list budget_op) : RetryBudget :=
  foldl (λ s op, (budget_step s op).1) self ops.

(** The number of retries granted along a history. *)
Fixpoint granted (self : RetryBudget) (ops : list budget_op) : Z :=
  match ops with
  | [] => 0
  | op :: ops' =>
      (match (budget_step self op).2 with Value true => 1 | _ => 0 end)
      + granted (budget_step self op).1 ops'
  end.

Definition is_request (op : budget_op) : bool :=
  match op with BRequest _ => true | BRetry _ => false end.

Definition request_count (ops : list budget_op) : Z :=
  len (filter (λ op, is_request op = true) ops).

(** Every clock reading of the call lies in an interval. *)
Definition reads_in (lo hi : Instant) (op : budget_op) : Prop :=
  match op with
  | BRequest now => lo ≤ now < hi
  | BRetry clk => ∀ n, lo ≤ clk n < hi
  end.

(** Inside one window nothing expires. *)
Lemma after_all cutoff ts : Forall (λ t, cutoff < t) ts → after cutoff ts = ts.
Proof.
  unfold after. induction 1 as [|t ts Ht _ IH]; [done|].
  rewrite filter_cons_True by done. by rewrite IH.
Qed.

Definition in_window (lo : Instant) (w : Duration) (self : RetryBudget) : Prop :=
  poisoned (rb_state self) = false ∧ window self = w ∧
  Forall (λ t, lo ≤ t) (requests (guarded (rb_state self))) ∧
  Forall (λ t, lo ≤ t) (retries (guarded (rb_state self))).

Lemma allow_retry_in_window lo w self clk : in_window lo w self → instant_min ≤ lo - w →
  (∀ n, lo ≤ clk n < lo + w) →
  let st := guarded (rb_state self) in
  let total := len (requests st) in
  allow_retry self clk =
    (if decide (total = 0) then (self, Value true)
     else if decide (len (retries st) < max_retries_of (budget_percent self) total)
     then (mk_retry_budget (mk_mutex (mk_budget_state (requests st) (retries st ++ [clk 1%nat])) false)
             (budget_percent self) w, Value true)
     else (self, Value false)).
Proof.
  intros (Hp & Hw & Hreq & Hret) Hmin Hclk. pose proof (Hclk 0%nat).
  unfold allow_retry, budget_locked, with_lock, instant_sub. rewrite Hp, Hw.
  rewrite decide_True by lia.
  rewrite !after_all by (eapply Forall_impl; [done|simpl; lia]).
  destruct self as [[[reqs rets] ps] pct win]. simpl in *. subst.
  by repeat case_decide.
Qed.

Lemma max_retries_mono p t1 t2 : 0 ≤ p → p < 2 ^ 53 → 0 ≤ t1 ≤ t2 → t2 * p < 2 ^ 51 → t2 < 2 ^ 53 →
  max_retries_of (f64_of_Z p) t1 ≤ max_retries_of (f64_of_Z p) t2.
Proof.
  intros. rewrite !max_retries_spec by nia. apply Z.div_le_mono; nia.
Qed.

Lemma request_count_cons op ops :
  request_count (op :: ops) = (if is_request op then 1 else 0) + request_count ops.
Proof.
  unfold request_count, len.
  destruct op; [rewrite filter_cons_True by done|rewrite filter_cons_False by done]; simpl; lia.
Qed.

Lemma record_request_in_window lo w self now : in_window lo w self → lo ≤ now →
  in_window lo w (record_request self now).1 ∧
  budget_percent (record_request self now).1 = budget_percent self ∧
  len (requests (guarded (rb_state (record_request self now).1)))
    = len (requests (guarded (rb_state self))) + 1 ∧
  retries (guarded (rb_state (record_request self now).1)) = retries (guarded (rb_state self)).
Proof.
  intros (Hp & Hw & Hreq & Hret) Hnow. unfold record_request, budget_locked, with_lock.
  rewrite Hp. simpl. split_and!; try done.
  - split_and!; try done. apply Forall_app. auto.
  - unfold len. rewrite length_app. simpl. lia.
Qed.

Lemma granted_le lo w p n self ops :
  0 ≤ p → p < 2 ^ 53 → n * p < 2 ^ 51 → n < 2 ^ 53 → instant_min ≤ lo - w →
  budget_percent self = f64_of_Z p → in_window lo w self →
  let st := guarded (rb_state self) in
  0 < len (requests st) → len (requests st) + request_count ops = n →
  len (retries st) ≤ max_retries_of (f64_of_Z p) n →
  Forall (reads_in lo (lo + w)) ops →
  len (retries st) + granted self ops ≤ max_retries_of (f64_of_Z p) n.
Proof.
  intros Hp Hp' Hn Hn' Hmin. revert self.
  induction ops as [|op ops IH]; intros self Hpct Hwin st Htot Hcnt Hk Hops; [simpl; lia|].
  apply Forall_cons in Hops as [Hop Hops]. rewrite request_count_cons in Hcnt.
  assert (0 ≤ request_count ops) by (unfold request_count, len; lia).
  destruct op as [now|clk]; simpl in Hop, Hcnt; cbn [granted budget_step].
  - destruct (record_request_in_window lo w self now Hwin ltac:(lia)) as (Hw' & Hpct' & Hreq & Hret).
    unfold st in *. destruct (record_request self now) as [self' r]. simpl in *.
    specialize (IH self' ltac:(congruence) Hw' ltac:(lia) ltac:(lia)).
    rewrite Hret in IH. specialize (IH Hk Hops). by destruct r.
  - rewrite (allow_retry_in_window lo w self clk Hwin Hmin Hop). fold st.
    rewrite decide_False by lia. case_decide as Hlt; simpl.
    + pose proof (max_retries_mono p (len (requests st)) n Hp Hp' ltac:(lia) Hn Hn').
      rewrite Hpct in Hlt. destruct Hwin as (? & ? & ? & ?). pose proof (Hop 1%nat).
      set (self' := mk_retry_budget _ _ _).
      assert (in_window lo w self') as Hwin'.
      { split_and!; try done. apply Forall_app. split; [done|]. constructor; [lia|done]. }
      specialize (IH self' Hpct Hwin' Htot ltac:(simpl; lia)). simpl in IH.
      rewrite len_snoc in IH. specialize (IH ltac:(lia) Hops). lia.
    + by apply IH.
Qed.

Lemma granted_in_window (p window_secs : Z) (lo now : Instant) (ops : list budget_op) :
  let n := request_count (BRequest now :: ops) in
  0 ≤ p → p < 2 ^ 53 → n * p < 2 ^ 51 → n < 2 ^ 53 →
  instant_min ≤ lo - from_secs window_secs →
  Forall (reads_in lo (lo + from_secs window_secs)) (BRequest now :: ops) →
  granted (budget_new (f64_of_Z p) window_secs) (BRequest now :: ops) ≤ (n * p + 99) / 100.
Proof.
  intros n Hp Hp' Hn Hn' Hmin [Hnow Hops]%Forall_cons. simpl in Hnow.
  assert (0 ≤ request_count ops) by (unfold request_count, len; lia).
  assert (n = 1 + request_count ops) as Hneq by (unfold n; by rewrite request_count_cons).
  rewrite <-(max_retries_spec p n) by lia.
  pose proof (granted_le lo (from_secs window_secs) p n
    (mk_retry_budget (mk_mutex (mk_budget_state [now] []) false) (f64_of_Z p) (from_secs window_secs))
    ops Hp Hp' Hn Hn' Hmin) as Hg. simpl in Hg |- *. apply Hg; try done.
  - split_and!; try done. constructor; [lia|done].
  - unfold len. simpl. rewrite max_retries_spec by lia. apply Z.div_pos; lia.
Qed.

(** The retry budget caps amplification: within one window, over any
    sequence of requests and retry attempts that starts with a request, the
    retries granted are at most the budgeted percentage of the requests,
    rounded up. *)
Theorem budget_caps_amplification (p window_secs : Z) (lo now : Instant) (ops : list budget_op) :
  let n := request_count (BRequest now :: ops) in
  0 ≤ p → p < 2 ^ 53 → n * p < 2 ^ 51 → n < 2 ^ 53 →
  instant_min ≤ lo - from_secs window_secs →
  Forall (reads_in lo (lo + from_secs window_secs)) (BRequest now :: ops) →
  granted (budget_new (f64_of_Z p) window_secs) (BRequest now :: ops) ≤ (n * p + 99) / 100.
Proof. apply granted_in_window. Qed.

(** A budget of 0 percent denies every retry for which the window holds a
    request. *)
Theorem zero_budget_denies (self : RetryBudget) (clk : Readings) :
  poisoned (rb_state self) = false → budget_percent self = f64_of_Z 0 →
  instant_min ≤ clk 0%nat - window self →
  after (clk 0%nat - window self) (requests (guarded (rb_state self))) ≠ [] →
  (allow_retry self clk).2 = Value false.
Proof.
  intros Hp Hpct Hmin Hne. unfold allow_retry, budget_locked, with_lock, instant_sub.
  rewrite Hp, decide_True by done.
  rewrite decide_False by (unfold len; destruct (after _ _); simpl; done || lia).
  assert (∀ t, max_retries_of (f64_of_Z 0) t = 0) as Hz.
  { intros t. unfold max_retries_of, f64_mul. change (f64_of_Z 0) with (S754_zero false).
    destruct (f64_of_Z t) as [[]|[]| |[]] eqn:Ht; done. }
  rewrite Hpct, Hz, decide_False by (unfold len; lia). done.
Qed.

(** C39. A window longer than the clock reaches back makes the first retry
    check panic while it holds the lock: the lock is poisoned, and from then
    on recording a request panics too. *)
Theorem budget_window_poisons (self : RetryBudget) (clk : Readings) (now : Instant) :
  clk 0%nat - window self < instant_min →
  (allow_retry self clk).2 = Panicked ∧
  (record_request (allow_retry self clk).1 now).2 = Panicked.
Proof.
  intros Hmin. unfold allow_retry, record_request, budget_locked, with_lock, instant_sub.
  rewrite decide_False by lia. by destruct self as [[st []] pct win].
Qed.
End histories.

(** ** Witnesses *)

(** Twenty percent of two requests is one retry. *)
Lemma budget_caps_amplification_witness :
  granted (H := release_build) (budget_new (f64_of_Z 20) 10)
    [BRequest (from_secs 20); BRequest (from_secs 20); BRetry (λ _, from_secs 21); BRetry (λ _, from_secs 22)]
  ≤ 1.
Proof.
  apply (Z.le_trans _ ((2 * 20 + 99) / 100)); [|apply Z.leb_le; vm_compute; reflexivity].
  refine (budget_caps_amplification (H := release_build) 20 10 (from_secs 20) (from_secs 20)
    [BRequest (from_secs 20); BRetry (λ _, from_secs 21); BRetry (λ _, from_secs 22)] _ _ _ _ _ _);
    [lia|lia|vm_compute; reflexivity|vm_compute; reflexivity|vm_compute; congruence|].
  repeat constructor; vm_compute; congruence.
Defined.

Lemma zero_budget_denies_witness :
  (allow_retry (H := release_build) (record_request (budget_new (f64_of_Z 0) 10) (from_secs 20)).1
     (λ _, from_secs 21)).2 = Value false.
Proof.
  apply (zero_budget_denies (H := release_build)); try reflexivity; vm_compute; congruence.
Defined.

(** A window longer than the uptime. *)
Lemma budget_window_poisons_witness :
  (allow_retry (H := release_build) (budget_new (f64_of_Z 20) 3600) (λ _, from_secs 60)).2 = Panicked.
Proof.
  apply (proj1 (budget_window_poisons (H := release_build) (budget_new (f64_of_Z 20) 3600)
    (λ _, from_secs 60) (from_secs 61) ltac:(vm_compute; reflexivity))).
Defined.
