(* ===== verification/RateLimiter.v ===== *)
(** RateLimiter: the per-address token buckets of [rate_limiter.rs].

    [check] is three atomic steps on shared state: the increment of the cleanup
    counter, every thousandth time a cleanup under the lock, and the acquisition
    of a token under the lock.  They are the effects of [rateE], so that checks
    of concurrent requests interleave between them. *)

From S2P Require Import Prelude Float64 Prog Http.
From Stdlib Require Import Sorted.
Local Open Scope Z_scope.

Record TokenBucket := mk_bucket {
  tokens : f64;
  capacity : f64;
  refill_rate : f64;
  last_refill : Instant;
}.

Definition bucket_new (capacity refill_rate : f64) (now : Instant) : TokenBucket :=
  mk_bucket capacity capacity refill_rate now.

Definition refill (b : TokenBucket) (now : Instant) : TokenBucket :=
  let elapsed := as_secs_f64 (duration_since now (last_refill b)) in
  mk_bucket (f64_min (f64_add (tokens b) (f64_mul elapsed (refill_rate b))) (capacity b))
    (capacity b) (refill_rate b) now.

Definition f64_one : f64 := f64_of_Z 1.

Definition try_acquire (b : TokenBucket) (now : Instant) : TokenBucket * bool :=
  let b := refill b now in
  if f64_ge (tokens b) f64_one
  then (mk_bucket (f64_sub (tokens b) f64_one) (capacity b) (refill_rate b) (last_refill b), true)
  else (b, false).

Record RateLimiter := mk_rate_limiter {
  rl_buckets : Mutex (gmap IpAddr TokenBucket);
  rl_capacity : f64;
  rl_refill_rate : f64;
  rl_enabled : bool;
  rl_cleanup_counter : Z; (* AtomicU64 *)
}.

Definition limiter_new (requests_per_second : f64) (burst_size : Z) : RateLimiter :=
  mk_rate_limiter (mutex_new ∅) (f64_of_Z burst_size) requests_per_second true 0.

Definition limiter_disabled : RateLimiter :=
  mk_rate_limiter (mutex_new ∅) (f64_of_Z 0) (f64_of_Z 0) false 0.

(** ** The atomic steps *)

Variant rateE : Type → Type :=
| RateEnabled : rateE bool
| RateCount : rateE Z
| RateCleanup : rateE unit
| RateAcquire (ip : IpAddr) : rateE bool.

Definition limiter_locked {B} (self : RateLimiter)
    (body : gmap IpAddr TokenBucket → gmap IpAddr TokenBucket * outcome B) :
  RateLimiter * outcome B :=
  let '(m, r) := with_lock (rl_buckets self) body in
  (mk_rate_limiter m (rl_capacity self) (rl_refill_rate self) (rl_enabled self)
     (rl_cleanup_counter self), r).

(** Buckets idle for five minutes are dropped. *)
Definition cleanup `{Platform} (self : RateLimiter) (now : Instant) : RateLimiter * outcome unit :=
  limiter_locked self (λ buckets,
    match instant_sub now (from_secs 300) with
    | Panicked => (buckets, Panicked)
    | Value cutoff => (filter (λ kv, cutoff < last_refill kv.2) buckets, Value tt)
    end).

(** [clk 0] stamps a bucket created on the way, [clk 1] is the refill. *)
Definition acquire (self : RateLimiter) (ip : IpAddr) (clk : Readings) :
  RateLimiter * outcome bool :=
  limiter_locked self (λ buckets,
    let bucket := default (bucket_new (rl_capacity self) (rl_refill_rate self) (clk 0%nat))
                    (buckets !! ip) in
    let '(bucket, r) := try_acquire bucket (clk 1%nat) in
    (<[ip := bucket]> buckets, Value r)).

Definition handle_rate `{Platform} (clk : Readings) (X : Type) (e : rateE X) (self : RateLimiter) :
  RateLimiter * outcome X :=
  match e with
  | RateEnabled => (self, Value (rl_enabled self))
  | RateCount =>
      (mk_rate_limiter (rl_buckets self) (rl_capacity self) (rl_refill_rate self) (rl_enabled self)
         (wrap 64 (rl_cleanup_counter self + 1)), Value (rl_cleanup_counter self))
  | RateCleanup => cleanup self (clk 0%nat)
  | RateAcquire ip => acquire self ip clk
  end.

(** [RateLimiter::check]. *)
Definition check (ip : IpAddr) : prog rateE bool :=
  enabled ← trigger RateEnabled;
  if negb enabled then Ret true
  else
    count ← trigger RateCount;
    _ ← (if decide (count mod 1000 = 0) then trigger RateCleanup else Ret tt);
    trigger (RateAcquire ip).

(** A check that runs alone: [clk k] are the readings of its [k]-th step. *)
Fixpoint run_check `{Platform} {A} (p : prog rateE A) (clk : nat → Readings) (self : RateLimiter) :
  RateLimiter * outcome A :=
  match p with
  | Ret a => (self, Value a)
  | Panic => (self, Panicked)
  | Vis e k =>
      let '(self', o) := handle_rate (clk 0%nat) _ e self in
      match o with
      | Value x => run_check (k x) (λ n, clk (S n)) self'
      | Panicked => (self', Panicked)
      end
  end.

(** ** The abstract token bucket: whole tokens, whole seconds *)

Record IntBucket := mk_int_bucket { int_tokens : Z; int_capacity : Z; int_rate : Z }.

Definition int_refill (b : IntBucket) (secs : Z) : IntBucket :=
  mk_int_bucket (Z.min (int_tokens b + secs * int_rate b) (int_capacity b))
    (int_capacity b) (int_rate b).

Definition int_acquire (b : IntBucket) (secs : Z) : IntBucket * bool :=
  let b := int_refill b secs in
  if decide (1 ≤ int_tokens b)
  then (mk_int_bucket (int_tokens b - 1) (int_capacity b) (int_rate b), true)
  else (b, false).

(** A bucket whose floating-point fields are the whole numbers of an abstract
    one. *)
Definition refines (b : TokenBucket) (a : IntBucket) : Prop :=
  tokens b = int_float (int_tokens a) ∧ capacity b = int_float (int_capacity a) ∧
  refill_rate b = int_float (int_rate a) ∧
  0 ≤ int_tokens a ≤ int_capacity a ∧ 0 ≤ int_rate a < 2 ^ 53.

(** The refill of [secs] seconds does not leave the exact range. *)
Definition exact_range (a : IntBucket) (secs : Z) : Prop :=
  0 ≤ secs < 2 ^ 53 ∧ int_capacity a + secs * int_rate a < 2 ^ 53.

Lemma refill_refines b a secs : refines b a → exact_range a secs →
  refines (refill b (last_refill b + from_secs secs)) (int_refill a secs).
Proof.
  intros (Ht & Hc & Hr & Hta & Hra) [Hs Hx]. unfold refill, int_refill.
  replace (duration_since _ _) with (from_secs secs)
    by (unfold duration_since, from_secs, nanos_per_sec; lia).
  rewrite as_secs_f64_whole, Ht, Hc, Hr by done.
  rewrite f64_mul_int, f64_add_int, f64_min_int by nia.
  split_and!; simpl; try done; try nia.
Qed.

(** One call, whole seconds after the last: same verdict, related states. *)
Lemma try_acquire_step (b : TokenBucket) (a : IntBucket) (secs : Z) :
  refines b a → exact_range a secs →
  let now := last_refill b + from_secs secs in
  (try_acquire b now).2 = (int_acquire a secs).2 ∧
  refines (try_acquire b now).1 (int_acquire a secs).1 ∧
  last_refill (try_acquire b now).1 = now.
Proof.
  intros Hb Hx now. pose proof (refill_refines b a secs Hb Hx) as Href. fold now in Href.
  unfold try_acquire, int_acquire. set (b' := refill b now) in *.
  set (a' := int_refill a secs) in *. destruct Hx as [Hs Hx].
  destruct Href as (Ht & Hc & Hr & Hta & Hra).
  assert (int_capacity a' < 2 ^ 53) as Hca.
  { destruct Hb as (_ & _ & _ & _ & ?). change (int_capacity a' < 2 ^ 53) with (int_capacity a < 2 ^ 53). nia. }
  assert (last_refill b' = now) by done. clearbody a' b'.
  change f64_one with (int_float 1). rewrite Ht, f64_ge_int by nia.
  destruct (1 <=? int_tokens a') eqn:Hle; [apply Z.leb_le in Hle|apply Z.leb_gt in Hle].
  - rewrite decide_True by done. rewrite f64_sub_int by nia.
    unfold refines. split_and!; simpl; done || lia.
  - rewrite decide_False by lia. done.
Qed.

(** ** Runs of acquisitions on one bucket *)

(** Acquisitions after the given whole seconds of waiting; counts the tokens
    handed out. *)
Fixpoint acquires (b : TokenBucket) (gaps : list Z) : TokenBucket * Z :=
  match gaps with
  | [] => (b, 0)
  | s :: gaps' =>
      let '(b', r) := try_acquire b (last_refill b + from_secs s) in
      let '(b'', n) := acquires b' gaps' in
      (b'', (if r then 1 else 0) + n)
  end.

Fixpoint int_acquires (a : IntBucket) (gaps : list Z) : IntBucket * Z :=
  match gaps with
  | [] => (a, 0)
  | s :: gaps' =>
      let '(a', r) := int_acquire a s in
      let '(a'', n) := int_acquires a' gaps' in
      (a'', (if r then 1 else 0) + n)
  end.

Lemma int_acquire_limits a s :
  int_capacity (int_acquire a s).1 = int_capacity a ∧ int_rate (int_acquire a s).1 = int_rate a.
Proof. unfold int_acquire. by case_decide. Qed.

Lemma acquires_refine b a gaps : refines b a → Forall (exact_range a) gaps →
  (acquires b gaps).2 = (int_acquires a gaps).2 ∧
  refines (acquires b gaps).1 (int_acquires a gaps).1.
Proof.
  intros Hb Hg. revert b a Hb Hg. induction gaps as [|s gaps IH]; intros b a Hb Hg; [done|].
  apply Forall_cons in Hg as [Hs Hg]. simpl.
  destruct (try_acquire_step b a s Hb Hs) as (Hr & Hb' & _).
  pose proof (int_acquire_limits a s) as [Hcap Hrate].
  destruct (try_acquire b _) as [b' r], (int_acquire a s) as [a' r']. simpl in *. subst r'.
  destruct (IH b' a' Hb') as [Hn Hb''].
  { eapply Forall_impl; [exact Hg|]. intros x [? ?]. split; [done|]. by rewrite Hcap, Hrate. }
  destruct (acquires b' gaps), (int_acquires a' gaps). simpl in *. by subst.
Qed.

Lemma int_acquires_limits a gaps :
  int_capacity (int_acquires a gaps).1 = int_capacity a ∧ int_rate (int_acquires a gaps).1 = int_rate a.
Proof.
  revert a. induction gaps as [|s gaps IH]; intros a; [done|]. simpl.
  pose proof (int_acquire_limits a s) as [Hcap Hrate].
  destruct (int_acquire a s) as [a' r]. specialize (IH a').
  destruct (int_acquires a' gaps) as [a'' n]. simpl in *. destruct IH. split; congruence.
Qed.

(** C27. The floating-point bucket refines the integer token bucket: after any
    history of calls whole seconds apart, the next verdict is the one the exact
    arithmetic gives, and the states stay related. *)
Theorem token_bucket_refines (b : TokenBucket) (a : IntBucket) (gaps : list Z) (secs : Z) :
  refines b a → Forall (exact_range a) (gaps ++ [secs]) →
  let b' := (acquires b gaps).1 in
  let a' := (int_acquires a gaps).1 in
  (try_acquire b' (last_refill b' + from_secs secs)).2 = (int_acquire a' secs).2 ∧
  refines (try_acquire b' (last_refill b' + from_secs secs)).1 (int_acquire a' secs).1.
Proof.
  intros Href [Hgaps Hsecs]%Forall_app b' a'.
  destruct (acquires_refine b a gaps Href Hgaps) as [_ Hab].
  destruct (int_acquires_limits a gaps) as [Hcap Hrate].
  apply Forall_singleton in Hsecs as [Hs Hx].
  destruct (try_acquire_step b' a' secs Hab) as (Hr & Hb & _); [|by split].
  split; [done|]. unfold a'. by rewrite Hcap, Hrate.
Qed.

Definition total_secs (gaps : list Z) : Z := foldr Z.add 0 gaps.

Lemma int_acquires_bound a gaps : Forall (λ s, 0 ≤ s) gaps → 0 ≤ int_tokens a → 0 ≤ int_rate a →
  0 ≤ int_capacity a →
  (int_acquires a gaps).2 ≤ int_tokens a + int_rate a * total_secs gaps.
Proof.
  intros Hg. revert a. induction Hg as [|s gaps Hs Hg IH]; intros a Ht Hr Hc; simpl; [lia|].
  pose proof (int_acquire_limits a s) as [Hcap Hrate].
  assert ((if (int_acquire a s).2 then 1 else 0) + int_tokens (int_acquire a s).1
          ≤ int_tokens a + s * int_rate a ∧ 0 ≤ int_tokens (int_acquire a s).1) as [Hstep Hpos].
  { unfold int_acquire. case_decide; simpl in *; nia. }
  destruct (int_acquire a s) as [a' r]. simpl in *.
  specialize (IH a' Hpos ltac:(lia) ltac:(lia)). rewrite Hrate in IH.
  destruct (int_acquires a' gaps) as [a'' n]. simpl in *. lia.
Qed.

(** A fresh bucket of a whole number of tokens. *)
Lemma bucket_new_refines burst rate now : 0 ≤ burst < 2 ^ 53 → 0 ≤ rate < 2 ^ 53 →
  refines (bucket_new (f64_of_Z burst) (f64_of_Z rate) now) (mk_int_bucket burst burst rate).
Proof.
  intros Hb Hr. unfold refines. simpl. rewrite !f64_of_Z_int by done. split_and!; done || lia.
Qed.

(** ** The limiter at one instant *)

(** The tokens left to an address at an instant, in a working limiter. *)
Definition has_tokens (self : RateLimiter) (ip : IpAddr) (t : Instant) (a : IntBucket) : Prop :=
  poisoned (rl_buckets self) = false ∧
  ∃ b, default (bucket_new (rl_capacity self) (rl_refill_rate self) t)
         (guarded (rl_buckets self) !! ip) = b ∧ refines (refill b t) a ∧
       exact_range a 0.

Lemma refill_twice b t a : refines (refill b t) a → exact_range a 0 →
  refill (refill b t) t = refill b t.
Proof.
  intros (Ht & Hc & Hr & Hta & Hra) [_ Hx]. unfold refill at 1.
  replace (duration_since t (last_refill (refill b t))) with (from_secs 0)
    by (unfold duration_since, from_secs; simpl; lia).
  rewrite as_secs_f64_whole, Ht, Hc, Hr by done.
  rewrite f64_mul_int, Z.mul_0_l, f64_add_int, f64_min_int, Z.add_0_r, Z.min_l by lia.
  destruct (refill b t) as [tk cp rt lr] eqn:Hb. simpl in *. rewrite <-Ht, <-Hc, <-Hr.
  f_equal. unfold refill in Hb. congruence.
Qed.

Lemma acquire_at self ip t a : has_tokens self ip t a →
  ∃ self' b, acquire self ip (λ _, t) = (self', Value (bool_decide (1 ≤ int_tokens a))) ∧
    guarded (rl_buckets self') = <[ip := b]> (guarded (rl_buckets self)) ∧ last_refill b = t ∧
    rl_enabled self' = rl_enabled self ∧
    has_tokens self' ip t
      (mk_int_bucket (int_tokens a - if decide (1 ≤ int_tokens a) then 1 else 0)
         (int_capacity a) (int_rate a)).
Proof.
  intros (Hp & b & Hb & Href & Hx). set (a' := mk_int_bucket _ _ _).
  unfold acquire, limiter_locked, with_lock. rewrite Hp, Hb.
  assert (∃ b', try_acquire b t = (b', bool_decide (1 ≤ int_tokens a)) ∧
                refines b' a' ∧ last_refill b' = t) as (b' & -> & Hb' & Hlast).
  { destruct (try_acquire_step (refill b t) a 0 Href Hx) as (Hr & Ha & Hl).
    change (last_refill (refill b t)) with t in Hr, Ha, Hl.
    change (from_secs 0) with 0 in Hr, Ha, Hl. rewrite Z.add_0_r in Hr, Ha, Hl.
    unfold try_acquire in Hr, Ha, Hl |- *. rewrite (refill_twice b t a Href Hx) in Hr, Ha, Hl.
    assert (int_refill a 0 = a) as Hid.
    { destruct Href as (_ & _ & _ & ? & _). destruct a. unfold int_refill. simpl in *. f_equal. lia. }
    unfold int_acquire in Hr, Ha. rewrite Hid in Hr, Ha. unfold a'.
    destruct (f64_ge _ _); case_decide; simpl in *; try done; eexists; split_and!;
      rewrite ?bool_decide_true, ?bool_decide_false by lia; try done.
    destruct a. simpl in *. by rewrite Z.sub_0_r. }
  eexists _, b'. split_and!; [done|done|done|done|].
  split; [done|]. exists b'. split_and!; [simpl; by rewrite lookup_insert_eq| |].
  - pose proof (refill_refines b' a' 0 Hb' Hx) as Hr. rewrite Hlast in Hr.
    change (from_secs 0) with 0 in Hr. rewrite Z.add_0_r in Hr.
    assert (int_refill a' 0 = a') as <-; [|done].
    destruct Hb' as (_ & _ & _ & Hb' & _). unfold int_refill, a' in *. simpl in *. f_equal. lia.
  - exact Hx.
Qed.

(** How many of [n] acquisitions at the instant [t] succeed. *)
Fixpoint admitted (n : nat) (self : RateLimiter) (ip : IpAddr) (t : Instant) : Z :=
  match n with
  | O => 0
  | S n' =>
      let '(self', r) := acquire self ip (λ _, t) in
      (match r with Value true => 1 | _ => 0 end) + admitted n' self' ip t
  end.

Lemma admitted_tokens n self ip t a : has_tokens self ip t a →
  admitted n self ip t = Z.min (Z.of_nat n) (int_tokens a).
Proof.
  revert self a. induction n as [|n IH]; intros self a Ha.
  - destruct Ha as (_ & b & _ & (_ & _ & _ & ? & _) & _). simpl. lia.
  - simpl admitted. destruct (acquire_at self ip t a Ha) as (self' & b & -> & _ & _ & _ & Ha').
    rewrite (IH _ _ Ha'). simpl int_tokens.
    destruct Ha as (_ & _ & _ & (_ & _ & _ & ? & _) & _).
    case_decide; [rewrite bool_decide_true by done|rewrite bool_decide_false by done]; lia.
Qed.

Lemma fresh_has_tokens self ip t burst rate : 0 ≤ burst < 2 ^ 53 → 0 ≤ rate < 2 ^ 53 →
  poisoned (rl_buckets self) = false → rl_capacity self = f64_of_Z burst →
  rl_refill_rate self = f64_of_Z rate → guarded (rl_buckets self) !! ip = None →
  has_tokens self ip t (mk_int_bucket burst burst rate).
Proof.
  intros Hb Hr Hp Hc Hrt Hnone. split; [done|]. eexists. split; [done|].
  rewrite Hnone, Hc, Hrt. simpl.
  assert (exact_range (mk_int_bucket burst burst rate) 0) as Hx by (split; simpl; lia).
  split; [|done].
  pose proof (refill_refines _ _ 0 (bucket_new_refines burst rate t Hb Hr) Hx) as Href.
  simpl in Href. change (from_secs 0) with 0 in Href. rewrite Z.add_0_r in Href.
  unfold int_refill in Href. simpl in Href. rewrite Z.mul_0_l, Z.add_0_r, Z.min_id in Href.
  done.
Qed.

Section limiter.
Context `{Platform}.

(** How many of [n] full checks at the instant [t] let the address through. *)
Fixpoint admitted_checks (n : nat) (self : RateLimiter) (ip : IpAddr) (t : Instant) : Z :=
  match n with
  | O => 0
  | S n' =>
      let '(self', r) := run_check (check ip) (λ _ _, t) self in
      (match r with Value true => 1 | _ => 0 end) + admitted_checks n' self' ip t
  end.

(** The address has no bucket, or one used at this very instant. *)
Definition current (self : RateLimiter) (ip : IpAddr) (t : Instant) : Prop :=
  rl_enabled self = true ∧
  ∀ b, guarded (rl_buckets self) !! ip = Some b → last_refill b = t.

Lemma cleanup_current self ip t a : has_tokens self ip t a → current self ip t →
  instant_min ≤ t - from_secs 300 →
  ∃ self', cleanup self t = (self', Value tt) ∧ has_tokens self' ip t a ∧ current self' ip t.
Proof.
  intros (Hp & b & Hb & Ha) [He Hcur] Hmin.
  unfold cleanup, limiter_locked, with_lock, instant_sub. rewrite Hp, decide_True by done.
  eexists. split; [done|].
  assert (filter (λ kv : IpAddr * TokenBucket, t - from_secs 300 < last_refill kv.2)
            (guarded (rl_buckets self)) !! ip = guarded (rl_buckets self) !! ip) as Hl.
  { destruct (guarded (rl_buckets self) !! ip) as [b'|] eqn:Hl.
    - apply map_lookup_filter_Some. split; [done|]. simpl.
      rewrite (Hcur b' eq_refl). unfold from_secs, nanos_per_sec. lia.
    - apply map_lookup_filter_None. by left. }
  split; [split; [done|]; exists b; simpl; by rewrite Hl|].
  split; [done|]. simpl. by rewrite Hl.
Qed.

Lemma check_at self ip t a : has_tokens self ip t a → current self ip t →
  instant_min ≤ t - from_secs 300 →
  ∃ self', run_check (check ip) (λ _ _, t) self = (self', Value (bool_decide (1 ≤ int_tokens a))) ∧
    current self' ip t ∧
    has_tokens self' ip t
      (mk_int_bucket (int_tokens a - if decide (1 ≤ int_tokens a) then 1 else 0)
         (int_capacity a) (int_rate a)).
Proof.
  intros Ha Hcur Hmin. unfold check. cbn -[acquire cleanup Z.modulo]. rewrite (proj1 Hcur). simpl negb.
  cbn -[acquire cleanup Z.modulo].
  set (self1 := mk_rate_limiter _ _ _ _ _).
  assert (has_tokens self1 ip t a) as Ha1 by done.
  assert (current self1 ip t) as Hcur1 by (destruct Hcur; split; done).
  assert (∀ s, has_tokens s ip t a → current s ip t →
    ∃ s', (let '(s1, o) := acquire s ip (λ _, t) in
           match o with Value x => (s1, Value x) | Panicked => (s1, Panicked) end)
          = (s', Value (bool_decide (1 ≤ int_tokens a))) ∧ current s' ip t ∧
      has_tokens s' ip t
      (mk_int_bucket (int_tokens a - if decide (1 ≤ int_tokens a) then 1 else 0)
         (int_capacity a) (int_rate a))) as Hacq.
  { intros s Hs [Hen Hl]. destruct (acquire_at s ip t a Hs) as (s' & b & -> & Hg & Hb & He & Hs').
    exists s'. split_and!; [done| |done]. split; [congruence|].
    rewrite Hg, lookup_insert_eq. intros b' [= <-]. done. }
  destruct (decide (rl_cleanup_counter self mod 1000 = 0)); cbn -[acquire cleanup]; [|by apply Hacq].
  destruct (cleanup_current self1 ip t a Ha1 Hcur1 Hmin) as (s & -> & Hs & Hscur).
  by apply Hacq.
Qed.

(** C29. The burst is exact: of any number of checks of one address at one instant
    on a new limiter, the first [burst_size] pass and the others are refused, for
    a whole number of requests per second and where the clock reaches back the
    five minutes the cleanup subtracts (it panics otherwise). *)
Theorem burst_exact (rate burst : Z) (ip : IpAddr) (t : Instant) (n : nat) :
  0 ≤ burst < 2 ^ 32 → 0 ≤ rate < 2 ^ 53 → instant_min ≤ t - from_secs 300 →
  admitted_checks n (limiter_new (f64_of_Z rate) burst) ip t = Z.min (Z.of_nat n) burst.
Proof.
  intros Hb Hr Hmin.
  assert (∀ m self a, has_tokens self ip t a → current self ip t →
    admitted_checks m self ip t = Z.min (Z.of_nat m) (int_tokens a)) as Hgen.
  { induction m as [|m IH]; intros self a Ha Hcur.
    - destruct Ha as (_ & _ & _ & (_ & _ & _ & ? & _) & _). simpl. lia.
    - cbn [admitted_checks]. destruct (check_at self ip t a Ha Hcur Hmin) as (s' & -> & Hc & Hs).
      rewrite (IH _ _ Hs Hc). simpl int_tokens.
      destruct Ha as (_ & _ & _ & (_ & _ & _ & ? & _) & _).
      case_decide; [rewrite bool_decide_true by done|rewrite bool_decide_false by done]; lia. }
  apply (Hgen n _ (mk_int_bucket burst burst rate)); [|done].
  apply fresh_has_tokens; done || lia.
Qed.

(** *** One client among others, over time

    What the limiter does for concurrent checks is a sequence of its atomic
    steps, each at an instant: counts and cleanups at any moment, acquisitions
    of any address. *)
Inductive rate_step := StepCount | StepCleanup | StepAcquire (ip : IpAddr).

Definition step_limiter (self : RateLimiter) (t : Instant) (step : rate_step) : RateLimiter :=
  match step with
  | StepCount => (handle_rate (λ _, t) _ RateCount self).1
  | StepCleanup => (handle_rate (λ _, t) _ RateCleanup self).1
  | StepAcquire ip => (handle_rate (λ _, t) _ (RateAcquire ip) self).1
  end.

(** How often an address gets a token, and when it asks for one. *)
Definition step_admits (ip : IpAddr) (self : RateLimiter) (t : Instant) (step : rate_step) : Z :=
  match step with
  | StepAcquire ip' =>
      if decide (ip' = ip)
      then match (handle_rate (λ _, t) _ (RateAcquire ip) self).2 with Value true => 1 | _ => 0 end
      else 0
  | _ => 0
  end.

Fixpoint client_admitted (ip : IpAddr) (self : RateLimiter) (h : list (Instant * rate_step)) : Z :=
  match h with
  | [] => 0
  | (t, step) :: h' => step_admits ip self t step + client_admitted ip (step_limiter self t step) h'
  end.

Definition asks (ip : IpAddr) (x : Instant * rate_step) : option Instant :=
  match x.2 with StepAcquire ip' => if decide (ip' = ip) then Some x.1 else None | _ => None end.

Definition client_times (ip : IpAddr) (h : list (Instant * rate_step)) : list Instant := omap (asks ip) h.

(** Instants with these whole seconds between them, after [t]. *)
Fixpoint at_gaps (t : Instant) (gaps : list Z) : list Instant :=
  match gaps with [] => [] | g :: gaps' => (t + from_secs g) :: at_gaps (t + from_secs g) gaps' end.

(** A working limiter with these limits, in which the address is in this state. *)
Definition client_state (self : RateLimiter) (burst rate : Z) (ip : IpAddr) (b : option TokenBucket) : Prop :=
  poisoned (rl_buckets self) = false ∧ rl_capacity self = f64_of_Z burst ∧
  rl_refill_rate self = f64_of_Z rate ∧ guarded (rl_buckets self) !! ip = b.

Lemma step_others self burst rate ip b t step :
  client_state self burst rate ip b → instant_min ≤ t - from_secs 300 → asks ip (t, step) = None →
  (step = StepCleanup → ∀ b', b = Some b' → t - from_secs 300 < last_refill b') →
  client_state (step_limiter self t step) burst rate ip b ∧ step_admits ip self t step = 0.
Proof.
  intros (Hp & Hc & Hr & Hb) Hmin Hask Hkept. destruct step as [| |ip'].
  - done.
  - split; [|done]. cbn [step_limiter handle_rate].
    unfold cleanup, limiter_locked, with_lock, instant_sub. rewrite Hp, decide_True by done.
    split_and!; try done. simpl. destruct b as [b|].
    + apply map_lookup_filter_Some. split; [done|]. by apply Hkept.
    + apply map_lookup_filter_None. by left.
  - unfold asks in Hask. simpl in Hask. case_decide as Hne; [done|]. simpl step_admits.
    rewrite decide_False by done. split; [|done]. cbn [step_limiter handle_rate].
    unfold acquire, limiter_locked, with_lock. rewrite Hp. destruct (try_acquire _ _). simpl.
    split_and!; try done. simpl. by rewrite lookup_insert_ne.
Qed.

(** The client's own acquisition, [secs] after the last refill of its bucket. *)
Lemma step_own self burst rate ip b a secs t :
  client_state self burst rate ip b →
  let b0 := default (bucket_new (f64_of_Z burst) (f64_of_Z rate) t) b in
  refines b0 a → exact_range a secs → t = last_refill b0 + from_secs secs →
  ∃ b', client_state (step_limiter self t (StepAcquire ip)) burst rate ip (Some b') ∧
    refines b' (int_acquire a secs).1 ∧ last_refill b' = t ∧
    step_admits ip self t (StepAcquire ip) = if (int_acquire a secs).2 then 1 else 0.
Proof.
  intros (Hp & Hc & Hr & Hb) b0 Hb0 Hx Ht. pose proof (try_acquire_step b0 a secs Hb0 Hx) as Hstep.
  cbv zeta in Hstep. rewrite <-Ht in Hstep. destruct Hstep as (Hverdict & Href & Hlast).
  exists (try_acquire b0 t).1. cbn [step_limiter step_admits handle_rate]. rewrite decide_True by done.
  unfold acquire, limiter_locked, with_lock. rewrite Hp, Hb, Hc, Hr. fold b0.
  destruct (try_acquire b0 t) as [b' r]. simpl in *. subst r. split_and!; try done.
  - split_and!; try done. simpl. by rewrite lookup_insert_eq.
Qed.

Lemma no_asks_no_admissions ip h self : client_times ip h = [] → client_admitted ip self h = 0.
Proof.
  revert self. induction h as [|[t step] h IH]; intros self Hh; [done|]. simpl in Hh |- *.
  unfold client_times in *. simpl in Hh. unfold asks in Hh at 1. simpl in Hh.
  destruct step as [| |ip']; simpl; [by apply IH..|].
  case_decide; [done|]. by apply IH.
Qed.

(** The clock reaches back far enough, and does not run backwards. *)
Definition good_clock (h : list (Instant * rate_step)) : Prop :=
  StronglySorted Z.le h.*1 ∧ Forall (λ x, instant_min ≤ x.1 - from_secs 300) h.

Lemma good_clock_cons x h : good_clock (x :: h) →
  instant_min ≤ x.1 - from_secs 300 ∧ (∀ t, t ∈ h.*1 → x.1 ≤ t) ∧ good_clock h.
Proof.
  intros [Hs Hm]. rewrite fmap_cons in Hs. apply StronglySorted_inv in Hs as [Hs Hle].
  apply Forall_cons in Hm as [? ?]. rewrite Forall_forall in Hle. by split_and!.
Qed.

Lemma client_times_in ip h t : t ∈ client_times ip h → t ∈ h.*1.
Proof.
  intros ([t' step] & Hin & Ht)%list_elem_of_omap. apply list_elem_of_fmap. exists (t', step). split; [|done].
  unfold asks in Ht. destruct step; simpl in Ht; try done. case_decide; by simplify_eq.
Qed.

Lemma int_acquire_spends a secs : 0 ≤ secs → 0 ≤ int_tokens a → 0 ≤ int_rate a →
  (if (int_acquire a secs).2 then 1 else 0) + int_tokens (int_acquire a secs).1
  ≤ int_tokens a + int_rate a * secs.
Proof. intros Hs Ht Hr. unfold int_acquire. case_decide; simpl in *; nia. Qed.

Lemma client_bound_from burst rate ip h gaps self b a :
  0 ≤ burst < 2 ^ 32 → 0 ≤ rate < 2 ^ 32 →
  client_state self burst rate ip (Some b) → refines b a → int_capacity a = burst → int_rate a = rate →
  good_clock h → client_times ip h = at_gaps (last_refill b) gaps → Forall (λ g, 0 ≤ g < 300) gaps →
  client_admitted ip self h ≤ int_tokens a + rate * total_secs gaps.
Proof.
  intros Hburst Hrate. revert gaps self b a.
  induction h as [|[t step] h IH]; intros gaps self b a Hst Href Hcap Hra Hclk Htimes Hgaps.
  { destruct gaps; [|done]. destruct Href as (_ & _ & _ & ? & _). simpl. lia. }
  apply good_clock_cons in Hclk as (Hmin & Hle & Hclk). simpl in Hmin, Hle.
  destruct gaps as [|g gaps].
  { rewrite no_asks_no_admissions by done. destruct Href as (_ & _ & _ & ? & _). simpl. lia. }
  apply Forall_cons in Hgaps as [Hg Hgaps]. cbn [client_admitted].
  unfold client_times in Htimes. cbn [omap list_omap] in Htimes.
  destruct (asks ip (t, step)) as [t'|] eqn:Hask.
  - unfold asks in Hask. destruct step as [| |ip']; simpl in Hask; try done.
    case_decide; [|done]. subst ip'. injection Hask as <-. cbn [at_gaps] in Htimes. injection Htimes as Ht Htimes.
    destruct (step_own self burst rate ip (Some b) a g t Hst Href) as (b' & Hst' & Href' & Hlast & ->).
    { rewrite <-Hcap, <-Hra in *. split; nia. } { done. }
    destruct (int_acquire_limits a g) as [Hcap' Hra']. rewrite Hcap in Hcap'. rewrite Hra in Hra'.
    specialize (IH gaps _ b' _ Hst' Href' Hcap' Hra' Hclk). rewrite Hlast, Ht in IH.
    specialize (IH Htimes Hgaps). destruct Href as (_ & _ & _ & Htok & _).
    pose proof (int_acquire_spends a g ltac:(lia) ltac:(lia) ltac:(lia)) as Hspend.
    rewrite Hra in Hspend. rewrite <-Ht in IH. cbn [total_secs foldr]. fold (total_secs gaps). lia.
  - destruct (step_others self burst rate ip (Some b) t step Hst Hmin Hask) as [Hst' ->].
    { intros _ b' [= <-]. assert (last_refill b + from_secs g ∈ h.*1) as Hnext.
      { apply client_times_in with ip. unfold client_times. rewrite Htimes. by left. }
      specialize (Hle _ Hnext). unfold from_secs, nanos_per_sec in *. lia. }
    rewrite Z.add_0_l. apply (IH (g :: gaps) _ b); try done. by constructor.
Qed.

(** C28. The rate limit holds for every client that keeps asking: whatever other
    addresses ask and whenever the limiter cleans up in between, an address that
    has no bucket yet, and whose requests are less than five minutes (and whole
    seconds) apart, is let through at most [burst + rate * T] times, where [T] is
    the time from its first request to its last.  The rate is a whole number of
    requests per second; the clock, read once in each of the limiter's steps, does
    not run backwards from one step to the next and reaches five minutes back.
    (After a longer pause the cleanup may hand out a new burst.) *)
Theorem rate_limit_bound (burst rate t0 : Z) (ip : IpAddr) (self : RateLimiter)
    (h : list (Instant * rate_step)) (gaps : list Z) :
  0 ≤ burst < 2 ^ 32 → 0 ≤ rate < 2 ^ 32 →
  client_state self burst rate ip None → good_clock h →
  client_times ip h = t0 :: at_gaps t0 gaps → Forall (λ g, 0 ≤ g < 300) gaps →
  client_admitted ip self h ≤ burst + rate * total_secs gaps.
Proof.
  intros Hburst Hrate Hst Hclk Htimes Hgaps. revert self Hst Htimes.
  induction h as [|[t step] h IH]; intros self Hst Htimes; [done|].
  apply good_clock_cons in Hclk as (Hmin & _ & Hclk). cbn [client_admitted].
  unfold client_times in Htimes. cbn [omap list_omap] in Htimes.
  destruct (asks ip (t, step)) as [t'|] eqn:Hask.
  - unfold asks in Hask. destruct step as [| |ip']; simpl in Hask; try done.
    case_decide; [|done]. subst ip'. injection Hask as <-. injection Htimes as -> Htimes.
    pose proof (bucket_new_refines burst rate t0 ltac:(lia) ltac:(lia)) as Hnew.
    destruct (step_own self burst rate ip None (mk_int_bucket burst burst rate) 0 t0 Hst Hnew)
      as (b' & Hst' & Href' & Hlast & ->).
    { split; simpl; lia. } { simpl. unfold from_secs. lia. }
    destruct (int_acquire_limits (mk_int_bucket burst burst rate) 0) as [Hcap' Hra'].
    pose proof (int_acquire_spends (mk_int_bucket burst burst rate) 0 ltac:(lia) ltac:(simpl; lia) ltac:(simpl; lia)) as Hspend.
    pose proof (client_bound_from burst rate ip h gaps _ b' _ Hburst Hrate Hst' Href' Hcap' Hra' Hclk) as Hrest.
    rewrite Hlast in Hrest. specialize (Hrest Htimes Hgaps). simpl in Hspend. lia.
  - destruct (step_others self burst rate ip None t step Hst Hmin Hask) as [Hst' ->]; [done|].
    rewrite Z.add_0_l. by apply IH.
Qed.

(** C40. Cleanup is not neutral: after 301 idle seconds a drained bucket would
    hold [301 * rate] tokens (at most the burst), but the cleanup drops it and
    the client is handed a whole new burst. *)
Theorem cleanup_restores_burst (self : RateLimiter) (ip : IpAddr) (b : TokenBucket)
    (rate burst : Z) (n : nat) :
  poisoned (rl_buckets self) = false → rl_capacity self = f64_of_Z burst →
  rl_refill_rate self = f64_of_Z rate → 0 ≤ burst < 2 ^ 32 → 0 ≤ rate < 2 ^ 32 →
  guarded (rl_buckets self) !! ip = Some b → refines b (mk_int_bucket 0 burst rate) →
  let t := last_refill b + from_secs 301 in instant_min ≤ t - from_secs 300 →
  admitted n self ip t = Z.min (Z.of_nat n) (Z.min (301 * rate) burst) ∧
  admitted n (cleanup self t).1 ip t = Z.min (Z.of_nat n) burst.
Proof.
  intros Hp Hc Hrt Hb Hr Hl Href t Hmin. split.
  - apply (admitted_tokens n self ip t (mk_int_bucket (Z.min (301 * rate) burst) burst rate)).
    split; [done|]. exists b. rewrite Hl. split; [done|]. split; [|split; simpl; lia].
    apply (refill_refines b (mk_int_bucket 0 burst rate) 301 Href). split; simpl; lia.
  - apply (admitted_tokens n _ ip t (mk_int_bucket burst burst rate)).
    unfold cleanup, limiter_locked, with_lock, instant_sub. rewrite Hp, decide_True by done.
    apply fresh_has_tokens; simpl; try done || lia.
    apply map_lookup_filter_None. right. intros b' Hb'. simpl. simplify_eq.
    unfold t, from_secs, nanos_per_sec. lia.
Qed.

Lemma poisoned_check self ip clk : rl_enabled self = true → poisoned (rl_buckets self) = true →
  (run_check (check ip) clk self).2 = Panicked.
Proof.
  intros He Hp. unfold check. cbn -[cleanup acquire Z.modulo]. rewrite He.
  cbn -[cleanup acquire Z.modulo].
  assert (∀ l B body, rl_buckets l = rl_buckets self →
    ∃ l', limiter_locked (B := B) l body = (l', Panicked)) as Hlock.
  { intros l B body Hl. unfold limiter_locked. rewrite with_lock_poisoned by congruence. eauto. }
  case_decide; cbn -[cleanup acquire].
  - unfold cleanup. match goal with |- context [limiter_locked ?l ?f] =>
      destruct (Hlock l _ f eq_refl) as (l' & ->) end. done.
  - unfold acquire. match goal with |- context [limiter_locked ?l ?f] =>
      destruct (Hlock l _ f eq_refl) as (l' & ->) end. done.
Qed.

(** The first check on a limiter runs the cleanup: where the clock cannot
    go back five minutes it panics, poisons the lock, and every later check of
    every address panics. *)
Theorem first_check_poisons (rate : f64) (burst : Z) (ip ip' : IpAddr) (clk clk' : nat → Readings) :
  clk 2%nat 0%nat - from_secs 300 < instant_min →
  let '(self, r) := run_check (check ip) clk (limiter_new rate burst) in
  r = Panicked ∧ (run_check (check ip') clk' self).2 = Panicked.
Proof.
  intros Hmin. unfold check at 1. cbn -[from_secs Z.sub cleanup check]. rewrite decide_True by done.
  cbn -[from_secs Z.sub cleanup check].
  assert (∀ l, poisoned (rl_buckets l) = false →
    ∃ l', cleanup l (clk 2%nat 0%nat) = (l', Panicked) ∧ rl_enabled l' = rl_enabled l ∧
          poisoned (rl_buckets l') = true) as Hpanic.
  { intros l Hl. unfold cleanup, limiter_locked, with_lock, instant_sub. rewrite Hl.
    rewrite decide_False by lia. eauto. }
  match goal with |- context [cleanup ?l _] => destruct (Hpanic l eq_refl) as (l' & -> & He & Hp) end.
  split; [done|]. apply poisoned_check; done.
Qed.

(** A disabled limiter lets every request through and changes nothing. *)
Theorem disabled_allows (ip : IpAddr) (clk : nat → Readings) :
  run_check (check ip) clk limiter_disabled = (limiter_disabled, Value true).
Proof. done. Qed.

(** Addresses are isolated: acquiring for one address leaves the bucket of
    every other address as it was. *)
Theorem acquire_isolated (self : RateLimiter) (ip other : IpAddr) (clk : Readings) :
  ip ≠ other →
  guarded (rl_buckets (acquire self ip clk).1) !! other = guarded (rl_buckets self) !! other.
Proof.
  intros Hne. unfold acquire, limiter_locked, with_lock.
  destruct (poisoned _); [done|]. destruct (try_acquire _ _). simpl. by rewrite lookup_insert_ne.
Qed.
End limiter.

(** ** Witnesses *)

Lemma token_bucket_refines_witness :
  (try_acquire (acquires (bucket_new (f64_of_Z 2) (f64_of_Z 1) 0) [0; 0; 1]).1
     (last_refill (acquires (bucket_new (f64_of_Z 2) (f64_of_Z 1) 0) [0; 0; 1]).1 + from_secs 0)).2
  = (int_acquire (int_acquires (mk_int_bucket 2 2 1) [0; 0; 1]).1 0).2.
Proof.
  apply (token_bucket_refines (bucket_new (f64_of_Z 2) (f64_of_Z 1) 0) (mk_int_bucket 2 2 1) [0; 0; 1] 0).
  - apply bucket_new_refines; lia.
  - repeat constructor; simpl; lia.
Defined.

(** Two tokens, one a second: three requests at second 400, one at second 403, a
    cleanup and another client in between. *)
Definition busy_history : list (Instant * rate_step) :=
  [(from_secs 399, StepCleanup); (from_secs 400, StepAcquire (V4 10 0 0 1)); (from_secs 400, StepCount);
   (from_secs 400, StepAcquire (V4 10 0 0 1)); (from_secs 400, StepAcquire (V4 10 0 0 1));
   (from_secs 401, StepAcquire (V4 10 0 0 2)); (from_secs 402, StepCleanup);
   (from_secs 403, StepAcquire (V4 10 0 0 1))].

Lemma rate_limit_bound_witness :
  client_admitted (H := release_build) (V4 10 0 0 1) (limiter_new (f64_of_Z 1) 2) busy_history = 3 ∧
  client_admitted (H := release_build) (V4 10 0 0 1) (limiter_new (f64_of_Z 1) 2) busy_history ≤ 5.
Proof.
  split; [vm_compute; reflexivity|].
  apply (rate_limit_bound (H := release_build) 2 1 (from_secs 400) (V4 10 0 0 1) (limiter_new (f64_of_Z 1) 2)
    busy_history [0; 0; 3]); [lia|lia| |split| |].
  - split_and!; reflexivity.
  - repeat constructor; vm_compute; discriminate.
  - repeat constructor; vm_compute; discriminate.
  - vm_compute. reflexivity.
  - repeat constructor; lia.
Defined.

Lemma burst_exact_witness :
  admitted_checks (H := release_build) 5 (limiter_new (f64_of_Z 1) 3) (V4 10 0 0 1) (from_secs 300) = 3.
Proof.
  rewrite (burst_exact (H := release_build) 1 3 (V4 10 0 0 1) (from_secs 300) 5);
    [reflexivity|lia|lia|vm_compute; congruence].
Defined.

(** A bucket of capacity 500, drained at second 0, with one token a second. *)
Definition drained : RateLimiter :=
  mk_rate_limiter (mutex_new {[ V4 10 0 0 1 := mk_bucket (f64_of_Z 0) (f64_of_Z 500) (f64_of_Z 1) 0 ]})
    (f64_of_Z 500) (f64_of_Z 1) true 1000.

Lemma cleanup_restores_burst_witness :
  admitted 1000 drained (V4 10 0 0 1) (from_secs 301) = 301 ∧
  admitted 1000 (cleanup (H := release_build) drained (from_secs 301)).1 (V4 10 0 0 1) (from_secs 301) = 500.
Proof.
  apply (cleanup_restores_burst (H := release_build) drained (V4 10 0 0 1)
    (mk_bucket (f64_of_Z 0) (f64_of_Z 500) (f64_of_Z 1) 0) 1 500 1000);
    try reflexivity; try lia.
  - split_and!; simpl; try reflexivity; lia.
  - vm_compute. congruence.
Defined.

(** A limiter first used a minute after the clock's origin. *)
Lemma first_check_poisons_witness :
  (run_check (H := release_build) (check (V4 10 0 0 1)) (λ _ _, from_secs 60)
     (limiter_new (f64_of_Z 1) 3)).2 = Panicked.
Proof.
  pose proof (first_check_poisons (H := release_build) (f64_of_Z 1) 3 (V4 10 0 0 1) (V4 10 0 0 2)
    (λ _ _, from_secs 60) (λ _ _, from_secs 61) ltac:(vm_compute; reflexivity)) as Hp.
  destruct (run_check (check (V4 10 0 0 1)) (λ _ _, from_secs 60) (limiter_new (f64_of_Z 1) 3)) as [l r].
  exact (proj1 Hp).
Defined.

Lemma acquire_isolated_witness :
  guarded (rl_buckets (acquire drained (V4 10 0 0 2) (λ _, 0)).1) !! V4 10 0 0 1
  = guarded (rl_buckets drained) !! V4 10 0 0 1.
Proof. apply (acquire_isolated drained (V4 10 0 0 2) (V4 10 0 0 1) (λ _, 0)). discriminate. Defined.
