(* ===== verification/Metrics.v ===== *)
(** Metrics: the Prometheus families of [metrics.rs].

    The [prometheus] crate keeps the counters; the model records the calls the
    proxy makes on them, in order, and a counter's value is the number of its
    increments. *)

From S2P Require Import Prelude Float64.
Local Open Scope Z_scope.

(** A family: name, help text, label names, and a histogram's bucket bounds. *)
Record Family := mk_family {
  fam_name : string;
  fam_help : string;
  fam_labels : list string;
  fam_buckets : option (list f64);
}.

(** The bounds are given in milliseconds: the quotient rounds to the literal. *)
Definition duration_buckets : list f64 :=
  (λ ms, f64_div (f64_of_Z ms) (f64_of_Z 1000)) <$>
    [5; 10; 25; 50; 100; 250; 500; 1000; 2500; 5000; 10000].

Definition requests_total : Family :=
  mk_family "proxy_requests_total" "Total number of proxied requests" ["method"; "route"; "status"] None.
Definition request_duration_seconds : Family :=
  mk_family "proxy_request_duration_seconds" "Request latency in seconds" ["method"; "route"]
    (Some duration_buckets).
Definition retries_total : Family :=
  mk_family "proxy_retries_total" "Total number of retry attempts" ["route"] None.
Definition errors_total : Family :=
  mk_family "proxy_errors_total" "Total number of upstream errors" ["route"; "error_type"] None.

(** The families [Metrics::new] registers, in order; registering a name twice
    would panic. *)
Definition metrics_registry : list Family :=
  [requests_total; request_duration_seconds; retries_total; errors_total].

Definition register_all (fs : list Family) : outcome (list Family) :=
  if decide (NoDup (fam_name <$> fs)) then Value fs else Panicked.

(** A call on a family; [with_label_values] panics when the number of values is
    not the number of labels. *)
Inductive metric_call :=
| Inc (f : Family) (labels : list string)
| Observe (f : Family) (labels : list string) (value : f64).

Definition call_family (m : metric_call) : Family :=
  match m with Inc f _ | Observe f _ _ => f end.
Definition call_labels (m : metric_call) : list string :=
  match m with Inc _ ls | Observe _ ls _ => ls end.

Record Metrics := mk_metrics { metric_calls : list metric_call }.

Definition metrics_new : outcome Metrics :=
  _ ← register_all metrics_registry; Value (mk_metrics []).

Definition metrics_call (self : Metrics) (m : metric_call) : Metrics * outcome unit :=
  if decide (length (call_labels m) = length (fam_labels (call_family m)))
  then (mk_metrics (metric_calls self ++ [m]), Value tt)
  else (self, Panicked).

(** [Metrics::render]: what the crate gathers from the families, encoded as
    text; the encoder may refuse, and its bytes may not be UTF-8. *)
Definition render (gather_and_encode : list metric_call → option string) (self : Metrics) : outcome string :=
  unwrap (gather_and_encode (metric_calls self)).
