(* ===== verification/State.v ===== *)
(** State: the shared state of [state.rs] and the effects on it.

    [AppState] is what every request, the health checker and the configuration
    reloader share.  [sysE] lists the atomic actions they perform and the points
    where they wait; [handle] gives each its meaning, with the answers that come
    from outside (clock, random numbers, network) in an [Oracle].

    An [ArcSwap<Router>] is a growing list of router generations and the index
    of the current one: a request that loaded a generation keeps it, with its
    balancers' atomics, after a reload stores the next. *)

From S2P Require Import Prelude Float64 Prog Config Balancer Http Router Health RetryBudget.
From S2P Require Import RateLimiter Metrics.
Local Open Scope Z_scope.

(** ** Waiting *)

(** What [timeout(d, client.request(req)).await] gives. *)
Inductive CallResult `{Hyper} :=
| CallOk (r : Response)
| CallFailed
| CallElapsed.

(** The suspension points: the only places where a future can be dropped. *)
Variant awaitE `{Hyper} : Type → Type :=
| ReadBody : awaitE (option string)
| Sleep (d : Duration) : awaitE unit
| Call (req : Outgoing) (timeout : Duration) : awaitE CallResult
  (** A health probe: the status of the answer, if there was one in time. *)
| Probe (url : string) (timeout : Duration) : awaitE (option Z).

(** ** Effects *)

(** An [Arc<Router>]: which generation, and its contents. *)
Record RouterArc := mk_router_arc { generation : nat; the_router : Router }.

Variant sysE `{Hyper} : Type → Type :=
| Now : sysE Instant
| NewUuid : sysE string
| Jitter (hi : Z) : sysE Z
| LoadConfig : sysE Config
| LoadRouter : sysE RouterArc
| StoreRouter (r : Router) : sysE unit
| StoreConfig (c : Config) : sysE unit
| Balance (gen route : nat) (X : Type) (e : balE X) : sysE X
| HealthFailure (u : string) : sysE unit
| HealthSuccess (u : string) : sysE unit
| HealthCheck (u : string) : sysE bool
| BudgetRequest : sysE unit
| BudgetRetry : sysE bool
| RateLimit (X : Type) (e : rateE X) : sysE X
| Metric (m : metric_call) : sysE unit
| Await (X : Type) (a : awaitE X) : sysE X
  (** A wait under a deadline: [None] when the deadline passed first. *)
| AwaitBy (deadline : Instant) (X : Type) (a : awaitE X) : sysE (option X).
Arguments Balance {_} gen route {X} e.
Arguments RateLimit {_ X} e.
Arguments Await {_ X} a.
Arguments AwaitBy {_} deadline {X} a.

(** ** The shared state *)

Record AppState := mk_app_state {
  routers : list Router; (* every generation stored so far *)
  current_router : nat;
  cells : gmap (nat * nat) (list Z); (* atomics, by generation and route *)
  config : Config;
  health : HealthTracker;
  retry_budget : RetryBudget;
  metrics : Metrics;
  rate_limiter : RateLimiter;
}.

Definition set_cells (s : AppState) (k : nat * nat) (c : list Z) : AppState :=
  mk_app_state (routers s) (current_router s) (<[k := c]> (cells s)) (config s) (health s)
    (retry_budget s) (metrics s) (rate_limiter s).
Definition set_health (s : AppState) (h : HealthTracker) : AppState :=
  mk_app_state (routers s) (current_router s) (cells s) (config s) h
    (retry_budget s) (metrics s) (rate_limiter s).
Definition set_retry_budget (s : AppState) (b : RetryBudget) : AppState :=
  mk_app_state (routers s) (current_router s) (cells s) (config s) (health s)
    b (metrics s) (rate_limiter s).
Definition set_metrics (s : AppState) (m : Metrics) : AppState :=
  mk_app_state (routers s) (current_router s) (cells s) (config s) (health s)
    (retry_budget s) m (rate_limiter s).
Definition set_rate_limiter (s : AppState) (l : RateLimiter) : AppState :=
  mk_app_state (routers s) (current_router s) (cells s) (config s) (health s)
    (retry_budget s) (metrics s) l.
Definition set_config (s : AppState) (c : Config) : AppState :=
  mk_app_state (routers s) (current_router s) (cells s) c (health s)
    (retry_budget s) (metrics s) (rate_limiter s).

(** The atomics of a router's balancers, all zero. *)
Definition fresh_cells (gen : nat) (r : Router) : gmap (nat * nat) (list Z) :=
  list_to_map (imap (λ i route, ((gen, i), init_cells (balancer route))) (router_routes r)).

Lemma fresh_cells_lookup gen r g i :
  fresh_cells gen r !! (g, i) = if decide (g = gen)
    then (λ route, init_cells (balancer route)) <$> router_routes r !! i else None.
Proof.
  unfold fresh_cells.
  assert (NoDup (imap (λ i route, ((gen, i), init_cells (balancer route))) (router_routes r)).*1) as Hnd.
  { rewrite fmap_imap. apply NoDup_alt. intros a b [x y] Ha Hb.
    rewrite list_lookup_imap in Ha, Hb.
    destruct (router_routes r !! a), (router_routes r !! b); simplify_eq/=. done. }
  destruct (list_to_map _ !! (g, i)) as [c|] eqn:Hc.
  - apply elem_of_list_to_map_2, elem_of_lookup_imap in Hc as (j & route & Heq & Hj).
    simplify_eq. by rewrite decide_True, Hj.
  - apply not_elem_of_list_to_map_2 in Hc. case_decide as Hg; [|done]. subst g.
    destruct (router_routes r !! i) as [route|] eqn:Hi; [|done]. destruct Hc.
    rewrite fmap_imap. apply elem_of_lookup_imap. by exists i, route.
Qed.

(** [state.router.store(Arc::new(router))]. *)
Definition store_router (s : AppState) (r : Router) : AppState :=
  let gen := length (routers s) in
  mk_app_state (routers s ++ [r]) gen (fresh_cells gen r ∪ cells s) (config s) (health s)
    (retry_budget s) (metrics s) (rate_limiter s).

Definition empty_router : Router := mk_router [].

(** [state.router.load()]. *)
Definition load_router (s : AppState) : RouterArc :=
  mk_router_arc (current_router s) (default empty_router (routers s !! current_router s)).

(** ** The meaning of the effects *)

(** One step's answers from outside. *)
Record Oracle `{Hyper} := mk_oracle {
  clock : Readings;
  uuid : string;
  random : Z → Z;
  waited : ∀ X, awaitE X → X;
  waited_by : ∀ X, Instant → awaitE X → option X;
}.

Arguments mk_oracle {_} _ _ _ _ _.

(** Runs an operation of one component inside the whole state. *)
Definition zoom {S B} (set : AppState → S → AppState) (s : AppState) (r : S * outcome B) :
  AppState * outcome B := (set s r.1, r.2).

Definition handle `{Hyper, Platform} (o : Oracle) (X : Type) (e : sysE X) (s : AppState) :
  AppState * outcome X :=
  match e with
  | Now => (s, Value (clock o 0%nat))
  | NewUuid => (s, Value (uuid o))
  | Jitter hi => (s, Value (random o hi))
  | LoadConfig => (s, Value (config s))
  | LoadRouter => (s, Value (load_router s))
  | StoreRouter r => (store_router s r, Value tt)
  | StoreConfig c => (set_config s c, Value tt)
  | @Balance _ gen route X e =>
      match cells s !! (gen, route) with
      | Some c => zoom (λ s c, set_cells s (gen, route) c) s (handle_bal X e c)
      | None => (s, Panicked)
      end
  | HealthFailure u => zoom set_health s (record_failure (health s) u (clock o 0%nat))
  | HealthSuccess u => zoom set_health s (record_success (health s) u)
  | HealthCheck u => zoom set_health s (is_healthy (health s) u (clock o 0%nat))
  | BudgetRequest => zoom set_retry_budget s (record_request (retry_budget s) (clock o 0%nat))
  | BudgetRetry => zoom set_retry_budget s (allow_retry (retry_budget s) (clock o))
  | @RateLimit _ X e => zoom set_rate_limiter s (handle_rate (clock o) X e (rate_limiter s))
  | Metric m => zoom set_metrics s (metrics_call (metrics s) m)
  | @Await _ X a => (s, Value (waited o X a))
  | @AwaitBy _ d X a => (s, Value (waited_by o X d a))
  end.

(** A program that runs alone; [os] gives the answers of its successive steps. *)
Fixpoint run_sys `{Hyper, Platform} {A} (os : nat → Oracle) (p : prog sysE A) (s : AppState) :
  AppState * outcome A :=
  match p with
  | Ret a => (s, Value a)
  | Panic => (s, Panicked)
  | Vis e k =>
      let '(s', r) := handle (os 0%nat) _ e s in
      match r with
      | Value x => run_sys (λ n, os (S n)) (k x) s'
      | Panicked => (s', Panicked)
      end
  end.

(** The snapshots a program may load. *)
Record World := mk_world {
  may_config : Config → Prop;
  may_router : RouterArc → Prop;
}.

(** One configuration and one router. *)
Definition snapshot (c : Config) (r : Router) : World :=
  mk_world (λ c', c' = c) (λ a, the_router a = r).

(** The answers a program may rely on. *)
Definition sys_ok `{Hyper} (W : World) (X : Type) (e : sysE X) : X → Prop :=
  match e with
  | Jitter hi => λ x, 0 ≤ x ≤ hi
  | NewUuid => λ u, visible u = true
  | LoadConfig => may_config W
  | LoadRouter => may_router W
  | @Balance _ _ _ X e => bal_ok X e
  | _ => λ _, True
  end.
