(* ===== verification/Trace.v ===== *)
(** Trace: what an observer of one request sees.

    A trace of [sysE] effects is projected to the [event]s a request is judged
    by: the body it read, the health checks it asks for, the retry budget's answers, its waits,
    its upstream calls with their answers, the failures and successes it reports
    and the metrics it records.  Clock readings, snapshots and atomics are
    silent. *)

From S2P Require Import Prelude Prog Balancer Http Metrics State.
Local Open Scope Z_scope.

Inductive event `{Hyper} :=
| EBody (body : option string)
| EChecked (u : string) (healthy : bool)
| EBudget (granted : bool)
| ESlept (d : Duration)
| ECalled (out : Outgoing) (timeout : Duration) (answer : CallResult)
| EFailure (u : string)
| ESuccess (u : string)
| EMetric (m : metric_call).

Section trace.
Context `{Hyper}.

Definition await_event (X : Type) (a : awaitE X) : X → option event :=
  match a with
  | ReadBody => λ body, Some (EBody body)
  | Sleep d => λ _, Some (ESlept d)
  | Call out d => λ r, Some (ECalled out d r)
  | Probe _ _ => λ _, None
  end.

Definition event_of (X : Type) (e : sysE X) : X → option event :=
  match e with
  | HealthCheck u => λ b, Some (EChecked u b)
  | BudgetRetry => λ b, Some (EBudget b)
  | HealthFailure u => λ _, Some (EFailure u)
  | HealthSuccess u => λ _, Some (ESuccess u)
  | Metric m => λ _, Some (EMetric m)
  | @Await _ X a => await_event X a
  | @AwaitBy _ _ X a => λ o, o ≫= await_event X a
  | _ => λ _, None
  end.

Definition obs_event (o : obs sysE) : option event :=
  match o with Obs e x => event_of _ e x end.

Definition events (tr : list (obs sysE)) : list event := omap obs_event tr.

Lemma events_app tr1 tr2 : events (tr1 ++ tr2) = events tr1 ++ events tr2.
Proof. apply omap_app. Qed.

Lemma events_cons {X} (e : sysE X) x tr :
  events (Obs e x :: tr) = option_list (event_of X e x) ++ events tr.
Proof. unfold events. simpl. by destruct (event_of X e x). Qed.

Lemma events_snoc tr o : events (tr ++ [o]) = events tr ++ option_list (obs_event o).
Proof. rewrite events_app. simpl. by destruct (obs_event o). Qed.

(** *** Atomics *)

(** What an observation adds to a cell of a route's balancer. *)
Definition delta (gen route : nat) (i : Z) (o : obs sysE) : Z :=
  match o with
  | @Obs _ _ e _ =>
      match e with
      | @Balance _ g r _ (FetchAdd j n) =>
          if decide ((g, r, j) = (gen, route, i)) then n else 0
      | @Balance _ g r _ (FetchSub j n) =>
          if decide ((g, r, j) = (gen, route, i)) then - n else 0
      | _ => 0
      end
  end.

Definition total_delta (gen route : nat) (i : Z) (tr : list (obs sysE)) : Z :=
  foldr (λ o n, delta gen route i o + n) 0 tr.

Lemma total_delta_app gen route i tr1 tr2 :
  total_delta gen route i (tr1 ++ tr2) = total_delta gen route i tr1 + total_delta gen route i tr2.
Proof. induction tr1 as [|o tr1 IH]; simpl; [done|]. rewrite IH. lia. Qed.

(** *** What is counted *)

Definition ev_call (e : event) : option (Outgoing * CallResult) :=
  match e with ECalled out _ r => Some (out, r) | _ => None end.
Definition ev_metric (e : event) : option metric_call :=
  match e with EMetric m => Some m | _ => None end.
Definition ev_sleep (e : event) : option Duration :=
  match e with ESlept d => Some d | _ => None end.

(** The upstream calls made, with their answers. *)
Definition calls (es : list event) : list (Outgoing * CallResult) := omap ev_call es.

(** The verdicts reported to the health tracker. *)
Definition ev_report (e : event) : option (string * bool) :=
  match e with EFailure u => Some (u, false) | ESuccess u => Some (u, true) | _ => None end.
Definition reports (es : list event) : list (string * bool) := omap ev_report es.

(** The label values of the increments of a family. *)
Definition incs (f : Family) (es : list event) : list (list string) :=
  omap (λ m, match m with
             | Inc g labels => if decide (fam_name g = fam_name f) then Some labels else None
             | Observe _ _ _ => None
             end) (omap ev_metric es).

Definition sleeps (es : list event) : list Duration := omap ev_sleep es.

(** The retries the budget granted. *)
Definition ev_granted (e : event) : option unit :=
  match e with EBudget true => Some tt | _ => None end.
Definition granted_retries (es : list event) : Z := len (omap ev_granted es).

Context (W : World).

(** *** A logic of events

    [emits p Ψ]: whatever valid answers [p] gets, if it returns [a] having
    shown the events [es], then [Ψ es a]. *)

Fixpoint emits {A} (p : prog sysE A) (Ψ : list event → A → Prop) : Prop :=
  match p with
  | Ret a => Ψ [] a
  | Panic => True
  | Vis e k => ∀ x, sys_ok W _ e x →
      emits (k x) (λ es a, Ψ (option_list (event_of _ e x) ++ es) a)
  end.

Lemma emits_mono {A} (p : prog sysE A) (Ψ Ψ' : list event → A → Prop) :
  emits p Ψ → (∀ es a, Ψ es a → Ψ' es a) → emits p Ψ'.
Proof.
  revert Ψ Ψ'. induction p as [a| |X e k IH]; intros Ψ Ψ' Hp HΨ; simpl in *; auto.
  intros x Hx. eapply IH; [by apply Hp|]. simpl. auto.
Qed.

Lemma emits_bind {A B} (p : prog sysE A) (f : A → prog sysE B) Ψ :
  emits p (λ es a, emits (f a) (λ es' b, Ψ (es ++ es') b)) → emits (p ≫= f) Ψ.
Proof.
  unfold mbind, prog_mbind. revert Ψ.
  induction p as [a| |X e k IH]; intros Ψ Hp; simpl in *; [done|done|].
  intros x Hx. apply IH. eapply emits_mono; [by apply Hp|]. intros es a Ha. simpl in *.
  eapply emits_mono; [done|]. intros es' b Hb. cbv beta in Hb |- *.
  by rewrite app_assoc.
Qed.

Lemma emits_trigger {X} (e : sysE X) Ψ :
  (∀ x, sys_ok W _ e x → Ψ (option_list (event_of _ e x)) x) → emits (trigger e) Ψ.
Proof. intros HΨ x Hx. simpl. rewrite app_nil_r. by apply HΨ. Qed.

Lemma emits_lift {A} (o : outcome A) Ψ : (∀ a, o = Value a → Ψ [] a) → emits (lift o) Ψ.
Proof. destruct o; simpl; auto. Qed.

(** A balancer's program is silent. *)
Lemma emits_balance {A} (p : prog balE A) Φ gen route Ψ :
  returns bal_ok p Φ → (∀ a, Φ a → Ψ [] a) →
  emits (translate (λ X e, @Balance _ gen route X e) p) Ψ.
Proof. revert Ψ. induction p as [a| |X e k IH]; intros Ψ Hp HΦ; simpl in *; auto. Qed.

Lemma emits_steps {A} (p : prog sysE A) Ψ tr a :
  emits p Ψ → steps (sys_ok W) p tr (Ret a) → Ψ (events tr) a.
Proof.
  intros Hp Hs. remember (Ret a) as q eqn:Hq. revert Ψ Hp.
  induction Hs as [p|X e k x tr p' Hok Hs IH]; intros Ψ Hp; subst; simpl in *; [done|].
  specialize (IH eq_refl _ (Hp x Hok)). simpl in IH.
  by destruct (event_of X e x).
Qed.
End trace.

(** One step of a proof about [emits]. *)
Ltac emit_step :=
  match goal with
  | |- emits _ (mbind _ _) _ => apply emits_bind
  | |- emits _ (trigger _) _ => apply emits_trigger; cbn [event_of await_event option_list app sys_ok]
  | |- emits _ (lift _) _ => apply emits_lift
  | |- emits _ (Ret _) _ => cbn [emits app]
  end.

Ltac emit_steps := repeat (emit_step || match goal with |- ∀ _, _ → _ => intros ? ? end).
