(* ===== verification/Proxy.v ===== *)
(** Proxy: the request path of [proxy.rs].

    [forward_once] and [proxy_request] are programs over the effects of [State]:
    header normalisation, one upstream attempt, and the loop of attempts with
    health checks, retry budget and backoff. *)

From S2P Require Import Prelude Float64 Prog Config Balancer Http Errors Router Health.
From S2P Require Import RetryBudget RateLimiter Metrics State.
From stdpp Require Import pretty.
Local Open Scope Z_scope.

(** ** Headers *)

Definition HOP_BY_HOP_HEADERS : list string :=
  ["connection"; "keep-alive"; "proxy-authenticate"; "proxy-authorization"; "te"; "trailer";
   "transfer-encoding"; "upgrade"].

Section proxy.
Context `{Hyper, Platform}.

Definition strip_hop_by_hop_headers (headers : HeaderMap) : HeaderMap :=
  foldl hm_remove headers HOP_BY_HOP_HEADERS.

(** The value [X-Forwarded-For] is set to: the client is appended to the
    (first) value the request came with. *)
Definition forwarded_for (headers : HeaderMap) (ip : IpAddr) : string :=
  match hm_get headers "x-forwarded-for" with
  | Some existing => default "" (hv_to_str existing) +:+ ", " +:+ ip_to_string ip
  | None => ip_to_string ip
  end.

Definition set_forwarded_for (headers : HeaderMap) (client_ip : option IpAddr) :
  outcome HeaderMap :=
  match client_ip with
  | Some ip =>
      v ← unwrap (hv_from_str (forwarded_for headers ip));
      Value (hm_insert headers "x-forwarded-for" v)
  | None => Value headers
  end.

Definition set_forwarded_host (headers : HeaderMap) (original_host : option string) : HeaderMap :=
  match original_host with
  | Some host =>
      match hv_from_str host with
      | Some v => hm_insert headers "x-forwarded-host" v
      | None => headers
      end
  | None => headers
  end.

(** The headers sent upstream. *)
Definition normalize_headers (headers : HeaderMap) (request_id : string)
    (client_ip : option IpAddr) : outcome HeaderMap :=
  let original_host := hm_get headers "host" ≫= hv_to_str in
  id ← unwrap (hv_from_str request_id);
  let headers := hm_insert headers "x-request-id" id in
  headers ← set_forwarded_for headers client_ip;
  proto ← unwrap (hv_from_str "http");
  let headers := hm_insert headers "x-forwarded-proto" proto in
  let headers := set_forwarded_host headers original_host in
  Value (strip_hop_by_hop_headers headers).

Definition strip_response (r : Response) : Response :=
  mk_response (resp_status r) (strip_hop_by_hop_headers (resp_headers r)) (resp_body r).

(** ** One attempt *)

Definition forward_once (method : string) (headers : HeaderMap) (body : string)
    (upstream final_path request_id : string) (client_ip : option IpAddr)
    (request_timeout : Duration) : prog sysE (result Response ProxyError) :=
  match uri_parse (upstream +:+ final_path) with
  | None => Ret (Err UpstreamFailure)
  | Some parsed =>
      headers ← lift (normalize_headers headers request_id client_ip);
      answer ← trigger (Await (Call (mk_outgoing method parsed headers body) request_timeout));
      match answer with
      | CallOk resp => Ret (Ok (strip_response resp))
      | CallFailed => Ret (Err UpstreamFailure)
      | CallElapsed => Ret (Err UpstreamTimeout)
      end
  end.

(** ** The attempts *)

(** The local variables of [proxy_request] the loop reads. *)
Record Attempt := mk_attempt {
  at_router : RouterArc;
  at_route_index : nat;
  at_route : Route;
  at_method : string;
  at_headers : HeaderMap;
  at_body : string;
  at_final_path : string;
  at_request_id : string;
  at_client_ip : option IpAddr;
  at_start : Instant;
  at_start_index : Z;
  at_any_healthy : bool;
  at_max_attempts : Z;
  at_backoff_base_ms : Z;
  at_request_timeout : Duration;
}.

Definition route_prefix (c : Attempt) : string := Router.prefix (at_route c).
Definition upstream_count (c : Attempt) : Z := len (upstreams (at_route c)).

(** A balancer's program, on the atomics of this request's route. *)
Definition on_balancer {A} (router : RouterArc) (route : nat) (p : prog balE A) : prog sysE A :=
  translate (λ X e, Balance (generation router) route e) p.

Definition inc (f : Family) (labels : list string) : prog sysE unit :=
  trigger (Metric (Inc f labels)).

(** [requests_total] and [request_duration_seconds] for a finished request. *)
Definition record_outcome (c : Attempt) (status : string) (elapsed : Duration) : prog sysE unit :=
  _ ← inc requests_total [at_method c; route_prefix c; status];
  trigger (Metric (Observe request_duration_seconds [at_method c; route_prefix c]
    (as_secs_f64 elapsed))).

(** [start.elapsed()]. *)
Definition elapsed_since (start : Instant) : prog sysE Duration :=
  now ← trigger Now; Ret (duration_since now start).

(** [base.saturating_mul(1 << (attempts_made - 1))]. *)
Definition exp_delay (base attempts_made : Z) : outcome Z :=
  shift ← shl_one_u64 (attempts_made - 1);
  Value (saturating_mul_u64 base shift).

Definition backoff (base attempts_made : Z) : prog sysE unit :=
  exp ← lift (exp_delay base attempts_made);
  jitter ← trigger (Jitter (exp / 2));
  total ← lift (add_w 64 exp jitter);
  trigger (Await (Sleep (from_millis total))).

Definition is_server_error (status : Z) : bool := (500 <=? status) && (status <? 600).

(** How an iteration of the loop ends: the function returns, the loop breaks,
    or the next iteration starts. *)
Inductive loop_step :=
| Return (r : result Response ProxyError)
| Break
| Continue (attempts_made : Z) (last_error : option ProxyError).

(** A finished attempt at [upstream]. *)
Definition after_attempt (c : Attempt) (upstream : string) (attempts_made : Z)
    (answer : result Response ProxyError) : prog sysE loop_step :=
  match answer with
  | Ok resp =>
      if is_server_error (resp_status resp) then
        _ ← trigger (HealthFailure upstream);
        _ ← inc errors_total [route_prefix c; "5xx"];
        Ret (Continue attempts_made (Some UpstreamFailure))
      else
        _ ← trigger (HealthSuccess upstream);
        elapsed ← elapsed_since (at_start c);
        _ ← record_outcome c (pretty (resp_status resp)) elapsed;
        Ret (Return (Ok resp))
  | Err UpstreamFailure =>
      _ ← trigger (HealthFailure upstream);
      _ ← inc errors_total [route_prefix c; "connection"];
      Ret (Continue attempts_made (Some UpstreamFailure))
  | Err UpstreamTimeout =>
      _ ← trigger (HealthFailure upstream);
      _ ← inc errors_total [route_prefix c; "timeout"];
      Ret (Continue attempts_made (Some UpstreamTimeout))
  | Err e => Ret (Return (Err e))
  end.

(** The attempt proper: tracking, forwarding, tracking, bookkeeping. *)
Definition make_attempt (c : Attempt) (index : Z) (upstream : string) (attempts_made : Z) :
  prog sysE loop_step :=
  attempts_made ← lift (add_w 64 attempts_made 1);
  _ ← on_balancer (at_router c) (at_route_index c) (record_start (balancer (at_route c)) index);
  answer ← forward_once (at_method c) (at_headers c) (at_body c) upstream (at_final_path c)
             (at_request_id c) (at_client_ip c) (at_request_timeout c);
  _ ← on_balancer (at_router c) (at_route_index c) (record_done (balancer (at_route c)) index);
  after_attempt c upstream attempts_made answer.

(** Retries ask the budget and back off first; [false] means the budget is
    exhausted. *)
Definition may_attempt (c : Attempt) (attempts_made : Z) : prog sysE bool :=
  if decide (0 < attempts_made) then
    allowed ← trigger BudgetRetry;
    if (allowed : bool) then
      _ ← inc retries_total [route_prefix c];
      _ ← backoff (at_backoff_base_ms c) attempts_made;
      Ret true
    else Ret false
  else Ret true.

(** [any_healthy && !is_healthy(upstream)]. *)
Definition skip_upstream (c : Attempt) (upstream : string) : prog sysE bool :=
  if at_any_healthy c then
    healthy ← trigger (HealthCheck upstream);
    Ret (negb healthy)
  else Ret false.

(** The body of the loop for one offset. *)
Definition loop_body (c : Attempt) (offset attempts_made : Z) (last_error : option ProxyError) :
  prog sysE loop_step :=
  if decide (at_max_attempts c ≤ attempts_made) then Ret Break
  else
    sum ← lift (add_w 64 (at_start_index c) offset);
    i ← lift (rem_u sum (upstream_count c));
    upstream ← lift (index (upstreams (at_route c)) i);
    skip ← skip_upstream c upstream;
    if (skip : bool) then Ret (Continue attempts_made last_error)
    else
      allowed ← may_attempt c attempts_made;
      if (allowed : bool) then make_attempt c i upstream attempts_made else Ret Break.

(** After the loop: the failed request's metrics. *)
Definition finish_failed (c : Attempt) (last_error : option ProxyError) :
  prog sysE (result Response ProxyError) :=
  elapsed ← elapsed_since (at_start c);
  let error := default UpstreamFailure last_error in
  let status := match error with UpstreamTimeout => "504" | _ => "502" end in
  _ ← record_outcome c status elapsed;
  Ret (Err error).

(** [for offset in 0..upstream_count]. *)
Fixpoint attempt_loop (c : Attempt) (offsets : list Z) (attempts_made : Z)
    (last_error : option ProxyError) : prog sysE (result Response ProxyError) :=
  match offsets with
  | [] => finish_failed c last_error
  | offset :: offsets' =>
      step ← loop_body c offset attempts_made last_error;
      match step with
      | Return r => Ret r
      | Break => finish_failed c last_error
      | Continue attempts_made last_error => attempt_loop c offsets' attempts_made last_error
      end
  end.

(** ** The request *)

(** [upstreams.iter().any(|u| health.is_healthy(u))]: stops at the first. *)
Fixpoint any_upstream_healthy (us : list string) : prog sysE bool :=
  match us with
  | [] => Ret false
  | u :: us' =>
      healthy ← trigger (HealthCheck u);
      if (healthy : bool) then Ret true else any_upstream_healthy us'
  end.

(** The path sent upstream: the route's prefix is cut off. *)
Definition final_path (uri : Uri) (route : Route) : string :=
  let original_path := default "/" (uri_path_and_query uri) in
  let stripped_path := default original_path (Router.strip_prefix original_path (Router.prefix route)) in
  if decide (stripped_path = "") then "/" else stripped_path.

Definition proxy_request (req : Request) : prog sysE (result Response ProxyError) :=
  start ← trigger Now;
  let path := uri_path (req_uri req) in
  let method := req_method req in
  request_id ← trigger NewUuid;
  cfg ← trigger LoadConfig;
  router ← trigger LoadRouter;
  match match_route (the_router router) path with
  | None =>
      _ ← inc requests_total [method; "unmatched"; "404"];
      Ret (Ok (build_response 404 "No matching route"))
  | Some (route_index, route) =>
      body ← trigger (Await ReadBody);
      match body with
      | None => Ret (Err UpstreamFailure)
      | Some whole_body =>
          start_index ← on_balancer router route_index
                          (next_index_for_key (balancer route) (len (upstreams route)) path);
          any_healthy ← any_upstream_healthy (upstreams route);
          max_attempts ← lift (add_w 64 (max_retries (server cfg)) 1);
          _ ← trigger BudgetRequest;
          attempt_loop
            (mk_attempt router route_index route method (req_headers req) whole_body
               (final_path (req_uri req) route) request_id (remote_addr req) start start_index
               any_healthy max_attempts (retry_backoff_ms (server cfg))
               (from_secs (request_timeout_secs (server cfg))))
            (seqZ 0 (len (upstreams route))) 0 None
      end
  end.
End proxy.
