(* ===== verification/Middleware.v ===== *)
(** Middleware: the service stack of [middleware.rs], as [start_server] layers it.

    A service takes a request to a program that answers it; its error type is
    [Infallible], so the program returns a plain response.  A layer takes a
    service to a service. *)

From S2P Require Import Prelude Prog Config Http Errors RateLimiter State Proxy.
Local Open Scope Z_scope.

Section services.
Context `{Hyper, Platform}.

Abbreviation Service := (Request → prog sysE Response).

(** [ProxyService]: errors become responses. *)
Definition respond (res : result Response ProxyError) : Response :=
  match res with Ok resp => resp | Err e => into_response e end.

Definition proxy_service : Service := λ req,
  res ← proxy_request req; Ret (respond res).

(** [LoggingLayer]: reads the clock before and after. *)
Definition logging (inner : Service) : Service := λ req,
  _ ← trigger Now;
  resp ← inner req;
  _ ← trigger Now;
  Ret resp.

(** [timeout(deadline, p)]: at each wait of [p] the deadline may pass first,
    and then the rest of [p] is dropped.  A wait of [p] that already has an
    earlier deadline keeps it. *)
Fixpoint with_deadline {A} (deadline : Instant) (p : prog sysE A) : prog sysE (option A) :=
  match p with
  | Ret a => Ret (Some a)
  | Panic => Panic
  | @Vis _ _ X e k =>
      match e in sysE X return (X → prog sysE A) → (X → prog sysE (option A)) → prog sysE (option A) with
      | Await a => λ _ go,
          Vis (AwaitBy deadline a) (λ o, match o with Some x => go x | None => Ret None end)
      | AwaitBy d a => λ _ go,
          if decide (d ≤ deadline) then Vis (AwaitBy d a) go
          else Vis (AwaitBy deadline a) (λ o, match o with Some x => go (Some x) | None => Ret None end)
      | e => λ _ go, Vis e go
      end k (λ x, with_deadline deadline (k x))
  end.

(** [RequestTimeoutLayer]. *)
Definition request_timeout (timeout : Duration) (inner : Service) : Service := λ req,
  now ← trigger Now;
  answer ← with_deadline (now + timeout) (inner req);
  Ret (default (build_response 504 "Request timed out") answer).

Definition too_many_requests : outcome Response :=
  v ← unwrap (hv_from_str "1");
  Value (mk_response 429 (hm_insert hm_empty "retry-after" v) "Rate limit exceeded").

(** [RateLimitLayer]: a request without an address is not limited. *)
Definition rate_limit (inner : Service) : Service := λ req,
  match remote_addr req with
  | Some ip =>
      allowed ← translate (λ X e, RateLimit e) (check ip);
      if (allowed : bool) then inner req else lift too_many_requests
  | None => inner req
  end.

(** [InjectAddrService]: the address of the connection. *)
Definition inject_addr (remote_ip : IpAddr) (inner : Service) : Service := λ req,
  inner (mk_request (req_method req) (req_uri req) (req_headers req) (Some remote_ip)).

(** The stack [start_server] builds for a connection; the overall timeout is
    read from the configuration once, when the server starts. *)
Definition connection_service (overall_timeout : Duration) (remote_ip : IpAddr) : Service :=
  inject_addr remote_ip (logging (rate_limit (request_timeout overall_timeout proxy_service))).
End services.
