(* ===== verification/RetryPolicy.v ===== *)
(** RetryPolicy: the abstract specification of a request's attempts.

    [policy c k last us es r] says what one request may do once [k] attempts
    were made, the last failure was [last] and the upstreams [us] are still to
    be visited, in this order: the events [es] it shows and its result [r].  It
    is a relation on events, with no clock, atomics or loop; [ProxySpec] proves
    that [proxy_request] refines it. *)

From S2P Require Import Prelude Float64 Config Balancer Http Errors Router Metrics State Trace.
From S2P Require Import Proxy.
From stdpp Require Import pretty.
Local Open Scope Z_scope.

Section policy.
Context `{Hyper, Platform}.

(** What an attempt tells: [None] when the address did not parse and no call
    was made. *)
Definition try_error (a : option CallResult) : option (ProxyError * string) :=
  match a with
  | None | Some CallFailed => Some (UpstreamFailure, "connection")
  | Some CallElapsed => Some (UpstreamTimeout, "timeout")
  | Some (CallOk resp) =>
      if is_server_error (resp_status resp) then Some (UpstreamFailure, "5xx") else None
  end.

Definition status_label (e : ProxyError) : string :=
  match e with UpstreamTimeout => "504" | _ => "502" end.

Context (c : Attempt).

(** The health check of an upstream that is then tried. *)
Definition check_events (u : string) : list event :=
  if at_any_healthy c then [EChecked u true] else [].

(** The pause before a retry: [t] milliseconds, for the [k]-th retry. *)
Definition pause (k t : Z) : Prop :=
  ∃ exp jitter, exp_delay (at_backoff_base_ms c) k = Value exp ∧ 0 ≤ jitter ≤ exp / 2 ∧
    add_w 64 exp jitter = Value t.

Inductive waits : Z → list event → Prop :=
| first_attempt : waits 0 []
| retry k t : 0 < k → pause k t →
    waits k [EBudget true; EMetric (Inc retries_total [route_prefix c]); ESlept (from_millis t)].

(** The call at an upstream. *)
Inductive tries (u : string) : option CallResult → list event → Prop :=
| bad_address : uri_parse (u +:+ at_final_path c) = None → tries u None []
| called uri headers answer :
    uri_parse (u +:+ at_final_path c) = Some uri →
    normalize_headers (at_headers c) (at_request_id c) (at_client_ip c) = Value headers →
    tries u (Some answer)
      [ECalled (mk_outgoing (at_method c) uri headers (at_body c)) (at_request_timeout c) answer].

(** The metrics of a finished request. *)
Definition recorded (status : string) (elapsed : Duration) : list event :=
  [EMetric (Inc requests_total [at_method c; route_prefix c; status]);
   EMetric (Observe request_duration_seconds [at_method c; route_prefix c] (as_secs_f64 elapsed))].

Inductive gives_up (last : option ProxyError) : list event → result Response ProxyError → Prop :=
| gave_up elapsed :
    let e := default UpstreamFailure last in
    gives_up last (recorded (status_label e) elapsed) (Err e).

Inductive policy : Z → option ProxyError → list string → list event →
  result Response ProxyError → Prop :=
| exhausted k last es r : gives_up last es r → policy k last [] es r
| spent k last us es r : at_max_attempts c ≤ k → gives_up last es r → policy k last us es r
| skipped k last u us es r :
    k < at_max_attempts c → at_any_healthy c = true → policy k last us es r →
    policy k last (u :: us) (EChecked u false :: es) r
| denied k last u us es r :
    0 < k < at_max_attempts c → gives_up last es r →
    policy k last (u :: us) (check_events u ++ EBudget false :: es) r
| failed k last u us wait call answer e kind es r :
    k < at_max_attempts c → waits k wait → tries u answer call →
    try_error answer = Some (e, kind) → policy (k + 1) (Some e) us es r →
    policy k last (u :: us)
      (check_events u ++ wait ++ call ++
         EFailure u :: EMetric (Inc errors_total [route_prefix c; kind]) :: es) r
| succeeded k last u us wait call resp elapsed :
    k < at_max_attempts c → waits k wait → tries u (Some (CallOk resp)) call →
    try_error (Some (CallOk resp)) = None →
    policy k last (u :: us)
      (check_events u ++ wait ++ call ++
         ESuccess u :: recorded (pretty (resp_status resp)) elapsed) (Ok (strip_response resp)).
End policy.

(** ** A whole request *)
Section request.
Context `{Hyper, Platform}.

(** Asking for a healthy upstream stops at the first one. *)
Inductive probes : list string → list event → bool → Prop :=
| no_upstream : probes [] [] false
| found u us : probes (u :: us) [EChecked u true] true
| not_found u us es b : probes us es b → probes (u :: us) (EChecked u false :: es) b.

Context (cfg : Config) (r : Router) (req : Request).

(** The attempts are made for this request, under this configuration. *)
Record attempt_of (route : Route) (c : Attempt) : Prop := mk_attempt_of {
  of_route : at_route c = route;
  of_method : at_method c = req_method req;
  of_headers : at_headers c = req_headers req;
  of_path : at_final_path c = final_path (req_uri req) route;
  of_request_id : visible (at_request_id c) = true;
  of_client : at_client_ip c = remote_addr req;
  of_max_attempts : add_w 64 (max_retries (server cfg)) 1 = Value (at_max_attempts c);
  of_backoff : at_backoff_base_ms c = retry_backoff_ms (server cfg);
  of_timeout : at_request_timeout c = from_secs (request_timeout_secs (server cfg));
}.

Inductive request_policy : list event → result Response ProxyError → Prop :=
| unmatched :
    match_route r (uri_path (req_uri req)) = None →
    request_policy [EMetric (Inc requests_total [req_method req; "unmatched"; "404"])]
      (Ok (build_response 404 "No matching route"))
| unreadable i route :
    match_route r (uri_path (req_uri req)) = Some (i, route) →
    request_policy [EBody None] (Err UpstreamFailure)
| attempted i route c checks es res :
    match_route r (uri_path (req_uri req)) = Some (i, route) →
    attempt_of route c → probes (upstreams route) checks (at_any_healthy c) →
    policy c 0 None (rotate (Z.to_nat (at_start_index c)) (upstreams route)) es res →
    request_policy ((EBody (Some (at_body c)) :: checks) ++ es) res.
End request.
