(* ===== verification/PolicyFacts.v ===== *)
(** PolicyFacts: what the retry policy guarantees.

    Each lemma is by rule induction on [policy]; [ProxyFacts] transports them to
    the runs of [proxy_request]. *)

From S2P Require Import Prelude Float64 Prog Config Balancer Http Errors Router Metrics State.
From S2P Require Import Trace Proxy Middleware RetryPolicy.
From stdpp Require Import pretty.
Local Open Scope Z_scope.

(** ** Two views of a request's events *)
Section views.
Context `{Hyper, Platform}.

(** How the attempts are paced: the budget's answers, the retries counted, the
    pauses and the calls. *)
Inductive pace := PAsked (granted : bool) | PCounted (labels : list string) | PSlept (d : Duration) | PCalled.

Definition ev_pace (e : event) : option pace :=
  match e with
  | EBudget granted => Some (PAsked granted)
  | EMetric (Inc f labels) => if decide (fam_name f = fam_name retries_total) then Some (PCounted labels) else None
  | ESlept d => Some (PSlept d)
  | ECalled _ _ _ => Some PCalled
  | _ => None
  end.
Definition pacing (es : list event) : list pace := omap ev_pace es.

Definition call_shows (called : bool) : list pace := if called then [PCalled] else [].

(** A retry after a pause of [t] milliseconds, and whether it came to a call. *)
Definition retry_shows (prefix : string) (retry : Z * bool) : list pace :=
  PAsked true :: PCounted [prefix] :: PSlept (from_millis retry.1) :: call_shows retry.2.

(** What was done at the upstreams and said about them: the calls, the verdicts
    reported to the health tracker and the errors counted. *)
Inductive act := ACalled (uri : Uri) (answer : CallResult) | AReported (u : string) (ok : bool)
  | AError (labels : list string).

Definition ev_act (e : event) : option act :=
  match e with
  | ECalled out _ answer => Some (ACalled (out_uri out) answer)
  | EFailure u => Some (AReported u false)
  | ESuccess u => Some (AReported u true)
  | EMetric (Inc f labels) => if decide (fam_name f = fam_name errors_total) then Some (AError labels) else None
  | _ => None
  end.
Definition conduct (es : list event) : list act := omap ev_act es.

(** An attempt at [u] that was answered, or whose address did not parse: the
    call, then the verdict on this upstream. *)
Definition attempt_shows (path prefix : string) (attempt : string * option CallResult) : list act :=
  let '(u, answer) := attempt in
  match uri_parse (u +:+ path), answer with Some uri, Some a => [ACalled uri a] | _, _ => [] end ++
  match try_error answer with
  | Some (_, kind) => [AReported u false; AError [prefix; kind]]
  | None => [AReported u true]
  end.
End views.

Section facts.
Context `{Hyper, Platform} (c : Attempt).

Lemma omap_check_events {B} (f : event → option B) u :
  (∀ b, f (EChecked u b) = None) → omap f (check_events c u) = [].
Proof. intros Hf. unfold check_events. destruct (at_any_healthy c); simpl; [by rewrite Hf|done]. Qed.

Lemma calls_app es1 es2 : calls (es1 ++ es2) = calls es1 ++ calls es2.
Proof. apply omap_app. Qed.
Lemma sleeps_app es1 es2 : sleeps (es1 ++ es2) = sleeps es1 ++ sleeps es2.
Proof. apply omap_app. Qed.
Lemma incs_app f es1 es2 : incs f (es1 ++ es2) = incs f es1 ++ incs f es2.
Proof. unfold incs. by rewrite !omap_app. Qed.
Lemma granted_app es1 es2 : granted_retries (es1 ++ es2) = granted_retries es1 + granted_retries es2.
Proof. unfold granted_retries, len. rewrite omap_app, length_app. lia. Qed.

Lemma reports_app es1 es2 : reports (es1 ++ es2) = reports es1 ++ reports es2.
Proof. apply omap_app. Qed.

Lemma pacing_app es1 es2 : pacing (es1 ++ es2) = pacing es1 ++ pacing es2.
Proof. apply omap_app. Qed.
Lemma conduct_app es1 es2 : conduct (es1 ++ es2) = conduct es1 ++ conduct es2.
Proof. apply omap_app. Qed.

Lemma check_silent u :
  calls (check_events c u) = [] ∧ sleeps (check_events c u) = [] ∧
  (∀ f, incs f (check_events c u) = []) ∧ pacing (check_events c u) = [] ∧
  conduct (check_events c u) = [].
Proof. unfold check_events. by destruct (at_any_healthy c). Qed.
End facts.

(** Evaluates the projections of a list of events. *)
Ltac events_simpl :=
  repeat match goal with
  | |- context [check_events ?c ?u] =>
      lazymatch goal with
      | _ : calls (check_events c u) = [] ∧ _ |- _ => fail
      | _ => pose proof (check_silent c u)
      end
  end;
  repeat match goal with
  | HH : calls (check_events ?c ?u) = [] ∧ _ |- _ =>
      let H1 := fresh in let H2 := fresh in let H3 := fresh in let H4 := fresh in
      let H5 := fresh in destruct HH as (H1 & H2 & H3 & H4 & H5);
      rewrite ?calls_app, ?sleeps_app, ?incs_app, ?pacing_app, ?conduct_app, ?H1, ?H2, ?H3, ?H4, ?H5;
      clear H1 H2 H3 H4 H5
  end.

Section policy_facts.
Context `{Hyper, Platform} (c : Attempt).

(** The calls are made at the candidates, in their order, each at most once. *)
Definition called_at (u : string) (call : Outgoing * CallResult) : Prop :=
  uri_parse (u +:+ at_final_path c) = Some (out_uri call.1).

Lemma tries_calls u a call : tries c u a call →
  match a with
  | None => call = []
  | Some r => ∃ out, call = [ECalled out (at_request_timeout c) r] ∧ called_at u (out, r) ∧
      out_method out = at_method c ∧ out_body out = at_body c ∧
      normalize_headers (at_headers c) (at_request_id c) (at_client_ip c) = Value (out_headers out)
  end.
Proof. intros []; [done|]. eexists. by split_and!. Qed.

Lemma tries_silent u a call : tries c u a call →
  (∀ f, incs f call = []) ∧ pacing call = call_shows (bool_decide (is_Some a)).
Proof. by intros []. Qed.

Lemma tries_calls_le u a call : tries c u a call → len (calls call) ≤ 1.
Proof. by intros []. Qed.

Lemma waits_calls k wait : waits c k wait → calls wait = [].
Proof. by intros []. Qed.

Lemma policy_targets k last us es r : policy c k last us es r →
  ∃ tried, sublist tried us ∧ Forall2 called_at tried (calls es).
Proof.
  induction 1 as [k last es r Hg|k last us es r Hk Hg|k last u us es r Hk Ha Hp IH
    |k last u us es r Hk Hg|k last u us wait call a e kind es r Hk Hw Ht Ha Hp IH
    |k last u us wait call resp elapsed Hk Hw Ht Ha].
  - exists []. destruct Hg. by split.
  - exists []. destruct Hg. split; [apply sublist_nil_l|constructor].
  - destruct IH as (tried & Hs & HF). exists tried. split; [by constructor|done].
  - exists []. destruct Hg. events_simpl. split; [apply sublist_nil_l|constructor].
  - destruct IH as (tried & Hs & HF). events_simpl. rewrite (waits_calls _ _ Hw).
    apply tries_calls in Ht. destruct a as [a|].
    + destruct Ht as (out & -> & Hat & _). exists (u :: tried). split; [by constructor|].
      by constructor.
    + subst call. exists tried. split; [by constructor|done].
  - events_simpl. rewrite (waits_calls _ _ Hw).
    apply tries_calls in Ht as (out & -> & Hat & _). exists [u].
    split; [constructor; apply sublist_nil_l|by repeat constructor].
Qed.

Lemma policy_bounded k last us es r : policy c k last us es r →
  len (calls es) ≤ Z.max 0 (at_max_attempts c - k).
Proof.
  induction 1 as [k last es r Hg|k last us es r Hk Hg|k last u us es r Hk Ha Hp IH
    |k last u us es r Hk Hg|k last u us wait call a e kind es r Hk Hw Ht Ha Hp IH
    |k last u us wait call resp elapsed Hk Hw Ht Ha]; try (destruct Hg); events_simpl;
    try (rewrite (waits_calls _ _ Hw)); try (pose proof (tries_calls_le _ _ _ Ht) as Hle).
  1,2,4: exact (Z.le_max_l 0 _).
  - exact IH.
  - unfold len in *. rewrite !length_app.
    change (calls (EFailure u :: _ :: es)) with (calls es). simpl. lia.
  - unfold len in *. rewrite !length_app. simpl. lia.
Qed.

(** Every retry was granted, counted and paused for, in this order, before its
    call; [k] is the number of the first retry. *)
Definition paced_retries (k : Z) (es : list pace) : Prop :=
  ∃ retries denied, es = (retries ≫= retry_shows (route_prefix c)) ++ (if denied : bool then [PAsked false] else []) ∧
    ∀ j retry, retries !! j = Some retry → pause c (k + Z.of_nat j) retry.1.

Lemma paced_none k : paced_retries k [].
Proof. by exists [], false. Qed.

Lemma paced_denied k : paced_retries k [PAsked false].
Proof. by exists [], true. Qed.

Lemma paced_retry k t called es : pause c k t → paced_retries (k + 1) es →
  paced_retries k (retry_shows (route_prefix c) (t, called) ++ es).
Proof.
  intros Ht (retries & denied & -> & Hall). exists ((t, called) :: retries), denied.
  split; [by rewrite bind_cons, <-app_assoc|]. intros [|j] retry Hj; simpl in Hj; simplify_eq.
  - by rewrite Z.add_0_r.
  - replace (k + Z.of_nat (S j)) with (k + 1 + Z.of_nat j) by lia. by apply Hall.
Qed.

Lemma policy_paced_retries k last us es r : policy c k last us es r → 0 < k → paced_retries k (pacing es).
Proof.
  induction 1 as [k last es r Hg|k last us es r Hk Hg|k last u us es r Hk Ha Hp IH
    |k last u us es r Hk Hg|k last u us wait call a e kind es r Hk Hw Ht Ha Hp IH
    |k last u us wait call resp elapsed Hk Hw Ht Ha]; intros Hpos; try (destruct Hg); events_simpl;
    try (destruct Hw as [|k t _ Hpause]; [lia|]; destruct (tries_silent _ _ _ Ht) as [_ ->]).
  1,2: apply paced_none.
  - by apply IH.
  - apply paced_denied.
  - apply (paced_retry k t (bool_decide (is_Some a))); [done|]. apply IH. lia.
  - apply (paced_retry k t true []); [done|]. apply paced_none.
Qed.

Lemma policy_paced last us es r : policy c 0 last us es r →
  ∃ first rest, pacing es = call_shows first ++ rest ∧ paced_retries 1 rest.
Proof.
  intros Hp. remember 0 as k eqn:Hk0. revert Hk0.
  induction Hp as [k last es r Hg|k last us es r Hk Hg|k last u us es r Hk Ha Hp IH
    |k last u us es r Hk Hg|k last u us wait call a e kind es r Hk Hw Ht Ha Hp IH
    |k last u us wait call resp elapsed Hk Hw Ht Ha]; intros Hk0; try (destruct Hg); events_simpl;
    try (destruct Hw; [|lia]; destruct (tries_silent _ _ _ Ht) as [_ ->]).
  1,2: exists false, []; split; [done|apply paced_none].
  - by apply IH.
  - lia.
  - exists (bool_decide (is_Some a)), (pacing es). split; [done|]. by apply (policy_paced_retries 1 _ _ _ _ Hp).
  - exists true, []. split; [done|apply paced_none].
Qed.

(** The result is the last answer, and never an upstream's 5xx. *)
Lemma policy_result k le us es r : policy c k le us es r →
  match r with
  | Ok resp => is_server_error (resp_status resp) = false ∧
      ∃ out answer, last (calls es) = Some (out, CallOk answer) ∧ resp = strip_response answer
  | Err e => e = default UpstreamFailure le ∧ calls es = [] ∨ e = UpstreamFailure ∨
      e = UpstreamTimeout ∧ ∃ out, last (calls es) = Some (out, CallElapsed)
  end.
Proof.
  induction 1 as [k le es r Hg|k le us es r Hk Hg|k le u us es r Hk Ha Hp IH
    |k le u us es r Hk Hg|k le u us wait call a e kind es r Hk Hw Ht Ha Hp IH
    |k le u us wait call resp elapsed Hk Hw Ht Ha]; try (destruct Hg); events_simpl;
    try (rewrite (waits_calls _ _ Hw)).
  1,2,4: by left.
  - exact IH.
  - change (calls (EFailure u :: _ :: es)) with (calls es). destruct r as [resp|e'].
    + destruct IH as [Hs (out & answer & Hlast & ->)]. split; [done|]. exists out, answer.
      by rewrite !last_app, Hlast.
    + destruct IH as [[-> Hnil]|[->|[-> [out Hlast]]]]; [|by auto|].
      * simpl. destruct a as [[]|]; simpl in Ha; [case_match| | |]; simplify_eq; auto.
        right. right. apply tries_calls in Ht as (out & -> & _). rewrite Hnil.
        split; [done|]. by exists out.
      * right. right. split; [done|]. exists out. by rewrite !last_app, Hlast.
  - simpl in Ha. destruct (is_server_error (resp_status resp)) eqn:Hs; [done|].
    split; [done|]. apply tries_calls in Ht as (out & -> & _). by exists out, resp.
Qed.

(** The finished request is counted once, under the status the client gets. *)
Lemma policy_metrics k le us es r : policy c k le us es r →
  incs requests_total es = [[at_method c; route_prefix c; pretty (resp_status (respond r))]]
  ∨ ∃ e, r = Err e ∧ e ≠ UpstreamFailure ∧ e ≠ UpstreamTimeout.
Proof.
  assert (∀ le es r, gives_up c le es r →
    incs requests_total es = [[at_method c; route_prefix c; pretty (resp_status (respond r))]]
    ∨ ∃ e, r = Err e ∧ e ≠ UpstreamFailure ∧ e ≠ UpstreamTimeout) as Hgives.
  { intros le' es' r' []. destruct e; eauto 10. }
  induction 1 as [k le es r Hg|k le us es r Hk Hg|k le u us es r Hk Ha Hp IH
    |k le u us es r Hk Hg|k le u us wait call a e kind es r Hk Hw Ht Ha Hp IH
    |k le u us wait call resp elapsed Hk Hw Ht Ha]; events_simpl; try exact (Hgives _ _ _ Hg); try exact IH;
    destruct (tries_silent _ _ _ Ht) as (Hi & _); rewrite Hi;
    replace (incs requests_total wait) with (@nil (list string)) by (by destruct Hw); auto.
Qed.

(** The attempts: failed ones, and one that succeeded if a response is given;
    each shows its call and the verdict on its upstream. *)
Definition attempts_made (us : list string) (r : result Response ProxyError) (es : list act) : Prop :=
  ∃ failed final, sublist (failed ++ final).*1 us ∧
    es = (failed ++ final) ≫= attempt_shows (at_final_path c) (route_prefix c) ∧
    Forall (λ att, att.2 = None ↔ uri_parse (att.1 +:+ at_final_path c) = None) (failed ++ final) ∧
    Forall (λ att, is_Some (try_error att.2)) failed ∧
    match r with
    | Ok resp => ∃ u answer, final = [(u, Some (CallOk answer))] ∧
        try_error (Some (CallOk answer)) = None ∧ resp = strip_response answer
    | Err _ => final = []
    end.

Lemma no_attempts us e : attempts_made us (Err e) [].
Proof. exists [], []. split_and!; try done. apply sublist_nil_l. Qed.

Lemma attempts_skip u us r es : attempts_made us r es → attempts_made (u :: us) r es.
Proof.
  intros (failed & final & Hs & ?). exists failed, final. split; [by constructor|done].
Qed.

Lemma tries_shows u a call : tries c u a call →
  conduct call = match uri_parse (u +:+ at_final_path c), a with Some uri, Some a => [ACalled uri a] | _, _ => [] end ∧
  (a = None ↔ uri_parse (u +:+ at_final_path c) = None).
Proof. intros [->|uri h answer -> _]; by split. Qed.

Lemma policy_attempts k le us es r : policy c k le us es r → attempts_made us r (conduct es).
Proof.
  induction 1 as [k le es r Hg|k le us es r Hk Hg|k le u us es r Hk Ha Hp IH
    |k le u us es r Hk Hg|k le u us wait call a e kind es r Hk Hw Ht Ha Hp IH
    |k le u us wait call resp elapsed Hk Hw Ht Ha]; try (destruct Hg); events_simpl;
    try (destruct (tries_shows _ _ _ Ht) as [-> Hiff]; replace (conduct wait) with (@nil act) by (by destruct Hw)).
  1,2: apply no_attempts.
  - by apply attempts_skip.
  - apply no_attempts.
  - destruct IH as (failed & final & Hs & Heq & Hall & Hf & Hr). exists ((u, a) :: failed), final.
    split_and!; [by constructor| |by constructor|constructor; [by eexists|done]|done].
    rewrite <-app_comm_cons, bind_cons, <-Heq. unfold attempt_shows at 1. rewrite Ha. by rewrite <-app_assoc.
  - exists [], [(u, Some (CallOk resp))]. split_and!; [constructor; apply sublist_nil_l| |by constructor|done|by eexists u, resp].
    cbn [app]. rewrite bind_cons. unfold attempt_shows. rewrite Ha. by rewrite <-app_assoc.
Qed.

Lemma check_healthy u : at_any_healthy c = true → EChecked u true ∈ check_events c u.
Proof. intros Hany. unfold check_events. rewrite Hany. constructor. Qed.

(** While some upstream is healthy only upstreams found healthy are called. *)
Lemma policy_healthy k le us es r : policy c k le us es r → at_any_healthy c = true →
  ∀ call, call ∈ calls es → ∃ u, EChecked u true ∈ es ∧ called_at u call.
Proof.
  intros Hp Hany. induction Hp as [k le es r Hg|k le us es r Hk Hg|k le u us es r Hk Ha Hp IH
    |k le u us es r Hk Hg|k le u us wait call a e kind es r Hk Hw Ht Ha Hp IH
    |k le u us wait call resp elapsed Hk Hw Ht Ha]; try (destruct Hg); intros x;
    events_simpl; try (rewrite (waits_calls _ _ Hw)); try (by intros ?%not_elem_of_nil).
  - intros (v & Hv & ?)%IH. exists v. split; [by right|done].
  - rewrite !elem_of_app. intros [?%not_elem_of_nil|[?%not_elem_of_nil|[Hx|Hx]]]; [done|done| |].
    + exists u. rewrite !elem_of_app. split; [by left; apply check_healthy|]. apply tries_calls in Ht.
      destruct a; [destruct Ht as (out & -> & ? & _)|subst; by apply not_elem_of_nil in Hx].
      by apply list_elem_of_singleton in Hx as ->.
    + apply IH in Hx as (v & Hv & ?). exists v. rewrite !elem_of_app, !elem_of_cons. tauto.
  - rewrite !elem_of_app. intros [?%not_elem_of_nil|[?%not_elem_of_nil|[Hx|Hx]]]; [done|done| |].
    + exists u. rewrite !elem_of_app. split; [by left; apply check_healthy|].
      apply tries_calls in Ht as (out & -> & ? & _). by apply list_elem_of_singleton in Hx as ->.
    + by apply not_elem_of_nil in Hx.
Qed.

(** Every call carries the client's method and body and the normalised
    headers. *)
Lemma policy_outgoing k le us es r : policy c k le us es r →
  ∀ out answer, (out, answer) ∈ calls es →
    out_method out = at_method c ∧ out_body out = at_body c ∧
    normalize_headers (at_headers c) (at_request_id c) (at_client_ip c) = Value (out_headers out).
Proof.
  induction 1 as [k le es r Hg|k le us es r Hk Hg|k le u us es r Hk Ha Hp IH
    |k le u us es r Hk Hg|k le u us wait call a e kind es r Hk Hw Ht Ha Hp IH
    |k le u us wait call resp elapsed Hk Hw Ht Ha]; try (destruct Hg); intros out answer;
    events_simpl; try (rewrite (waits_calls _ _ Hw)); try (by intros ?%not_elem_of_nil); try exact (IH out answer);
    rewrite !elem_of_app; intros [?%not_elem_of_nil|[?%not_elem_of_nil|[Hx|Hx]]]; try done;
    apply tries_calls in Ht.
  - destruct a; [destruct Ht as (o & -> & _ & Ho)|subst; by apply not_elem_of_nil in Hx].
    apply list_elem_of_singleton in Hx. by simplify_eq.
  - by apply (IH out answer).
  - destruct Ht as (o & -> & _ & Ho). apply list_elem_of_singleton in Hx. by simplify_eq.
  - by apply not_elem_of_nil in Hx.
Qed.

(** [Φ] of each call and the events before it. *)
Fixpoint each_call (Φ : list event → Outgoing * CallResult → Prop) (pre es : list event) : Prop :=
  match es with
  | [] => True
  | e :: es' =>
      match e with ECalled out _ answer => Φ pre (out, answer) | _ => True end ∧ each_call Φ (pre ++ [e]) es'
  end.

Lemma each_call_app Φ pre es1 es2 :
  each_call Φ pre (es1 ++ es2) ↔ each_call Φ pre es1 ∧ each_call Φ (pre ++ es1) es2.
Proof.
  revert pre. induction es1 as [|e es1 IH]; intros pre; simpl; [rewrite app_nil_r; tauto|].
  rewrite IH, <-app_assoc. tauto.
Qed.

Lemma each_call_silent Φ pre es : calls es = [] → each_call Φ pre es.
Proof.
  revert pre. induction es as [|e es IH]; intros pre Hes; [done|]. destruct e; try done; (split; [done|by apply IH]).
Qed.

Lemma each_call_split Φ pre es1 out d answer es2 :
  each_call Φ pre (es1 ++ ECalled out d answer :: es2) → Φ (pre ++ es1) (out, answer).
Proof. rewrite each_call_app. by intros (_ & ? & _). Qed.

(** A call is made at one of [us], after the check that found it healthy if such
    checks are made. *)
Definition checked_first (us : list string) (pre : list event) (call : Outgoing * CallResult) : Prop :=
  ∃ u, u ∈ us ∧ called_at u call ∧ (at_any_healthy c = true → EChecked u true ∈ pre).

Lemma tries_checked_first us u a call pre wait : tries c u a call → u ∈ us →
  each_call (checked_first us) ((pre ++ check_events c u) ++ wait) call.
Proof.
  intros Ht Hu. destruct Ht as [|uri h answer Huri _]; [done|]. split; [|done].
  exists u. split_and!; [done|done|]. intros Hany. rewrite !elem_of_app. left. right. by apply check_healthy.
Qed.

Lemma waits_each_call Φ k wait pre : waits c k wait → each_call Φ pre wait.
Proof. intros Hw. apply each_call_silent. by eapply waits_calls. Qed.

Lemma attempt_checked_first us k u wait a call rest pre : waits c k wait → tries c u a call → u ∈ us →
  (∀ pre, each_call (checked_first us) pre rest) →
  each_call (checked_first us) pre (check_events c u ++ wait ++ call ++ rest).
Proof.
  intros Hw Ht Hu Hrest. rewrite !each_call_app. split_and!.
  - apply each_call_silent. by destruct (check_silent c u).
  - by eapply waits_each_call.
  - by eapply tries_checked_first.
  - apply Hrest.
Qed.

Lemma policy_checked_first all k le us es r pre : policy c k le us es r → us ⊆ all →
  each_call (checked_first all) pre es.
Proof.
  intros Hp. revert pre. induction Hp as [k le es r Hg|k le us es r Hk Hg|k le u us es r Hk Ha Hp IH
    |k le u us es r Hk Hg|k le u us wait call a e kind es r Hk Hw Ht Ha Hp IH
    |k le u us wait call resp elapsed Hk Hw Ht Ha]; intros pre Hall; try (by apply each_call_silent; destruct Hg).
  - split; [done|]. apply IH. set_solver.
  - apply each_call_silent. destruct Hg. by events_simpl.
  - apply (attempt_checked_first _ k u wait a); [done|done|set_solver|]. intros pre'.
    do 2 (split; [done|]). apply IH. set_solver.
  - apply (attempt_checked_first _ k u wait (Some (CallOk resp))); [done|done|set_solver|].
    intros pre'. by apply each_call_silent.
Qed.
End policy_facts.
