(* ===== verification/ProxySpec.v ===== *)
(** ProxySpec: [proxy_request] refines the retry policy.

    Every run of the attempt loop that returns shows exactly the events, and
    gives the result, of one derivation of [policy]. *)

From S2P Require Import Prelude Float64 Prog Config Balancer Http Errors Router Health.
From S2P Require Import RetryBudget RateLimiter Metrics State Trace Proxy RetryPolicy.
From stdpp Require Import pretty.
Local Open Scope Z_scope.

Section refinement.
Context `{Hyper, Platform}.
Context (W : World) (c : Attempt).

Lemma skip_upstream_emits u Ψ :
  (at_any_healthy c = true → Ψ [EChecked u false] true) → Ψ (check_events c u) false →
  emits W (skip_upstream c u) Ψ.
Proof.
  intros Hskip Hgo. unfold skip_upstream, check_events in *.
  destruct (at_any_healthy c); [|done].
  repeat emit_step. intros [] _; simpl; auto.
Qed.

Lemma may_attempt_emits k Ψ : 0 ≤ k →
  (∀ wait, waits c k wait → Ψ wait true) → (0 < k → Ψ [EBudget false] false) →
  emits W (may_attempt c k) Ψ.
Proof.
  intros Hk Hgo Hdeny. unfold may_attempt, inc, backoff. case_decide as Hpos.
  2: { simpl. apply Hgo. replace k with 0 by lia. constructor. }
  emit_step. emit_step. intros [] _; [|by apply Hdeny].
  emit_steps. apply Hgo.
  apply retry; [done|]. do 2 eexists. eauto.
Qed.

Lemma forward_once_emits u Ψ :
  (∀ call a, tries c u a call → Ψ call match a with
     | None | Some CallFailed => Err UpstreamFailure
     | Some CallElapsed => Err UpstreamTimeout
     | Some (CallOk resp) => Ok (strip_response resp)
     end) →
  emits W (forward_once (at_method c) (at_headers c) (at_body c) u (at_final_path c)
           (at_request_id c) (at_client_ip c) (at_request_timeout c)) Ψ.
Proof.
  intros HΨ. unfold forward_once. destruct (uri_parse _) as [uri|] eqn:Huri.
  2: { simpl. apply (HΨ [] None). by constructor. }
  emit_step. emit_step. intros h Hh. emit_step. emit_step. intros a _.
  pose proof (HΨ _ _ (called c u uri h a Huri Hh)) as Ha.
  by destruct a.
Qed.

Lemma after_attempt_emits u k a Ψ :
  (∀ e kind, try_error a = Some (e, kind) →
     Ψ [EFailure u; EMetric (Inc errors_total [route_prefix c; kind])] (Continue k (Some e))) →
  (∀ resp elapsed, a = Some (CallOk resp) → try_error a = None →
     Ψ (ESuccess u :: recorded c (pretty (resp_status resp)) elapsed)
       (Return (Ok (strip_response resp)))) →
  emits W (after_attempt c u k match a with
     | None | Some CallFailed => Err UpstreamFailure
     | Some CallElapsed => Err UpstreamTimeout
     | Some (CallOk resp) => Ok (strip_response resp)
     end) Ψ.
Proof.
  intros Hfail Hok. destruct a as [[resp| |]|]; unfold after_attempt, inc;
    try (emit_steps; by apply Hfail).
  simpl resp_status. simpl try_error in *. destruct (is_server_error (resp_status resp)).
  - emit_steps. by apply Hfail.
  - unfold elapsed_since, record_outcome, inc. emit_steps. by apply Hok.
Qed.

Lemma make_attempt_emits u i k Ψ : 0 ≤ k < at_max_attempts c → at_max_attempts c < 2 ^ 64 →
  (∀ call a e kind, tries c u a call → try_error a = Some (e, kind) →
     Ψ (call ++ [EFailure u; EMetric (Inc errors_total [route_prefix c; kind])])
       (Continue (k + 1) (Some e))) →
  (∀ call resp elapsed, tries c u (Some (CallOk resp)) call → try_error (Some (CallOk resp)) = None →
     Ψ (call ++ ESuccess u :: recorded c (pretty (resp_status resp)) elapsed)
       (Return (Ok (strip_response resp)))) →
  emits W (make_attempt c i u k) Ψ.
Proof.
  intros Hk Hmax Hfail Hok. unfold make_attempt, add_w.
  rewrite checked_fits by (unfold in_width; lia). emit_step. emit_step. intros k' [= <-].
  emit_step. eapply emits_balance; [apply returns_true|]. intros _ _.
  emit_step. apply forward_once_emits. intros call a Hcall.
  emit_step. eapply emits_balance; [apply returns_true|]. intros _ _.
  apply after_attempt_emits; intros; cbn [app].
  - by eapply Hfail.
  - subst a. by apply Hok.
Qed.

Lemma finish_failed_emits last : emits W (finish_failed c last) (gives_up c last).
Proof.
  unfold finish_failed, elapsed_since, record_outcome, inc.
  emit_steps. apply (gave_up c last).
Qed.

(** The upstreams the loop still has to visit. *)
Definition candidate (offset : Z) (u : string) : Prop :=
  in_u64 (at_start_index c + offset) ∧ 0 < upstream_count c ∧
  upstreams (at_route c) !! Z.to_nat ((at_start_index c + offset) mod upstream_count c) = Some u.

Lemma attempt_loop_refines offsets us k last :
  Forall2 candidate offsets us → 0 ≤ k → at_max_attempts c < 2 ^ 64 →
  emits W (attempt_loop c offsets k last) (policy c k last us).
Proof.
  intros Hus Hk Hmax. revert k last Hk.
  induction Hus as [|offset u offsets us (Hsum & Hn & Hu) Hus IH]; intros k last Hk;
    cbn [attempt_loop].
  { eapply emits_mono; [apply finish_failed_emits|]. intros. by constructor. }
  emit_step. unfold loop_body. case_decide as Hspent.
  { emit_step. eapply emits_mono; [apply finish_failed_emits|]. intros. by apply spent. }
  unfold add_w. rewrite checked_fits by done.
  emit_step. emit_step. intros sum [= <-]. rewrite rem_u_pos by done. emit_step. emit_step. intros i [= <-].
  emit_step. emit_step. rewrite (index_lookup _ _ u) by done. intros u' [= <-].
  emit_step. apply skip_upstream_emits.
  { intros Hany. emit_step. eapply emits_mono; [by apply IH|]. intros.
    cbn [app]. apply skipped; done || lia. }
  emit_step. apply may_attempt_emits; [done| |].
  2: { intros Hpos. emit_step. eapply emits_mono; [apply finish_failed_emits|]. intros.
       cbn [app]. rewrite <-app_assoc. apply denied; done || lia. }
  intros wait Hwait. apply make_attempt_emits; [lia|done| |].
  - intros call a e kind Hcall Ha. eapply emits_mono; [apply IH; lia|]. intros.
    cbn [app]. rewrite <-!app_assoc. eapply failed; done || lia.
  - intros call resp elapsed Hcall Ha. cbn [emits app]. rewrite app_nil_r.
    apply succeeded; done || lia.
Qed.

Lemma candidates_rotate n : n = upstream_count c → 0 ≤ at_start_index c →
  at_start_index c + n ≤ 2 ^ 64 →
  Forall2 candidate (seqZ 0 n) (rotate (Z.to_nat (at_start_index c)) (upstreams (at_route c))).
Proof.
  intros -> Hs Hfit. unfold upstream_count, len in *. set (us := upstreams (at_route c)) in *.
  apply Forall2_same_length_lookup_2.
  { rewrite length_rotate, length_seqZ. lia. }
  intros i o u Ho Hu. apply lookup_seqZ in Ho as [-> Hi].
  rewrite lookup_rotate_r in Hu by lia. unfold rotate_nat_add in Hu.
  split_and!; [split; lia|unfold upstream_count, len; fold us; lia|].
  unfold upstream_count, len. fold us. by rewrite <-Hu, Z2Nat.id, Z.add_0_l by lia.
Qed.
End refinement.

(** ** Requests *)

(** A route as the configuration builds it, with lists no longer than a [Vec]
    can be. *)
Definition built_route (route : Route) : Prop :=
  ∃ rc, route = build_route rc ∧ vec_fits (rc_upstream rc) ∧
        ∀ ws, rc_weights rc = Some ws → vec_fits ws.

Lemma built_router_routes (c : Config) :
  Forall (λ rc, vec_fits (rc_upstream rc) ∧ ∀ ws, rc_weights rc = Some ws → vec_fits ws) (routes c) →
  Forall built_route (router_routes (build_router c)).
Proof.
  intros Hc. simpl. apply Forall_fmap. eapply Forall_impl; [done|].
  intros rc [? ?]. by exists rc.
Qed.

Section requests.
Context `{Hyper, Platform}.

Lemma any_upstream_healthy_emits W us :
  emits W (any_upstream_healthy us) (λ es any, probes us es any).
Proof.
  induction us as [|u us IH]; simpl; [constructor|]. intros [] _; simpl; [constructor|].
  eapply emits_mono; [exact IH|]. intros es any Hany. by constructor.
Qed.

Lemma matched_route_built r path i route :
  Forall built_route (router_routes r) → match_route r path = Some (i, route) → built_route route.
Proof.
  intros Hr Hm. pose proof (match_route_lookup r path i route Hm) as Hi.
  by eapply Forall_lookup_1 in Hi.
Qed.

(** Whatever configurations and routers may be loaded: the run follows the
    policy of one configuration and one router among them. *)
Lemma proxy_request_shows (W : World) req :
  (∀ arc, may_router W arc → Forall built_route (router_routes (the_router arc))) →
  emits W (proxy_request req) (λ es res, ∃ cfg arc, may_config W cfg ∧ may_router W arc ∧
    request_policy cfg (the_router arc) req es res).
Proof.
  intros Hr. unfold proxy_request. emit_step. emit_step. intros start _.
  emit_step. emit_step. intros request_id Hid. emit_step. emit_step. intros cfg Hcfg.
  emit_step. emit_step. intros arc Harc. specialize (Hr arc Harc).
  apply emits_mono with (Ψ := request_policy cfg (the_router arc) req);
    [|intros es res Hp; by exists cfg, arc].
  destruct (match_route (the_router arc) (uri_path (req_uri req))) as [[i route]|] eqn:Hm.
  2: { unfold inc. emit_steps. by apply unmatched. }
  destruct (matched_route_built _ _ _ _ Hr Hm) as (rc & -> & Hn & Hws).
  emit_step. emit_step. intros [body|] _.
  2: { emit_step. by eapply unreadable. }
  emit_step. eapply emits_balance.
  { apply next_index_bound; [|done]. unfold vec_fits in Hn. pose proof (len_nonneg (rc_upstream rc)).
    simpl. lia. }
  intros start_index Hstart. emit_step. eapply emits_mono; [apply any_upstream_healthy_emits|].
  intros checks any Hany. emit_step. emit_step. intros max_attempts Hmax.
  emit_step. emit_step. intros _ _. set (c := mk_attempt _ _ _ _ _ _ _ _ _ _ _ _ _ _ _).
  eapply emits_mono.
  - eapply (attempt_loop_refines _ c); [|done|].
    + apply candidates_rotate; [done|exact (proj1 Hstart)|]. unfold vec_fits in Hn. simpl in *. lia.
    + unfold add_w, checked in Hmax. simpl. case_decide as Hw; [|case_match]; simplify_eq.
      * unfold in_width in Hw. lia.
      * by apply (wrap_in_width 64).
  - intros es res Hp. assert (attempt_of cfg req (build_route rc) c) as Hc by (by constructor).
    exact (attempted cfg _ req i _ c checks es res Hm Hc Hany Hp).
Qed.

Lemma proxy_request_emits cfg r req :
  Forall built_route (router_routes r) →
  emits (snapshot cfg r) (proxy_request req) (request_policy cfg r req).
Proof.
  intros Hr. eapply emits_mono; [apply proxy_request_shows|].
  - by intros arc ->.
  - by intros es res (cfg' & arc & -> & <- & Hp).
Qed.
End requests.
