(* ===== verification/Sample.v ===== *)
(** Sample: a small deployment on which the theorems are instantiated.

    Two upstreams behind the prefix [/api]; the first refuses connections, the
    second answers.  [play_request] runs a request against it. *)

From S2P Require Import Prelude Float64 Prog Config Balancer Http Errors Router Health.
From S2P Require Import RetryBudget RateLimiter Metrics State Trace Proxy.
Export SimpleHyper.
Local Open Scope Z_scope.

#[export] Instance release : Platform := release_build.

Definition sample_server : ServerConfig :=
  mk_server_config "127.0.0.1:8080" 2 5 3 30 None 10 (f64_of_Z 20) 10 None 30
    (Some (mk_rate_limit_config (f64_of_Z 100) 200)) 30 90 32.

Definition sample_routes : list RouteConfig :=
  [mk_route_config "/api" ["http://a:80"; "http://b:80"] StLeastConnections None].

Definition sample_config : Config := mk_config sample_server sample_routes.
Definition sample_router : Router := build_router sample_config.

Definition sample_ip : IpAddr := V4 10 0 0 7.

Definition sample_request : Request :=
  mk_request "GET" "/api/items?id=1" {[ "host" := ["proxy.example"]; "te" := ["trailers"] ]}
    (Some sample_ip).

Definition sample_now : Instant := from_secs 1000.

(** [a] refuses the connection, [b] answers 200. *)
Definition sample_call (req : Outgoing) : CallResult :=
  if String.prefix "http://a" (out_uri req) then CallFailed
  else CallOk (mk_response 200 {[ "connection" := ["close"] ]} "items").

Definition sample_await (X : Type) (a : awaitE X) : X :=
  match a in awaitE X return X with
  | ReadBody => Some "body"%string
  | Sleep _ => tt
  | Call req _ => sample_call req
  | Probe _ _ => Some 200
  end.

Definition sample_answer (cfg : Config) (X : Type) (_ : nat) (e : sysE X) : X :=
  match e in sysE X return X with
  | Now => sample_now
  | NewUuid => "2f1b"%string
  | Jitter _ => 0
  | LoadConfig => cfg
  | LoadRouter => mk_router_arc 0 sample_router
  | StoreRouter _ | StoreConfig _ => tt
  | Balance _ _ e => match e in balE X return X with Load _ | FetchAdd _ _ | FetchSub _ _ => 0 end
  | HealthFailure _ | HealthSuccess _ => tt
  | HealthCheck _ => true
  | BudgetRequest => tt
  | BudgetRetry => true
  | RateLimit e => match e in rateE X return X with
                   | RateEnabled => true | RateCount => 1 | RateCleanup => tt | RateAcquire _ => true
                   end
  | Metric _ => tt
  | Await a => sample_await _ a
  | AwaitBy _ a => Some (sample_await _ a)
  end.

Definition sample_play (cfg : Config) : list (obs sysE) * outcome (result Response ProxyError) :=
  play (sample_answer cfg) 0 (proxy_request sample_request).

Definition sample_trace : list (obs sysE) := (sample_play sample_config).1.
Definition sample_result : result Response ProxyError :=
  value_or (Err NoRoute) (sample_play sample_config).2.
Definition sample_response : Response := ok_or (build_response 0 "") sample_result.

(** The run gives [b]'s answer, without its hop-by-hop header. *)
Example sample_response_value :
  (resp_status sample_response, resp_body sample_response,
   hm_get_all (resp_headers sample_response) "connection") = (200, "items", []).
Proof. vm_compute. reflexivity. Qed.

Lemma sample_steps :
  steps (sys_ok (snapshot sample_config sample_router)) (proxy_request sample_request)
    sample_trace (Ret (Ok sample_response)).
Proof.
  unfold sample_response. rewrite <-is_ok_or by (vm_compute; reflexivity).
  unfold sample_result, sample_trace, sample_play.
  apply play_value_steps; vm_compute; [|reflexivity]. repeat split; discriminate.
Qed.

Example sample_calls :
  (λ c, out_uri c.1) <$> calls (events sample_trace) = ["http://a:80/items?id=1"; "http://b:80/items?id=1"].
Proof. vm_compute. reflexivity. Qed.

(** The same deployment with the largest number of retries. *)
Definition greedy_config : Config :=
  mk_config (mk_server_config "127.0.0.1:8080" 2 (2 ^ 64 - 1) 3 30 None 10 (f64_of_Z 20) 10 None 30
    None 30 90 32) sample_routes.

Definition greedy_trace : list (obs sysE) := (sample_play greedy_config).1.
Definition greedy_result : result Response ProxyError :=
  value_or (Err NoRoute) (sample_play greedy_config).2.

Lemma greedy_steps :
  steps (sys_ok (snapshot greedy_config sample_router)) (proxy_request sample_request)
    greedy_trace (Ret greedy_result).
Proof.
  unfold greedy_result, greedy_trace, sample_play.
  apply play_value_steps; vm_compute; [|reflexivity]. repeat split; discriminate.
Qed.
