(* ===== verification/ProxyFacts.v ===== *)
(** ProxyFacts: what every completed run of [proxy_request] guarantees.

    The hypotheses of a run: the environment serves one configuration [cfg] and
    one router [r] whose routes were built from a configuration, and the program
    returned [res] along the trace [tr].  [Sample]'s run witnesses each theorem. *)

From S2P Require Import Prelude Float64 Prog Config Balancer Http Errors Router Health.
From S2P Require Import RetryBudget RateLimiter Metrics State Trace Proxy Middleware RetryPolicy.
From S2P Require Import PolicyFacts ProxySpec Sample.
From stdpp Require Import pretty.
Local Open Scope Z_scope.

(** A completed run of [proxy_request]. *)
Definition completes `{Hyper, Platform} (cfg : Config) (r : Router) (req : Request)
    (tr : list (obs sysE)) (res : result Response ProxyError) : Prop :=
  Forall built_route (router_routes r) ∧
  steps (sys_ok (snapshot cfg r)) (proxy_request req) tr (Ret res).

(** The route a request is matched to. *)
Definition matched `{Hyper} (r : Router) (req : Request) : option Route :=
  snd <$> match_route r (uri_path (req_uri req)).

Lemma sample_completes :
  completes sample_config sample_router sample_request sample_trace (Ok sample_response).
Proof.
  split; [|exact sample_steps]. apply built_router_routes. repeat constructor. by intros ws.
Qed.

Lemma greedy_completes :
  completes greedy_config sample_router sample_request greedy_trace greedy_result.
Proof.
  split; [|exact greedy_steps]. apply (built_router_routes greedy_config).
  repeat constructor. by intros ws.
Qed.

Section facts.
Context `{Hyper, Platform}.
Context (cfg : Config) (r : Router) (req : Request) (tr : list (obs sysE))
  (res : result Response ProxyError).

Lemma run_policy : completes cfg r req tr res → request_policy cfg r req (events tr) res.
Proof. intros [Hr Hrun]. by eapply emits_steps; [apply proxy_request_emits|]. Qed.

(** Reading the body, and the probes that choose between health-aware and
    blind selection. *)
Lemma opening_silent body us checks b : probes us checks b → let opening := EBody body :: checks in
  calls opening = [] ∧ pacing opening = [] ∧ (∀ f, incs f opening = []) ∧ conduct opening = [].
Proof. by induction 1 as [| |u us es b Hp IH]. Qed.

(** C1. Refinement: every completed run of [proxy_request] shows the events and
    gives the result the retry policy allows for this request, configuration
    and router. *)
Theorem proxy_request_refines :
  Forall built_route (router_routes r) →
  steps (sys_ok (snapshot cfg r)) (proxy_request req) tr (Ret res) →
  request_policy cfg r req (events tr) res.
Proof. intros Hr Hrun. by apply run_policy. Qed.

(** At most [max_retries + 1] calls, at different upstreams of the route, in an
    order that starts anywhere and goes round; none without a route. *)
Definition calls_within (cs : list (Outgoing * CallResult)) : Prop :=
  len cs ≤ max_retries (server cfg) + 1 ∧
  match matched r req with
  | None => cs = []
  | Some route => ∃ start tried, sublist tried (rotate start (upstreams route)) ∧
      Forall2 (λ u call, uri_parse (u +:+ final_path (req_uri req) route) = Some (out_uri call.1))
        tried cs
  end.

Lemma calls_within_prefix cs cs' : calls_within (cs ++ cs') → calls_within cs.
Proof.
  intros [Hlen Hm]. split.
  - unfold len in *. rewrite length_app in Hlen. lia.
  - destruct (matched r req) as [route|]; [|by destruct cs].
    destruct Hm as (start & tried & Hsub & HF). apply Forall2_app_inv_r in HF as (t1 & t2 & HF & _ & ->).
    exists start, t1. split; [|done]. etrans; [|exact Hsub]. by apply sublist_inserts_r.
Qed.

Lemma policy_calls_within es : request_policy cfg r req es res → 0 ≤ max_retries (server cfg) →
  calls_within (calls es).
Proof.
  intros Hrun Hmax. unfold calls_within, matched.
  destruct Hrun as [Hm|i route Hm|i route c checks es res' Hm Hc Hpr Hp]; rewrite Hm.
  - split; [|done]. unfold len. simpl. lia.
  - split; [unfold len; simpl; lia|]. exists O, []. split; [apply sublist_nil_l|constructor].
  - destruct (opening_silent (Some (at_body c)) _ _ _ Hpr) as (Hcalls & _). rewrite calls_app, Hcalls.
    simpl app. split.
    + pose proof (policy_bounded _ _ _ _ _ _ Hp). pose proof (of_max_attempts _ _ _ _ Hc) as Hma.
      unfold add_w, checked in Hma. case_decide; [simplify_eq; lia|]. case_match; simplify_eq.
      unfold wrap in Hma. pose proof (Z.mod_le (max_retries (server cfg) + 1) (2 ^ 64)). lia.
    + destruct (policy_targets _ _ _ _ _ _ Hp) as (tried & Hs & HF).
      exists (Z.to_nat (at_start_index c)), tried. simpl. split; [done|].
      eapply Forall2_impl; [done|]. intros u call Hu. unfold called_at in Hu.
      by rewrite (of_path _ _ _ _ Hc) in Hu.
Qed.

Lemma completed_calls_within :
  completes cfg r req tr res → 0 ≤ max_retries (server cfg) → calls_within (calls (events tr)).
Proof. intros Hrun. by apply policy_calls_within, run_policy. Qed.

(** A request is tried at most [max_retries + 1] times, only at upstreams of
    its route, in the order that starts at the balancer's choice, and at each
    upstream at most once; a request no route matches is not forwarded. *)
Theorem attempts_bounded :
  completes cfg r req tr res → 0 ≤ max_retries (server cfg) →
  len (calls (events tr)) ≤ max_retries (server cfg) + 1 ∧
  match matched r req with
  | None => calls (events tr) = []
  | Some route => ∃ start tried, sublist tried (rotate start (upstreams route)) ∧
      Forall2 (λ u call, uri_parse (u +:+ final_path (req_uri req) route) = Some (out_uri call.1))
        tried (calls (events tr))
  end.
Proof. exact completed_calls_within. Qed.

(** C5. Retries are paced: of the budget's answers, the counted retries, the
    pauses and the calls, a matched request shows, in this order, at most one
    call; then for each retry, one after the other, the budget's grant, the
    increment of [retries_total] under the route's prefix, one pause, and only
    then its call (or none, when the upstream's address does not parse); and at
    the end perhaps the budget's refusal, after which nothing follows.  The
    pause of the [j]-th retry (from 0) is [base * 2^j] milliseconds as the code
    computes it, and a jitter of at most half of it. *)
Theorem retries_budgeted :
  completes cfg r req tr res →
  match matched r req with
  | None => pacing (events tr) = []
  | Some route => ∃ (first denied : bool) (retries : list (Z * bool)),
      pacing (events tr) =
        (if first then [PCalled] else []) ++
        (retries ≫= λ '((t, sent) : Z * bool), [PAsked true; PCounted [Router.prefix route]; PSlept (from_millis t)] ++
                                    if sent then [PCalled] else []) ++
        (if denied then [PAsked false] else []) ∧
      ∀ j t sent, retries !! j = Some (t, sent) → ∃ exp jitter,
        exp_delay (retry_backoff_ms (server cfg)) (Z.of_nat j + 1) = Value exp ∧
        0 ≤ jitter ≤ exp / 2 ∧ add_w 64 exp jitter = Value t
  end.
Proof.
  intros Hrun. unfold matched.
  destruct (run_policy Hrun) as [Hm|i route Hm|i route c checks es res' Hm Hc Hpr Hp]; rewrite Hm;
    cbn [fmap option_fmap option_map snd].
  - done.
  - by exists false, false, [].
  - destruct (opening_silent (Some (at_body c)) _ _ _ Hpr) as (_ & Hpace & _).
    rewrite pacing_app, Hpace. simpl app.
    destruct (policy_paced _ _ _ _ _ Hp) as (first & rest & -> & retries & denied & -> & Hall).
    exists first, denied, retries. split.
    + rewrite <-(of_route _ _ _ _ Hc). do 2 f_equal. apply list_bind_ext; [|done]. by intros [].
    + intros j t sent Hj. destruct (Hall j _ Hj) as (exp & jitter & He & Hjit & Ht).
      rewrite (of_backoff _ _ _ _ Hc) in He. exists exp, jitter. by rewrite Z.add_comm.
Qed.

(** C6. The result comes from the upstream: a response is the last answer with
    its hop-by-hop headers stripped, or the proxy's own 404 for an unmatched
    request, and never a 5xx; an error is an upstream failure, or a timeout
    when the last call timed out. *)
Theorem result_is_last_answer :
  completes cfg r req tr res →
  match res with
  | Ok resp =>
      is_server_error (resp_status resp) = false ∧
      (matched r req = None ∧ resp = build_response 404 "No matching route" ∨
       ∃ out answer, last (calls (events tr)) = Some (out, CallOk answer)
                     ∧ resp = strip_response answer)
  | Err e => e = UpstreamFailure ∨
      e = UpstreamTimeout ∧ ∃ out, last (calls (events tr)) = Some (out, CallElapsed)
  end.
Proof.
  intros Hrun. unfold matched.
  destruct (run_policy Hrun) as [Hm|i route Hm|i route c checks es res' Hm Hc Hpr Hp].
  - rewrite Hm. split; [done|by left].
  - by left.
  - destruct (opening_silent (Some (at_body c)) _ _ _ Hpr) as (Hcalls & _). rewrite calls_app, Hcalls. simpl app.
    pose proof (policy_result _ _ _ _ _ _ Hp) as Hres. destruct res' as [resp|e].
    + destruct Hres as [Hs Hlast]. split; [done|by right].
    + destruct Hres as [[-> _]|Hres]; [by left|done].
Qed.

(** The line of [requests_total] a response goes with. *)
Definition counted_as (es : list event) : Prop :=
  match matched r req with
  | None => incs requests_total es = [[req_method req; "unmatched"; "404"]]
  | Some route =>
      res = Err UpstreamFailure ∧ es = [EBody None] ∨
      head es ≠ Some (EBody None) ∧ incs requests_total es
      = [[req_method req; Router.prefix route; pretty (resp_status (respond res))]]
  end.

Lemma policy_counted es : request_policy cfg r req es res → counted_as es.
Proof.
  intros Hrun. unfold counted_as, matched.
  destruct Hrun as [Hm|i route Hm|i route c checks es res' Hm Hc Hpr Hp]; rewrite Hm.
  - done.
  - by left.
  - right. split; [done|].
    destruct (opening_silent (Some (at_body c)) _ _ _ Hpr) as (_ & _ & Hincs & _). rewrite incs_app, Hincs.
    simpl app. pose proof (policy_result _ _ _ _ _ _ Hp) as Hres.
    destruct (policy_metrics _ _ _ _ _ _ Hp) as [->|(e & -> & He1 & He2)].
    + by rewrite (of_method _ _ _ _ Hc), <-(of_route _ _ _ _ Hc).
    + by destruct Hres as [[? _]|[?|[? _]]].
Qed.

(** C17. Metrics match responses: a request no route matches is counted as
    [unmatched]; any other begins by reading the body.  When that fails, and
    only then, it goes uncounted: it shows nothing else and is an upstream
    failure.  When the body was read, the request is counted once in
    [requests_total], under its method, its route and the status the client
    receives. *)
Theorem metrics_match_response :
  completes cfg r req tr res →
  match matched r req with
  | None => incs requests_total (events tr) = [[req_method req; "unmatched"; "404"]]
  | Some route => ∃ body, head (events tr) = Some (EBody body) ∧
      match body with
      | None => res = Err UpstreamFailure ∧ events tr = [EBody None]
      | Some _ => incs requests_total (events tr)
          = [[req_method req; Router.prefix route; pretty (resp_status (respond res))]]
      end
  end.
Proof.
  intros Hrun. pose proof (policy_counted _ (run_policy Hrun)) as Hc. unfold counted_as, matched in *.
  destruct (run_policy Hrun) as [Hm|i route Hm|i route c checks es res' Hm _ _ _]; rewrite Hm in *; simpl in *.
  - done.
  - by exists None.
  - exists (Some (at_body c)). split; [done|]. by destruct Hc as [[_ ?]|[_ ?]].
Qed.

(** C36. Health bookkeeping: what a matched request did at its upstreams is a
    sequence of attempts, at different upstreams in the balancer's order; each
    shows its call, unless the upstream's address does not parse, and then the
    verdict on this very upstream: a connection failure, a timeout or a 5xx is
    reported as a failure and counted in [errors_total] under the route and
    that kind; anything else is reported as a success, ends the request, and is
    its response.  Nothing else is called, reported or counted there. *)
Theorem reports_match_attempts :
  completes cfg r req tr res →
  match matched r req with
  | None => conduct (events tr) = []
  | Some route =>
      let path := final_path (req_uri req) route in
      ∃ start failed final, sublist (failed ++ final).*1 (rotate start (upstreams route)) ∧
        conduct (events tr) = (failed ++ final) ≫= attempt_shows path (Router.prefix route) ∧
        Forall (λ att, att.2 = None ↔ uri_parse (att.1 +:+ path) = None) (failed ++ final) ∧
        Forall (λ att, is_Some (try_error att.2)) failed ∧
        match res with
        | Ok resp => ∃ u answer, final = [(u, Some (CallOk answer))] ∧
            try_error (Some (CallOk answer)) = None ∧ resp = strip_response answer
        | Err _ => final = []
        end
  end.
Proof.
  intros Hrun. unfold matched.
  destruct (run_policy Hrun) as [Hm|i route Hm|i route c checks es res' Hm Hc Hpr Hp]; rewrite Hm;
    cbn [fmap option_fmap option_map snd].
  - done.
  - exists O, [], []. split_and!; try done. apply sublist_nil_l.
  - destruct (opening_silent (Some (at_body c)) _ _ _ Hpr) as (_ & _ & _ & Hcond).
    rewrite conduct_app, Hcond.
    destruct (policy_attempts _ _ _ _ _ _ Hp) as (failed & final & Hattempts).
    unfold route_prefix in Hattempts. rewrite (of_path _ _ _ _ Hc), (of_route _ _ _ _ Hc) in Hattempts.
    by exists (Z.to_nat (at_start_index c)), failed, final.
Qed.

(** C37. Health-aware selection: once an upstream of the route is found healthy
    (the probe that finds it comes first), only upstreams found healthy are
    called. *)
Theorem only_healthy_called :
  completes cfg r req tr res →
  ∀ route, matched r req = Some route →
  ∃ body checks any rest, events tr = EBody body :: checks ++ rest ∧
    match body with None => checks ++ rest = [] | Some _ => probes (upstreams route) checks any end ∧
    (any = true → ∀ call, call ∈ calls (events tr) → ∃ u, EChecked u true ∈ rest ∧
       uri_parse (u +:+ final_path (req_uri req) route) = Some (out_uri call.1)).
Proof.
  intros Hrun route. unfold matched.
  destruct (run_policy Hrun) as [Hm|i route' Hm|i route' c checks es res' Hm Hc Hpr Hp]; rewrite Hm;
    intros [= ->].
  - exists None, [], true, []. split_and!; [done|done|]. by intros _ call ?%not_elem_of_nil.
  - exists (Some (at_body c)), checks, (at_any_healthy c), es. split_and!; [done|done|].
    intros Hany call. destruct (opening_silent (Some (at_body c)) _ _ _ Hpr) as (Hcalls & _).
    rewrite calls_app, Hcalls. simpl app. intros Hcall.
    destruct (policy_healthy _ _ _ _ _ _ Hp Hany call Hcall) as (u & Hu & Hat).
    exists u. split; [done|]. unfold called_at in Hat. by rewrite (of_path _ _ _ _ Hc) in Hat.
Qed.

(** All attempts of a request are the same request: the client's method,
    and headers normalised with one request id and the client's address. *)
Theorem attempts_share_identity :
  completes cfg r req tr res →
  ∃ request_id body, visible request_id = true ∧
    ∀ out answer, (out, answer) ∈ calls (events tr) →
      out_method out = req_method req ∧ out_body out = body ∧
      normalize_headers (req_headers req) request_id (remote_addr req) = Value (out_headers out).
Proof.
  intros Hrun.
  destruct (run_policy Hrun) as [Hm|i route Hm|i route c checks es res' Hm Hc Hpr Hp].
  1,2: exists EmptyString, EmptyString; split; [done|]; by intros ? ? ?%not_elem_of_nil.
  destruct (opening_silent (Some (at_body c)) _ _ _ Hpr) as (Hcalls & _).
  exists (at_request_id c), (at_body c). split; [exact (of_request_id _ _ _ _ Hc)|].
  intros out answer. rewrite calls_app, Hcalls. intros Hin.
  destruct (policy_outgoing _ _ _ _ _ _ Hp _ _ Hin) as (Hmeth & Hbody & Hhead).
  by rewrite (of_method _ _ _ _ Hc), (of_headers _ _ _ _ Hc), (of_client _ _ _ _ Hc) in *.
Qed.

(** With the largest [max_retries] and overflow checks off, the number of
    attempts wraps to zero: a matched request fails without any upstream
    call. *)
Theorem max_retries_wraps :
  completes cfg r req tr res → overflow_checks = false → max_retries (server cfg) = 2 ^ 64 - 1 →
  is_Some (matched r req) → calls (events tr) = [] ∧ res = Err UpstreamFailure.
Proof.
  intros Hrun Hoc Hmax. unfold matched.
  destruct (run_policy Hrun) as [Hm|i route Hm|i route c checks es res' Hm Hc Hpr Hp]; rewrite Hm;
    intros [route' Hroute]; [by simplify_eq/=|done|clear Hroute].
  destruct (opening_silent (Some (at_body c)) _ _ _ Hpr) as (Hcalls & _). rewrite calls_app, Hcalls.
  pose proof (of_max_attempts _ _ _ _ Hc) as Hma. unfold add_w, checked in Hma.
  rewrite Hmax, Hoc, decide_False in Hma by (unfold in_width; lia). injection Hma as Hma.
  change (wrap 64 (2 ^ 64 - 1 + 1)) with 0 in Hma.
  pose proof (policy_bounded _ _ _ _ _ _ Hp) as Hb. rewrite <-Hma in Hb.
  assert (calls es = []) as Hnil by (destruct (calls es); [done|unfold len in Hb; simpl in Hb; lia]).
  split; [by rewrite Hnil|].
  pose proof (policy_result _ _ _ _ _ _ Hp) as Hres. rewrite Hnil in Hres.
  destruct res' as [resp|e]; simpl in Hres.
  - by destruct Hres as (_ & ? & ? & ? & _).
  - by destruct Hres as [[-> _]|[->|(_ & ? & ?)]].
Qed.
End facts.

(** ** Witnesses *)

Lemma proxy_request_refines_witness :
  request_policy sample_config sample_router sample_request (events sample_trace) (Ok sample_response).
Proof.
  exact (proxy_request_refines _ _ _ _ _ (proj1 sample_completes) (proj2 sample_completes)).
Defined.

Lemma attempts_bounded_witness : len (calls (events sample_trace)) ≤ 6.
Proof.
  refine (proj1 (attempts_bounded _ _ _ _ _ sample_completes _)). vm_compute. discriminate.
Defined.

Lemma retries_budgeted_witness :
  pacing (events sample_trace)
  = [PCalled; PAsked true; PCounted ["/api"]; PSlept (from_millis 10); PCalled] ∧
  ∃ (first denied : bool) (retries : list (Z * bool)),
    pacing (events sample_trace) =
      (if first then [PCalled] else []) ++
      (retries ≫= λ '((t, sent) : Z * bool), [PAsked true; PCounted ["/api"]; PSlept (from_millis t)] ++
                                  if sent then [PCalled] else []) ++
      (if denied then [PAsked false] else []).
Proof.
  split; [vm_compute; reflexivity|].
  destruct (retries_budgeted _ _ _ _ _ sample_completes) as (first & denied & retries & Heq & _).
  exists first, denied, retries. exact Heq.
Defined.

Lemma result_is_last_answer_witness : is_server_error (resp_status sample_response) = false.
Proof. exact (proj1 (result_is_last_answer _ _ _ _ _ sample_completes)). Defined.

Lemma metrics_match_response_witness :
  incs requests_total (events sample_trace) = [["GET"; "/api"; "200"]].
Proof.
  destruct (metrics_match_response _ _ _ _ _ sample_completes) as ([body|] & _ & Hbody);
    [exact Hbody|destruct Hbody as [Hres _]; discriminate Hres].
Defined.

Lemma reports_match_attempts_witness :
  conduct (events sample_trace)
  = [ACalled "http://a:80/items?id=1" CallFailed; AReported "http://a:80" false; AError ["/api"; "connection"];
     ACalled "http://b:80/items?id=1" (sample_call (mk_outgoing "GET" "http://b:80/items?id=1" ∅ ""));
     AReported "http://b:80" true] ∧
  ∃ attempts, conduct (events sample_trace) = attempts ≫= attempt_shows "/items?id=1" "/api".
Proof.
  split; [vm_compute; reflexivity|].
  destruct (reports_match_attempts _ _ _ _ _ sample_completes) as (start & failed & final & _ & Heq & _).
  exists (failed ++ final). exact Heq.
Defined.

Lemma only_healthy_called_witness :
  ∃ (body : option string) (checks : list event) (any : bool) (rest : list event),
    events sample_trace = EBody body :: checks ++ rest.
Proof.
  destruct (only_healthy_called _ _ _ _ _ sample_completes (build_route (mk_route_config "/api"
    ["http://a:80"; "http://b:80"] StLeastConnections None)) eq_refl) as (body & checks & any & rest & Heq & _).
  exists body, checks, any, rest. exact Heq.
Defined.

Lemma attempts_share_identity_witness : ∃ request_id : string, visible request_id = true.
Proof.
  destruct (attempts_share_identity _ _ _ _ _ sample_completes) as (id & body & Hid & _).
  exists id. exact Hid.
Defined.

Lemma max_retries_wraps_witness : calls (events greedy_trace) = [].
Proof.
  refine (proj1 (max_retries_wraps _ _ _ _ _ greedy_completes eq_refl eq_refl _)).
  eexists. reflexivity.
Defined.
