(* ===== verification/HeaderFacts.v ===== *)
(** HeaderFacts: the request the upstream receives.

    What header normalisation does to each header, for every header map that
    satisfies the documented laws of the [http] crate, and what path rewriting
    does to the target address. *)

From S2P Require Import Prelude Config Balancer Http Router Proxy Sample.
From Stdlib Require Import Ascii.
Local Open Scope Z_scope.

Section headers.
Context `{HyperLaws, Platform}.

Lemma strip_get_all names h name :
  hm_get_all (foldl hm_remove h names) name = if decide (name ∈ names) then [] else hm_get_all h name.
Proof.
  revert h. induction names as [|n names IH]; intros h; cbn [foldl].
  { by rewrite decide_False by apply not_elem_of_nil. }
  rewrite IH, get_all_remove. destruct (decide (name ∈ names)) as [Hin|Hin].
  - by rewrite decide_True by (by right).
  - destruct (decide (name = n)) as [->|Hne].
    + by rewrite decide_True by left.
    + rewrite decide_False; [done|]. rewrite elem_of_cons. tauto.
Qed.

(** No hop-by-hop header of an upstream's response reaches the client;
    status, body and every other header do. *)
Theorem strip_response_exact (resp : Response) :
  (∀ name, hm_get_all (resp_headers (strip_response resp)) name
     = if decide (name ∈ HOP_BY_HOP_HEADERS) then [] else hm_get_all (resp_headers resp) name) ∧
  resp_status (strip_response resp) = resp_status resp ∧
  resp_body (strip_response resp) = resp_body resp.
Proof. split; [|done]. intros name. apply strip_get_all. Qed.

(** A header value that is read back as [s]. *)
Definition reads (vs : list HeaderValue) (s : string) : Prop :=
  ∃ v, vs = [v] ∧ hv_to_str v = Some s.

Lemma forwarded_for_visible headers ip : visible (forwarded_for headers ip) = true.
Proof.
  unfold forwarded_for. destruct (hm_get headers "x-forwarded-for") as [v|]; [|apply visible_ip].
  rewrite !visible_app, visible_ip. destruct (hv_to_str v) as [s|] eqn:Hs; [|done].
  simpl. by rewrite (to_str_visible _ _ Hs).
Qed.

Lemma normalize_headers_value headers request_id client_ip : visible request_id = true →
  ∃ out, normalize_headers headers request_id client_ip = Value out.
Proof.
  intros Hid. unfold normalize_headers.
  destruct (from_str_visible request_id Hid) as (vid & -> & _).
  destruct (from_str_visible "http" eq_refl) as (vproto & -> & _). cbn [unwrap mbind outcome_bind].
  destruct client_ip as [ip|]; simpl; [|eauto].
  destruct (from_str_visible _ (forwarded_for_visible (hm_insert headers "x-request-id" vid) ip))
    as (v & -> & _). simpl. eauto.
Qed.

(** The headers the proxy itself sets. *)
Definition proxy_headers : list string :=
  ["x-request-id"; "x-forwarded-for"; "x-forwarded-proto"; "x-forwarded-host"].

Lemma set_forwarded_for_spec headers client_ip :
  ∃ out, set_forwarded_for headers client_ip = Value out ∧
    (∀ name, name ≠ "x-forwarded-for" → hm_get_all out name = hm_get_all headers name) ∧
    match client_ip with
    | Some ip => reads (hm_get_all out "x-forwarded-for") (forwarded_for headers ip)
    | None => hm_get_all out "x-forwarded-for" = hm_get_all headers "x-forwarded-for"
    end.
Proof.
  destruct client_ip as [ip|]; simpl; [|by exists headers].
  destruct (from_str_visible _ (forwarded_for_visible headers ip)) as (v & -> & Hv). simpl.
  eexists. split_and!; [done| |].
  - intros name Hname. rewrite get_all_insert. by rewrite decide_False.
  - exists v. by rewrite get_all_insert, decide_True.
Qed.

Lemma forwarded_for_ext h1 h2 ip :
  hm_get_all h1 "x-forwarded-for" = hm_get_all h2 "x-forwarded-for" →
  forwarded_for h1 ip = forwarded_for h2 ip.
Proof. unfold forwarded_for, hm_get. by intros ->. Qed.

(** The host was read from a header, so it makes a header value again. *)
Lemma set_forwarded_host_spec headers (hv : option HeaderValue) :
  (∀ name, name ≠ "x-forwarded-host" →
     hm_get_all (set_forwarded_host headers (hv ≫= hv_to_str)) name = hm_get_all headers name) ∧
  match hv ≫= hv_to_str with
  | Some host =>
      reads (hm_get_all (set_forwarded_host headers (hv ≫= hv_to_str)) "x-forwarded-host") host
  | None => set_forwarded_host headers (hv ≫= hv_to_str) = headers
  end.
Proof.
  destruct (hv ≫= hv_to_str) as [host|] eqn:Hhost; simpl; [|done].
  destruct hv as [v|]; [|done]. simpl in Hhost.
  destruct (from_str_visible host (to_str_visible _ _ Hhost)) as (v' & -> & Hv). split.
  - intros name Hname. rewrite get_all_insert. by rewrite decide_False.
  - exists v'. by rewrite get_all_insert, decide_True.
Qed.

(** Names of headers are compared by computing. *)
Ltac header_name := done || by apply (bool_decide_eq_true_1 _).

(** C18. Header normalisation always succeeds for a visible request id.  The
    upstream sees the request id, [http] as the forwarded protocol, one
    forwarded-for value (the client's address alone, or after the first value
    the request carried, a comma and a space), the original host when the
    request named one, none of the hop-by-hop headers, and every other header
    untouched. *)
Theorem normalize_headers_spec (headers : HeaderMap) (request_id : string) (client_ip : option IpAddr) :
  visible request_id = true →
  ∃ out, normalize_headers headers request_id client_ip = Value out ∧
    (∀ name, name ∈ HOP_BY_HOP_HEADERS → hm_get_all out name = []) ∧
    reads (hm_get_all out "x-request-id") request_id ∧
    reads (hm_get_all out "x-forwarded-proto") "http" ∧
    match client_ip with
    | Some ip => reads (hm_get_all out "x-forwarded-for")
        match hm_get headers "x-forwarded-for" with
        | Some existing => default "" (hv_to_str existing) +:+ ", " +:+ ip_to_string ip
        | None => ip_to_string ip
        end
    | None => hm_get_all out "x-forwarded-for" = hm_get_all headers "x-forwarded-for"
    end ∧
    match hm_get headers "host" ≫= hv_to_str with
    | Some host => reads (hm_get_all out "x-forwarded-host") host
    | None => hm_get_all out "x-forwarded-host" = hm_get_all headers "x-forwarded-host"
    end ∧
    ∀ name, name ∉ HOP_BY_HOP_HEADERS → name ∉ proxy_headers →
      hm_get_all out name = hm_get_all headers name.
Proof.
  intros Hid. unfold normalize_headers.
  destruct (from_str_visible request_id Hid) as (vid & -> & Hvid).
  destruct (from_str_visible "http" eq_refl) as (vproto & Hproto & Hvproto).
  change (unwrap (Some vid)) with (Value vid). cbn [mbind outcome_bind].
  set (h1 := hm_insert headers "x-request-id" vid).
  assert (∀ name, name ≠ "x-request-id" → hm_get_all h1 name = hm_get_all headers name) as Hh1
    by (intros name Hname; unfold h1; rewrite get_all_insert; by rewrite decide_False).
  destruct (set_forwarded_for_spec h1 client_ip) as (h2 & -> & Hh2 & Hxff).
  rewrite Hproto. cbn [mbind outcome_bind unwrap].
  set (h3 := hm_insert h2 "x-forwarded-proto" vproto).
  assert (∀ name, name ≠ "x-forwarded-proto" → hm_get_all h3 name = hm_get_all h2 name) as Hh3
    by (intros name Hname; unfold h3; rewrite get_all_insert; by rewrite decide_False).
  destruct (set_forwarded_host_spec h3 (hm_get headers "host")) as [Hh4 Hhost].
  set (h4 := set_forwarded_host h3 _) in *.
  eexists. split; [done|]. unfold strip_hop_by_hop_headers.
  assert (∀ name, name ∉ HOP_BY_HOP_HEADERS →
    hm_get_all (foldl hm_remove h4 HOP_BY_HOP_HEADERS) name = hm_get_all h4 name) as Hkeep
    by (intros name Hname; rewrite strip_get_all; by rewrite decide_False).
  split_and!.
  - intros name Hname. rewrite strip_get_all. by rewrite decide_True.
  - exists vid. rewrite Hkeep, Hh4, Hh3, Hh2 by header_name.
    unfold h1. by rewrite get_all_insert, decide_True.
  - exists vproto. rewrite Hkeep, Hh4 by header_name. unfold h3. by rewrite get_all_insert, decide_True.
  - rewrite Hkeep, Hh4, Hh3 by header_name. destruct client_ip as [ip|].
    + fold (forwarded_for headers ip). by rewrite <-(forwarded_for_ext h1) by by apply Hh1.
    + by rewrite Hxff, Hh1.
  - rewrite Hkeep by header_name. destruct (hm_get headers "host" ≫= hv_to_str); [done|].
    by rewrite Hhost, Hh3, Hh2, Hh1.
  - intros name Hhop Hproxy. unfold proxy_headers in Hproxy.
    rewrite !not_elem_of_cons in Hproxy. destruct Hproxy as (? & ? & ? & ? & _).
    by rewrite Hkeep, Hh4, Hh3, Hh2, Hh1.
Qed.
End headers.

(** ** The authority of an address (RFC 3986, section 3.2)

    In [scheme://authority/path?query#fragment] the authority ends at the first
    slash, question mark or number sign; its host and port are what follows the
    last at sign. *)
Definition delimiters : list ascii := ["/"%char; "?"%char; "#"%char].

Fixpoint up_to (stops : list ascii) (s : string) : string :=
  match s with
  | EmptyString => EmptyString
  | String c s' => if decide (c ∈ stops) then EmptyString else String c (up_to stops s')
  end.

Fixpoint free_of (stops : list ascii) (s : string) : bool :=
  match s with
  | EmptyString => true
  | String c s' => bool_decide (c ∉ stops) && free_of stops s'
  end.

(** What follows the first two slashes in a row. *)
Fixpoint after_slashes (s : string) : string :=
  match s with
  | EmptyString => EmptyString
  | String c s' =>
      match s' with
      | String c' s'' => if decide (c = "/"%char ∧ c' = "/"%char) then s'' else after_slashes s'
      | EmptyString => EmptyString
      end
  end.

Definition authority (address : string) : string := up_to delimiters (after_slashes address).

Fixpoint host_and_port (s : string) : string :=
  match s with
  | EmptyString => EmptyString
  | String c s' =>
      if free_of ["@"%char] s' then (if decide (c = "@"%char) then s' else s) else host_and_port s'
  end.

Lemma string_app_cons c s s' : String c s +:+ s' = String c (s +:+ s').
Proof. done. Qed.

Lemma string_app_nil_r s : s +:+ "" = s.
Proof. induction s as [|c s IH]; [done|]. by rewrite string_app_cons, IH. Qed.

Lemma string_app_inj s s1 s2 : s +:+ s1 = s +:+ s2 → s1 = s2.
Proof. induction s as [|c s IH]; [done|]. rewrite !string_app_cons. intros [= Heq]. auto. Qed.

Lemma free_of_weaken stops stops' s : stops ⊆ stops' → free_of stops' s = true → free_of stops s = true.
Proof.
  intros Hsub. induction s as [|c s IH]; simpl; [done|]. rewrite !andb_true_iff, !bool_decide_eq_true.
  intros [Hc Hs]. split; [|auto]. intros Hin. by apply Hc, Hsub.
Qed.

Lemma up_to_app stops s1 s2 : free_of stops s1 = true → up_to stops (s1 +:+ s2) = s1 +:+ up_to stops s2.
Proof.
  induction s1 as [|c s IH]; [done|]. rewrite !string_app_cons. cbn [up_to free_of].
  rewrite andb_true_iff, bool_decide_eq_true. intros [Hc Hs].
  rewrite decide_False by done. by rewrite IH.
Qed.

Lemma after_slashes_app scheme s : free_of ["/"%char] scheme = true →
  after_slashes (scheme +:+ "://" +:+ s) = s.
Proof.
  induction scheme as [|c scheme IH]; [done|]. cbn [free_of]. rewrite andb_true_iff, bool_decide_eq_true.
  intros [Hc Hs]. rewrite string_app_cons. rewrite <-(IH Hs) at 2.
  assert (∃ c' z, scheme +:+ "://" +:+ s = String c' z) as (c' & z & ->)
    by (destruct scheme as [|c' scheme]; rewrite ?string_app_cons; by eexists _, _).
  cbn [after_slashes]. rewrite decide_False; [done|]. intros [-> _]. apply Hc. by left.
Qed.

Lemma free_of_app stops s1 s2 : free_of stops (s1 +:+ s2) = free_of stops s1 && free_of stops s2.
Proof.
  induction s1 as [|c s1 IH]; [done|]. rewrite string_app_cons. cbn [free_of]. by rewrite IH, andb_assoc.
Qed.

Lemma host_after_at pre host : free_of ["@"%char] host = true → host_and_port (pre +:+ "@" +:+ host) = host.
Proof.
  intros Hh. induction pre as [|c pre IH].
  - change ("" +:+ "@" +:+ host) with (String "@"%char host). cbn [host_and_port]. by rewrite Hh, decide_True.
  - rewrite string_app_cons. cbn [host_and_port]. rewrite free_of_app, (free_of_app _ "@" host).
    change (free_of ["@"%char] "@") with false. rewrite andb_false_l, andb_false_r. exact IH.
Qed.

(** ** Path rewriting *)
Section paths.
Context `{Hyper}.

Lemma final_path_stripped uri route rest :
  uri_path_and_query uri = Some (Router.prefix route +:+ rest) →
  final_path uri route = if decide (rest = "") then "/" else rest.
Proof. intros Hpq. unfold final_path. rewrite Hpq. cbn [from_option id]. by rewrite strip_prefix_app. Qed.

(** Path rewriting on a segment boundary: when the target continues the
    route's prefix with nothing, with a slash or with a query after a slash,
    the path sent upstream is what follows the prefix, starts with a slash,
    and is [/] for the prefix alone. *)
Theorem final_path_rooted (uri : Uri) (route : Route) (rest : string) :
  uri_path_and_query uri = Some (Router.prefix route +:+ rest) →
  rest = "" ∨ starts_with rest "/" = true →
  starts_with (final_path uri route) "/" = true ∧
  (final_path uri route = rest ∨ rest = "" ∧ final_path uri route = "/").
Proof.
  intros Hpq Hrest. rewrite (final_path_stripped uri route rest Hpq).
  case_decide as Hd; [by split; [|right]|].
  destruct Hrest as [?|?]; [done|]. by split; [|left].
Qed.

End paths.

(** ** Witnesses *)

Lemma strip_response_exact_witness :
  hm_get_all (resp_headers (strip_response (mk_response 200 {[ "te" := ["x"] ]} "b"))) "te" = [].
Proof.
  exact (proj1 (strip_response_exact (mk_response 200 {[ "te" := ["x"] ]} "b")) "te").
Defined.

Lemma normalize_headers_spec_witness :
  visible "2f1b" = true ∧
  ∃ out, normalize_headers (req_headers sample_request) "2f1b" (Some sample_ip) = Value out ∧
         hm_get_all out "te" = [] ∧ reads (hm_get_all out "x-forwarded-for") "10.0.0.7".
Proof.
  split; [reflexivity|].
  destruct (normalize_headers_spec (req_headers sample_request) "2f1b" (Some sample_ip) eq_refl)
    as (out & Hout & Hhop & _ & _ & Hxff & _).
  exists out. split; [exact Hout|]. split; [|exact Hxff].
  apply Hhop. apply (bool_decide_eq_true_1 _). reflexivity.
Defined.

(** The catch-all route of the test configuration. *)
Definition root_route : Route := mk_route "/" ["http://127.0.0.1:9001"] (ARoundRobin mk_round_robin).
Definition api_route : Route := mk_route "/api" ["http://127.0.0.1:9001"] (ARoundRobin mk_round_robin).

Lemma final_path_rooted_witness :
  starts_with (final_path (H := simple_hyper) "/api/items?id=1" api_route) "/" = true.
Proof.
  refine (proj1 (final_path_rooted (H := simple_hyper) "/api/items?id=1" api_route "/items?id=1" _ _)).
  - reflexivity.
  - right. reflexivity.
Defined.

