(* ===== verification/MiddlewareFacts.v ===== *)
(** MiddlewareFacts: what each layer of the stack guarantees. *)

From S2P Require Import Prelude Float64 Prog Config Balancer Http Errors Router Health.
From S2P Require Import RetryBudget RateLimiter Metrics State Trace Proxy Middleware Sample.
From S2P Require Import HeaderFacts.
Local Open Scope Z_scope.

(** ** The overall deadline *)
Section deadline.
Context `{Hyper, Platform} (W : World).

(** A program cut at a wait: the last answer of the trace says the deadline
    passed. *)
Definition cut_at {A} (p : prog sysE A) (tr : list (obs sysE)) : Prop :=
  ∃ X (a : awaitE X) d tr0, tr = tr0 ++ [Obs (AwaitBy d a) None] ∧
    ((∃ k, p = Vis (Await a) k) ∨ (∃ d' k, p = Vis (AwaitBy d' a) k)).

(** Same events, same effect on every atomic. *)
Definition same_effects (tr tr' : list (obs sysE)) : Prop :=
  events tr = events tr' ∧
  ∀ gen route i, total_delta gen route i tr = total_delta gen route i tr'.

Lemma with_deadline_steps {A} deadline (p : prog sysE A) tr o :
  steps (sys_ok W) (with_deadline deadline p) tr (Ret o) →
  ∃ tr' p', steps (sys_ok W) p tr' p' ∧ same_effects tr tr' ∧
    match o with Some a => p' = Ret a | None => cut_at p' tr end.
Proof.
  revert tr. induction p as [a| |X e k IH]; intros tr Hs.
  - apply steps_ret_inv in Hs as [-> [= ->]].
    exists [], (Ret a). split_and!; [constructor|done|done].
  - by apply steps_inv in Hs as [[_ ?]|[]].
  - assert (∀ (x : X) tr1 Y (e' : sysE Y) y, sys_ok W X e x →
      steps (sys_ok W) (with_deadline deadline (k x)) tr1 (Ret o) →
      event_of Y e' y = event_of X e x →
      (∀ gen route i, delta gen route i (Obs e' y) = delta gen route i (Obs e x)) →
      ∃ tr' p', steps (sys_ok W) (Vis e k) tr' p' ∧ same_effects (Obs e' y :: tr1) tr' ∧
        match o with Some a => p' = Ret a | None => cut_at p' (Obs e' y :: tr1) end) as Hgo.
    { intros x tr1 Y e' y Hx Hs1 Hev Hd.
      destruct (IH x tr1 Hs1) as (tr' & p' & Hs' & [Heq Hdelta] & Ho).
      exists (Obs e x :: tr'), p'. split; [by constructor|]. split; [split|].
      - by rewrite !events_cons, Hev, Heq.
      - intros gen route i. specialize (Hdelta gen route i).
        unfold total_delta in *. cbn [foldr]. by rewrite Hd, Hdelta.
      - destruct o; [done|]. destruct Ho as (Z & a & d & tr0 & -> & Hp').
        exists Z, a, d, (Obs e' y :: tr0). done. }
    assert (∀ Y (a : awaitE Y) d, o = None →
      ((∃ k', Vis e k = Vis (Await a) k') ∨ (∃ d' k', Vis e k = Vis (AwaitBy d' a) k')) →
      ∃ tr' p', steps (sys_ok W) (Vis e k) tr' p' ∧ same_effects [Obs (AwaitBy d a) None] tr' ∧
        match o with Some a => p' = Ret a | None => cut_at p' [Obs (AwaitBy d a) None] end) as Hcut.
    { intros Y a d -> Hp. exists [], (Vis e k). split_and!; [constructor|done|].
      by exists Y, a, d, []. }
    destruct e; cbn [with_deadline] in Hs; try case_decide;
      apply steps_vis_ret in Hs as (x & tr1 & -> & Hx & Hs); try (by eapply Hgo).
    all: destruct x as [x|]; [by eapply Hgo|].
    all: apply steps_ret_inv in Hs as [-> [= ->]]; apply Hcut; [done|eauto].
Qed.

Lemma request_timeout_steps (timeout : Duration) (inner : Request → prog sysE Response)
    (req : Request) (tr : list (obs sysE)) (resp : Response) :
  steps (sys_ok W) (request_timeout timeout inner req) tr (Ret resp) →
  ∃ tr' p', steps (sys_ok W) (inner req) tr' p' ∧ same_effects tr tr' ∧
    (p' = Ret resp ∨ cut_at p' tr ∧ resp = build_response 504 "Request timed out").
Proof.
  intros Hs. apply steps_vis_ret in Hs as (now & tr1 & -> & _ & Hs). simpl in Hs.
  apply steps_bind_ret in Hs as (o & tr2 & tr3 & -> & Hs & Hret).
  apply with_deadline_steps in Hs as (tr' & p' & Hs' & Heff & Ho).
  apply steps_ret_inv in Hret as [-> [= ->]]. exists tr', p'. split; [done|].
  rewrite app_nil_r. split; [exact Heff|].
  destruct o as [a|]; [by left; subst|right]. split; [|done].
  destruct Ho as (X & a & d & tr0 & -> & Hp'). by exists X, a, d, (Obs Now now :: tr0).
Qed.

(** C19. The overall timeout: a request the layer lets finish was run
    undisturbed to that very response; otherwise it was cut at a wait, after
    the events shown, and the client gets [504 Request timed out]. *)
Theorem request_timeout_refines (timeout : Duration) (inner : Request → prog sysE Response)
    (req : Request) (tr : list (obs sysE)) (resp : Response) :
  steps (sys_ok W) (request_timeout timeout inner req) tr (Ret resp) →
  ∃ tr' p', steps (sys_ok W) (inner req) tr' p' ∧ same_effects tr tr' ∧
    (p' = Ret resp ∨ cut_at p' tr ∧ resp = build_response 504 "Request timed out").
Proof. apply request_timeout_steps. Qed.
End deadline.

(** ** Rate limiting *)
Section limiting.
Context `{Hyper, Platform}.

Lemma set_rate_limiter_id s : set_rate_limiter s (rate_limiter s) = s.
Proof. by destruct s. Qed.

(** A check run inside the whole state changes the limiter only. *)
Lemma run_sys_check {A B} (p : prog rateE A) (f : A → prog sysE B) os s :
  let '(l, o) := run_check p (λ n, clock (os n)) (rate_limiter s) in
  ∃ n, run_sys os (translate (λ X e, RateLimit e) p ≫= f) s =
    match o with
    | Value a => run_sys (λ k, os (n + k)%nat) (f a) (set_rate_limiter s l)
    | Panicked => (set_rate_limiter s l, Panicked)
    end.
Proof.
  revert os s. induction p as [a| |X e k IH]; intros os s; cbn -[handle_rate].
  - exists O. by rewrite set_rate_limiter_id.
  - exists O. by rewrite set_rate_limiter_id.
  - destruct (handle_rate (clock (os 0%nat)) X e (rate_limiter s)) as [l [x|]]; cbn -[handle_rate].
    + specialize (IH x (λ n, os (S n)) (set_rate_limiter s l)). cbn in IH.
      destruct (run_check (k x) (λ n, clock (os (S n))) l) as [l' o].
      destruct IH as (n & IH). exists (S n). exact IH.
    + by exists O.
Qed.

(** C20. A client over its limit is answered [429] with [Retry-After: 1] without
    reaching the proxy: the limiter is the only state that changes.  A client
    within it goes on to the inner service in the state the check left. *)
Theorem rate_limit_layer `{!HyperLaws _} (inner : Request → prog sysE Response) (req : Request)
    (ip : IpAddr) (os : nat → Oracle) (s : AppState) :
  remote_addr req = Some ip →
  let '(l, o) := run_check (check ip) (λ n, clock (os n)) (rate_limiter s) in
  match o with
  | Value false => ∃ resp, run_sys os (rate_limit inner req) s = (set_rate_limiter s l, Value resp) ∧
      resp_status resp = 429 ∧ reads (hm_get_all (resp_headers resp) "retry-after") "1"
  | Value true => ∃ n, run_sys os (rate_limit inner req) s
      = run_sys (λ k, os (n + k)%nat) (inner req) (set_rate_limiter s l)
  | Panicked => run_sys os (rate_limit inner req) s = (set_rate_limiter s l, Panicked)
  end.
Proof.
  intros Hip. unfold rate_limit. rewrite Hip.
  pose proof (run_sys_check (check ip) (λ allowed : bool,
    if allowed then inner req else lift too_many_requests) os s) as Hrun.
  destruct (run_check (check ip) _ _) as [l [[]|]]; destruct Hrun as (n & Hrun).
  - by exists n.
  - destruct (from_str_visible "1" eq_refl) as (v & Hv & Hread).
    eexists. split; [rewrite Hrun; unfold too_many_requests; rewrite Hv; reflexivity|].
    split; [done|]. exists v. simpl. by rewrite get_all_insert, decide_True.
  - done.
Qed.
End limiting.

(** ** Witnesses *)

(** A service that takes a minute, and its run under a deadline of half of one. *)
Definition slow_service : Request → prog sysE Response := λ _,
  _ ← trigger (Await (Sleep (from_secs 60))); Ret (build_response 200 "ok").

Definition slow_trace : list (obs sysE) :=
  [Obs Now sample_now; Obs (AwaitBy (sample_now + from_secs 30) (Sleep (from_secs 60))) None].

Lemma request_timeout_refines_witness :
  ∃ tr' p', steps (sys_ok (snapshot sample_config sample_router)) (slow_service sample_request) tr' p' ∧
    same_effects slow_trace tr' ∧ cut_at p' slow_trace.
Proof.
  destruct (request_timeout_refines (snapshot sample_config sample_router) (from_secs 30) slow_service
    sample_request slow_trace (build_response 504 "Request timed out")) as (tr' & p' & Hs & Heff & Hend).
  - do 2 (apply steps_cons; [exact I|]). apply steps_nil.
  - exists tr', p'. split; [exact Hs|]. split; [exact Heff|]. destruct Hend as [->|[Hcut _]]; [|exact Hcut].
    apply steps_vis_ret in Hs as (x & tr1 & _ & _ & [_ [=]]%steps_ret_inv).
Defined.

(** A service that answers at once. *)
Definition prompt_service : Request → prog sysE Response := λ _, Ret (build_response 200 "ok").

(** All readings at one instant. *)
Definition sample_oracle (n : nat) : Oracle :=
  mk_oracle (λ _, sample_now) "2f1b" (λ _, 0) sample_await (λ X _ a, Some (sample_await X a)).

(** A deployment whose limiter has no token at all. *)
Definition strict_state : AppState :=
  mk_app_state [sample_router] 0 (fresh_cells 0 sample_router) sample_config
    (health_new 3 (from_secs 30)) (budget_new (f64_of_Z 20) 10) (mk_metrics [])
    (limiter_new (f64_of_Z 0) 0).

Lemma rate_limit_layer_witness :
  ∃ resp, (run_sys sample_oracle (rate_limit prompt_service sample_request) strict_state).2 = Value resp
          ∧ resp_status resp = 429.
Proof.
  pose proof (rate_limit_layer prompt_service sample_request sample_ip sample_oracle strict_state eq_refl)
    as Hlayer.
  assert (match (run_check (check sample_ip) (λ n, clock (sample_oracle n)) (rate_limiter strict_state)).2
          with Value false => True | _ => False end) as Hdenied by (vm_compute; exact I).
  destruct (run_check (check sample_ip) (λ n, clock (sample_oracle n)) (rate_limiter strict_state))
    as [l [[]|]]; [destruct Hdenied| |destruct Hdenied].
  destruct Hlayer as (resp & Hrun & Hstatus & _). exists resp.
  split; [exact (f_equal snd Hrun)|exact Hstatus].
Defined.
