(* ===== verification/Connections.v ===== *)
(** Connections: how a request holds a slot of its least-connections balancer.

    [disciplined ok m h p Ψ]: started while holding the slot [h], [p] takes a
    slot only when it holds none and gives back only the one it holds, and at its
    end the slot held satisfies [Ψ].  The trace's effect on the balancer's
    counters is then exactly the slot held, at every point of every run.  A tidy
    program moreover waits with a slot only for an upstream's answer, and a
    strict one calls upstreams only with a slot: being dropped at a call, and
    nowhere else, keeps a slot for ever. *)

From S2P Require Import Prelude Float64 Prog Config Balancer Http Errors Router State Trace Proxy.
From S2P Require Import Middleware Sample HeaderFacts MiddlewareFacts.
Local Open Scope Z_scope.

Inductive mode := Strict | Tidy | Lax.

Section discipline.
Context `{Hyper} (ok : ∀ X, sysE X → X → Prop) (m : mode) (gen route : nat).

Definition slot (h : option Z) (i : Z) : Z := if decide (h = Some i) then 1 else 0.

(** At a wait the slot stays, where the mode allows it. *)
Definition slot_at_wait {X} (a : awaitE X) (h : option Z) : option (option Z) :=
  match m, a, h with
  | Strict, Call _ _, None => None
  | Strict, Call _ _, Some _ | Tidy, Call _ _, _ | Lax, _, _ => Some h
  | _, _, None => Some h
  | _, _, Some _ => None
  end.

(** What an effect does to the slot held; [None] when it is not allowed. *)
Definition slot_step (h : option Z) (X : Type) (e : sysE X) : option (option Z) :=
  match e with
  | @Balance _ g r _ (FetchAdd j n) =>
      if decide ((g, r) = (gen, route))
      then if decide (n = 1 ∧ h = None) then Some (Some j) else None
      else Some h
  | @Balance _ g r _ (FetchSub j n) =>
      if decide ((g, r) = (gen, route))
      then if decide (n = 1 ∧ h = Some j) then Some None else None
      else Some h
  | Await a => slot_at_wait a h
  | AwaitBy _ _ => match m with Lax => Some h | _ => None end
  | _ => Some h
  end.

Fixpoint disciplined {A} (h : option Z) (p : prog sysE A) (Ψ : option Z → A → Prop) : Prop :=
  match p with
  | Ret a => Ψ h a
  | Panic => True
  | Vis e k => ∃ h', slot_step h _ e = Some h' ∧ ∀ x, ok _ e x → disciplined h' (k x) Ψ
  end.

Lemma disciplined_mono {A} h (p : prog sysE A) Ψ Ψ' :
  disciplined h p Ψ → (∀ h a, Ψ h a → Ψ' h a) → disciplined h p Ψ'.
Proof.
  intros Hp HΨ. revert h Hp. induction p as [a| |X e k IH]; intros h Hp; simpl in *; auto.
  destruct Hp as (h' & Hh' & Hk). eauto.
Qed.

Lemma disciplined_bind {A B} h (p : prog sysE A) (f : A → prog sysE B) Ψ :
  disciplined h p (λ h a, disciplined h (f a) Ψ) → disciplined h (p ≫= f) Ψ.
Proof.
  unfold mbind, prog_mbind. revert h.
  induction p as [a| |X e k IH]; intros h Hp; simpl in *; [done|done|].
  destruct Hp as (h' & Hh' & Hk). exists h'. split; [done|]. intros x Hx. by apply IH, Hk.
Qed.

Lemma disciplined_lift {A} h (o : outcome A) Ψ :
  (∀ a, o = Value a → Ψ h a) → disciplined h (lift o) Ψ.
Proof. destruct o; simpl; auto. Qed.

(** An effect that leaves the slot alone. *)
Lemma disciplined_trigger {X} h (e : sysE X) Ψ :
  slot_step h X e = Some h → (∀ x, ok X e x → Ψ h x) → disciplined h (trigger e) Ψ.
Proof. intros He HΨ. exists h. by split. Qed.

Lemma slot_step_delta h h' X (e : sysE X) x i : slot_step h X e = Some h' →
  slot h' i = slot h i + delta gen route i (Obs e x).
Proof.
  unfold slot. destruct e as [| | | | | | |g r Y [j|j n|j n]| | | | | | | |Y a|]; simpl;
    try (intros [= ->]; lia).
  - case_decide as Hg; [injection Hg as -> ->|intros [= ->]; rewrite (decide_False (P := (_, _) = _)) by congruence; lia].
    case_decide as Hd; [|done]. destruct Hd as [-> ->]. intros [= <-].
    rewrite (decide_False (P := None = _)) by done.
    destruct (decide (j = i)) as [->|]; [by rewrite !decide_True|].
    rewrite !decide_False by congruence. lia.
  - case_decide as Hg; [injection Hg as -> ->|intros [= ->]; rewrite (decide_False (P := (_, _) = _)) by congruence; lia].
    case_decide as Hd; [|done]. destruct Hd as [-> ->]. intros [= <-].
    rewrite (decide_False (P := None = _)) by done.
    destruct (decide (j = i)) as [->|]; [by rewrite !decide_True|].
    rewrite !decide_False by congruence. lia.
  - unfold slot_at_wait. destruct m, a, h; intros [= <-]; lia.
  - destruct m; intros [= <-]. lia.
Qed.

(** At every point of a run the counters moved by the slot held. *)
Lemma disciplined_steps {A} h (p q : prog sysE A) Ψ tr :
  disciplined h p Ψ → steps ok p tr q →
  ∃ h', disciplined h' q Ψ ∧ ∀ i, slot h' i = slot h i + total_delta gen route i tr.
Proof.
  intros Hp Hs. revert h Hp. induction Hs as [p|X e k x tr p' Hok Hs IH]; intros h Hp.
  - exists h. split; [done|]. simpl. intros i. lia.
  - destruct Hp as (h1 & Hh1 & Hk). destruct (IH h1 (Hk x Hok)) as (h' & Hq & Hd).
    exists h'. split; [done|]. intros i.
    change (total_delta gen route i (Obs e x :: tr))
      with (delta gen route i (Obs e x) + total_delta gen route i tr).
    rewrite Hd, (slot_step_delta _ _ _ _ x i Hh1). lia.
Qed.

(** Programs that touch no slot, while none is held. *)
Fixpoint slotless {A} (p : prog sysE A) : Prop :=
  match p with
  | Ret _ | Panic => True
  | Vis e k => slot_step None _ e = Some None ∧ ∀ x, slotless (k x)
  end.

Lemma slotless_disciplined {A} (p : prog sysE A) : slotless p → disciplined None p (λ h _, h = None).
Proof. induction p as [a| |X e k IH]; simpl; [done|done|]. intros [He Hk]. exists None. auto. Qed.

Lemma slotless_bind {A B} (p : prog sysE A) (f : A → prog sysE B) :
  slotless p → (∀ a, slotless (f a)) → slotless (p ≫= f).
Proof.
  intros Hp Hf. unfold mbind, prog_mbind. induction p as [a| |X e k IH]; simpl in *; [done|done|].
  destruct Hp as [He Hk]. auto.
Qed.

Lemma slotless_lift {A} (o : outcome A) : slotless (lift o).
Proof. by destruct o. Qed.

(** A slotless program goes before. *)
Lemma disciplined_after {A B} (p : prog sysE A) (f : A → prog sysE B) Ψ :
  slotless p → (∀ a, disciplined None (f a) Ψ) → disciplined None (p ≫= f) Ψ.
Proof.
  intros Hp Hf. apply disciplined_bind. eapply disciplined_mono; [by apply slotless_disciplined|].
  by intros h a ->.
Qed.
End discipline.

(** ** Dropping a disciplined program *)

(** The deadline passed during an upstream call. *)
Definition aborted_call `{Hyper} (o : obs sysE) : Prop :=
  match o with
  | @Obs _ _ e x =>
      match e in sysE X return X → Prop with
      | @AwaitBy _ _ Y a => λ o, o = None ∧ match a with Call _ _ => True | _ => False end
      | _ => λ _, False
      end x
  end.

(** The answers of a run in which no call is cut by the deadline. *)
Definition uncut `{Hyper} (ok : ∀ X, sysE X → X → Prop) (X : Type) (e : sysE X) (x : X) : Prop :=
  ok X e x ∧ ¬ aborted_call (Obs e x).

Section drop.
Context `{Hyper} (W : World) (gen route : nat).

(** Every program is also a lax one. *)
Lemma slot_step_lax m h h' X (e : sysE X) :
  slot_step m gen route h X e = Some h' → slot_step Lax gen route h X e = Some h'.
Proof.
  destruct e as [| | | | | | |g r Y []| | | | | | | |Y []|]; simpl; try done; by destruct m, h.
Qed.

(** Under a deadline, the slot held is still exact; and it is given back unless
    a call is cut. *)
Lemma deadline_keeps {A} (cut : bool) deadline h (p : prog sysE A) :
  disciplined (sys_ok W) Tidy gen route h p (λ h _, h = None) →
  disciplined (if cut then sys_ok W else uncut (sys_ok W)) Lax gen route h (with_deadline deadline p)
    (λ h _, cut = true ∨ h = None).
Proof.
  revert h. induction p as [a| |X e k IH]; intros h Hp; [by right|done|].
  destruct Hp as (h' & Hstep & Hk).
  assert (∀ X (e : sysE X) x, (if cut then sys_ok W else uncut (sys_ok W)) X e x → sys_ok W X e x) as Hok
    by (intros; destruct cut; [done|by destruct H0]).
  destruct e as [| | | | | | | | | | | | | | |Y a|]; cbn [with_deadline]; try done;
    try (exists h'; split; [by eapply slot_step_lax|]; intros x Hx; apply IH, Hk; by apply Hok in Hx).
  exists h. split; [done|]. intros [x|] Hx.
  - apply IH. replace h with h'; [by apply Hk|].
    destruct a, h; simpl in Hstep; simplify_eq; done.
  - destruct cut; [by left|]. right. destruct Hx as [_ Hx]. simpl in Hx.
    destruct a, h; simpl in Hstep; try done. by destruct Hx.
Qed.

Lemma deadline_disciplined {A} deadline h (p : prog sysE A) tr o :
  disciplined (sys_ok W) Strict gen route h p (λ h _, h = None) →
  steps (sys_ok W) (with_deadline deadline p) tr (Ret o) →
  match o with
  | Some _ => (∀ j, slot h j + total_delta gen route j tr = 0) ∧ Forall (λ o, ¬ aborted_call o) tr
  | None => ∃ tr0 ob, tr = tr0 ++ [ob] ∧
      (aborted_call ob → ∃ u, ∀ j, slot h j + total_delta gen route j tr = if decide (j = u) then 1 else 0)
  end.
Proof.
  revert h tr. induction p as [a| |X e k IH]; intros h tr Hp Hs.
  - apply steps_ret_inv in Hs as [-> [= ->]]. simpl in Hp. subst h. by split.
  - by apply steps_inv in Hs as [[_ ?]|[]].
  - destruct Hp as (h' & Hstep & Hk).
    assert (∀ (x : X) tr1 Y (e' : sysE Y) y, sys_ok W X e x →
      steps (sys_ok W) (with_deadline deadline (k x)) tr1 (Ret o) →
      (∀ j, delta gen route j (Obs e' y) = delta gen route j (Obs e x)) →
      ¬ aborted_call (Obs e' y) →
      match o with
      | Some _ => (∀ j, slot h j + total_delta gen route j (Obs e' y :: tr1) = 0)
                  ∧ Forall (λ o, ¬ aborted_call o) (Obs e' y :: tr1)
      | None => ∃ tr0 ob, Obs e' y :: tr1 = tr0 ++ [ob] ∧ (aborted_call ob →
          ∃ u, ∀ j, slot h j + total_delta gen route j (Obs e' y :: tr1) = if decide (j = u) then 1 else 0)
      end) as Hgo.
    { intros x tr1 Y e' y Hx Hs1 Hd Hna. specialize (IH x h' tr1 (Hk x Hx) Hs1).
      assert (∀ j, slot h j + total_delta gen route j (Obs e' y :: tr1)
                   = slot h' j + total_delta gen route j tr1) as Hsum.
      { intros j. change (total_delta gen route j (Obs e' y :: tr1))
          with (delta gen route j (Obs e' y) + total_delta gen route j tr1).
        rewrite Hd, (slot_step_delta _ _ _ _ _ _ _ x j Hstep). lia. }
      destruct o as [a|].
      - destruct IH as [IH1 IH2]. split; [intros j; by rewrite Hsum|by constructor].
      - destruct IH as (tr0 & ob & -> & IH). exists (Obs e' y :: tr0), ob. split; [done|].
        intros Hob. destruct (IH Hob) as (u & Hu). exists u. intros j. by rewrite Hsum. }
    destruct e as [| | | | | | | | | | | | | | |Y a|]; cbn [with_deadline] in Hs; try done;
      apply steps_vis_ret in Hs as (x & tr1 & -> & Hx & Hs);
      try (by eapply (Hgo x tr1 _ _ x); try (intros []; done)).
    destruct x as [x|]; [eapply Hgo; [done|exact Hs|done|intros []; done]|].
    apply steps_ret_inv in Hs as [-> [= ->]]. exists [], (Obs (AwaitBy deadline a) None).
    split; [done|]. intros [_ Hcall]. destruct a; try done. simpl in Hstep.
    destruct h as [u|]; [|done]. exists u. intros j. unfold slot. simpl.
    destruct (decide (j = u)) as [->|]; [by rewrite decide_True|by rewrite decide_False by congruence].
Qed.
End drop.

(** ** [proxy_request] is disciplined *)
Section proxy.
Context `{Hyper, Platform} (W : World) (m : mode) (gen route : nat).

Abbreviation disciplined := (disciplined (sys_ok W) m gen route).
Abbreviation slotless := (slotless m gen route).
Abbreviation idle := (λ (h : option Z) _, h = None).

Lemma wait_slotless {X} (a : awaitE X) :
  match a with Call _ _ => m ≠ Strict | _ => True end → slotless (trigger (Await a)).
Proof. intros Ha. split; [|done]. simpl. unfold slot_at_wait. by destruct m, a. Qed.

Lemma may_attempt_slotless c k : slotless (may_attempt c k).
Proof.
  unfold may_attempt, inc, backoff. case_decide; [|done]. split; [done|]. intros []; [|done].
  apply slotless_bind; [done|]. intros _. apply slotless_bind; [|done].
  apply slotless_bind; [apply slotless_lift|]. intros exp.
  apply slotless_bind; [done|]. intros jitter. apply slotless_bind; [apply slotless_lift|].
  intros total. by apply wait_slotless.
Qed.

Lemma after_attempt_slotless c u k a : slotless (after_attempt c u k a).
Proof.
  unfold after_attempt, elapsed_since, record_outcome, inc.
  destruct a as [resp|[]]; [destruct (is_server_error _)|..]; by repeat split.
Qed.

Lemma finish_failed_slotless c e : slotless (finish_failed c e).
Proof. unfold finish_failed, elapsed_since, record_outcome, inc. by repeat split. Qed.

Lemma any_healthy_slotless us : slotless (any_upstream_healthy us).
Proof. induction us as [|u us IH]; simpl; [done|]. split; [done|]. by intros []. Qed.

Lemma forward_once_disciplined h meth hs b u p id ip t : m ≠ Strict ∨ is_Some h →
  disciplined h (forward_once meth hs b u p id ip t) (λ h' _, h' = h).
Proof.
  intros Hh. unfold forward_once. case_match; [|done]. apply disciplined_bind, disciplined_lift.
  intros out _. exists h. split; [|by intros [] _].
  simpl. unfold slot_at_wait. destruct Hh as [Hm|[i ->]]; by destruct m.
Qed.

(** The cells of another route are not this route's. *)
Lemma foreign_slotless {A} arc i (p : prog balE A) :
  (generation arc, i) ≠ (gen, route) → slotless (on_balancer arc i p).
Proof.
  intros Hne. unfold on_balancer. induction p as [a| |X e k IH]; simpl; [done|done|].
  split; [|done]. destruct e; simpl; [done|..]; by rewrite decide_False by congruence.
Qed.

(** The route is the one watched, balanced by least connections, or another
    one; while another route is used no call takes a slot. *)
Definition watched (arc : RouterArc) (i : nat) (rt : Route) : Prop :=
  (generation arc, i) = (gen, route) ∧
    balancer rt = ALeastConnections (mk_least_connections (len (upstreams rt))) ∨
  (generation arc, i) ≠ (gen, route) ∧ m ≠ Strict.

Lemma next_slotless arc i rt n key : watched arc i rt →
  slotless (on_balancer arc i (next_index_for_key (balancer rt) n key)).
Proof.
  intros [[_ ->]|[Hne _]]; [|by apply foreign_slotless]. simpl. split; [done|].
  intros v. generalize (seqZ 1 (Z.min n (len (upstreams rt)) - 1)) 0.
  intros idxs j. revert j v. induction idxs as [|j' idxs IH]; intros j v; simpl; [done|].
  split; [done|]. intros x. case_decide; apply IH.
Qed.

Context (c : Attempt).
Hypothesis Hwatched : watched (at_router c) (at_route_index c) (at_route c).

Lemma make_attempt_disciplined i u k : i < upstream_count c →
  disciplined None (make_attempt c i u k) idle.
Proof.
  intros Hi. unfold make_attempt. apply disciplined_bind, disciplined_lift. intros k' _.
  destruct Hwatched as [[Hg Hb]|[Hne Hlax]].
  - unfold on_balancer. injection Hg as Hg Hr. rewrite Hg, Hr, Hb.
    apply disciplined_bind. simpl. unfold least_connections_start, least_connections_done.
    rewrite !decide_True by done. exists (Some i). simpl. rewrite !decide_True by done.
    split; [done|]. intros x _. apply disciplined_bind.
    eapply disciplined_mono; [apply forward_once_disciplined; by right; exists i|]. intros h a ->.
    exists None. simpl. rewrite !decide_True by done. split; [done|].
    intros y _. apply slotless_disciplined, after_attempt_slotless.
  - apply disciplined_after; [by apply foreign_slotless|]. intros _.
    apply disciplined_bind. eapply disciplined_mono; [apply forward_once_disciplined; by left|].
    intros h a ->. apply disciplined_after; [by apply foreign_slotless|]. intros _.
    apply slotless_disciplined, after_attempt_slotless.
Qed.

Lemma attempt_loop_disciplined offsets k e :
  disciplined None (attempt_loop c offsets k e) idle.
Proof.
  revert k e. induction offsets as [|o offsets IH]; intros k e; cbn [attempt_loop].
  { apply slotless_disciplined, finish_failed_slotless. }
  assert (∀ s, disciplined None match s with
    | Return r => Ret r
    | Break => finish_failed c e
    | Continue k' e' => attempt_loop c offsets k' e'
    end idle) as Hnext.
  { intros [r| |k' e']; [done|apply slotless_disciplined, finish_failed_slotless|apply IH]. }
  apply disciplined_bind. apply disciplined_mono with (Ψ := idle); [|intros h s ->; apply Hnext].
  unfold loop_body. case_decide; [done|].
  apply disciplined_bind, disciplined_lift. intros sum _.
  apply disciplined_bind, disciplined_lift. intros i Hi.
  apply disciplined_bind, disciplined_lift. intros u _.
  apply disciplined_after.
  { unfold skip_upstream. destruct (at_any_healthy c); by repeat split. }
  intros [|]; [done|]. apply disciplined_after; [apply may_attempt_slotless|].
  intros [|]; [|done]. apply make_attempt_disciplined.
  unfold rem_u in Hi. case_decide; simplify_eq. apply Z.mod_pos_bound.
  pose proof (len_nonneg (upstreams (at_route c))). unfold upstream_count in *. lia.
Qed.
End proxy.

Section request.
Context `{Hyper, Platform} (W : World) (m : mode) (gen route : nat).

(** A request is disciplined when every router it may load matches it to the
    watched route, or to another one. *)
Lemma proxy_request_disciplined req :
  (∀ arc i rt, may_router W arc → match_route (the_router arc) (uri_path (req_uri req)) = Some (i, rt) →
     watched m gen route arc i rt) →
  disciplined (sys_ok W) m gen route None (proxy_request req) (λ h _, h = None).
Proof.
  intros Hw. unfold proxy_request.
  exists None. split; [done|]. intros start _. exists None. split; [done|]. intros request_id _.
  exists None. split; [done|]. intros cfg _. exists None. split; [done|]. intros arc Harc. simpl.
  destruct (match_route (the_router arc) (uri_path (req_uri req))) as [[i rt]|] eqn:Hm;
    [|exists None; by split].
  specialize (Hw arc i rt Harc Hm).
  exists None. split; [simpl; by destruct m|]. intros [body|] _; [|done].
  eapply disciplined_after; [by apply next_slotless|]. intros s.
  eapply disciplined_after; [apply any_healthy_slotless|]. intros any.
  apply disciplined_bind, disciplined_lift. intros n _.
  exists None. split; [done|]. intros _ _. by apply attempt_loop_disciplined.
Qed.

Lemma proxy_service_disciplined req :
  (∀ arc i rt, may_router W arc → match_route (the_router arc) (uri_path (req_uri req)) = Some (i, rt) →
     watched m gen route arc i rt) →
  disciplined (sys_ok W) m gen route None (proxy_service req) (λ h _, h = None).
Proof.
  intros Hw. unfold proxy_service. apply disciplined_bind.
  eapply disciplined_mono; [by apply proxy_request_disciplined|]. by intros h a ->.
Qed.
End request.

(** ** Requests on a least-connections route *)
Section requests.
Context `{Hyper, Platform}.

(** The environment serves one configuration and one router generation. *)
Definition served (cfg : Config) (arc : RouterArc) : World :=
  mk_world (λ c, c = cfg) (λ a, a = arc).

(** The request is matched to route [i], balanced by least connections. *)
Definition least_connections_route (arc : RouterArc) (req : Request) (i : nat) : Prop :=
  ∃ route, match_route (the_router arc) (uri_path (req_uri req)) = Some (i, route) ∧
    balancer route = ALeastConnections (mk_least_connections (len (upstreams route))).

Context (cfg : Config) (arc : RouterArc) (req : Request) (i : nat).

Lemma served_watched : least_connections_route arc req i →
  ∀ arc' i' rt, may_router (served cfg arc) arc' →
    match_route (the_router arc') (uri_path (req_uri req)) = Some (i', rt) →
    watched Strict (generation arc) i arc' i' rt.
Proof. intros (route & Hm & Hb) arc' i' rt -> Hm'. left. by simplify_eq. Qed.

(** Connection accounting: when a request returns, and while it reads the
    body or backs off, the active-connection counters of its route are what they
    were; while it waits for an upstream, exactly one of them is one higher. *)
Theorem connections_balanced (tr : list (obs sysE)) (q : prog sysE (result Response ProxyError)) :
  least_connections_route arc req i → steps (sys_ok (served cfg arc)) (proxy_request req) tr q →
  match q with
  | Vis (Await (Call _ _)) _ => ∃ u, ∀ j,
      total_delta (generation arc) i j tr = if decide (j = u) then 1 else 0
  | Ret _ | Vis (Await _) _ => ∀ j, total_delta (generation arc) i j tr = 0
  | _ => True
  end.
Proof.
  intros Hlc Hs.
  destruct (disciplined_steps _ _ _ _ _ _ _ _ _ (proxy_request_disciplined _ Strict _ i req (served_watched Hlc)) Hs) as (h & Hq & Hd).
  assert (h = None → ∀ j, total_delta (generation arc) i j tr = 0) as Hnone.
  { intros -> j. specialize (Hd j). unfold slot in Hd. rewrite !decide_False in Hd by done. lia. }
  destruct q as [a| |X e k]; [by apply Hnone|done|].
  destruct e as [| | | | | | | | | | | | | | |Y a|]; try done.
  destruct Hq as (h' & Hstep & _). simpl in Hstep.
  destruct a; try (apply Hnone; by destruct h).
  destruct h as [u|]; [|done]. exists u. intros j. specialize (Hd j). unfold slot in Hd.
  rewrite (decide_False (P := None = _)) in Hd by done.
  destruct (decide (j = u)) as [->|]; [rewrite decide_True in Hd by done; lia|].
  rewrite decide_False in Hd by congruence. lia.
Qed.

(** C16. Connection leak: when the overall timeout strikes while a request waits
    for an upstream, the client gets 504 and the request is dropped without
    giving its slot back: one active-connection counter of the route stays one
    too high. *)
Theorem timeout_leaks_connection (timeout : Duration) (tr : list (obs sysE)) (o : obs sysE)
    (resp : Response) :
  least_connections_route arc req i →
  steps (sys_ok (served cfg arc)) (request_timeout timeout proxy_service req) (tr ++ [o]) (Ret resp) →
  aborted_call o →
  resp = build_response 504 "Request timed out" ∧
  ∃ u, ∀ j, total_delta (generation arc) i j (tr ++ [o]) = if decide (j = u) then 1 else 0.
Proof.
  intros Hlc Hs Ho. apply steps_vis_ret in Hs as (now & tr1 & Htr & _ & Hs).
  change (steps (sys_ok (served cfg arc))
    (answer ← with_deadline (now + timeout) (proxy_service req);
     Ret (default (build_response 504 "Request timed out") answer)) tr1 (Ret resp)) in Hs.
  apply steps_bind_ret in Hs as (a & tr2 & tr3 & -> & Hs & Hret).
  apply steps_ret_inv in Hret as [-> [= ->]]. rewrite app_nil_r in Htr.
  pose proof (deadline_disciplined _ _ _ _ _ _ _ _ (proxy_service_disciplined _ Strict _ i req (served_watched Hlc)) Hs) as Hd.
  assert (tr2 ≠ [] → ∃ tr0, tr2 = tr0 ++ [o]) as Hlast.
  { intros Hne. destruct tr2 as [|o2 tr2 _] using rev_ind; [done|].
    rewrite app_comm_cons in Htr. apply app_inj_tail in Htr as [_ ->]. by exists tr2. }
  rewrite Htr. destruct tr2 as [|o2 tr2].
  { apply (app_inj_tail tr []) in Htr as [_ ->]. done. }
  destruct (Hlast ltac:(done)) as (tr0 & Heq). rewrite Heq in *. destruct a as [a|].
  - destruct Hd as [_ Hno]. rewrite Forall_app, Forall_singleton in Hno. by destruct Hno.
  - split; [done|]. destruct Hd as (tr4 & o4 & Heq4 & Hleak).
    apply app_inj_tail in Heq4 as [-> ->]. destruct (Hleak Ho) as (u & Hu). exists u. intros j.
    rewrite <-Hu. unfold slot. rewrite decide_False by done. simpl. lia.
Qed.
End requests.

(** ** Witnesses *)

Definition sample_arc : RouterArc := mk_router_arc 0 sample_router.

Lemma sample_least_connections : least_connections_route sample_arc sample_request 0.
Proof. eexists. split; reflexivity. Qed.

Lemma sample_steps_served :
  steps (sys_ok (served sample_config sample_arc)) (proxy_request sample_request)
    sample_trace (Ret sample_result).
Proof.
  unfold sample_result, sample_trace, sample_play.
  apply play_value_steps; vm_compute; [|reflexivity]. repeat split; discriminate.
Qed.

Lemma connections_balanced_witness : total_delta 0 0 1 sample_trace = 0.
Proof.
  exact (connections_balanced sample_config sample_arc sample_request 0 sample_trace (Ret sample_result)
    sample_least_connections sample_steps_served 1).
Defined.

(** The overall deadline passes while the first upstream is called. *)
Definition late_answer (X : Type) (n : nat) (e : sysE X) : X :=
  match e in sysE X return X with
  | @AwaitBy _ _ Y a =>
      match a in awaitE Y return option Y with
      | Call _ _ => None
      | a => Some (sample_await _ a)
      end
  | e => sample_answer sample_config _ n e
  end.

Definition late_play : list (obs sysE) * outcome Response :=
  play late_answer 0 (request_timeout (from_secs 30) proxy_service sample_request).
Definition late_response : Response := value_or (build_response 0 "") late_play.2.

(** The trace, split at its last observation. *)
Definition late_trace : list (obs sysE) := removelast late_play.1.
Definition late_obs : obs sysE := List.last late_play.1 (Obs Now 0).

Lemma late_steps :
  steps (sys_ok (served sample_config sample_arc))
    (request_timeout (from_secs 30) proxy_service sample_request)
    (late_trace ++ [late_obs]) (Ret late_response).
Proof.
  assert (late_play.1 ≠ []) as Hne.
  { assert (bool_decide (length late_play.1 = 0%nat) = false) as Hlen by (vm_compute; reflexivity).
    apply bool_decide_eq_false_1 in Hlen. intros Heq. by rewrite Heq in Hlen. }
  unfold late_trace, late_obs. rewrite <-(app_removelast_last (Obs Now 0) Hne).
  unfold late_response, late_play. apply play_value_steps; vm_compute; [|reflexivity].
  repeat split; discriminate.
Qed.

Lemma timeout_leaks_connection_witness :
  resp_status late_response = 504 ∧
  ∃ u, total_delta 0 0 u (late_trace ++ [late_obs]) = 1.
Proof.
  destruct (timeout_leaks_connection sample_config sample_arc sample_request 0 (from_secs 30)
    late_trace late_obs late_response sample_least_connections late_steps) as [Hresp [u Hu]].
  - vm_compute. split; [reflexivity|exact I].
  - split; [rewrite Hresp; reflexivity|]. exists u. rewrite Hu. by rewrite decide_True.
Defined.
