(* ===== verification/Reload.v ===== *)
(** Reload: hot configuration reload, from [config_reloader.rs].

    A reload is two stores, the router's and then the configuration's; between
    them a request sees the new router with the old configuration.  What was
    built from the configuration at start-up (health tracker, retry budget, rate
    limiter, overall timeout) is not rebuilt. *)

From S2P Require Import Prelude Float64 Prog Config Deserialize Balancer Http Errors Router Health.
From S2P Require Import RetryBudget RateLimiter Metrics State Sample.
Local Open Scope Z_scope.

Definition apply_config `{Hyper} (config : Config) : prog sysE unit :=
  let router := build_router config in
  _ ← trigger (StoreRouter router);
  trigger (StoreConfig config).

(** Why a reload fails. *)
Inductive ReloadError := CannotRead | CannotParse.

Section reload.
Context `{Hyper} `{Document Y}.
(** The document a text is. *)
Context (yaml : string → option Y).

(** [serde_yaml::from_str::<Config>]. *)
Definition from_str (config_str : string) : option Config := yaml config_str ≫= deserialize_config.

(** [content] is what [fs::read_to_string(path)] gives. *)
Definition reload_config (content : option string) : prog sysE (result unit ReloadError) :=
  match content with
  | None => Ret (Err CannotRead)
  | Some config_str =>
      match from_str config_str with
      | None => Ret (Err CannotParse)
      | Some config => _ ← apply_config config; Ret (Ok tt)
      end
  end.

(** The background task, over the contents read at successive SIGHUPs; a
    failed reload is logged and the task goes on. *)
Fixpoint config_reloader (contents : list (option string)) : prog sysE unit :=
  match contents with
  | [] => Ret tt
  | content :: contents' => _ ← reload_config content; config_reloader contents'
  end.
End reload.

Section facts.
Context `{Hyper, Platform}.

(** C38. Applying a configuration makes its router and itself current, with
    fresh balancer state, and keeps every earlier router generation with its
    counters, so that requests in flight are undisturbed; the health tracker,
    retry budget, metrics and rate limiter are the old ones. *)
Theorem apply_config_spec (config' : Config) (os : nat → Oracle) (s : AppState) :
  ∃ s', run_sys os (apply_config config') s = (s', Value tt) ∧
    load_router s' = mk_router_arc (length (routers s)) (build_router config') ∧
    config s' = config' ∧
    (∀ i, cells s' !! (length (routers s), i)
       = match router_routes (build_router config') !! i with
         | Some route => Some (init_cells (balancer route))
         | None => cells s !! (length (routers s), i)
         end) ∧
    (∀ g r, routers s !! g = Some r →
       routers s' !! g = Some r ∧ ∀ i, cells s' !! (g, i) = cells s !! (g, i)) ∧
    health s' = health s ∧ retry_budget s' = retry_budget s ∧ metrics s' = metrics s ∧
    rate_limiter s' = rate_limiter s.
Proof.
  eexists. split; [done|]. split_and!; try done.
  - unfold load_router. simpl. rewrite lookup_app_r, Nat.sub_diag by done. done.
  - intros i. simpl. rewrite lookup_union, fresh_cells_lookup, decide_True by done.
    destruct (_ !! i); simpl; [by destruct (cells s !! _)|]. by rewrite (left_id_L None _).
  - intros g r Hg. pose proof (lookup_lt_Some _ _ _ Hg). simpl. split.
    + by rewrite lookup_app_l.
    + intros i. rewrite lookup_union, fresh_cells_lookup, decide_False by lia.
      by rewrite (left_id_L None _).
Qed.

(** A reload whose file cannot be read or parsed reports the error and
    leaves the whole state as it was. *)
Theorem failed_reload_keeps_state `{Document Y} (yaml : string → option Y) (content : option string)
    (os : nat → Oracle) (s : AppState) :
  content ≫= from_str yaml = None →
  ∃ e, run_sys os (reload_config yaml content) s = (s, Value (Err e)).
Proof.
  intros Hc. destruct content as [text|]; simpl in Hc; [|by exists CannotRead].
  exists CannotParse. simpl. by rewrite Hc.
Qed.

(** The swap is not atomic: after its first store a request that loads its
    two snapshots gets the new router and the old configuration. *)
Theorem reload_is_two_steps (config' : Config) (os os' : nat → Oracle) (s : AppState) :
  ∃ k s1, apply_config config' = Vis (StoreRouter (build_router config')) k ∧
    handle (os 0%nat) _ (StoreRouter (build_router config')) s = (s1, Value tt) ∧
    run_sys os' (c ← trigger LoadConfig; r ← trigger LoadRouter; Ret (c, the_router r)) s1
    = (s1, Value (config s, build_router config')).
Proof.
  eexists _, _. split; [done|]. split; [done|]. simpl. do 3 f_equal.
  unfold load_router. simpl. by rewrite lookup_app_r, Nat.sub_diag.
Qed.
End facts.

(** ** Witnesses *)

Lemma failed_reload_keeps_state_witness :
  ∃ e, run_sys (λ _, mk_oracle (λ _, 0) "" (λ _, 0) sample_await (λ X _ a, Some (sample_await X a)))
         (reload_config (λ _, None : option Node) (Some "routes: ["))
         (mk_app_state [] 0 ∅ sample_config (health_new 3 0) (budget_new (f64_of_Z 20) 10) (mk_metrics [])
            limiter_disabled)
       = (mk_app_state [] 0 ∅ sample_config (health_new 3 0) (budget_new (f64_of_Z 20) 10) (mk_metrics [])
            limiter_disabled, Value (Err e)).
Proof. apply failed_reload_keeps_state. reflexivity. Defined.
