(* ===== verification/HealthCheck.v ===== *)
(** HealthCheck: the active health checker of [health_check.rs].

    A background task probes every upstream of the configuration it was started
    with, for ever; the model runs it for any number of rounds.  The order in
    which a [HashSet] is iterated is a parameter. *)

From S2P Require Import Prelude Float64 Prog Config Balancer Http Errors Router Health.
From S2P Require Import RetryBudget RateLimiter Metrics State Trace Sample.
Local Open Scope Z_scope.

(** The distinct upstreams of all routes, in the order of their first mention. *)
Definition all_upstreams (cfg : Config) : list string :=
  foldl (λ set u, if decide (u ∈ set) then set else set ++ [u]) [] (mjoin (rc_upstream <$> routes cfg)).

Section checker.
Context `{Hyper}.
(** [set.into_iter().collect()]. *)
Context (iterate : list string → list string).

(** [resp.status().is_success()]. *)
Definition is_success (status : Z) : bool := (200 <=? status) && (status <? 300).

Definition probe_ok (answer : option Z) : bool :=
  match answer with Some status => is_success status | None => false end.

Definition probe (hc : HealthCheckConfig) (upstream : string) : prog sysE unit :=
  answer ← trigger (Await (Probe (upstream +:+ hc_path hc) (from_secs (timeout_secs hc))));
  if probe_ok answer then trigger (HealthSuccess upstream) else trigger (HealthFailure upstream).

Fixpoint probe_all (hc : HealthCheckConfig) (us : list string) : prog sysE unit :=
  match us with
  | [] => Ret tt
  | u :: us' => _ ← probe hc u; probe_all hc us'
  end.

Fixpoint health_check_rounds (hc : HealthCheckConfig) (us : list string) (n : nat) : prog sysE unit :=
  match n with
  | O => Ret tt
  | S n' =>
      _ ← trigger (Await (Sleep (from_secs (interval_secs hc))));
      _ ← probe_all hc us;
      health_check_rounds hc us n'
  end.

(** [n] rounds of [run_health_check_loop]. *)
Definition run_health_check_loop (hc : HealthCheckConfig) (n : nat) : prog sysE unit :=
  cfg ← trigger LoadConfig;
  health_check_rounds hc (iterate (all_upstreams cfg)) n.

(** Without a [health_check] section no task is spawned. *)
Definition spawn_active_health_checker (n : nat) : prog sysE unit :=
  cfg ← trigger LoadConfig;
  match health_check (server cfg) with
  | Some hc => run_health_check_loop hc n
  | None => Ret tt
  end.
End checker.

(** ** Facts *)

Lemma all_upstreams_spec cfg :
  NoDup (all_upstreams cfg) ∧
  ∀ u, u ∈ all_upstreams cfg ↔ ∃ rc, rc ∈ routes cfg ∧ u ∈ rc_upstream rc.
Proof.
  unfold all_upstreams. set (l := mjoin (rc_upstream <$> routes cfg)).
  assert (∀ u, u ∈ l ↔ ∃ rc, rc ∈ routes cfg ∧ u ∈ rc_upstream rc) as Hl.
  { intros u. unfold l. rewrite list_elem_of_join. setoid_rewrite list_elem_of_fmap.
    split; [intros (us & Hu & rc & -> & Hrc); by exists rc|intros (rc & Hrc & Hu); eauto]. }
  setoid_rewrite <-Hl. clearbody l. clear Hl.
  induction l as [|x l [IH1 IH2]] using rev_ind; [split; [constructor|done]|].
  rewrite foldl_app. simpl. case_decide as Hx.
  - split; [done|]. intros u. rewrite elem_of_app, list_elem_of_singleton, IH2. split; [by left|].
    intros [?| ->]; [done|]. by apply IH2.
  - split.
    + apply NoDup_app. split_and!; [done| |apply NoDup_singleton].
      intros y Hy ->%list_elem_of_singleton. done.
    + intros u. by rewrite !elem_of_app, IH2.
Qed.

Section facts.
Context `{Hyper}.

Lemma probe_all_emits W hc us :
  emits W (probe_all hc us)
    (λ es _, ∃ verdicts, length verdicts = length us ∧ reports es = zip us verdicts).
Proof.
  induction us as [|u us IH]; cbn [probe_all]; [by exists []|].
  emit_step. unfold probe. emit_step. emit_step. intros answer _. destruct (probe_ok answer).
  - emit_step. intros _ _. eapply emits_mono; [exact IH|]. intros es _ (vs & Hl & Hr).
    exists (true :: vs). split; [simpl; lia|]. exact (f_equal (cons (u, true)) Hr).
  - emit_step. intros _ _. eapply emits_mono; [exact IH|]. intros es _ (vs & Hl & Hr).
    exists (false :: vs). split; [simpl; lia|]. exact (f_equal (cons (u, false)) Hr).
Qed.

(** In every round the active checker reports each distinct upstream of the
    configuration exactly once, and nothing else: after [n] rounds the reports
    are [n] passes over one enumeration of the upstreams. *)
Theorem health_check_reports (iterate : list string → list string) (cfg : Config) (r : Router)
    (hc : HealthCheckConfig) (n : nat) (tr : list (obs sysE)) :
  (∀ l, iterate l ≡ₚ l) →
  steps (sys_ok (snapshot cfg r)) (run_health_check_loop iterate hc n) tr (Ret tt) →
  ∃ us, us ≡ₚ all_upstreams cfg ∧
    (reports (events tr)).*1 = mjoin (replicate n us).
Proof.
  intros Hit Hs. exists (iterate (all_upstreams cfg)). split; [apply Hit|].
  refine (emits_steps _ _ (λ es _, (reports es).*1 = mjoin (replicate n (iterate (all_upstreams cfg))))
    tr tt _ Hs).
  unfold run_health_check_loop. emit_step. emit_step. intros cfg' ->.
  generalize (iterate (all_upstreams cfg)) as us. intros us. clear.
  induction n as [|n IH]; cbn [health_check_rounds]; [done|].
  emit_step. emit_step. intros _ _. emit_step. eapply emits_mono; [apply probe_all_emits|].
  intros es _ (vs & Hl & Hr). eapply emits_mono; [exact IH|]. intros es' a Hes'.
  change ((reports es').*1 = mjoin (replicate n us)) in Hes'.
  change ((reports (es ++ es')).*1 = us ++ mjoin (replicate n us)).
  unfold reports in *. rewrite omap_app, fmap_app, Hes', Hr. f_equal. rewrite fst_zip; [done|lia].
Qed.
End facts.

(** ** Witnesses *)

Definition sample_checks : list (obs sysE) * outcome unit :=
  play (sample_answer sample_config) 0
    (run_health_check_loop id (mk_health_check_config "/health" 10 3) 2).

Lemma sample_checks_steps :
  steps (sys_ok (snapshot sample_config sample_router))
    (run_health_check_loop id (mk_health_check_config "/health" 10 3) 2) sample_checks.1 (Ret tt).
Proof.
  replace tt with (value_or tt sample_checks.2) by (by destruct (value_or tt sample_checks.2)).
  unfold sample_checks. apply play_value_steps; vm_compute; [|reflexivity].
  repeat split; discriminate.
Qed.

Lemma health_check_reports_witness :
  ∃ us, us ≡ₚ all_upstreams sample_config ∧
        (reports (events sample_checks.1)).*1 = mjoin (replicate 2 us).
Proof.
  refine (health_check_reports id sample_config sample_router _ 2 sample_checks.1 _ sample_checks_steps).
  intros l. reflexivity.
Defined.
