(* ===== verification/ActiveChecks.v ===== *)
(** ActiveChecks: the active checker drives the circuit breaker.

    [HealthCheck] says what the checker reports, [Health] what reports do to the
    tracker.  Together: an upstream whose probes fail leaves the rotation after
    [failure_threshold] rounds, and one whose probes succeed is back at once. *)

From S2P Require Import Prelude Float64 Prog Config Balancer Http Errors Router Health RetryBudget.
From S2P Require Import RateLimiter Metrics State Trace Sample MiddlewareFacts HealthCheck.
Local Open Scope Z_scope.

Section checks.
Context `{Hyper, Platform}.

(** The call on the health tracker an effect is, with the clock it read. *)
Definition health_call (o : Oracle) {X} (e : sysE X) : option health_op :=
  match e with
  | HealthFailure u => Some (HFailure u (clock o 0%nat))
  | HealthSuccess u => Some (HSuccess u)
  | HealthCheck u => Some (HCheck u (clock o 0%nat))
  | _ => None
  end.

(** The calls a run makes on it. *)
Fixpoint health_log {A} (os : nat → Oracle) (p : prog sysE A) (s : AppState) : list health_op :=
  match p with
  | Vis e k =>
      match handle (os 0%nat) _ e s with
      | (s', Value x) => option_list (health_call (os 0%nat) e) ++ health_log (λ n, os (S n)) (k x) s'
      | (_, Panicked) => []
      end
  | _ => []
  end.

(** A program that returns is followed by the rest, on the remaining answers. *)
Lemma run_sys_bind {A B} (p : prog sysE A) (f : A → prog sysE B) os s s' a :
  run_sys os p s = (s', Value a) →
  ∃ k, run_sys os (p ≫= f) s = run_sys (λ n, os (k + n)%nat) (f a) s' ∧
    health_log os (p ≫= f) s = health_log os p s ++ health_log (λ n, os (k + n)%nat) (f a) s'.
Proof.
  unfold mbind, prog_mbind. revert os s. induction p as [b| |X e k IH]; intros os s Hp; simpl in *.
  - simplify_eq. by exists O.
  - done.
  - destruct (handle (os O) X e s) as [s1 [x|]]; [|done].
    destruct (IH x _ _ Hp) as (n & Hn & Hlog). exists (S n). split; [done|]. by rewrite Hlog, <-app_assoc.
Qed.

Context (hc : HealthCheckConfig) (u : string) (verdict : bool).

(** Every probe of [u] ends like this. *)
Definition answers_probes (os : nat → Oracle) : Prop :=
  ∀ m, probe_ok (waited (os m) _ (Probe (u +:+ hc_path hc) (from_secs (timeout_secs hc)))) = verdict.

(** A report on [u] in keeping with it. *)
Definition report_ok (op : health_op) : Prop :=
  match op with
  | HFailure v _ => v = u → verdict = false
  | HSuccess v => v = u → verdict = true
  | HCheck _ _ => False
  end.

(** A run of the checker that reports on [us]: the tracker is what its calls
    made of it, and nothing else has changed. *)
Definition reports_on (p : prog sysE unit) (us : list string) : Prop :=
  ∀ os s, health_ok (health s) → answers_probes os →
    run_sys os p s = (set_health s (health_run (health s) (health_log os p s)), Value tt) ∧
    op_upstream <$> health_log os p s = us ∧ Forall report_ok (health_log os p s).

Lemma reports_ret : reports_on (Ret tt) [].
Proof. intros os s _ _. split_and!; [by destruct s|done|done]. Qed.

Lemma reports_bind p q us us' : reports_on p us → reports_on q us' → reports_on (_ ← p; q) (us ++ us').
Proof.
  intros Hp Hq os s Hok Hans. destruct (Hp os s Hok Hans) as (Hrun & Hus & Hops).
  destruct (run_sys_bind p (λ _, q) os s _ tt Hrun) as (k & Hk & ->).
  set (s1 := set_health s _) in *.
  assert (health_ok (health s1)) as Hok1 by (by apply health_run_ok).
  destruct (Hq (λ n, os (k + n)%nat) s1 Hok1) as (Hrun' & Hus' & Hops'); [intros m; apply Hans|].
  split_and!.
  - rewrite Hk, Hrun'. unfold s1 at 1. by rewrite health_run_app.
  - by rewrite fmap_app, Hus, Hus'.
  - by apply Forall_app.
Qed.

Lemma reports_probe v : reports_on (probe hc v) [v].
Proof.
  intros os s Hok Hans. specialize (Hans 0%nat). unfold probe. simpl.
  destruct (probe_ok (waited (os 0%nat) _ (Probe (v +:+ hc_path hc) _))) eqn:Hb; simpl.
  - destruct (record_success_spec (health s) v Hok) as (h & Hh & _). rewrite Hh.
    unfold zoom, health_run. simpl. rewrite Hh. split_and!; [done|done|]. constructor; [|done].
    intros ->. exact (eq_trans (eq_sym Hans) Hb).
  - destruct (record_failure_spec (health s) v (clock (os 1%nat) 0%nat) Hok) as (h & Hh & _). rewrite Hh.
    unfold zoom, health_run. simpl. rewrite Hh. split_and!; [done|done|]. constructor; [|done].
    intros ->. exact (eq_trans (eq_sym Hans) Hb).
Qed.

(** One pass over the upstreams. *)
Lemma reports_pass us : reports_on (probe_all hc us) us.
Proof.
  induction us as [|v us IH]; [apply reports_ret|]. apply (reports_bind _ _ [v]); [apply reports_probe|done].
Qed.

Lemma reports_sleep d p us : reports_on p us → reports_on (_ ← trigger (Await (Sleep d)); p) us.
Proof.
  intros Hp os s Hok Hans. apply (Hp (λ n, os (S n)) s Hok). intros m. apply Hans.
Qed.

Lemma reports_rounds us n : reports_on (health_check_rounds hc us n) (mjoin (replicate n us)).
Proof.
  induction n as [|n IH]; [apply reports_ret|]. apply reports_sleep.
  apply (reports_bind _ _ us); [apply reports_pass|exact IH].
Qed.

(** In [n] passes an upstream is reported [n] times. *)
Lemma mentions_in_passes us n : NoDup us → u ∈ us →
  length (filter (λ v, v = u) (mjoin (replicate n us))) = n.
Proof.
  intros Hnd Hu.
  assert (length (filter (λ v, v = u) us) = 1%nat) as Hone.
  { induction Hnd as [|v us Hv Hnd IH]; [by apply elem_of_nil in Hu|]. rewrite filter_cons.
    case_decide as Heq.
    - subst v. simpl. f_equal. apply length_zero_iff_nil.
      destruct (filter (λ v, v = u) us) as [|w l] eqn:Hf; [done|]. destruct Hv.
      assert (w ∈ filter (λ v, v = u) us) as [-> ?]%list_elem_of_filter by (rewrite Hf; left). done.
    - apply IH. apply elem_of_cons in Hu as [->|Hu]; done. }
  induction n as [|n IH]; [done|]. simpl. by rewrite filter_app, length_app, Hone, IH.
Qed.

Lemma failures_reported ops : verdict = false → Forall report_ok ops →
  only_fails u ops ∧ length (failures_of u ops) = length (filter (λ v, v = u) (op_upstream <$> ops)).
Proof.
  intros Hfalse. induction 1 as [|op ops Hop _ (IH1 & IH2)]; [by repeat constructor|].
  rewrite fmap_cons, filter_cons. destruct op as [v now|v|v now]; simpl in *; [| |done].
  - split; [by constructor|]. case_decide as Hv; simpl; [by rewrite IH2|done].
  - assert (v ≠ u) as Hv by (intros Hv; pose proof (eq_trans (eq_sym (Hop Hv)) Hfalse); done).
    rewrite decide_False by done. split; [by constructor|done].
Qed.

Lemma successes_entry self ops : verdict = true → health_ok self → Forall report_ok ops →
  u ∈ op_upstream <$> ops → entry_of (health_run self ops) u = fresh_health.
Proof.
  intros Htrue Hok. induction ops as [|op ops IH] using rev_ind; intros Hops Hu.
  - by apply elem_of_nil in Hu.
  - apply Forall_app in Hops as [Hops [Hop _]%Forall_cons]. specialize (IH Hops).
    rewrite health_run_app. destruct (health_run_ok self ops Hok) as [Hok' _].
    destruct (decide (op_upstream op = u)) as [Hv|Hv].
    + destruct op as [v now|v|v now]; simpl in Hv; [|subst v|done].
      * discriminate (eq_trans (eq_sym (Hop Hv)) Htrue).
      * destruct (record_success_spec (health_run self ops) u Hok') as (h & Hh & _ & _ & He & _).
        simpl. by rewrite Hh.
    + destruct (health_step_ok (health_run self ops) op Hok') as (_ & _ & _ & Hother).
      simpl. rewrite Hother by done. apply IH. rewrite fmap_app, elem_of_app in Hu.
      destruct Hu as [Hu|Hu]; [done|]. by apply list_elem_of_singleton in Hu.
Qed.

(** C35. The active checker drives the circuit breaker: in [n] rounds in which
    every probe of a fresh upstream failed, [n] failures are reported on it, and
    it then is out of the rotation exactly when [n] has reached the threshold and
    the cooldown has not passed since the last of these reports; after a round
    of successful probes it is in it, whatever its record was. *)
Theorem active_checks_circuit (iterate : list string → list string) (n : nat) (os : nat → Oracle)
    (s : AppState) :
  (∀ l, iterate l ≡ₚ l) → health_ok (health s) → u ∈ all_upstreams (config s) → answers_probes os →
  let checker := run_health_check_loop iterate hc n in
  ∃ h, run_sys os checker s = (set_health s h, Value tt) ∧
    if verdict then (0 < n)%nat → ∀ now, (is_healthy h u now).2 = Value true
    else entry_of (health s) u = fresh_health →
      length (failures_of u (health_log os checker s)) = n ∧
      ∀ now, (is_healthy h u now).2 = Value match last (failures_of u (health_log os checker s)) with
        | None => true
        | Some t => bool_decide (Z.of_nat n < ht_failure_threshold (health s))
                    || bool_decide (ht_cooldown (health s) ≤ duration_since now t)
        end.
Proof.
  intros Hit Hok Hu Hans. cbv zeta. unfold run_health_check_loop. cbn -[health_check_rounds].
  set (us := iterate (all_upstreams (config s))).
  assert (NoDup us ∧ u ∈ us) as [Hnd Hin]
    by (unfold us; rewrite (Hit _); split; [apply all_upstreams_spec|done]).
  destruct (reports_rounds us n (λ m, os (S m)) s Hok) as (Hrun & Hus & Hops); [intros m; apply Hans|].
  set (ops := health_log _ _ s) in *.
  exists (health_run (health s) ops). split; [exact Hrun|].
  destruct (health_run_ok (health s) ops Hok) as [Hok' [Hthr Hcool]].
  destruct verdict eqn:Hv.
  - intros Hn now. destruct (is_healthy_spec (health_run (health s) ops) u now Hok') as (h' & -> & _).
    rewrite successes_entry; [done|done|done|done|].
    rewrite Hus. destruct n as [|n]; [lia|]. simpl. apply elem_of_app. by left.
  - intros Hfresh. destruct (failures_reported ops Hv Hops) as (Honly & Hlen).
    rewrite Hus, mentions_in_passes in Hlen by done. split; [done|].
    intros now. destruct (is_healthy_spec (health_run (health s) ops) u now Hok') as (h' & -> & _).
    simpl. rewrite (failures_entry _ u ops Hok Hfresh Honly), healthy_after_failures.
    unfold len. by rewrite Hlen, <-Hcool.
Qed.
End checks.

(** ** Witnesses *)

(** The first upstream refuses probes. *)
Definition refusing_oracle (n : nat) : Oracle :=
  mk_oracle (λ _, sample_now) "2f1b" (λ _, 0)
    (λ X a, match a in awaitE X return X with
            | Probe url _ => if String.prefix "http://a" url then None else Some 200
            | a => sample_await _ a
            end) (λ X _ a, Some (sample_await X a)).

Lemma active_checks_circuit_witness :
  ∃ h, run_sys refusing_oracle (run_health_check_loop id (mk_health_check_config "/health" 10 3) 4)
         strict_state = (set_health strict_state h, Value tt) ∧
       (is_healthy h "http://a:80" sample_now).2 = Value false.
Proof.
  destruct (active_checks_circuit (mk_health_check_config "/health" 10 3) "http://a:80" false id 4
    refusing_oracle strict_state) as (h & Hrun & Hcircuit).
  - intros l. reflexivity.
  - split_and!; simpl; [reflexivity|lia|lia|]. apply map_Forall_empty.
  - vm_compute. left.
  - intros m. reflexivity.
  - destruct (Hcircuit eq_refl) as [_ Hfinal]. exists h. split; [exact Hrun|].
    rewrite Hfinal. vm_compute. reflexivity.
Defined.
