(* ===== verification/MockUpstream.v ===== *)
(** MockUpstream: the mock backend of [bin/mock_upstream.rs].

    Its command line, its routes and its handler, as programs over the effects
    [mockE]; the parsing of floating-point numbers is a parameter. *)

From S2P Require Import Prelude Float64 Prog.
From stdpp Require Import pretty.
From Stdlib Require Import Ascii.
Local Open Scope Z_scope.

Record AppConfig := mk_mock_config {
  delay_ms : Z; (* u64 *)
  mock_body : string;
  fail_rate : f64;
}.

Variant mockE : Type → Type :=
| Roll : mockE f64 (* [rand::random()], in [0, 1) *)
| Delay (d : Duration) : mockE unit
| ListenOn (addr : string) : mockE bool
| ServeMock (config : AppConfig) : mockE bool. (* [axum::serve], until it ends *)

(** A status and a text. *)
Record MockAnswer := mk_mock_answer {
  mock_status : Z;
  mock_text : string;
}.

Definition f64_zero : f64 := f64_of_Z 0.

Definition delayed_success (config : AppConfig) : prog mockE MockAnswer :=
  _ ← (if decide (0 < delay_ms config) then trigger (Delay (from_millis (delay_ms config))) else Ret tt);
  Ret (mk_mock_answer 200 (mock_body config)).

Definition handler (config : AppConfig) : prog mockE MockAnswer :=
  if f64_gt (fail_rate config) f64_zero then
    roll ← trigger Roll;
    if f64_lt roll (fail_rate config) then Ret (mk_mock_answer 500 "error") else delayed_success config
  else delayed_success config.

(** The [Router] of [main]. *)
Definition mock_app (config : AppConfig) (path : string) : prog mockE MockAnswer :=
  if decide (path = "/health") then Ret (mk_mock_answer 200 "ok") else handler config.

(** [iter().position(|a| a == flag)]. *)
Fixpoint position (args : list string) (flag : string) : option nat :=
  match args with
  | [] => None
  | a :: args' => if decide (a = flag) then Some O else S <$> position args' flag
  end.

Definition parse_arg (args : list string) (flag : string) : option string :=
  i ← position args flag; args !! S i.

(** [str::parse] of an unsigned integer of [w] bits: decimal digits, at least
    one, with an optional plus sign. *)
Definition digit (c : ascii) : option Z :=
  let n := Z.of_nat (nat_of_ascii c) in
  if decide (48 ≤ n ≤ 57) then Some (n - 48) else None.

Fixpoint parse_digits (w : Z) (s : string) (acc : Z) : option Z :=
  match s with
  | EmptyString => Some acc
  | String c s' =>
      d ← digit c;
      let acc' := acc * 10 + d in
      if decide (acc' < 2 ^ w) then parse_digits w s' acc' else None
  end.

Definition parse_uint (w : Z) (s : string) : option Z :=
  match s with
  | EmptyString => None
  | String "+" EmptyString => None
  | String "+" s' => parse_digits w s' 0
  | s => parse_digits w s 0
  end.

Definition repeat_x (n : Z) : string :=
  Nat.iter (Z.to_nat n) (String "x") EmptyString.

(** The part of [main] that reads the command line: the port and the
    configuration, or a panic.  A [Vec] cannot hold more than [isize::MAX] bytes. *)
Definition mock_args (parse_f64 : string → option f64) (args : list string) : outcome (Z * AppConfig) :=
  port ← unwrap (parse_arg args "--port" ≫= parse_uint 16);
  delay ← unwrap (parse_uint 64 (default "0" (parse_arg args "--delay-ms")));
  body_size ← unwrap (parse_uint 64 (default "256" (parse_arg args "--body-size")));
  rate ← unwrap (parse_f64 (default "0.0" (parse_arg args "--fail-rate")));
  if decide (body_size < 2 ^ 63) then Value (port, mk_mock_config delay (repeat_x body_size) rate)
  else Panicked.

Definition mock_main (parse_f64 : string → option f64) (args : list string) : prog mockE unit :=
  '(port, config) ← lift (mock_args parse_f64 args);
  bound ← trigger (ListenOn ("127.0.0.1:" +:+ pretty port));
  if (bound : bool) then
    served ← trigger (ServeMock config);
    if (served : bool) then Ret tt else Panic
  else Panic.

(** ** Facts *)

Lemma position_spec args flag :
  match position args flag with
  | Some i => args !! i = Some flag ∧ ∀ j, (j < i)%nat → args !! j ≠ Some flag
  | None => flag ∉ args
  end.
Proof.
  induction args as [|a args IH]; simpl; [by apply not_elem_of_nil|].
  case_decide as Ha; [subst; split; [done|lia]|].
  destruct (position args flag) as [i|]; simpl.
  - destruct IH as [Hi Hj]. split; [done|]. intros [|j] Hlt; simpl; [congruence|]. apply Hj. lia.
  - by rewrite not_elem_of_cons.
Qed.

Lemma parse_digits_in_width w s acc n : 0 ≤ acc < 2 ^ w → parse_digits w s acc = Some n → in_width w n.
Proof.
  revert acc. induction s as [|c s IH]; intros acc Hacc; simpl; [intros [= <-]; done|].
  unfold digit. case_decide; [|done]. simpl. case_decide; [|done]. apply IH. lia.
Qed.

Lemma mock_args_port (parse_f64 : string → option f64) (args : list string) port config :
  mock_args parse_f64 args = Value (port, config) →
  in_width 16 port ∧
  ∃ i text, args !! i = Some "--port" ∧ (∀ j, (j < i)%nat → args !! j ≠ Some "--port") ∧
    args !! S i = Some text ∧ parse_uint 16 text = Some port.
Proof.
  intros Hmain. unfold mock_args in Hmain. inv_outcome. case_decide; [|done]. simplify_eq. unfold unwrap in Ha.
  destruct (parse_arg args "--port") as [text|] eqn:Htext; simpl in Ha; [|done].
  destruct (parse_uint 16 text) as [p|] eqn:Hp; simplify_eq/=. split.
  - unfold parse_uint in Hp. repeat case_match; try done; eapply parse_digits_in_width; (done || lia).
  - unfold parse_arg in Htext. pose proof (position_spec args "--port") as Hpos.
    destruct (position args "--port") as [i|]; simpl in Htext; [|done].
    destruct Hpos. by exists i, text.
Qed.

(** The mock backend serves only on a 16-bit port that is the argument after
    the first [--port]; a missing or malformed port, delay, body size or failure
    rate stops it before it listens. *)
Theorem mock_main_port (ok : ∀ X, mockE X → X → Prop) (parse_f64 : string → option f64)
    (args : list string) (tr : list (obs mockE)) (q : prog mockE unit) (addr : string) (bound : bool) :
  steps ok (mock_main parse_f64 args) tr q → Obs (ListenOn addr) bound ∈ tr →
  ∃ port i text, addr = "127.0.0.1:" +:+ pretty port ∧ in_width 16 port ∧
    args !! i = Some "--port" ∧ (∀ j, (j < i)%nat → args !! j ≠ Some "--port") ∧
    args !! S i = Some text ∧ parse_uint 16 text = Some port.
Proof.
  intros Hs Hin. unfold mock_main in Hs.
  destruct (mock_args parse_f64 args) as [[port config]|] eqn:Hargs.
  2: { apply steps_inv in Hs as [[-> _]|[]]. by apply not_elem_of_nil in Hin. }
  destruct (mock_args_port _ _ _ _ Hargs) as (Hw & i & text & Hi). exists port, i, text. split; [|by split].
  simpl in Hs. apply steps_inv in Hs as [[-> _]|(x & tr' & -> & _ & Hs)]; [by apply not_elem_of_nil in Hin|].
  apply elem_of_cons in Hin as [[= -> _]|Hin]; [done|]. destruct x; simpl in Hs.
  - apply steps_inv in Hs as [[-> _]|(y & tr2 & -> & _ & Hs)]; [by apply not_elem_of_nil in Hin|].
    apply elem_of_cons in Hin as [[=]|Hin]. destruct y; apply steps_inv in Hs as [[-> _]|[]];
      by apply not_elem_of_nil in Hin.
  - apply steps_inv in Hs as [[-> _]|[]]. by apply not_elem_of_nil in Hin.
Qed.

(** What the handler answers to a roll: it fails at once when the roll is below
    a positive failure rate, and otherwise succeeds after the delay; a rate of
    zero never fails (and never rolls), a rate of one always does. *)
Theorem handler_answers (ok : ∀ X, mockE X → X → Prop) (config : AppConfig) (tr : list (obs mockE))
    (answer : MockAnswer) :
  steps ok (handler config) tr (Ret answer) →
  (∃ roll, tr = [Obs Roll roll] ∧ f64_gt (fail_rate config) f64_zero = true ∧
     f64_lt roll (fail_rate config) = true ∧ answer = mk_mock_answer 500 "error") ∨
  (answer = mk_mock_answer 200 (mock_body config) ∧
   ∃ rolls waits, tr = rolls ++ waits ∧
     (f64_gt (fail_rate config) f64_zero = false ∧ rolls = [] ∨
      ∃ roll, rolls = [Obs Roll roll] ∧ f64_lt roll (fail_rate config) = false) ∧
     waits = if decide (0 < delay_ms config) then [Obs (Delay (from_millis (delay_ms config))) tt] else []).
Proof.
  intros Hs.
  assert (∀ tr, steps ok (delayed_success config) tr (Ret answer) →
    answer = mk_mock_answer 200 (mock_body config) ∧
    tr = if decide (0 < delay_ms config) then [Obs (Delay (from_millis (delay_ms config))) tt] else []) as Hlate.
  { intros tr' Hd. unfold delayed_success in Hd. case_decide.
    - apply steps_vis_ret in Hd as ([] & tr1 & -> & _ & Hd). by apply steps_ret_inv in Hd as [-> [= ->]].
    - by apply steps_ret_inv in Hd as [-> [= ->]]. }
  unfold handler in Hs. destruct (f64_gt (fail_rate config) f64_zero) eqn:Hgt.
  - apply steps_vis_ret in Hs as (roll & tr1 & -> & _ & Hs). simpl in Hs.
    destruct (f64_lt roll (fail_rate config)) eqn:Hlt.
    + apply steps_ret_inv in Hs as [-> [= ->]]. left. by exists roll.
    + apply Hlate in Hs as [-> ->]. right. split; [done|]. exists [Obs Roll roll]. eexists.
      split; [reflexivity|]. split; [right; by exists roll|done].
  - apply Hlate in Hs as [-> ->]. right. split; [done|]. exists []. eexists. split; [reflexivity|].
    split; [by left|done].
Qed.
