(* ===== verification/Total.v ===== *)
(** Total: nothing panics.

    [state_ok] is the invariant of the shared state: no lock is poisoned, the
    current router exists, and every router generation has usable routes with
    well-formed counters.  Every effect a request performs is served in such a
    state and keeps it, so a request that runs alone always returns; [System]
    extends this to every interleaving. *)

From S2P Require Import Prelude Float64 Prog Config Balancer Http Errors Router Health.
From S2P Require Import RetryBudget RateLimiter Metrics State Trace Proxy Middleware RetryPolicy.
From S2P Require Import PolicyFacts ProxySpec Sample HeaderFacts.
Local Open Scope Z_scope.

(** ** Usable configurations *)

(** A route with upstreams, positive weights, and lists no longer than a [Vec]. *)
Definition usable_route (rc : RouteConfig) : Prop :=
  0 < len (rc_upstream rc) ∧ vec_fits (rc_upstream rc) ∧ positive_weights (rc_weights rc) ∧
  ∀ ws, rc_weights rc = Some ws → vec_fits ws.

(** The backoff arithmetic stays in range, or the build does not check. *)
Definition backoff_safe `{Platform} (cfg : Config) : Prop :=
  0 ≤ retry_backoff_ms (server cfg) ∧ 0 ≤ max_retries (server cfg) ∧
  (overflow_checks = false ∨ max_retries (server cfg) ≤ 32 ∧ retry_backoff_ms (server cfg) < 2 ^ 31).

Definition usable_config `{Platform} (cfg : Config) : Prop :=
  Forall usable_route (routes cfg) ∧ backoff_safe cfg.

Definition route_ok (route : Route) : Prop := ∃ rc, route = build_route rc ∧ usable_route rc.
Definition router_ok (r : Router) : Prop := Forall route_ok (router_routes r).

Lemma build_router_ok `{Platform} cfg : usable_config cfg → router_ok (build_router cfg).
Proof.
  intros [Hr _]. apply Forall_fmap. eapply Forall_impl; [done|]. intros rc Hrc. by exists rc.
Qed.

Lemma init_cells_ok route : route_ok route → cells_ok (cell_count (balancer route)) (init_cells (balancer route)).
Proof.
  intros (rc & -> & Hrc). unfold init_cells. split.
  - unfold len. rewrite length_replicate. simpl. destruct (rc_strategy rc); simpl; try lia.
    pose proof (len_nonneg (rc_upstream rc)). lia.
  - apply Forall_replicate. by split.
Qed.

(** ** The invariant *)
Section invariant.
Context `{Hyper, Platform}.

(** The counters of every generation that can be used. *)
Definition counters_ok (s : AppState) : Prop :=
  ∀ g r i route, routers s !! g = Some r → router_ok r → router_routes r !! i = Some route →
    ∃ c, cells s !! (g, i) = Some c ∧ cells_ok (cell_count (balancer route)) c.

(** What holds whatever configurations were applied. *)
Definition sound (s : AppState) : Prop :=
  health_ok (health s) ∧ poisoned (rb_state (retry_budget s)) = false ∧
  poisoned (rl_buckets (rate_limiter s)) = false ∧ (current_router s < length (routers s))%nat ∧
  counters_ok s.

Definition state_ok (s : AppState) : Prop :=
  sound s ∧ Forall router_ok (routers s) ∧ usable_config (config s).

(** The clock reaches back far enough, and the random numbers are in range. *)
Definition oracle_ok (s : AppState) (o : Oracle) : Prop :=
  (∀ k, instant_min + Z.max (window (retry_budget s)) (from_secs 300) ≤ clock o k) ∧
  visible (uuid o) = true ∧ ∀ hi, 0 ≤ hi → 0 ≤ random o hi ≤ hi.

(** The effects served when the router generations are (an extension of) [G]. *)
Definition enabled (G : list Router) (X : Type) (e : sysE X) : Prop :=
  match e with
  | Jitter hi => 0 ≤ hi
  | StoreRouter r => router_ok r
  | StoreConfig c => usable_config c
  | @Balance _ gen i X e => ∃ r route, G !! gen = Some r ∧ router_ok r ∧
      router_routes r !! i = Some route ∧ bal_enabled (cell_count (balancer route)) X e
  | Metric m => length (call_labels m) = length (fam_labels (call_family m))
  | _ => True
  end.

(** The effects served in any sound state: anything may be stored. *)
Definition accepted (G : list Router) (X : Type) (e : sysE X) : Prop :=
  match e with StoreRouter _ | StoreConfig _ => True | e => enabled G _ e end.

Lemma enabled_accepted G X (e : sysE X) : enabled G X e → accepted G X e.
Proof. by destruct e. Qed.

(** What a program may load, usable or not. *)
Definition held (G : list Router) : World :=
  mk_world (λ _, True) (λ arc, G !! generation arc = Some (the_router arc)).

(** What it may load when everything applied was usable. *)
Definition known (G : list Router) : World :=
  mk_world usable_config (λ arc, G !! generation arc = Some (the_router arc) ∧ router_ok (the_router arc)).

(** An answer that loads nothing unusable. *)
Definition good_load (o : obs sysE) : Prop :=
  match o with
  | @Obs _ _ e x =>
      match e in sysE X return X → Prop with
      | LoadConfig => usable_config
      | LoadRouter => λ arc, router_ok (the_router arc)
      | _ => λ _, True
      end x
  end.

Lemma known_held G X (e : sysE X) x :
  sys_ok (known G) X e x ↔ sys_ok (held G) X e x ∧ good_load (Obs e x).
Proof. destruct e; simpl; tauto. Qed.

(** An effect that is served with a value. *)
Definition gives {X} (r : outcome X) (Φ : X → Prop) : Prop := ∃ x, r = Value x ∧ Φ x.

Lemma balance_sound s gen i X (e : balE X) c :
  sound s → cells s !! (gen, i) = Some c →
  sound (set_cells s (gen, i) (handle_bal X e c).1).
Proof.
  intros (H1 & H2 & H3 & H4 & H5) Hc. split_and!; try done.
  intros g r j route Hg Hr Hj. simpl. destruct (H5 g r j route Hg Hr Hj) as (c' & Hc' & Hok).
  destruct (decide ((g, j) = (gen, i))) as [[= -> ->]|Hne].
  - rewrite lookup_insert_eq. simplify_eq. eexists. split; [done|]. by apply handle_bal_keeps.
  - rewrite lookup_insert_ne by congruence. by exists c'.
Qed.

Lemma store_router_sound s r : sound s → sound (store_router s r).
Proof.
  intros (H1 & H2 & H3 & H4 & H5). split_and!; try done; simpl.
  - rewrite length_app. simpl. lia.
  - intros g r' i route Hg Hr Hi. simpl in Hg |- *. rewrite lookup_union.
    destruct (decide (g = length (routers s))) as [->|Hne].
    + rewrite lookup_app_r, Nat.sub_diag in Hg by done. injection Hg as ->.
      rewrite (fresh_cells_lookup (length (routers s)) r'), decide_True, Hi by done. simpl.
      eexists. split; [by destruct (cells s !! _)|]. apply init_cells_ok.
      exact (proj1 (Forall_lookup _ _) Hr i route Hi).
    + rewrite lookup_app_l in Hg.
      * destruct (H5 g r' i route Hg Hr Hi) as (c & Hc & Hok). exists c.
        rewrite (fresh_cells_lookup (length (routers s)) r), decide_False, Hc by done. done.
      * apply lookup_lt_Some in Hg. rewrite length_app in Hg. simpl in Hg. lia.
Qed.

Lemma record_request_total (self : RetryBudget) now : poisoned (rb_state self) = false →
  ∃ self', record_request self now = (self', Value tt) ∧ poisoned (rb_state self') = false
           ∧ window self' = window self.
Proof. intros Hp. unfold record_request, budget_locked, with_lock. rewrite Hp. eauto. Qed.

Lemma allow_retry_total (self : RetryBudget) clk : poisoned (rb_state self) = false →
  instant_min ≤ clk 0%nat - window self →
  ∃ self' b, allow_retry self clk = (self', Value b) ∧ poisoned (rb_state self') = false
             ∧ window self' = window self.
Proof.
  intros Hp Hmin. unfold allow_retry, budget_locked, with_lock, instant_sub.
  rewrite Hp, decide_True by done. repeat case_decide; eauto 10.
Qed.

Lemma handle_rate_total clk X (e : rateE X) (self : RateLimiter) :
  poisoned (rl_buckets self) = false → instant_min ≤ clk 0%nat - from_secs 300 →
  ∃ self' x, handle_rate clk X e self = (self', Value x) ∧ poisoned (rl_buckets self') = false.
Proof.
  intros Hp Hmin. destruct e; cbn [handle_rate].
  - eauto.
  - eauto.
  - unfold cleanup, limiter_locked, with_lock, instant_sub. rewrite Hp, decide_True by done. eauto.
  - unfold acquire, limiter_locked, with_lock. rewrite Hp. destruct (try_acquire _ _). eauto.
Qed.

Lemma handle_config o X (e : sysE X) s s' x : handle o X e s = (s', Value x) →
  config s' = match e with StoreConfig c => c | _ => config s end.
Proof.
  destruct e; cbn [handle]; unfold zoom; try (by intros; simplify_eq/=).
  destruct (cells s !! (gen, route)); intros; simplify_eq/=; done.
Qed.

(** Every effect, accepted or not, leaves the state sound; an accepted one is
    served.  Only a reload adds a router generation. *)
Lemma handle_sound X (e : sysE X) o s :
  sound s → oracle_ok s o →
  ∃ s' r, handle o X e s = (s', r) ∧ sound s' ∧
    window (retry_budget s') = window (retry_budget s) ∧
    routers s' = match e with StoreRouter r => routers s ++ [r] | _ => routers s end ∧
    (accepted (routers s) X e → gives r (sys_ok (held (routers s)) X e)).
Proof.
  intros Hs (Hclk & Hid & Hrand). pose proof (Hclk 0%nat) as Hclk0.
  pose proof Hs as (H1 & H2 & H3 & H4 & H5).
  destruct e; cbn [handle]; try (by eexists s, _; split_and!; [..|eexists]).
  - eexists s, _. split_and!; try done. intros Hhi. eexists. split; [done|]. by apply Hrand.
  - destruct (lookup_lt_is_Some_2 _ _ H4) as [r Hr]. eexists s, _.
    split_and!; try done. intros _. eexists. split; [done|]. unfold load_router. simpl. by rewrite Hr.
  - eexists _, _. split_and!; try done; [by apply store_router_sound|by eexists].
  - eexists _, _. split_and!; try done. by eexists.
  - destruct (cells s !! (gen, route)) as [c|] eqn:Hc.
    + eexists _, _. split; [done|]. split_and!; [by apply balance_sound|done|done|].
      intros (r & rt & Hg & Hr & Hi & He). destruct (H5 _ _ _ _ Hg Hr Hi) as (c' & Hc' & Hok).
      simplify_eq. destruct (handle_bal_serves _ _ e _ He Hok) as (c'' & x & Heq & Hx & _).
      simpl. rewrite Heq. by exists x.
    + eexists s, _. split_and!; try done.
      intros (r & rt & Hg & Hr & Hi & _). destruct (H5 _ _ _ _ Hg Hr Hi) as (c' & Hc' & _). congruence.
  - destruct (record_failure_spec (health s) u (clock o 0%nat) H1) as (h & -> & Hok & _).
    eexists _, _. split_and!; try done. by eexists.
  - destruct (record_success_spec (health s) u H1) as (h & -> & Hok & _).
    eexists _, _. split_and!; try done. by eexists.
  - destruct (is_healthy_spec (health s) u (clock o 0%nat) H1) as (h & -> & Hok & _).
    eexists _, _. split_and!; try done. by eexists.
  - destruct (record_request_total _ (clock o 0%nat) H2) as (b & -> & Hb & Hw).
    eexists _, _. split_and!; try done. by eexists.
  - destruct (allow_retry_total _ (clock o) H2 ltac:(lia)) as (b & x & -> & Hb & Hw).
    eexists _, _. split_and!; try done. by eexists.
  - destruct (handle_rate_total (clock o) X e _ H3 ltac:(lia)) as (l & x & -> & Hl).
    eexists _, _. split_and!; try done. by eexists.
  - eexists _, _. split; [done|]. split_and!; try done. intros Hm. eexists. split; [|done].
    unfold metrics_call. by rewrite decide_True.
Qed.

(** Where everything applied is usable, enabled effects keep it so. *)
Lemma handle_serves X (e : sysE X) o s :
  state_ok s → oracle_ok s o → enabled (routers s) X e →
  ∃ s' x, handle o X e s = (s', Value x) ∧ sys_ok (known (routers s)) X e x ∧ state_ok s' ∧
    window (retry_budget s') = window (retry_budget s) ∧
    routers s' = match e with StoreRouter r => routers s ++ [r] | _ => routers s end.
Proof.
  intros (Hs & Hr & Hc) Ho He.
  destruct (handle_sound X e o s Hs Ho) as (s' & r & Heq & Hs' & Hw & Hr' & Hv).
  destruct (Hv (enabled_accepted _ _ _ He)) as (x & -> & Hx). pose proof (handle_config _ _ _ _ _ _ Heq) as Hc'.
  exists s', x. split_and!; try done.
  - apply known_held. split; [done|]. clear -Heq Hr Hc Hs. destruct e; simpl; try done.
    + injection Heq as _ <-. done.
    + destruct Hs as (_ & _ & _ & H4 & _). destruct (lookup_lt_is_Some_2 _ _ H4) as [r Hl].
      injection Heq as _ <-. unfold load_router. simpl. rewrite Hl. by eapply Forall_lookup_1 in Hr.
  - split_and!; [done| |].
    + rewrite Hr'. destruct e; try done. by apply Forall_app_2, Forall_singleton.
    + rewrite Hc'. by destruct e.
Qed.

(** A larger history of generations serves and allows at least as much. *)
Lemma known_mono G G' X (e : sysE X) x : G `prefix_of` G' →
  sys_ok (known G) X e x → sys_ok (known G') X e x.
Proof.
  intros Hpre. destruct e; simpl; try done. intros [Hg Hr]. split; [|done].
  by eapply prefix_lookup_Some.
Qed.

Lemma held_mono G G' X (e : sysE X) x : G `prefix_of` G' →
  sys_ok (held G) X e x → sys_ok (held G') X e x.
Proof. intros Hpre. destruct e; simpl; try done. intros Hg. by eapply prefix_lookup_Some. Qed.

(** What a program may load when only the configurations [C] were ever current. *)
Definition seen (C : list Config) (G : list Router) : World :=
  mk_world (λ c, c ∈ C) (may_router (known G)).

Lemma seen_known C G X (e : sysE X) x : Forall usable_config C →
  sys_ok (seen C G) X e x → sys_ok (known G) X e x.
Proof. intros HC. destruct e; simpl; try done. by intros Hx; eapply Forall_forall in HC. Qed.
End invariant.

(** ** The request path never panics *)
Section requests.
Context `{HyperLaws, Platform} (G : list Router).

Abbreviation total := (no_panic (sys_ok (known G)) (enabled G)).

Lemma total_trigger {X} (e : sysE X) (Ψ : X → Prop) :
  enabled G X e → (∀ x, sys_ok (known G) X e x → Ψ x) → total (trigger e) Ψ.
Proof. done. Qed.

Lemma total_balance {A} (p : prog balE A) (arc : RouterArc) i route Ψ :
  G !! generation arc = Some (the_router arc) → router_ok (the_router arc) →
  router_routes (the_router arc) !! i = Some route →
  no_panic bal_ok (bal_enabled (cell_count (balancer route))) p Ψ →
  total (on_balancer arc i p) Ψ.
Proof.
  intros Hg Hr Hi. unfold on_balancer.
  induction p as [a| |X e k IH]; simpl; [done|done|]. intros [He Hk].
  split; [by exists (the_router arc), route|]. auto.
Qed.

Context (c : Attempt).
Hypothesis Harc : G !! generation (at_router c) = Some (the_router (at_router c)).
Hypothesis Hrouter : router_ok (the_router (at_router c)).
Hypothesis Hroute : router_routes (the_router (at_router c)) !! at_route_index c = Some (at_route c).
Hypothesis Hstart : 0 ≤ at_start_index c < 2 ^ 63.
Hypothesis Hcount : 0 < upstream_count c < 2 ^ 63.
Hypothesis Hid : visible (at_request_id c) = true.
Hypothesis Hbase : 0 ≤ at_backoff_base_ms c.
Hypothesis Hbackoff : overflow_checks = false ∨
  at_max_attempts c ≤ 33 ∧ at_backoff_base_ms c < 2 ^ 31.
Hypothesis Hmax : at_max_attempts c < 2 ^ 64.

Lemma exp_delay_total k : 0 < k → overflow_checks = false ∨ k ≤ 32 ∧ at_backoff_base_ms c < 2 ^ 31 →
  ∃ exp, exp_delay (at_backoff_base_ms c) k = Value exp ∧ 0 ≤ exp ∧
    (overflow_checks = false ∨ exp < 2 ^ 62).
Proof.
  intros Hk Hsafe. unfold exp_delay, shl_one_u64.
  assert (∀ n, 0 ≤ n → 0 ≤ saturating_mul_u64 (at_backoff_base_ms c) (wrap 64 n)) as Hpos.
  { intros n Hn. unfold saturating_mul_u64. pose proof (wrap_in_width 64 n ltac:(lia)) as [? ?]. nia. }
  case_decide as H64.
  - eexists. split; [done|]. split; [apply Hpos, Z.shiftl_nonneg; lia|].
    destruct Hsafe as [?|[Hk' Hb]]; [by left|right].
    rewrite Z.shiftl_1_l, wrap_small.
    + unfold saturating_mul_u64. pose proof (Z.pow_le_mono_r 2 (k - 1) 31 ltac:(lia) ltac:(lia)).
      assert (0 < 2 ^ (k - 1)) by (apply Z.pow_pos_nonneg; lia). nia.
    + split; [apply Z.pow_nonneg; lia|]. apply Z.pow_lt_mono_r; lia.
  - destruct Hsafe as [Hoc|[? _]]; [|lia]. rewrite Hoc. eexists. split; [done|].
    split; [apply Hpos, Z.shiftl_nonneg; lia|by left].
Qed.

Lemma backoff_total k : 0 < k → k < at_max_attempts c → total (backoff (at_backoff_base_ms c) k) (λ _, True).
Proof.
  intros Hk Hlt. destruct (exp_delay_total k Hk) as (exp & Hexp & Hpos & Hsmall);
    [destruct Hbackoff as [?|[? ?]]; [by left|right; lia]|].
  unfold backoff. apply no_panic_bind, no_panic_lift. exists exp. split; [done|].
  apply no_panic_bind, total_trigger; [simpl; apply Z.div_pos; lia|]. intros jitter [Hj1 Hj2].
  apply no_panic_bind, no_panic_lift.
  assert (∃ t, add_w 64 exp jitter = Value t) as [t Ht]; [|exists t; by split].
  unfold add_w, checked. case_decide as Hw; [eauto|]. destruct Hsmall as [->|Hsmall]; [eauto|].
  destruct Hw. unfold in_width. assert (exp / 2 ≤ exp) by (apply Z.div_le_upper_bound; lia). lia.
Qed.

Lemma finish_failed_total e : total (finish_failed c e) (λ _, True).
Proof. unfold finish_failed, elapsed_since, record_outcome, inc. by repeat split. Qed.

Lemma after_attempt_total u k a : 0 ≤ k →
  total (after_attempt c u k a) (λ s, match s with Continue k' _ => k' = k | _ => True end).
Proof.
  intros Hk. unfold after_attempt, elapsed_since, record_outcome, inc.
  destruct a as [resp|[]]; [destruct (is_server_error _)|..]; by repeat split.
Qed.

Lemma forward_once_total m h b u p ip t :
  total (forward_once m h b u p (at_request_id c) ip t) (λ _, True).
Proof.
  unfold forward_once. case_match; [|done]. apply no_panic_bind, no_panic_lift.
  destruct (normalize_headers_value h (at_request_id c) ip Hid) as (out & Hout). exists out.
  split; [done|]. apply no_panic_bind, total_trigger; [done|]. by intros [] _.
Qed.

Lemma make_attempt_total i u k : 0 ≤ i → 0 ≤ k < at_max_attempts c →
  total (make_attempt c i u k) (λ s, match s with Continue k' _ => k' = k + 1 | _ => True end).
Proof.
  intros Hi Hk. unfold make_attempt, add_w. rewrite checked_fits by (unfold in_width; lia).
  apply no_panic_bind, no_panic_lift. exists (k + 1). split; [done|].
  apply no_panic_bind. eapply no_panic_mono; [eapply total_balance; [done|done|done|]|].
  { exact (start_total (balancer (at_route c)) i Hi). }
  intros _ _. apply no_panic_bind. eapply no_panic_mono; [apply forward_once_total|].
  intros a _. apply no_panic_bind. eapply no_panic_mono; [eapply total_balance; [done|done|done|]|].
  { exact (done_total (balancer (at_route c)) i Hi). }
  intros _ _. apply after_attempt_total. lia.
Qed.

Lemma may_attempt_total k : 0 ≤ k < at_max_attempts c → total (may_attempt c k) (λ _, True).
Proof.
  intros Hk. unfold may_attempt, inc. case_decide; [|done].
  apply no_panic_bind, total_trigger; [done|]. intros [] _; [|done].
  apply no_panic_bind, total_trigger; [done|]. intros _ _.
  apply no_panic_bind. eapply no_panic_mono; [apply backoff_total; lia|]. done.
Qed.

Lemma loop_body_total offset k e : 0 ≤ offset < upstream_count c → 0 ≤ k →
  total (loop_body c offset k e) (λ s, match s with Continue k' _ => 0 ≤ k' | _ => True end).
Proof.
  intros Ho Hk. unfold loop_body. case_decide; [done|].
  unfold add_w. rewrite checked_fits by (unfold in_width; lia).
  apply no_panic_bind, no_panic_lift. eexists. split; [done|].
  apply no_panic_bind, no_panic_lift. rewrite rem_u_pos by lia. eexists. split; [done|].
  pose proof (Z.mod_pos_bound (at_start_index c + offset) (upstream_count c) ltac:(lia)) as Hmod.
  apply no_panic_bind, no_panic_lift.
  destruct (index_in_range (upstreams (at_route c)) _ Hmod) as (u & Hu & _). exists u. split; [done|].
  apply no_panic_bind. unfold skip_upstream.
  assert (∀ skip : bool, total (if skip then Ret (Continue k e)
    else allowed ← may_attempt c k;
         if (allowed : bool) then make_attempt c ((at_start_index c + offset) `mod` upstream_count c) u k
         else Ret Break) (λ s, match s with Continue k' _ => 0 ≤ k' | _ => True end)) as Hgo.
  { intros []; [done|]. apply no_panic_bind. eapply no_panic_mono; [apply may_attempt_total; lia|].
    intros [] _; [|done]. eapply no_panic_mono; [apply make_attempt_total; lia|].
    intros [r| |k' e'] Hs; try done. lia. }
  destruct (at_any_healthy c); [|apply Hgo].
  apply no_panic_bind, total_trigger; [done|]. intros healthy _. apply Hgo.
Qed.

Lemma attempt_loop_total offsets k e : Forall (λ o, 0 ≤ o < upstream_count c) offsets → 0 ≤ k →
  total (attempt_loop c offsets k e) (λ _, True).
Proof.
  intros Hos. revert k e. induction Hos as [|o offsets Ho Hos IH]; intros k e Hk; cbn [attempt_loop].
  { apply finish_failed_total. }
  apply no_panic_bind. eapply no_panic_mono; [by apply loop_body_total|].
  intros [r| |k' e'] Hs; [done|apply finish_failed_total|by apply IH].
Qed.
End requests.

Section services.
Context `{HyperLaws, Platform} (G : list Router).

Abbreviation total := (no_panic (sys_ok (known G)) (enabled G)).

Lemma any_healthy_total us : total (any_upstream_healthy us) (λ _, True).
Proof. induction us as [|u us IH]; simpl; [done|]. split; [done|]. by intros []. Qed.

Lemma proxy_request_total req : total (proxy_request req) (λ _, True).
Proof.
  unfold proxy_request.
  apply no_panic_bind, total_trigger; [done|]. intros start _.
  apply no_panic_bind, total_trigger; [done|]. intros request_id Hid.
  apply no_panic_bind, total_trigger; [done|]. intros cfg Hcfg.
  change (usable_config cfg) in Hcfg. destruct Hcfg as [_ (Hbase & Hretries & Hsafe)].
  apply no_panic_bind, total_trigger; [done|]. intros arc Harc.
  destruct Harc as [Harc Hrouter].
  destruct (match_route (the_router arc) (uri_path (req_uri req))) as [[i route]|] eqn:Hm; [|done].
  pose proof (match_route_lookup _ _ _ _ Hm) as Hi.
  destruct (proj1 (Forall_lookup _ _) Hrouter i route Hi) as (rc & Heq & Hn & Hfit & Hws & Hwfit).
  apply no_panic_bind, total_trigger; [done|]. intros [body|] _; [|done].
  apply no_panic_bind. eapply no_panic_mono; [eapply total_balance; [done|done|done|]|].
  { apply no_panic_returns.
    - assert (serves (balancer route) (len (upstreams route))) as Hserves
        by (rewrite Heq; by apply create_balancer_serves).
      exact (next_total (balancer route) (len (upstreams route)) (uri_path (req_uri req)) Hserves).
    - rewrite Heq. simpl. apply next_index_bound; [unfold vec_fits in Hfit; lia|done]. }
  intros start_index [_ Hstart].
  apply no_panic_bind. eapply no_panic_mono; [apply any_healthy_total|]. intros any _.
  apply no_panic_bind, no_panic_lift. unfold add_w, checked.
  set (c m := mk_attempt arc i route (req_method req) (req_headers req) body
    (final_path (req_uri req) route) request_id (remote_addr req) start start_index any m
    (retry_backoff_ms (server cfg)) (from_secs (request_timeout_secs (server cfg)))).
  assert (∀ m, m < 2 ^ 64 → overflow_checks = false ∨ m ≤ 33 ∧ retry_backoff_ms (server cfg) < 2 ^ 31 →
    total (_ ← trigger BudgetRequest; attempt_loop (c m) (seqZ 0 (len (upstreams route))) 0 None)
      (λ _, True)) as Hloop.
  { intros m Hm64 Hm33. apply no_panic_bind, total_trigger; [done|]. intros _ _.
    assert (upstream_count (c m) = len (rc_upstream rc)) as Hcount
      by (unfold c, upstream_count; simpl; by rewrite Heq).
    unfold vec_fits in Hfit. apply attempt_loop_total; simpl; try done || lia.
    apply Forall_forall. intros o [Ho1 Ho2]%elem_of_seqZ. rewrite Hcount. rewrite Heq in Ho2.
    simpl in Ho2. lia. }
  case_decide as Hw.
  - eexists. split; [done|]. apply Hloop; [destruct Hw; lia|].
    destruct Hsafe as [?|[? ?]]; [by left|right; lia].
  - destruct Hsafe as [Hoc|[? ?]]; [|destruct Hw; split; lia].
    rewrite Hoc. eexists. split; [done|]. apply Hloop; [|by left].
    apply (wrap_in_width 64). lia.
Qed.

Lemma with_deadline_total {A} d (p : prog sysE A) :
  total p (λ _, True) → total (with_deadline d p) (λ _, True).
Proof.
  induction p as [a| |X e k IH]; [done|done|]. intros [He Hk].
  assert (∀ x, sys_ok (known G) X e x → total (with_deadline d (k x)) (λ _, True)) as Hgo by auto.
  destruct e; cbn [with_deadline]; try case_decide;
    (split; [done|]); intros x Hx; try (by apply Hgo).
  all: destruct x as [x|]; [by apply Hgo|done].
Qed.

Lemma check_total ip : no_panic (λ X _ _, True) (λ X _, True) (check ip) (λ _, True).
Proof.
  unfold check. apply no_panic_bind. split; [done|]. intros [] _; [|done]. simpl.
  split; [done|]. intros n _. case_decide; by repeat split.
Qed.

Lemma connection_service_total T ip req : total (connection_service T ip req) (λ _, True).
Proof.
  unfold connection_service, inject_addr, logging, rate_limit. cbn [remote_addr].
  apply no_panic_bind, total_trigger; [done|]. intros _ _.
  apply no_panic_bind. apply no_panic_mono with (Ψ := λ _, True).
  2: { intros resp _. apply no_panic_bind, total_trigger; [done|]. done. }
  apply no_panic_bind. eapply no_panic_mono with (Ψ := λ _, True).
  { generalize (check_total ip). generalize (check ip).
    induction p as [a| |X e k IH]; simpl; [done|done|]. intros [_ Hk]. split; [done|]. auto. }
  intros [] _.
  - unfold request_timeout, proxy_service.
    apply no_panic_bind, total_trigger; [done|]. intros now _.
    apply no_panic_bind. eapply no_panic_mono; [apply with_deadline_total|intros ? _; exact I].
    apply no_panic_bind. eapply no_panic_mono; [apply proxy_request_total|]. intros ? _. exact I.
  - apply no_panic_lift. unfold too_many_requests.
    destruct (from_str_visible "1" eq_refl) as (v & -> & _). simpl. eauto.
Qed.
End services.

