(* ===== verification/CutRequests.v ===== *)
(** CutRequests: requests under the overall timeout.

    The facts of [ProxyFacts] are about completed runs of [proxy_request].  A
    request the timeout cuts is a prefix of a run, and in a usable deployment
    every prefix can be completed: so what holds of the calls of completed runs
    holds of cut ones. *)

From S2P Require Import Prelude Float64 Prog Config Balancer Http Errors Router Health.
From S2P Require Import RetryBudget RateLimiter Metrics State Trace Proxy Middleware RetryPolicy.
From S2P Require Import PolicyFacts ProxySpec Sample ProxyFacts HeaderFacts MiddlewareFacts.
From S2P Require Import Connections Total.
Local Open Scope Z_scope.

Section cut.
Context `{HyperLaws, Platform} (cfg : Config) (arc : RouterArc).
Hypothesis Husable : usable_config cfg.
Hypothesis Harc : the_router arc = build_router cfg.

(** A history of router generations in which [arc] is one. *)
Definition history : list Router := replicate (S (generation arc)) (the_router arc).

Lemma served_known X (e : sysE X) x : sys_ok (served cfg arc) X e x → sys_ok (known history) X e x.
Proof.
  destruct e; simpl; try done; [by intros ->|intros ->]. split.
  - apply lookup_replicate. split; [done|lia].
  - rewrite Harc. by apply build_router_ok.
Qed.

(** Every effect a request performs can be answered. *)
Lemma served_answers X (e : sysE X) : enabled history X e → ∃ x, sys_ok (served cfg arc) X e x.
Proof.
  destruct e as [| |hi| | | | |g i X e| | | | | |X e| |X a|d X a]; simpl; intros He; try by eexists.
  - by exists 0.
  - by exists ""%string.
  - destruct e; by exists 0.
  - by exists true.
  - by exists true.
  - destruct e; [by exists true|by exists 0|by exists tt|by exists true].
  - destruct a; [by exists None|by exists tt|by exists CallFailed|by exists None].
  - by exists None.
Qed.

Lemma served_snapshot X (e : sysE X) x :
  sys_ok (served cfg arc) X e x → sys_ok (snapshot cfg (build_router cfg)) X e x.
Proof. destruct e; simpl; try done. by intros ->. Qed.

(** A cut run can be completed. *)
Lemma cut_completes req tr q : steps (sys_ok (served cfg arc)) (proxy_request req) tr q →
  ∃ tr' res, completes cfg (build_router cfg) req (tr ++ tr') res.
Proof.
  intros Hs.
  assert (no_panic (sys_ok (known history)) (enabled history) q (λ _, True)) as Hq.
  { eapply no_panic_steps; [apply proxy_request_total|]. eapply steps_weaken; [|exact Hs].
    apply served_known. }
  destruct (no_panic_extends _ _ (sys_ok (served cfg arc)) q _ served_answers served_known Hq)
    as (tr' & res & Hrest).
  exists tr', res. split.
  - apply built_router_routes. destruct Husable as [Hr _]. eapply Forall_impl; [exact Hr|].
    by intros rc (_ & ? & _ & ?).
  - eapply steps_weaken; [apply served_snapshot|]. by eapply steps_app.
Qed.

(** The overall timeout does not loosen the limits: whether a request
    finishes or is cut, its upstream calls are at most [max_retries + 1], each at
    another upstream of its route, in the order that starts at the balancer's
    choice; and none is made for a request no route matches. *)
Theorem cut_requests_bounded (timeout : Duration) (req : Request) (tr : list (obs sysE)) (resp : Response) :
  steps (sys_ok (served cfg arc)) (request_timeout timeout proxy_service req) tr (Ret resp) →
  calls_within cfg (build_router cfg) req (calls (events tr)).
Proof.
  intros Hs. apply request_timeout_steps in Hs as (tr1 & p & Hs & [-> _] & _).
  assert (∃ q, steps (sys_ok (served cfg arc)) (proxy_request req) tr1 q) as [q Hq].
  { apply steps_bind_inv in Hs as [(q & Hq & _)|(a & tr2 & tr3 & -> & Hq & Hret)]; [by exists q|].
    apply steps_ret_inv in Hret as [-> _]. exists (Ret a). by rewrite app_nil_r. }
  destruct (cut_completes req tr1 q Hq) as (tr2 & res & Hc). destruct Husable as [_ (_ & Hmax & _)].
  apply completed_calls_within in Hc; [|done]. rewrite events_app, calls_app in Hc.
  by eapply calls_within_prefix.
Qed.
End cut.

(** ** Witnesses *)

Lemma sample_usable : usable_config sample_config.
Proof.
  split.
  - constructor; [|constructor]. split_and!; try done.
  - split_and!; try done. by left.
Qed.

Lemma cut_requests_bounded_witness :
  calls_within sample_config sample_router sample_request (calls (events (late_trace ++ [late_obs]))).
Proof.
  exact (cut_requests_bounded sample_config sample_arc sample_usable eq_refl (from_secs 30) sample_request
    (late_trace ++ [late_obs]) late_response late_steps).
Defined.
