(* ===== verification/System.v ===== *)
(** System: the proxy as a pool of concurrent tasks.

    A task is a program with the trace of what it did.  One step of the system
    lets one task perform one atomic effect on the shared state, drops a task at
    a wait (a client that disconnects, a drained server), or spawns a request, a
    reload or a health checker.  Every interleaving of the tasks is a sequence
    of steps. *)

From S2P Require Import Prelude Float64 Prog Config Balancer Http Errors Router Health.
From S2P Require Import RetryBudget RateLimiter Metrics State Trace Proxy Middleware RetryPolicy.
From S2P Require Import PolicyFacts ProxySpec Sample HeaderFacts Reload HealthCheck Total.
Local Open Scope Z_scope.

Section system.
Context `{Hyper, Platform}.
(** The overall timeout the server was started with, and the order in which
    the health checker's set is iterated. *)
Context (overall_timeout : Duration) (iterate : list string → list string).

(** What a task was spawned for. *)
Inductive origin :=
| ForRequest (ip : IpAddr) (req : Request)
| ForReload (cfg : Config)
| ForChecker (rounds : nat).

(** A task: what it was spawned for, what is left of it, what it did, and
    whether it still runs. *)
Inductive task :=
| Task (A : Type) (og : origin) (p : prog sysE A) (tr : list (obs sysE)) (live : bool).

Definition task_origin (t : task) : origin := match t with Task _ og _ _ _ => og end.
Definition task_trace (t : task) : list (obs sysE) := match t with Task _ _ _ tr _ => tr end.

Arguments Task {A} og p tr live.

(** What may be spawned. *)
Inductive spawnable : task → Prop :=
| spawn_request ip req : spawnable (Task (ForRequest ip req) (connection_service overall_timeout ip req) [] true)
| spawn_reload cfg : usable_config cfg → spawnable (Task (ForReload cfg) (apply_config cfg) [] true)
| spawn_checker n : spawnable (Task (ForChecker n) (spawn_active_health_checker iterate n) [] true).

Definition is_wait {X} (e : sysE X) : Prop :=
  match e with Await _ | AwaitBy _ _ => True | _ => False end.

Inductive sys_step : AppState * list task → AppState * list task → Prop :=
| step_effect l1 l2 A og X (e : sysE X) (k : X → prog sysE A) tr o s s' x :
    oracle_ok s o → handle o X e s = (s', Value x) →
    sys_step (s, l1 ++ Task og (Vis e k) tr true :: l2)
             (s', l1 ++ Task og (k x) (tr ++ [Obs e x]) true :: l2)
| step_panic l1 l2 A og X (e : sysE X) (k : X → prog sysE A) tr o s s' :
    oracle_ok s o → handle o X e s = (s', Panicked) →
    sys_step (s, l1 ++ Task og (Vis e k) tr true :: l2) (s', l1 ++ Task og (@Panic sysE A) tr true :: l2)
| step_drop l1 l2 A og X (e : sysE X) (k : X → prog sysE A) tr s :
    is_wait e →
    sys_step (s, l1 ++ Task og (Vis e k) tr true :: l2) (s, l1 ++ Task og (Vis e k) tr false :: l2)
| step_spawn l t s : spawnable t → sys_step (s, l) (s, l ++ [t]).

Definition reachable (s0 : AppState) : AppState * list task → Prop := rtc sys_step (s0, []).
End system.
Arguments origin {_}.
Arguments Task {_ A} og p tr live.

(** ** Nothing panics under any interleaving *)
Section safety.
Context `{HyperLaws, Platform} (overall_timeout : Duration) (iterate : list string → list string).

Definition task_total (G : list Router) (t : task) : Prop :=
  match t with Task _ p _ _ => no_panic (sys_ok (known G)) (enabled G) p (λ _, True) end.

(** The invariant of the system: the tasks are total for every history of
    router generations that extends the present one. *)
Definition system_ok (c : AppState * list task) : Prop :=
  state_ok c.1 ∧ ∀ G, routers c.1 `prefix_of` G → Forall (task_total G) c.2.

Lemma checker_total G n : no_panic (sys_ok (known G)) (enabled G)
  (spawn_active_health_checker iterate n) (λ _, True).
Proof.
  unfold spawn_active_health_checker, run_health_check_loop.
  apply no_panic_bind, total_trigger; [done|]. intros cfg _.
  destruct (health_check (server cfg)) as [hc|]; [|exact I].
  apply no_panic_bind, total_trigger; [done|]. intros cfg' _. generalize (iterate (all_upstreams cfg')) as us. intros us.
  induction n as [|n IH]; cbn [health_check_rounds]; [exact I|].
  apply no_panic_bind, total_trigger; [done|]. intros _ _.
  apply no_panic_bind. eapply no_panic_mono with (Ψ := λ _, True); [|intros _ _; exact IH].
  clear IH. induction us as [|u us IH]; cbn [probe_all]; [exact I|].
  apply no_panic_bind. unfold probe. apply no_panic_bind, total_trigger; [done|]. intros answer _.
  destruct (probe_ok answer); apply total_trigger; try done; intros _ _; exact IH.
Qed.

Lemma spawnable_total G t : spawnable overall_timeout iterate t → task_total G t.
Proof.
  intros [ip req|cfg Hcfg|n]; simpl.
  - apply connection_service_total.
  - split; [by apply build_router_ok|]. intros _ _. split; [exact Hcfg|]. intros _ _. exact I.
  - apply checker_total.
Qed.

Lemma effect_enabled l1 l2 A og X (e : sysE X) (k : X → prog sysE A) tr live s :
  system_ok (s, l1 ++ Task og (Vis e k) tr live :: l2) → enabled (routers s) X e.
Proof.
  intros [_ Hall]. specialize (Hall (routers s) (PreOrder_Reflexive _)). simpl in Hall.
  by apply Forall_app in Hall as [_ [[He _] _]%Forall_cons].
Qed.

Lemma step_preserves c c' : sys_step overall_timeout iterate c c' → system_ok c → system_ok c'.
Proof.
  intros Hstep Hok. destruct Hstep as
    [l1 l2 A og X e k tr o s s' x Ho Hh|l1 l2 A og X e k tr o s s' Ho Hh|l1 l2 A og X e k tr s Hw|l t s Ht].
  - pose proof (effect_enabled _ _ _ _ _ _ _ _ _ _ Hok) as He. destruct Hok as [Hs Hall].
    destruct (handle_serves X e o s Hs Ho He) as (s1 & x1 & Heq & Hx & Hs1 & _ & Hr).
    rewrite Hh in Heq. simplify_eq. split; [done|]. simpl in *. intros G HG.
    assert (routers s `prefix_of` G) as HG'.
    { etrans; [|exact HG]. rewrite Hr. destruct e; try done. by eexists. }
    specialize (Hall G HG'). apply Forall_app in Hall as [Hl1 [[_ Hk] Hl2]%Forall_cons].
    apply Forall_app. split; [done|]. constructor; [|done]. simpl. apply Hk.
    by eapply known_mono.
  - pose proof (effect_enabled _ _ _ _ _ _ _ _ _ _ Hok) as He. destruct Hok as [Hs _].
    destruct (handle_serves X e o s Hs Ho He) as (s1 & x1 & Heq & _). congruence.
  - destruct Hok as [Hs Hall]. split; [done|]. simpl in *. intros G HG. specialize (Hall G HG).
    apply Forall_app in Hall as [? [Ht ?]%Forall_cons]. apply Forall_app. split; [done|].
    by constructor.
  - destruct Hok as [Hs Hall]. split; [done|]. simpl in *. intros G HG. apply Forall_app.
    split; [by apply Hall|]. constructor; [|done]. by apply spawnable_total.
Qed.

Lemma reachable_ok s0 c : state_ok s0 → reachable overall_timeout iterate s0 c → system_ok c.
Proof.
  intros Hs0 Hr. assert (system_ok (s0, [])) as Hok by (split; [done|constructor]).
  induction Hr as [|c1 c2 c3 Hstep Hr IH]; [done|]. by apply IH, (step_preserves c1).
Qed.

(** C2. Safety of the whole system: from a good state, under every interleaving
    of any requests, reloads to usable configurations and health checks, with
    tasks dropped at any wait, the shared state stays good, no task panics,
    and every running task can take its next step.  Asked of the environment,
    throughout and of that step: clock readings that lie at least five minutes and
    the retry budget's window after the clock's origin, and random numbers in the
    range asked for. *)
Theorem system_safe (s0 s : AppState) (pool : list task) :
  state_ok s0 → reachable overall_timeout iterate s0 (s, pool) →
  state_ok s ∧
  ∀ t, t ∈ pool → match t with
    | Task _ (Vis e k) _ _ => ∀ o, oracle_ok s o → ∃ s' x, handle o _ e s = (s', Value x)
    | Task _ Panic _ _ => False
    | Task _ (Ret _) _ _ => True
    end.
Proof.
  intros Hs0 Hr. destruct (reachable_ok s0 _ Hs0 Hr) as [Hs Hall]. split; [done|].
  intros t Ht. specialize (Hall (routers s) (PreOrder_Reflexive _)). simpl in Hall.
  rewrite Forall_forall in Hall. specialize (Hall t Ht). destruct t as [A og [a| |X e k] tr live]; try done.
  intros o Ho. destruct Hall as [He _].
  destruct (handle_serves X e o s Hs Ho He) as (s' & x & Heq & _). by exists s', x.
Qed.

(** C7. A request alone always returns a response: whatever its headers, body,
    path, upstreams' answers and waits, from a good state, and leaves a good
    state, where the clock reaches back far enough ([oracle_ok]). *)
Theorem request_returns (ip : IpAddr) (req : Request) (os : nat → Oracle) (s : AppState) :
  state_ok s → (∀ n, oracle_ok s (os n)) →
  ∃ s' resp, run_sys os (connection_service overall_timeout ip req) s = (s', Value resp) ∧ state_ok s'.
Proof.
  assert (∀ A (p : prog sysE A) os s, state_ok s → (∀ n, oracle_ok s (os n)) →
    (∀ G, routers s `prefix_of` G → task_total G (Task (ForRequest ip req) p [] true)) →
    ∃ s' a, run_sys os p s = (s', Value a) ∧ state_ok s') as Hgen.
  { intros A p. induction p as [a| |X e k IH]; intros os' s' Hs Hos Hp; cbn [run_sys].
    - by exists s', a.
    - destruct (Hp (routers s') (PreOrder_Reflexive _)).
    - destruct (Hp (routers s') (PreOrder_Reflexive _)) as [He _].
      destruct (handle_serves X e (os' O) s' Hs (Hos O) He) as (s1 & x & -> & Hx & Hs1 & Hw & Hr).
      apply IH; [done| |].
      + intros n. unfold oracle_ok. rewrite Hw. apply Hos.
      + intros G HG. assert (routers s' `prefix_of` G) as HG'.
        { etrans; [|exact HG]. rewrite Hr. destruct e; try done. by eexists. }
        destruct (Hp G HG') as [_ Hk]. apply Hk. by eapply known_mono. }
  intros Hs Hos. apply Hgen; [done|done|]. intros G _. apply connection_service_total.
Qed.
End safety.

(** ** What the counters count *)
Section accounting.
Context `{HyperLaws, Platform} (overall_timeout : Duration) (iterate : list string → list string).

Definition pool_delta (g i : nat) (j : Z) (pool : list task) : Z :=
  foldr (λ t n, total_delta g i j (task_trace t) + n) 0 pool.

Lemma pool_delta_app g i j l1 l2 :
  pool_delta g i j (l1 ++ l2) = pool_delta g i j l1 + pool_delta g i j l2.
Proof. induction l1 as [|t l1 IH]; simpl; [done|]. rewrite IH. lia. Qed.

(** Cells belong to stored generations and hold the sums [d]. *)
Definition sums (d : nat → nat → Z → Z) (s : AppState) : Prop :=
  (∀ g i cs, cells s !! (g, i) = Some cs → (g < length (routers s))%nat) ∧
  (∀ g i j, (length (routers s) ≤ g)%nat → d g i j = 0) ∧
  ∀ g i cs j v, cells s !! (g, i) = Some cs → 0 ≤ j → cs !! Z.to_nat j = Some v → v = wrap 64 (d g i j).

(** They hold what the tasks added to them. *)
Definition accounted (c : AppState * list task) : Prop := sums (λ g i j, pool_delta g i j c.2) c.1.

Lemma sums_ext d d' s s' : sums d s → cells s' = cells s → routers s' = routers s →
  (∀ g i j, d' g i j = d g i j) → sums d' s'.
Proof. intros Hd Hc Hr Hd'. unfold sums. rewrite Hc, Hr. by setoid_rewrite Hd'. Qed.

Lemma handle_bal_delta gen route X (e : balE X) c c' x j v' :
  handle_bal X e c = (c', Value x) →
  match e with Load k | FetchAdd k _ | FetchSub k _ => 0 ≤ k end → 0 ≤ j →
  c' !! Z.to_nat j = Some v' →
  ∃ v, c !! Z.to_nat j = Some v ∧
    (v' = v ∧ delta gen route j (Obs (@Balance _ gen route X e) x) = 0 ∨
     v' = wrap 64 (v + delta gen route j (Obs (@Balance _ gen route X e) x))).
Proof.
  assert (∀ k (f : Z → Z) w, c !! Z.to_nat k = Some w → 0 ≤ k → 0 ≤ j →
    <[Z.to_nat k := f w]> c !! Z.to_nat j = Some v' →
    ∃ v, c !! Z.to_nat j = Some v ∧ (k = j ∧ v' = f v ∨ k ≠ j ∧ v' = v)) as Hswap.
  { intros k f w Hk Hk0 Hj0. pose proof (lookup_lt_Some _ _ _ Hk). destruct (decide (k = j)) as [->|Hne].
    - rewrite list_lookup_insert_eq by done. intros [= <-]. eauto.
    - rewrite list_lookup_insert_ne by lia. eauto. }
  destruct e as [k|k n|k n]; simpl; unfold swap_cell; destruct (c !! Z.to_nat k) as [w|] eqn:Hk;
    intros Heq Hpos Hj Hv'; simplify_eq.
  - destruct (Hswap k id x Hk Hpos Hj Hv') as (v & Hv & Hcase). exists v. split; [done|left].
    by destruct Hcase as [[_ ->]|[_ ->]].
  - destruct (Hswap k (λ v, wrap 64 (v + n)) x Hk Hpos Hj Hv') as (v & Hv & Hcase).
    exists v. split; [done|].
    destruct Hcase as [[-> ->]|[Hne ->]]; [right; by rewrite decide_True|left].
    by rewrite decide_False by congruence.
  - destruct (Hswap k (λ v, wrap 64 (v - n)) x Hk Hpos Hj Hv') as (v & Hv & Hcase).
    exists v. split; [done|].
    destruct Hcase as [[-> ->]|[Hne ->]]; [right; by rewrite decide_True|left].
    by rewrite decide_False by congruence.
Qed.


(** What an effect does to the counters. *)
Lemma handle_cells o X (e : sysE X) s s' x : handle o X e s = (s', Value x) →
  match e in sysE X return X → Prop with
  | @Balance _ gen route _ b => λ x, ∃ c c', cells s !! (gen, route) = Some c ∧
      handle_bal _ b c = (c', Value x) ∧ cells s' = <[(gen, route) := c']> (cells s) ∧
      routers s' = routers s
  | StoreRouter r => λ _, s' = store_router s r
  | e => λ x, cells s' = cells s ∧ routers s' = routers s ∧ ∀ g i j, delta g i j (Obs e x) = 0
  end x.
Proof.
  destruct e; cbn [handle]; unfold zoom; intros Heq; simplify_eq/=; try done.
  destruct (cells s !! (gen, route)) as [c|] eqn:Hc; [|done].
  destruct (handle_bal X e c) as [c' r] eqn:Hb. simpl in Heq. injection Heq as <- ->.
  by exists c, c'.
Qed.

Lemma pool_delta_update g i j l1 l2 A og (p q : prog sysE A) tr o live :
  pool_delta g i j (l1 ++ Task og q (tr ++ [o]) live :: l2)
  = pool_delta g i j (l1 ++ Task og p tr live :: l2) + delta g i j o.
Proof. rewrite !pool_delta_app. simpl. rewrite total_delta_app. simpl. lia. Qed.

Lemma sums_store d s r : sums d s → sums d (store_router s r).
Proof.
  intros (Hdom & Hnew & Hval). unfold sums. simpl. rewrite length_app. simpl. split_and!.
  - intros g i cs. rewrite lookup_union, fresh_cells_lookup. case_decide; [lia|].
    rewrite (left_id_L None _). intros Hg. apply Hdom in Hg. lia.
  - intros g i j Hg. apply Hnew. lia.
  - intros g i cs j v. rewrite lookup_union, fresh_cells_lookup.
    case_decide as Hg; [|rewrite (left_id_L None _); by apply Hval].
    subst g. rewrite Hnew by lia. destruct (router_routes r !! i) as [route|]; simpl.
    + intros Hcs _ Hv. assert (cs = init_cells (balancer route)) as ->
        by (destruct (cells s !! _); by injection Hcs).
      by apply lookup_replicate in Hv as [-> _].
    + rewrite (left_id_L None _). intros Hcs%Hdom. lia.
Qed.

Lemma delta_elsewhere g i j gen route X (e : balE X) x :
  (g, i) ≠ (gen, route) → delta g i j (Obs (@Balance _ gen route X e) x) = 0.
Proof. intros Hne. destruct e; simpl; rewrite ?decide_False by (intros [= ? ? ?]; subst; done); done. Qed.

Lemma sums_balance d s s' gen route X (e : balE X) x c c' :
  sums d s → cells s !! (gen, route) = Some c → handle_bal X e c = (c', Value x) →
  match e with Load k | FetchAdd k _ | FetchSub k _ => 0 ≤ k end →
  cells s' = <[(gen, route) := c']> (cells s) → routers s' = routers s →
  sums (λ g i j, d g i j + delta g i j (Obs (@Balance _ gen route X e) x)) s'.
Proof.
  intros (Hdom & Hnew & Hval) Hcell Hb Hpos Hcells Hr. unfold sums. rewrite Hcells, Hr. split_and!.
  - intros g i cs. destruct (decide ((g, i) = (gen, route))) as [[= -> ->]|Hne].
    + intros _. by eapply Hdom.
    + rewrite lookup_insert_ne by congruence. apply Hdom.
  - intros g i j Hg. pose proof (Hdom _ _ _ Hcell).
    rewrite Hnew, delta_elsewhere by (done || intros [= -> ->]; lia). done.
  - intros g i cs j v. destruct (decide ((g, i) = (gen, route))) as [[= -> ->]|Hne].
    + rewrite lookup_insert_eq. intros [= <-] Hj Hv.
      destruct (handle_bal_delta gen route X e c c' x j v Hb Hpos Hj Hv) as (w & Hw & Hcase).
      rewrite (Hval _ _ _ _ _ Hcell Hj Hw) in Hcase.
      destruct Hcase as [[-> ->]| ->]; [by rewrite Z.add_0_r|apply wrap_add_l].
    + rewrite lookup_insert_ne, delta_elsewhere, Z.add_0_r by congruence. by apply Hval.
Qed.

Lemma effect_accounted l1 l2 A og X (e : sysE X) (k : X → prog sysE A) tr o s s' x :
  enabled (routers s) X e → handle o X e s = (s', Value x) →
  accounted (s, l1 ++ Task og (Vis e k) tr true :: l2) →
  accounted (s', l1 ++ Task og (k x) (tr ++ [Obs e x]) true :: l2).
Proof.
  intros He Hh Hacc. pose proof (handle_cells _ _ _ _ _ _ Hh) as Hc. unfold accounted in *. cbn [fst snd] in *.
  assert (∀ d, sums d s → sums (λ g i j, d g i j + delta g i j (Obs e x)) s') as Hsum.
  2: { eapply sums_ext; [by apply Hsum, Hacc|done..|]. intros g i j. apply pool_delta_update. }
  intros d Hd.
  destruct e; try (destruct Hc as (? & ? & Hz); eapply sums_ext; [done..|]; intros; rewrite Hz; lia).
  - subst s'. eapply sums_ext; [by apply sums_store|done..|]. intros. simpl. lia.
  - destruct Hc as (c & c' & Hcell & Hb & Hcells & Hr). destruct He as (r & rt & _ & _ & _ & He).
    eapply sums_balance; try done. destruct e; exact (proj1 He).
Qed.

Lemma step_accounted c c' : sys_step overall_timeout iterate c c' →
  system_ok c → accounted c → accounted c'.
Proof.
  intros Hstep Hok Hacc. destruct Hstep as
    [l1 l2 A og X e k tr o s s' x Ho Hh|l1 l2 A og X e k tr o s s' Ho Hh|l1 l2 A og X e k tr s Hw|l t s Ht].
  - eapply effect_accounted; [by eapply effect_enabled|done|done].
  - pose proof (effect_enabled _ _ _ _ _ _ _ _ _ _ Hok) as He. destruct Hok as [Hs _].
    destruct (handle_serves X e o s Hs Ho He) as (s1 & x1 & Heq & _). congruence.
  - eapply sums_ext; [exact Hacc|done..|]. intros. simpl. by rewrite !pool_delta_app.
  - eapply sums_ext; [exact Hacc|done..|]. intros. simpl. rewrite pool_delta_app. destruct Ht; simpl; lia.
Qed.

(** All counters of the stored generations are zero. *)
Definition idle_counters (s : AppState) : Prop :=
  ∀ g i cs, cells s !! (g, i) = Some cs → (g < length (routers s))%nat ∧ Forall (λ v, v = 0) cs.

(** The balancers' counters are exactly what the tasks did to them: under
    every interleaving, each counter is, modulo [2^64], the sum over all tasks,
    finished and dropped ones included, of their increments less their
    decrements. *)
Lemma counters_sum (s0 s : AppState) (pool : list task) (g i : nat) (cs : list Z)
    (j v : Z) :
  state_ok s0 → idle_counters s0 → reachable overall_timeout iterate s0 (s, pool) →
  cells s !! (g, i) = Some cs → 0 ≤ j → cs !! Z.to_nat j = Some v →
  v = wrap 64 (pool_delta g i j pool).
Proof.
  intros Hs0 Hidle Hr Hg Hj Hv.
  assert (accounted (s0, [])) as Hacc.
  { split_and!; simpl; [intros ? ? ? Hc; by apply Hidle in Hc as [? _]|done|].
    intros g' i' cs' j' v' Hc _ Hv'. apply Hidle in Hc as [_ Hz].
    by eapply Forall_lookup_1 in Hz as ->. }
  assert (∀ c c', rtc (sys_step overall_timeout iterate) c c' → system_ok c → accounted c → accounted c')
    as Hrtc.
  { induction 1 as [|c1 c2 c3 Hstep _ IH]; [done|]. intros Hok Hac.
    apply IH; [by eapply step_preserves|by eapply step_accounted]. }
  assert (system_ok (s0, [])) as Hok by (split; [done|constructor]).
  destruct (Hrtc _ _ Hr Hok Hacc) as (_ & _ & Hval). by eapply Hval.
Qed.
End accounting.
