(* ===== verification/Tasks.v ===== *)
(** Tasks: invariants of the tasks of a reachable pool.

    A property of a task that holds when it is spawned and is kept by every step
    the task makes with answers it may get holds of every task of every
    reachable pool.  The answers are those of a system in which only the
    configurations [C] were ever current and [G] are the router generations. *)

From S2P Require Import Prelude Float64 Prog Config Balancer Http Errors Router Health.
From S2P Require Import RetryBudget RateLimiter Metrics State Trace Proxy Middleware RetryPolicy.
From S2P Require Import PolicyFacts ProxySpec Sample HeaderFacts Reload HealthCheck Total System.
Local Open Scope Z_scope.

Section tasks.
Context `{HyperLaws, Platform} (overall_timeout : Duration) (iterate : list string → list string).

(** The configurations a task stored. *)
Definition stored (o : obs sysE) : option Config :=
  match o with @Obs _ _ e _ => match e with StoreConfig c => Some c | _ => None end end.

Definition task_stored (t : task) : list Config := omap stored (task_trace t).

(** The configurations that were ever current: the first, and those stored. *)
Definition configs_of (s0 : AppState) (pool : list task) : list Config :=
  config s0 :: (pool ≫= task_stored).

Lemma configs_of_step s0 l1 l2 A og (p q : prog sysE A) tr o live live' cfg :
  cfg ∈ configs_of s0 (l1 ++ Task og q (tr ++ [o]) live' :: l2) ↔
  cfg ∈ configs_of s0 (l1 ++ Task og p tr live :: l2) ∨ stored o = Some cfg.
Proof.
  unfold configs_of. rewrite !elem_of_cons, !bind_app, !bind_cons, !elem_of_app.
  unfold task_stored at 2 5. simpl. rewrite omap_app, elem_of_app. simpl.
  destruct (stored o) as [c|]; simpl.
  - rewrite list_elem_of_singleton. split; [|intros [|[= ->]]; tauto]. intuition congruence.
  - rewrite elem_of_nil. split; [tauto|]. intros [|[=]]; tauto.
Qed.

Lemma handle_seen o X (e : sysE X) s s' x C G : handle o X e s = (s', Value x) →
  config s ∈ C → sys_ok (known G) X e x → sys_ok (seen C G) X e x.
Proof. destruct e; cbn [handle]; try done. by intros [= _ <-] HC _. Qed.

Section invariant.
Context (P : list Config → list Router → task → Prop).
Context (Pspawn : ∀ C G t, Forall usable_config C → spawnable overall_timeout iterate t → P C G t).
Context (Pstep : ∀ C G A og X (e : sysE X) (k : X → prog sysE A) x tr,
  Forall usable_config C → sys_ok (seen C G) X e x →
  P C G (Task og (Vis e k) tr true) → P C G (Task og (k x) (tr ++ [Obs e x]) true)).
Context (Pdrop : ∀ C G A og (p : prog sysE A) tr, P C G (Task og p tr true) → P C G (Task og p tr false)).

Definition tasks_ok (s0 : AppState) (c : AppState * list task) : Prop :=
  Forall usable_config (configs_of s0 c.2) ∧ config c.1 ∈ configs_of s0 c.2 ∧
  ∀ C G, configs_of s0 c.2 ⊆ C → Forall usable_config C → routers c.1 `prefix_of` G → Forall (P C G) c.2.

Lemma step_tasks s0 c c' : sys_step overall_timeout iterate c c' →
  system_ok c → tasks_ok s0 c → tasks_ok s0 c'.
Proof.
  intros Hstep Hok (Husable & Hcur & Hall). destruct Hstep as
    [l1 l2 A og X e k tr o s s' x Ho Hh|l1 l2 A og X e k tr o s s' Ho Hh|l1 l2 A og X e k tr s Hw|l t s Ht];
    simpl in *.
  - pose proof (effect_enabled _ _ _ _ _ _ _ _ _ _ Hok) as He. destruct Hok as [Hs _].
    destruct (handle_serves X e o s Hs Ho He) as (s1 & x1 & Heq & Hx & _ & _ & Hr).
    rewrite Hh in Heq. simplify_eq.
    pose proof (λ cfg, configs_of_step s0 l1 l2 A og (Vis e k) (k x1) tr (Obs e x1) true true cfg) as Hconf.
    split; [|split]; simpl.
    + rewrite Forall_forall in Husable |- *. intros cfg [Hc|Hc]%Hconf; [by apply Husable|].
      simpl in Hc. destruct e; simplify_eq. exact He.
    + rewrite Hconf, (handle_config _ _ _ _ _ _ Hh). destruct e; try (by left). by right.
    + intros C G HC HCu HG.
      assert (routers s `prefix_of` G) as HG'.
      { etrans; [|exact HG]. rewrite Hr. destruct e; try done. by eexists. }
      assert (configs_of s0 (l1 ++ Task og (Vis e k) tr true :: l2) ⊆ C) as HC'.
      { intros cfg Hcfg. apply HC, Hconf. by left. }
      specialize (Hall C G HC' HCu HG'). apply Forall_app in Hall as [Hl1 [Ht Hl2]%Forall_cons].
      apply Forall_app. split; [done|]. constructor; [|done].
      apply Pstep; [done| |done]. eapply handle_seen; [done|by apply HC'|]. by eapply known_mono.
  - pose proof (effect_enabled _ _ _ _ _ _ _ _ _ _ Hok) as He. destruct Hok as [Hs _].
    destruct (handle_serves X e o s Hs Ho He) as (s1 & x1 & Heq & _). congruence.
  - assert (configs_of s0 (l1 ++ Task og (Vis e k) tr false :: l2)
            = configs_of s0 (l1 ++ Task og (Vis e k) tr true :: l2)) as Hconf
      by (unfold configs_of; by rewrite !bind_app).
    unfold tasks_ok. simpl. rewrite Hconf. split_and!; [done|done|]. intros C G HC HCu HG.
    specialize (Hall C G HC HCu HG). apply Forall_app in Hall as [Hl1 [Hp Hl2]%Forall_cons].
    apply Forall_app. split; [done|]. constructor; [by apply Pdrop|done].
  - assert (configs_of s0 (l ++ [t]) = configs_of s0 l) as Hconf.
    { unfold configs_of. rewrite bind_app. destruct Ht; simpl; by rewrite app_nil_r. }
    unfold tasks_ok. simpl. rewrite Hconf. split_and!; [done|done|]. intros C G HC HCu HG.
    apply Forall_app. split; [by apply Hall|]. constructor; [|done]. by apply Pspawn.
Qed.

Lemma reachable_tasks_ok s0 c : state_ok s0 → reachable overall_timeout iterate s0 c → tasks_ok s0 c.
Proof.
  intros Hs0 Hr.
  assert (∀ c c', rtc (sys_step overall_timeout iterate) c c' →
    system_ok c → tasks_ok s0 c → tasks_ok s0 c') as Hrtc.
  { induction 1 as [|c1 c2 c3 Hstep _ IH]; [done|]. intros Hok Hsl.
    apply IH; [by eapply step_preserves|by eapply step_tasks]. }
  apply (Hrtc _ _ Hr); [by split; [|constructor]|].
  destruct Hs0 as (_ & _ & Hu). split_and!; simpl.
  - constructor; [done|]. apply Forall_nil_2.
  - by left.
  - intros. apply Forall_nil_2.
Qed.

(** Every task of a reachable pool, for the configurations that were ever
    current and the router generations stored so far. *)
Lemma reachable_tasks s0 s pool : state_ok s0 → reachable overall_timeout iterate s0 (s, pool) →
  Forall usable_config (configs_of s0 pool) ∧ Forall (P (configs_of s0 pool) (routers s)) pool.
Proof.
  intros Hs0 Hr. destruct (reachable_tasks_ok s0 _ Hs0 Hr) as (Hu & _ & Hall).
  split; [exact Hu|]. by apply Hall.
Qed.
End invariant.
End tasks.
