(* ===== verification/History.v ===== *)
(** History: the running system as one sequence of operations.

    Every reachable state is the result of performing, one after the other, the
    effects of its tasks in some order in which each task's effects come as in
    its trace.  What the component files prove of histories of calls on one
    tracker or one budget thereby holds of the calls of concurrent requests. *)

From S2P Require Import Prelude Float64 Prog Config Balancer Http Errors Router Health Breaker.
From S2P Require Import RetryBudget RateLimiter Metrics State Trace Proxy Middleware RetryPolicy.
From S2P Require Import Sample HeaderFacts Reload HealthCheck Total System Tasks.
Local Open Scope Z_scope.

Section history.
Context `{HyperLaws, Platform} (overall_timeout : Duration) (iterate : list string → list string).

(** An effect with its answer, the task that performed it, and what came from
    outside. *)
Record entry := mk_entry { who : nat; outside : Oracle; what : obs sysE }.

(** Performing a history from one state gives another. *)
Fixpoint replays (s : AppState) (h : list entry) (s' : AppState) : Prop :=
  match h with
  | [] => s' = s
  | en :: h' =>
      match what en with
      | @Obs _ X e x => ∃ s1, handle (outside en) X e s = (s1, Value x) ∧ replays s1 h' s'
      end
  end.

Lemma replays_app s s2 h1 h2 : replays s (h1 ++ h2) s2 ↔ ∃ s1, replays s h1 s1 ∧ replays s1 h2 s2.
Proof.
  revert s. induction h1 as [|[i o [X e x]] h1 IH]; intros s; simpl.
  - split; [by exists s|by intros (? & -> & ?)].
  - setoid_rewrite IH. split.
    + intros (s1 & Hh & s3 & Hr1 & Hr2). exists s3. split; [by exists s1|done].
    + intros (s3 & (s1 & Hh & Hr1) & Hr2). exists s1. split; [done|by exists s3].
Qed.

(** The effects of one task. *)
Definition of_task (i : nat) (h : list entry) : list (obs sysE) := what <$> filter (λ en, who en = i) h.

Lemma of_task_snoc i h j o ob :
  of_task i (h ++ [mk_entry j o ob]) = of_task i h ++ (if decide (j = i) then [ob] else []).
Proof. unfold of_task. rewrite filter_app, fmap_app. f_equal. rewrite filter_cons. simpl. by case_decide. Qed.

Record is_history (s0 : AppState) (c : AppState * list task) (h : list entry) : Prop := {
  hist_replays : replays s0 h c.1;
  hist_outside : Forall (λ en, oracle_ok s0 (outside en)) h;
  hist_task i t : c.2 !! i = Some t → task_trace t = of_task i h;
  hist_who : Forall (λ en, (who en < length c.2)%nat) h;
  hist_all : what <$> h ≡ₚ c.2 ≫= task_trace;
}.

Lemma of_task_fresh i h : Forall (λ en, (who en < i)%nat) h → of_task i h = [].
Proof.
  intros Hh. unfold of_task. induction Hh as [|en h Hen _ IH]; [done|]. rewrite filter_cons.
  by rewrite decide_False by lia.
Qed.

(** The window of the budget, and so what is asked of the clock, never changes. *)
Lemma window_step c c' : sys_step overall_timeout iterate c c' → system_ok c →
  window (retry_budget c'.1) = window (retry_budget c.1).
Proof.
  intros Hstep Hok. destruct Hstep as
    [l1 l2 A og X e k tr o s s' x Ho Hh|l1 l2 A og X e k tr o s s' Ho Hh|l1 l2 A og X e k tr s Hw|l t s Ht]; try done.
  all: pose proof (effect_enabled _ _ _ _ _ _ _ _ _ _ Hok) as He; destruct Hok as [Hs _].
  all: destruct (handle_serves X e o s Hs Ho He) as (s1 & x1 & Heq & _ & _ & Hwin & _); simpl; congruence.
Qed.

Lemma history_step s0 c c' h : sys_step overall_timeout iterate c c' → system_ok c →
  window (retry_budget c.1) = window (retry_budget s0) →
  is_history s0 c h → ∃ h', is_history s0 c' h'.
Proof.
  intros Hstep Hok Hwin [Hr Ho Ht Hw Ha]. destruct Hstep as
    [l1 l2 A og X e k tr o s s' x Hox Hh|l1 l2 A og X e k tr o s s' Hox Hh|l1 l2 A og X e k tr s _|l t s Hsp];
    simpl in *.
  - exists (h ++ [mk_entry (length l1) o (Obs e x)]). split; simpl.
    + apply replays_app. exists s. split; [done|]. simpl. by exists s'.
    + apply Forall_app. split; [done|]. constructor; [|done]. simpl. unfold oracle_ok in *. by rewrite <-Hwin.
    + intros i t Hi. rewrite of_task_snoc. destruct (decide (length l1 = i)) as [<-|Hne].
      * rewrite list_lookup_middle in Hi by done. injection Hi as <-. simpl. f_equal.
        apply (Ht (length l1) (Task og (Vis e k) tr true)). by rewrite list_lookup_middle.
      * rewrite app_nil_r. apply Ht. rewrite <-Hi.
        destruct (decide (i < length l1)%nat); [by rewrite !lookup_app_l|].
        rewrite !lookup_app_r by lia. destruct (i - length l1)%nat eqn:Hd; [lia|done].
    + apply Forall_app. rewrite length_app in *. split; [done|]. constructor; [simpl; lia|done].
    + rewrite fmap_app, Ha, !bind_app, !bind_cons. simpl. solve_Permutation.
  - pose proof (effect_enabled _ _ _ _ _ _ _ _ _ _ Hok) as He. destruct Hok as [Hs _].
    destruct (handle_serves X e o s Hs Hox He) as (s1 & x1 & Heq & _). congruence.
  - exists h. split; simpl; try done.
    + intros i t Hi. destruct (decide (length l1 = i)) as [<-|Hne].
      * rewrite list_lookup_middle in Hi by done. injection Hi as <-.
        apply (Ht (length l1) (Task og (Vis e k) tr true)). by rewrite list_lookup_middle.
      * apply Ht. rewrite <-Hi. destruct (decide (i < length l1)%nat); [by rewrite !lookup_app_l|].
        rewrite !lookup_app_r by lia. destruct (i - length l1)%nat eqn:Hd; [lia|done].
    + rewrite length_app in *. done.
    + rewrite Ha, !bind_app. done.
  - exists h. split; simpl; try done.
    + intros i t' Hi. apply lookup_app_Some in Hi as [Hi|[Hlen Hi]]; [by apply Ht|].
      apply list_lookup_singleton_Some in Hi as [Hz <-].
      assert (i = length l) as -> by lia. rewrite of_task_fresh by done. by destruct Hsp.
    + rewrite length_app. eapply Forall_impl; [exact Hw|]. simpl. lia.
    + rewrite Ha, bind_app. destruct Hsp; simpl; by rewrite app_nil_r.
Qed.

Lemma reachable_history (s0 s : AppState) (pool : list task) :
  state_ok s0 → reachable overall_timeout iterate s0 (s, pool) →
  ∃ h, is_history s0 (s, pool) h.
Proof.
  intros Hs0 Hr.
  assert (∀ c c', rtc (sys_step overall_timeout iterate) c c' → system_ok c →
    window (retry_budget c.1) = window (retry_budget s0) →
    ∀ h, is_history s0 c h → ∃ h', is_history s0 c' h') as Hrtc.
  { induction 1 as [|c1 c2 c3 Hstep _ IH]; intros Hok Hwin h Hh; [by exists h|].
    destruct (history_step s0 c1 c2 h Hstep Hok Hwin Hh) as (h2 & Hh2).
    apply (IH (step_preserves _ _ _ _ Hstep Hok)) with h2; [|done].
    by rewrite (window_step c1 c2 Hstep Hok). }
  apply (Hrtc _ _ Hr) with []; [by split; [|constructor]|done|].
  by split; simpl; try constructor.
Qed.

(** Linearisation: every state the running proxy can reach is what one
    sequence of atomic operations makes of the initial one, in which the
    operations of each task are those of its trace, in order, and no others
    occur. *)
Theorem linearizable (s0 s : AppState) (pool : list task) :
  state_ok s0 → reachable overall_timeout iterate s0 (s, pool) →
  ∃ h, is_history s0 (s, pool) h.
Proof. apply reachable_history. Qed.

(** ** The circuit breakers of the running system *)

(** The call on the health tracker an entry is. *)
Definition health_op_of (en : entry) : option health_op :=
  match what en with
  | @Obs _ _ e _ =>
      match e with
      | HealthFailure u => Some (HFailure u (clock (outside en) 0%nat))
      | HealthSuccess u => Some (HSuccess u)
      | HealthCheck u => Some (HCheck u (clock (outside en) 0%nat))
      | _ => None
      end
  end.

Definition health_ops : list entry → list health_op := omap health_op_of.

Lemma handle_health i o X (e : sysE X) s s' x : handle o X e s = (s', Value x) →
  health s' = health_run (health s) (option_list (health_op_of (mk_entry i o (Obs e x)))).
Proof.
  destruct e; cbn [handle]; unfold zoom; intros Heq; try (by simplify_eq/=).
  - destruct (cells s !! (gen, route)); by simplify_eq/=.
  - simplify_eq/=. unfold health_run. simpl. by destruct (record_failure (health s) u _).
  - simplify_eq/=. unfold health_run. simpl. by destruct (record_success (health s) u).
Qed.

Lemma replays_health s h s' : replays s h s' → health s' = health_run (health s) (health_ops h).
Proof.
  revert s. induction h as [|[i o [X e x]] h IH]; intros s; [by intros ->|].
  intros (s1 & Hh & Hr). rewrite (IH s1 Hr), (handle_health i _ _ _ _ _ _ Hh), <-health_run_app. f_equal.
  unfold health_ops at 2. cbn [omap list_omap]. by destruct (health_op_of _).
Qed.

(** The circuit breakers of the running system: in the order in which a history
    of the system has all calls its tasks made on the health tracker, the active
    checker's included, each upstream's health is that of one breaker per
    upstream, and every answer to a check is what that breaker admitted then. *)
Lemma history_circuit (s0 s : AppState) (pool : list task) (h : list entry) :
  state_ok s0 → is_history s0 (s, pool) h →
  let step_to u ops := breaker_run (ht_failure_threshold (health s0)) (ht_cooldown (health s0)) u
                         (breaker (health s0) u) ops in
  (∀ u, breaker (health s) u = step_to u (health_ops h)) ∧
  ∀ h1 en h2 u b, h = h1 ++ en :: h2 → what en = Obs (HealthCheck u) b →
    b = admits (ht_cooldown (health s0)) (step_to u (health_ops h1)) (clock (outside en) 0%nat).
Proof.
  intros Hs0 Hh step_to. pose proof (hist_replays _ _ _ Hh) as Hrep. cbn [fst] in Hrep.
  destruct Hs0 as ((Hok & _) & _). split.
  - intros u. rewrite (replays_health _ _ _ Hrep). by apply breaker_run_refines.
  - intros h1 [i o ob] h2 u b -> Hob. simpl in Hob. subst ob.
    apply replays_app in Hrep as (s1 & Hr1 & s2 & Hcheck & _). apply replays_health in Hr1.
    destruct (health_run_ok (health s0) (health_ops h1) Hok) as [Hok1 [_ Hc]].
    pose proof (check_refines (health s1) u (clock o 0%nat)) as Hans. rewrite Hr1 in Hans.
    specialize (Hans Hok1). rewrite (breaker_run_refines _ _ _ Hok), <-Hc in Hans.
    apply (f_equal snd) in Hcheck. simpl in Hcheck, Hans. rewrite Hr1, Hans in Hcheck.
    injection Hcheck as <-. done.
Qed.
End history.
