(* ===== verification/ActiveConnections.v ===== *)
(** ActiveConnections: what a least-connections counter counts, under every
    interleaving.

    [System] shows that a counter is the sum of what the tasks did to it;
    [Connections] shows that a request holds at most one slot.  Together: a
    counter is the number of tasks that hold a slot of its upstream, and a task
    that still does when it is over was cut in a call. *)

From S2P Require Import Prelude Float64 Prog Config Balancer Http Errors Router Health.
From S2P Require Import RetryBudget RateLimiter Metrics State Trace Proxy Middleware.
From S2P Require Import HeaderFacts Connections Reload HealthCheck Total System Tasks.
Local Open Scope Z_scope.

(** Route [i] of router generation [g] is balanced by least connections. *)
Definition counted (G : list Router) (g i : nat) : Prop :=
  ∃ r rt b, G !! g = Some r ∧ router_routes r !! i = Some rt ∧ balancer rt = ALeastConnections b.

Section tasks.
Context `{HyperLaws, Platform} (overall_timeout : Duration) (iterate : list string → list string).
Context (G : list Router) (g i : nat).

Lemma known_watched req arc i' rt' : counted G g i → may_router (known G) arc →
  match_route (the_router arc) (uri_path (req_uri req)) = Some (i', rt') →
  watched Tidy g i arc i' rt'.
Proof.
  intros (r & rt & b & Hg & Hi & Hb) [Harc Hok] Hm.
  destruct (decide ((generation arc, i') = (g, i))) as [[= <- <-]|Hne]; [left|by right].
  apply match_route_lookup in Hm. simplify_eq. split; [done|].
  destruct (proj1 (Forall_lookup _ _) Hok _ _ Hi) as (rc & -> & _). simpl in *.
  by destruct (rc_strategy rc).
Qed.

(** A request gives its slot back unless one of its calls is cut. *)
Lemma connection_disciplined (cut : bool) ip req : counted G g i →
  disciplined (if cut then sys_ok (known G) else uncut (sys_ok (known G))) Lax g i None
    (connection_service overall_timeout ip req) (λ h _, cut = true ∨ h = None).
Proof.
  intros Hc. unfold connection_service, inject_addr, logging, rate_limit. cbn [remote_addr].
  apply disciplined_after; [done|]. intros _. apply disciplined_bind.
  apply disciplined_mono with (Ψ := λ h _, cut = true ∨ h = None); [|by intros h resp Hh; exists h].
  apply disciplined_after.
  { generalize (check ip). induction p as [a| |X e k IH]; by repeat split. }
  intros [|]; [|apply disciplined_lift; by right].
  unfold request_timeout. apply disciplined_after; [done|]. intros now. apply disciplined_bind.
  eapply disciplined_mono; [apply deadline_keeps, proxy_service_disciplined|by intros].
  intros arc i' rt' Harc Hm. by eapply known_watched.
Qed.

Lemma apply_config_slotless cfg : slotless Lax g i (apply_config cfg).
Proof. by repeat split. Qed.

Lemma checker_slotless n : slotless Lax g i (spawn_active_health_checker iterate n).
Proof.
  unfold spawn_active_health_checker, run_health_check_loop. split; [done|]. intros cfg. simpl.
  destruct (health_check (server cfg)) as [hc|]; [|done]. split; [done|]. intros cfg'. simpl.
  generalize (iterate (all_upstreams cfg')) as us. intros us.
  assert (slotless Lax g i (probe_all hc us)) as Hround.
  { induction us as [|u us IH]; cbn [probe_all]; [done|].
    split; [done|]. intros answer. simpl. by destruct (probe_ok answer). }
  induction n as [|n IH]; cbn [health_check_rounds]; [done|]. split; [done|]. intros x. simpl.
  by apply slotless_bind.
Qed.

(** What a task did to the counters is the slot it holds. *)
Definition slot_task (t : task) : Prop :=
  match t with
  | Task _ p tr _ => ∃ h, (∀ j, total_delta g i j tr = slot h j) ∧
      disciplined (sys_ok (known G)) Lax g i h p (λ _ _, True) ∧
      (Forall (λ o, ¬ aborted_call o) tr →
       disciplined (uncut (sys_ok (known G))) Lax g i h p (λ h _, h = None))
  end.

Lemma spawnable_slot t : counted G g i → spawnable overall_timeout iterate t → slot_task t.
Proof.
  intros Hc Ht. destruct Ht as [ip req|cfg Hcfg|n]; exists None; (split; [done|]).
  - split.
    + eapply disciplined_mono; [by apply (connection_disciplined true)|done].
    + intros _. eapply disciplined_mono; [by apply (connection_disciplined false)|].
      by intros h resp [?|?].
  - split; [|intros _]; (eapply disciplined_mono; [apply slotless_disciplined, apply_config_slotless|done]).
  - split; [|intros _]; (eapply disciplined_mono; [apply slotless_disciplined, checker_slotless|done]).
Qed.

Lemma slot_task_step {A} og {X} (e : sysE X) (k : X → prog sysE A) x tr live :
  slot_task (Task og (Vis e k) tr live) → sys_ok (known G) X e x →
  slot_task (Task og (k x) (tr ++ [Obs e x]) live).
Proof.
  intros (h & Hd & (h' & Hstep & Hk) & Huncut) Hx. exists h'. split_and!; [|by apply Hk|].
  - intros j. rewrite total_delta_app, Hd, (slot_step_delta _ _ _ _ _ _ _ x j Hstep). simpl. lia.
  - rewrite Forall_app, Forall_singleton. intros [Htr Ho].
    destruct (Huncut Htr) as (h'' & Hstep' & Hk'). simplify_eq. by apply Hk'.
Qed.
End tasks.

Section pool.
Context `{HyperLaws, Platform} (overall_timeout : Duration) (iterate : list string → list string).

(** Every task accounts for its slots, on every route there is. *)
Lemma reachable_slots s0 s pool g i : state_ok s0 → reachable overall_timeout iterate s0 (s, pool) →
  counted (routers s) g i → Forall (slot_task (routers s) g i) pool.
Proof.
  intros Hs0 Hr Hc.
  destruct (reachable_tasks overall_timeout iterate (λ _ G t, ∀ g i, counted G g i → slot_task G g i t))
    with (s0 := s0) (s := s) (pool := pool) as [_ Hall]; [| |done|done|done|].
  - intros C G t _ Ht g' i' Hc'. by eapply spawnable_slot.
  - intros C G A og X e k x tr HC Hx Ht g' i' Hc'. apply slot_task_step; [by apply Ht|].
    by eapply seen_known.
  - eapply Forall_impl; [exact Hall|]. intros t Ht. by apply Ht.
Qed.

(** The tasks that hold a slot of an upstream. *)
Definition holders (g i : nat) (j : Z) (pool : list task) : list task :=
  filter (λ t, total_delta g i j (task_trace t) = 1) pool.

Lemma pool_delta_holders G g i j pool : Forall (slot_task G g i) pool →
  pool_delta g i j pool = len (holders g i j pool).
Proof.
  unfold holders, len. induction 1 as [|t pool Ht _ IH]; [done|]. simpl. rewrite IH.
  destruct t as [A og p tr live]. destruct Ht as (h & Hd & _). rewrite filter_cons. simpl.
  specialize (Hd j). unfold slot in Hd. case_decide; case_decide; simpl in *; lia.
Qed.

(** C10. Least-connections counters are exact under every interleaving of
    requests, reloads, health checks and drops: a counter is the number of tasks
    that hold a slot of its upstream (so it never underflows), no task holds two
    slots of a route, and a request that has returned holds none unless the
    overall timeout cut one of its calls. *)
Theorem active_connections (s0 s : AppState) (pool : list task) (g i : nat) (cs : list Z) (j v : Z) :
  state_ok s0 → idle_counters s0 → reachable overall_timeout iterate s0 (s, pool) →
  counted (routers s) g i → cells s !! (g, i) = Some cs → 0 ≤ j → cs !! Z.to_nat j = Some v →
  len pool < 2 ^ 64 →
  v = len (holders g i j pool) ∧
  ∀ t, t ∈ pool → match t with Task _ p tr _ =>
    (∃ h, ∀ j, total_delta g i j tr = slot h j) ∧
    match p with
    | Ret _ => Forall (λ o, ¬ aborted_call o) tr → ∀ j, total_delta g i j tr = 0
    | _ => True
    end end.
Proof.
  intros Hs0 Hidle Hr Hc Hcs Hj Hv Hpool.
  pose proof (reachable_slots s0 s pool g i Hs0 Hr Hc) as Hslots. split.
  - rewrite (counters_sum overall_timeout iterate s0 s pool g i cs j v Hs0 Hidle Hr Hcs Hj Hv).
    rewrite (pool_delta_holders _ _ _ _ _ Hslots). apply wrap_small. split; [apply len_nonneg|].
    unfold holders, len in *. pose proof (length_filter (λ t, total_delta g i j (task_trace t) = 1) pool). lia.
  - intros [A og p tr live] Ht. rewrite Forall_forall in Hslots.
    destruct (Hslots _ Ht) as (h & Hd & _ & Huncut). split; [by exists h|].
    destruct p as [a| |]; [|done..]. intros Htr j'. rewrite Hd. simpl in Huncut.
    unfold slot. by rewrite Huncut, decide_False.
Qed.
End pool.
