(* ===== verification/Shutdown.v ===== *)
(** Shutdown: the race at the end of [start_server], from [server.rs].

    [start_server] runs until the hyper server's future resolves or the drain
    timeout passes, whichever is first.  A task waits for the shutdown signal
    and sends on a watch channel; one receiver tells hyper to shut down
    gracefully, another starts the drain timer.  The receivers ignore the result
    of [changed()], which also resolves when the sender is gone: a signal task
    that panics shuts the server down, too.

    When the signal task ends and when the server's future resolves are given
    from outside, as instants of one clock. *)

From S2P Require Import Prelude.
Local Open Scope Z_scope.

(** How the task that waits for the signal ends. *)
Inductive SignalEnd := Signalled | SignalPanicked.

(** [shutdown_signal], on Unix: the first of the interrupt and the termination
    signal; it panics when the handler cannot be installed. *)
Definition shutdown_signal (start : Instant) (installed : bool) (ctrl_c sigterm : option Instant) :
  option (Instant * SignalEnd) :=
  if installed then
    match ctrl_c, sigterm with
    | Some t, Some t' => Some (Z.min t t', Signalled)
    | Some t, None | None, Some t => Some (t, Signalled)
    | None, None => None
    end
  else Some (start, SignalPanicked).

Record Environment := mk_environment {
  signal_task : option (Instant * SignalEnd);
  (** The hyper server's future, told to stop gracefully at an instant or not. *)
  serve : option Instant → option (Instant * result unit unit);
}.

(** [shutdown_rx.changed()]: a value was sent, or the sender was dropped. *)
Definition changed (env : Environment) : option Instant := fst <$> signal_task env.

Inductive ServerEnd := ServedOk | ServeFailed | DrainExceeded.

(** [tokio::select!]; when both branches are ready either may be taken. *)
Inductive start_server_ends (env : Environment) (drain_timeout : Duration) : Instant → ServerEnd → Prop :=
| server_branch t res :
    serve env (changed env) = Some (t, res) →
    (∀ s, changed env = Some s → t ≤ s + drain_timeout) →
    start_server_ends env drain_timeout t (if is_ok res then ServedOk else ServeFailed)
| drain_branch s :
    changed env = Some s →
    (∀ t res, serve env (changed env) = Some (t, res) → s + drain_timeout ≤ t) →
    start_server_ends env drain_timeout (s + drain_timeout) DrainExceeded.

(** What hyper documents of a graceful shutdown: told to stop at [s], the server
    resolves when the last of its connections has ended, and never while one
    goes on.  A connection ends once the response to its request is written to
    the end, its streamed body included, which may be long after the service has
    answered; idle connections are closed at once. *)
Definition last_end (s : Instant) (connections : list Instant) : Instant := foldr Z.max s connections.

Definition graceful (env : Environment) (connections : list (option Instant)) : Prop :=
  ∀ s, serve env (Some s) = match mapM id connections with
                            | Some ends => Some (last_end s ends, Ok tt)
                            | None => None
                            end.

Lemma last_end_le s b ends : s ≤ b → Forall (λ t, t ≤ b) ends → last_end s ends ≤ b.
Proof. intros Hs. induction 1; simpl; lia. Qed.

Lemma last_end_start s ends : s ≤ last_end s ends.
Proof. induction ends; simpl; lia. Qed.

Lemma last_end_ge s t ends : t ∈ ends → t ≤ last_end s ends.
Proof. induction 1; simpl; lia. Qed.

Lemma mapM_id_some (l : list (option Instant)) ends : mapM id l = Some ends ↔ l = Some <$> ends.
Proof.
  rewrite mapM_Some. split.
  - induction 1 as [|x y l ends Hxy _ IH]; [done|]. simpl. unfold id in Hxy. by rewrite Hxy, IH.
  - intros ->. induction ends; simpl; by constructor.
Qed.

(** Draining: once the signal task ends, however it ends, [start_server]
    returns within the drain timeout; and where hyper shuts down gracefully it
    waits for all connections, and forces the shutdown only when one of them
    outlasts the timeout (or the timeout is zero). *)
Theorem drain_bounded (env : Environment) (drain_timeout : Duration) (s : Instant) (how : SignalEnd)
    (connections : list (option Instant)) :
  0 ≤ drain_timeout → signal_task env = Some (s, how) → graceful env connections →
  (∃ t e, start_server_ends env drain_timeout t e) ∧
  ∀ t e, start_server_ends env drain_timeout t e →
    s ≤ t ≤ s + drain_timeout ∧
    match e with
    | ServedOk => ∀ c, c ∈ connections → ∃ tc, c = Some tc ∧ tc ≤ t
    | ServeFailed => False
    | DrainExceeded => t = s + drain_timeout ∧
        (drain_timeout = 0 ∨ ∃ c, c ∈ connections ∧ ∀ tc, c = Some tc → s + drain_timeout ≤ tc)
    end.
Proof.
  intros Hd Hs Hg. specialize (Hg s). assert (changed env = Some s) as Hc by (unfold changed; by rewrite Hs).
  pose proof (λ ends, proj1 (mapM_id_some connections ends)) as Hm.
  destruct (mapM id connections) as [ends|] eqn:Hends.
  - specialize (Hm ends eq_refl). subst connections. rewrite <-Hc in Hg. split.
    + destruct (decide (last_end s ends ≤ s + drain_timeout)) as [Hle|Hgt].
      * exists (last_end s ends), ServedOk. apply (server_branch _ _ _ (Ok tt)); [done|].
        intros s' Hs'. by simplify_eq.
      * exists (s + drain_timeout), DrainExceeded. constructor; [done|]. intros t res Ht. simplify_eq. lia.
    + intros t e He. destruct He as [t res Ht Hle|s' Hs' Hlate]; simplify_eq/=.
      * specialize (Hle s Hc). split; [split; [|done]|].
        { apply last_end_start. }
        intros c (tc & -> & Htc)%list_elem_of_fmap. exists tc. split; [done|]. by apply last_end_ge.
      * split; [lia|]. split; [done|]. specialize (Hlate _ _ Hg).
        destruct (decide (drain_timeout = 0)) as [|Hne]; [by left|right].
        destruct (decide (Forall (λ t, t ≤ s + drain_timeout - 1) ends)) as [Hall|Hex].
        { pose proof (last_end_le s (s + drain_timeout - 1) ends ltac:(lia) Hall). lia. }
        apply not_Forall_Exists, Exists_exists in Hex as (tc & Hin & Htc); [|apply _].
        exists (Some tc). split; [by apply list_elem_of_fmap_2|]. simpl in Htc. intros ? [= <-]. lia.
  - rewrite <-Hc in Hg. split.
    + exists (s + drain_timeout), DrainExceeded. constructor; [done|]. intros t res Ht. by simplify_eq.
    + intros t e He. destruct He as [t res Ht Hle|s' Hs' Hlate]; simplify_eq/=.
      split; [lia|]. split; [done|]. right. apply mapM_None in Hends.
      apply Exists_exists in Hends as (c & Hin & Hnone). exists c. split; [done|].
      unfold id in Hnone. by rewrite Hnone.
Qed.

(** Without a signal the server ends only when hyper's future does. *)
Lemma runs_until_signal env drain_timeout t e :
  signal_task env = None → start_server_ends env drain_timeout t e →
  ∃ res, serve env None = Some (t, res).
Proof.
  intros Hs He. assert (changed env = None) as Hc by (unfold changed; by rewrite Hs).
  destruct He as [t res Ht _|s Hc' _]; [|congruence]. rewrite Hc in Ht. by exists res.
Qed.

(** ** Witnesses *)

(** A signal at second 5, connections that end at seconds 3 and 12. *)
Definition two_connections : list (option Instant) := [Some (from_secs 3); Some (from_secs 12)].
Definition sample_environment : Environment :=
  mk_environment (shutdown_signal 0 true (Some (from_secs 5)) None)
    (λ g, match g with Some s => Some (last_end s [from_secs 3; from_secs 12], Ok tt) | None => None end).

Lemma drain_bounded_witness :
  ∃ t e, start_server_ends sample_environment (from_secs 30) t e.
Proof.
  refine (proj1 (drain_bounded sample_environment (from_secs 30) (from_secs 5) Signalled two_connections
    _ eq_refl _)).
  - discriminate.
  - intros s. reflexivity.
Defined.
