(* ===== verification/Server.v ===== *)
(** Server: how [main] and [server.rs] build the shared state and the services.

    [main] and [build_proxy] build the same [AppState] from a configuration; it
    is a good state, so everything [System] proves holds from start-up. *)

From S2P Require Import Prelude Float64 Prog Config Balancer Http Errors Router Health Breaker.
From S2P Require Import RetryBudget RateLimiter Metrics State Trace Proxy Middleware RetryPolicy.
From S2P Require Import PolicyFacts ProxySpec Sample HeaderFacts MiddlewareFacts Connections Reload.
From S2P Require Import HealthCheck Total CutRequests System Tasks History ActiveConnections.
Local Open Scope Z_scope.

Definition new_rate_limiter (cfg : ServerConfig) : RateLimiter :=
  match Config.rate_limit cfg with
  | Some rl => limiter_new (requests_per_second rl) (burst_size rl)
  | None => limiter_disabled
  end.

(** The state [main] and [build_proxy] start from. *)
Definition build_state (config : Config) : outcome AppState :=
  let router := build_router config in
  let health := health_new (failure_threshold (server config))
                  (from_secs (health_cooldown_secs (server config))) in
  let retry_budget := budget_new (retry_budget_percent (server config))
                        (retry_budget_window_secs (server config)) in
  metrics ← metrics_new;
  Value (mk_app_state [router] 0 (fresh_cells 0 router) config health retry_budget metrics
    (new_rate_limiter (server config))).

(** [start_server]: the service of a connection, from the configuration that is
    current when the server starts. *)
Definition start_server `{Hyper, Platform} (state : AppState) (remote_ip : IpAddr) :
  Request → prog sysE Response :=
  connection_service (from_secs (overall_timeout_secs (server (config state)))) remote_ip.

(** [start_metrics_server]: every request is answered with the rendered metrics. *)
Definition metrics_response `{Hyper} (encode : list metric_call → option string) (state : AppState) :
  outcome Response :=
  body ← render encode (metrics state);
  v ← unwrap (hv_from_str "text/plain; version=0.0.4");
  Value (mk_response 200 (hm_insert hm_empty "content-type" v) body).

(** The configuration of [start_proxy_for_test]. *)
Definition test_config : Config :=
  mk_config
    (mk_server_config "127.0.0.1:8080" 2 5 3 30 None 10 (f64_of_Z 20) 10 None 30 None 30 90 32)
    [mk_route_config "/" ["http://127.0.0.1:9001"; "http://127.0.0.1:9002"] default_strategy None].

(** ** Facts *)
Section facts.
Context `{Platform}.

(** The initial state is good and serves its configuration. *)
Lemma build_state_good (cfg : Config) :
  usable_config cfg → 0 ≤ failure_threshold (server cfg) < 2 ^ 32 - 1 →
  ∃ s, build_state cfg = Value s ∧ state_ok s ∧ idle_counters s ∧ config s = cfg ∧
    load_router s = mk_router_arc 0 (build_router cfg) ∧
    window (retry_budget s) = from_secs (retry_budget_window_secs (server cfg)).
Proof.
  intros Hcfg Ht. pose proof (build_router_ok cfg Hcfg) as Hr.
  eexists. split; [reflexivity|]. split; [|split; [|done]].
  - split; [split; [|split_and!; try done]|split; [|done]]; simpl.
    + split; [done|]. split; [done|apply map_Forall_empty].
    + unfold new_rate_limiter. by destruct (Config.rate_limit (server cfg)).
    + lia.
    + intros g r i route Hg _ Hi. destruct g as [|g]; [injection Hg as <-|done]. cbn [cells].
      rewrite fresh_cells_lookup, decide_True, Hi by done. simpl. eexists. split; [done|].
      apply init_cells_ok. exact (proj1 (Forall_lookup _ _) Hr i route Hi).
    + constructor; [exact Hr|constructor].
  - intros g i cs. simpl. rewrite fresh_cells_lookup. case_decide as Hg; [|done].
    subst g. destruct (router_routes _ !! i) as [route|]; simpl; [|done]. intros [= <-].
    split; [lia|]. by apply Forall_replicate.
Qed.

(** Start-up: from a usable configuration the shared state is built without
    a panic and serves that configuration and its router with every counter at
    zero, and every state the running proxy can reach from it satisfies the
    invariant. *)
Theorem startup_invariant `{HyperLaws} (cfg : Config) (iterate : list string → list string) :
  usable_config cfg → 0 ≤ failure_threshold (server cfg) < 2 ^ 32 - 1 →
  ∃ s0, build_state cfg = Value s0 ∧ config s0 = cfg ∧ idle_counters s0 ∧
    load_router s0 = mk_router_arc 0 (build_router cfg) ∧
    ∀ s pool, reachable (from_secs (overall_timeout_secs (server cfg))) iterate s0 (s, pool) → state_ok s.
Proof.
  intros Hcfg Ht. destruct (build_state_good cfg Hcfg Ht) as (s0 & Hs0 & Hok & Hidle & Hc & Hr & _).
  exists s0. split_and!; [done..|]. intros s pool Hreach.
  by destruct (reachable_ok _ _ s0 (s, pool) Hok Hreach).
Qed.
End facts.

(** ** Witnesses *)

Definition sample_state : AppState :=
  value_or (mk_app_state [] 0 ∅ sample_config (health_new 3 0) (budget_new (f64_of_Z 20) 10)
    (mk_metrics []) limiter_disabled) (build_state sample_config).

Lemma sample_state_good : state_ok sample_state ∧ idle_counters sample_state ∧
  window (retry_budget sample_state) = from_secs 10.
Proof.
  destruct (build_state_good sample_config sample_usable) as (s & Hs & Hok & Hidle & _ & _ & Hw);
    [split; [discriminate|reflexivity]|].
  unfold sample_state. by rewrite Hs.
Qed.

Lemma startup_invariant_witness :
  ∃ s0, build_state sample_config = Value s0 ∧ config s0 = sample_config.
Proof.
  destruct (startup_invariant sample_config id sample_usable) as (s0 & Hs0 & Hc & _).
  - split; [discriminate|reflexivity].
  - exists s0. split; [exact Hs0|exact Hc].
Defined.

Lemma sample_oracle_ok n : oracle_ok sample_state (sample_oracle n).
Proof.
  split_and!; [|done|].
  - intros k. destruct sample_state_good as (_ & _ & ->). vm_compute. discriminate.
  - intros hi Hhi. simpl. lia.
Qed.

Lemma request_returns_witness :
  ∃ s' resp, run_sys sample_oracle (connection_service (from_secs 30) sample_ip sample_request) sample_state
             = (s', Value resp) ∧ state_ok s'.
Proof.
  exact (request_returns (from_secs 30) sample_ip sample_request sample_oracle sample_state
    (proj1 sample_state_good) sample_oracle_ok).
Defined.

(** One request arrives, and a reload is asked for. *)
Definition sample_pool : list task :=
  [Task (ForRequest sample_ip sample_request) (connection_service (from_secs 30) sample_ip sample_request) [] true;
   Task (ForReload sample_config) (apply_config sample_config) [] true].

Lemma sample_reachable : reachable (from_secs 30) id sample_state (sample_state, sample_pool).
Proof.
  eapply rtc_l; [apply (step_spawn _ _ []), spawn_request|].
  eapply rtc_l; [apply (step_spawn _ _ [_]), (spawn_reload _ _ sample_config sample_usable)|]. constructor.
Qed.

(** The first [n] effects of a task, performed alone. *)
Fixpoint advance {A} (n : nat) (p : prog sysE A) (tr : list (obs sysE)) (s : AppState) :
  AppState * (prog sysE A * list (obs sysE)) :=
  match n, p with
  | S n', Vis e k =>
      if decide (instant_min + Z.max (window (retry_budget s)) (from_secs 300) ≤ sample_now) then
        match handle (sample_oracle 0) _ e s with
        | (s', Value x) => advance n' (k x) (tr ++ [Obs e x]) s'
        | (_, Panicked) => (s, (p, tr))
        end
      else (s, (p, tr))
  | _, _ => (s, (p, tr))
  end.

Lemma advance_steps {A} n og (p : prog sysE A) tr s l1 l2 :
  rtc (sys_step (from_secs 30) id) (s, l1 ++ Task og p tr true :: l2)
    ((advance n p tr s).1, l1 ++ Task og (advance n p tr s).2.1 (advance n p tr s).2.2 true :: l2).
Proof.
  revert p tr s. induction n as [|n IH]; intros p tr s; [constructor|].
  destruct p as [a| |X e k]; [constructor..|]. cbn [advance]. case_decide as Hclk; [|constructor].
  destruct (handle (sample_oracle 0) X e s) as [s' [x|]] eqn:Hh; [|constructor].
  eapply rtc_l; [|apply IH]. apply (step_effect _ _ l1 l2 _ og _ e k tr (sample_oracle 0)); [|done].
  split_and!; [by intros k'|done|]. intros hi Hhi. simpl. lia.
Qed.

(** The pool while the request waits for its second upstream. *)
Definition waiting : AppState * (prog sysE Response * list (obs sysE)) :=
  advance 27 (connection_service (from_secs 30) sample_ip sample_request) [] sample_state.
Definition waiting_pool : list task :=
  [Task (ForRequest sample_ip sample_request) waiting.2.1 waiting.2.2 true;
   Task (ForReload sample_config) (apply_config sample_config) [] true].

Lemma waiting_reachable : reachable (from_secs 30) id sample_state (waiting.1, waiting_pool).
Proof. unfold reachable. etrans; [apply sample_reachable|exact (advance_steps 27 _ _ [] _ [] _)]. Qed.

(** The history of that pool: what the request did. *)
Lemma advance_history {A} n (p : prog sysE A) tr s :
  ∃ new, (advance n p tr s).2.2 = tr ++ new ∧
    replays s (mk_entry 0 (sample_oracle 0) <$> new) (advance n p tr s).1.
Proof.
  revert p tr s. induction n as [|n IH]; intros p tr s; [exists []; by rewrite app_nil_r|].
  destruct p as [a| |X e k]; [exists []; by rewrite app_nil_r..|]. cbn [advance].
  case_decide; [|exists []; by rewrite app_nil_r].
  destruct (handle (sample_oracle 0) X e s) as [s' [x|]] eqn:Hh; [|exists []; by rewrite app_nil_r].
  destruct (IH (k x) (tr ++ [Obs e x]) s') as (new & -> & Hr).
  exists (Obs e x :: new). rewrite <-app_assoc. split; [done|]. by exists s'.
Qed.

Lemma lone_history s0 s A B og og' (p : prog sysE A) (q : prog sysE B) tr o : oracle_ok s0 o →
  replays s0 (mk_entry 0 o <$> tr) s → is_history s0 (s, [Task og p tr true; Task og' q [] true]) (mk_entry 0 o <$> tr).
Proof.
  intros Ho Hr.
  assert (what <$> (mk_entry 0 o <$> tr) = tr) as Hwhat by (rewrite <-list_fmap_compose; by apply list_fmap_id).
  assert (∀ i, of_task i (mk_entry 0 o <$> tr) = if decide (i = 0%nat) then tr else []) as Htask.
  { intros i. unfold of_task. clear Hr Hwhat. induction tr as [|ob tr IH]; [by case_decide|].
    rewrite fmap_cons, filter_cons. cbn [who]. destruct (decide (i = 0%nat)) as [->|Hi].
    - rewrite decide_True by done. by rewrite fmap_cons, IH.
    - rewrite decide_False by congruence. by rewrite IH. }
  split; cbn [fst snd].
  - exact Hr.
  - by apply Forall_fmap, Forall_true.
  - intros [|[|i]] t Ht; rewrite Htask; simpl in Ht; by simplify_eq/=.
  - apply Forall_fmap, Forall_true. intros ob. simpl. lia.
  - rewrite Hwhat. simpl. by rewrite app_nil_r.
Qed.

Definition waiting_history : list entry := mk_entry 0 (sample_oracle 0) <$> waiting.2.2.

Lemma waiting_is_history : is_history sample_state (waiting.1, waiting_pool) waiting_history.
Proof.
  apply lone_history; [exact (sample_oracle_ok 0)|].
  destruct (advance_history 27 (connection_service (from_secs 30) sample_ip sample_request) [] sample_state)
    as (new & Htr & Hr). cbn [app] in Htr. rewrite <-Htr in Hr. exact Hr.
Qed.

Lemma system_safe_witness : state_ok waiting.1.
Proof.
  exact (proj1 (system_safe (from_secs 30) id sample_state waiting.1 waiting_pool
    (proj1 sample_state_good) waiting_reachable)).
Defined.

Lemma active_connections_witness : 1 = len (holders 0 0 1 waiting_pool).
Proof.
  refine (proj1 (active_connections (from_secs 30) id sample_state waiting.1 waiting_pool 0 0 [0; 1] 1 1
    (proj1 sample_state_good) (proj1 (proj2 sample_state_good)) waiting_reachable _ _ _ _ _)).
  - exists sample_router. eexists _, _. split_and!; vm_compute; reflexivity.
  - vm_compute. reflexivity.
  - discriminate.
  - reflexivity.
  - vm_compute. reflexivity.
Defined.

Lemma linearizable_witness : ∃ h, is_history sample_state (waiting.1, waiting_pool) h.
Proof.
  exact (linearizable (from_secs 30) id sample_state waiting.1 waiting_pool
    (proj1 sample_state_good) waiting_reachable).
Defined.
