(* ===== verification/Containment.v ===== *)
(** Containment: what an unusable configuration can break.

    The reloader applies any configuration that parses.  One with a route that
    has no upstreams, or with weights that are all zero, makes the requests that
    load it panic; this file shows that it does no other harm: no lock is
    poisoned, requests that loaded a usable configuration are served, and the
    next usable reload puts an end to it. *)

From S2P Require Import Prelude Float64 Prog Config Balancer Http Errors Router Health.
From S2P Require Import RetryBudget RateLimiter Metrics State Trace Proxy Middleware RetryPolicy.
From S2P Require Import Sample HeaderFacts MiddlewareFacts Reload HealthCheck Total System Tasks Server CutRequests.
Local Open Scope Z_scope.

Section containment.
Context `{HyperLaws, Platform} (overall_timeout : Duration) (iterate : list string → list string).

(** The system in which reloads are not checked. *)
Inductive open_step : AppState * list task → AppState * list task → Prop :=
| open_sys c c' : sys_step overall_timeout iterate c c' → open_step c c'
| open_reload s l cfg : open_step (s, l) (s, l ++ [Task (ForReload cfg) (apply_config cfg) [] true]).

Definition open_reachable (s0 : AppState) : AppState * list task → Prop := rtc open_step (s0, []).

(** A task is safe until it loads something unusable. *)
Definition careful (G : list Router) (t : task) : Prop :=
  match t with
  | Task _ p tr _ =>
      Forall good_load tr → no_panic (sys_ok (known G)) (accepted G) p (λ _, True)
  end.

Definition contained (c : AppState * list task) : Prop :=
  sound c.1 ∧ ∀ G, routers c.1 `prefix_of` G → Forall (careful G) c.2.

Lemma total_careful G t : task_total G t → careful G t.
Proof.
  destruct t as [A og p tr live]. intros Ht _. eapply no_panic_weaken; [|exact Ht].
  apply enabled_accepted.
Qed.

Lemma reload_careful G cfg : careful G (Task (ForReload cfg) (apply_config cfg) [] true).
Proof. by repeat split. Qed.

Lemma contained_spawn s l t : (∀ G, careful G t) → contained (s, l) → contained (s, l ++ [t]).
Proof.
  intros Ht [Hs Hall]. split; [done|]. intros G HG. apply Forall_app. split; [by apply Hall|].
  by constructor.
Qed.

(** The next effect of a task that has loaded nothing unusable is served. *)
Lemma contained_served l1 l2 A og X (e : sysE X) (k : X → prog sysE A) tr live s o :
  contained (s, l1 ++ Task og (Vis e k) tr live :: l2) → Forall good_load tr → oracle_ok s o →
  ∃ s' x, handle o X e s = (s', Value x) ∧ sys_ok (held (routers s)) X e x.
Proof.
  intros [Hs Hall] Htr Ho. specialize (Hall _ (PreOrder_Reflexive _)).
  apply Forall_app in Hall as [_ [Hp _]%Forall_cons]. destruct (Hp Htr) as [He _].
  destruct (handle_sound X e o s Hs Ho) as (s' & r & Heq & _ & _ & _ & Hv).
  destruct (Hv He) as (x & -> & Hx). by exists s', x.
Qed.

Lemma contained_update l1 l2 t t' s s' : contained (s, l1 ++ t :: l2) → sound s' →
  routers s `prefix_of` routers s' → (∀ G, routers s' `prefix_of` G → careful G t → careful G t') →
  contained (s', l1 ++ t' :: l2).
Proof.
  intros [_ Hall] Hs' Hr Ht. split; [done|]. simpl. intros G HG.
  assert (routers s `prefix_of` G) as HG' by by etrans.
  specialize (Hall G HG'). apply Forall_app in Hall as [Hl1 [Hp Hl2]%Forall_cons].
  apply Forall_app. split; [done|]. constructor; [by apply Ht|done].
Qed.

Lemma handle_generations o X (e : sysE X) s s' r : sound s → oracle_ok s o →
  handle o X e s = (s', r) → sound s' ∧ routers s `prefix_of` routers s'.
Proof.
  intros Hs Ho Hh. destruct (handle_sound X e o s Hs Ho) as (s1 & r1 & Heq & Hs1 & _ & Hr & _).
  rewrite Hh in Heq. simplify_eq. split; [done|]. rewrite Hr. destruct e; try done. by eexists.
Qed.

Lemma step_contained c c' : open_step c c' → contained c → contained c'.
Proof.
  intros [c1 c2 Hstep|s l cfg] Hc; [|by apply contained_spawn; [intros; apply reload_careful|]].
  destruct Hstep as
    [l1 l2 A og X e k tr o s s' x Ho Hh|l1 l2 A og X e k tr o s s' Ho Hh|l1 l2 A og X e k tr s Hw|l t s Ht].
  - destruct (handle_generations _ _ _ _ _ _ (proj1 Hc) Ho Hh) as [Hs' Hr].
    eapply contained_update; [done..|]. intros G HG Hp [Htr [Hx _]%Forall_cons]%Forall_app.
    destruct (Hp Htr) as [_ Hk]. apply Hk, known_held. split; [|done].
    destruct (contained_served _ _ _ _ _ _ _ _ _ _ _ Hc Htr Ho) as (s1 & x1 & Heq & Hok).
    rewrite Hh in Heq. simplify_eq. eapply held_mono; [|done]. by etrans.
  - destruct (handle_generations _ _ _ _ _ _ (proj1 Hc) Ho Hh) as [Hs' Hr].
    eapply contained_update; [done..|]. intros G HG Hp Htr.
    destruct (contained_served _ _ _ _ _ _ _ _ _ _ _ Hc Htr Ho) as (s1 & x1 & Heq & _). congruence.
  - by eapply contained_update; [exact Hc|apply Hc|done|].
  - apply contained_spawn; [|done]. intros G. by apply total_careful, (spawnable_total overall_timeout iterate).
Qed.

Lemma open_reachable_contained s0 c : sound s0 → open_reachable s0 c → contained c.
Proof.
  intros Hs0 Hr. assert (contained (s0, [])) as Hc by (split; [done|constructor]).
  induction Hr as [|c1 c2 c3 Hstep Hr IH]; [done|]. by apply IH, (step_contained c1).
Qed.

(** A sound state whose current router and configuration are usable. *)
Definition in_force (s : AppState) : Prop :=
  sound s ∧ router_ok (the_router (load_router s)) ∧ usable_config (config s).

Lemma in_force_serves X (e : sysE X) o s : in_force s → oracle_ok s o → enabled (routers s) X e →
  ∃ s' x, handle o X e s = (s', Value x) ∧ sys_ok (known (routers s)) X e x ∧ in_force s' ∧
    window (retry_budget s') = window (retry_budget s) ∧ routers s `prefix_of` routers s'.
Proof.
  intros (Hs & Hr & Hc) Ho He. destruct (handle_sound X e o s Hs Ho) as (s' & r & Heq & Hs' & Hw & Hg & Hv).
  destruct (Hv (enabled_accepted _ _ _ He)) as (x & -> & Hx).
  destruct (handle_generations _ _ _ _ _ _ Hs Ho Heq) as [_ Hpre].
  pose proof (handle_config _ _ _ _ _ _ Heq) as Hc'.
  exists s', x. split_and!; try done.
  - apply known_held. split; [done|]. destruct e; try done; by injection Heq as _ <-.
  - split_and!; [done| |].
    + assert (current_router s' = match e with StoreRouter _ => length (routers s) | _ => current_router s end)
        as Hcur by (clear -Heq; destruct e; cbn [handle] in Heq; unfold zoom in Heq; try (by simplify_eq);
                    destruct (cells s !! (gen, route)); by simplify_eq).
      unfold load_router. simpl. rewrite Hcur, Hg. destruct e; try exact Hr.
      by rewrite lookup_app_r, Nat.sub_diag by done.
    + rewrite Hc'. by destruct e.
Qed.

Lemma in_force_returns {A} (p : prog sysE A) os s : in_force s → (∀ n, oracle_ok s (os n)) →
  (∀ G, no_panic (sys_ok (known G)) (enabled G) p (λ _, True)) →
  ∃ s' a, run_sys os p s = (s', Value a) ∧ in_force s'.
Proof.
  intros Hs Hos Hp.
  assert (∀ G, routers s `prefix_of` G → no_panic (sys_ok (known G)) (enabled G) p (λ _, True)) as Hp'
    by auto. clear Hp. revert os s Hs Hos Hp'.
  induction p as [a| |X e k IH]; intros os s Hs Hos Hp; cbn [run_sys]; [by exists s, a|..].
  - destruct (Hp _ (PreOrder_Reflexive _)).
  - destruct (Hp _ (PreOrder_Reflexive _)) as [He _].
    destruct (in_force_serves X e (os O) s Hs (Hos O) He) as (s1 & x & -> & Hx & Hs1 & Hw & Hpre).
    apply IH; [done| |].
    + intros n. unfold oracle_ok. rewrite Hw. apply Hos.
    + intros G HG. assert (routers s `prefix_of` G) as HG' by by etrans.
      destruct (Hp G HG') as [_ Hk]. apply Hk. by eapply known_mono.
Qed.

(** C3. Unusable reloads are contained: whatever configurations are applied while
    requests, reloads and health checks interleave, the shared locks stay
    unpoisoned and the state sound; a task that panicked had loaded an unusable
    configuration or router, and every other task can take its next step; and
    from any such state one usable reload is enough for every further request
    to get a response.  The clock reaches back as far as the window and the
    cleanup ask ([oracle_ok]). *)
Theorem unusable_reloads_contained (s0 s : AppState) (pool : list task) :
  sound s0 → open_reachable s0 (s, pool) →
  sound s ∧
  (∀ t, t ∈ pool → Forall good_load (task_trace t) →
     match t with
     | Task _ (Vis e k) _ _ => ∀ o, oracle_ok s o → ∃ s' x, handle o _ e s = (s', Value x)
     | Task _ Panic _ _ => False
     | Task _ (Ret _) _ _ => True
     end) ∧
  ∀ cfg ip req os os', usable_config cfg → (∀ n, oracle_ok s (os' n)) →
    ∃ s1 s2 resp, run_sys os (apply_config cfg) s = (s1, Value tt) ∧
      run_sys os' (connection_service overall_timeout ip req) s1 = (s2, Value resp).
Proof.
  intros Hs0 Hr. pose proof (open_reachable_contained s0 _ Hs0 Hr) as Hc. split_and!.
  - apply Hc.
  - intros t Ht Hgood. apply list_elem_of_split in Ht as (l1 & l2 & ->).
    destruct t as [A og [a| |X e k] tr live]; [done|..].
    + destruct Hc as [_ Hall]. specialize (Hall _ (PreOrder_Reflexive _)).
      apply Forall_app in Hall as [_ [Hp _]%Forall_cons]. exact (Hp Hgood).
    + intros o Ho. destruct (contained_served _ _ _ _ _ _ _ _ _ _ _ Hc Hgood Ho) as (s' & x & Heq & _). eauto.
  - intros cfg ip req os os' Hcfg Hos'.
    destruct (apply_config_spec cfg os s) as (s1 & Hrun & Hload & Hconf & _ & _ & _ & Hbudget & _).
    exists s1. destruct (in_force_returns (connection_service overall_timeout ip req) os' s1)
      as (s2 & resp & Hreq & _).
    + assert (sound s1) as Hs1.
      { simpl in Hrun. injection Hrun as <-. apply (store_router_sound s (build_router cfg)), Hc. }
      split_and!; [done| |by rewrite Hconf]. rewrite Hload. by apply build_router_ok.
    + intros n. unfold oracle_ok. rewrite Hbudget. apply Hos'.
    + intros G. apply connection_service_total.
    + by exists s2, resp.
Qed.
End containment.

(** ** Witness: a route without upstreams is applied, and a request panics *)

Definition broken_config : Config :=
  mk_config (server sample_config) [mk_route_config "/api" [] StRoundRobin None].

(** The reload runs to its end, then the request as far as it gets. *)
Definition reloaded : AppState * (prog sysE unit * list (obs sysE)) :=
  advance 2 (apply_config broken_config) [] sample_state.
Definition broken : AppState * (prog sysE Response * list (obs sysE)) :=
  advance 12 (connection_service (from_secs 30) sample_ip sample_request) [] reloaded.1.
Definition broken_pool : list task := 
  [Task (ForReload broken_config) reloaded.2.1 reloaded.2.2 true;
   Task (ForRequest sample_ip sample_request) broken.2.1 broken.2.2 true].

Lemma sys_open c c' : rtc (sys_step (from_secs 30) id) c c' → rtc (open_step (from_secs 30) id) c c'.
Proof. induction 1 as [|c1 c2 c3 Hs _ IH]; [constructor|]. by eapply rtc_l; [apply open_sys|]. Qed.

Lemma broken_reachable : open_reachable (from_secs 30) id sample_state (broken.1, broken_pool).
Proof.
  eapply rtc_l; [apply (open_reload _ _ _ [] broken_config)|].
  eapply rtc_l; [apply open_sys, (step_spawn _ _ [_]), (spawn_request _ _ sample_ip sample_request)|].
  etrans; [apply sys_open; exact (advance_steps 2 _ (apply_config broken_config) [] sample_state [] _)|].
  apply sys_open. exact (advance_steps 12 _ _ [] reloaded.1 [_] []).
Qed.

Lemma unusable_reloads_contained_witness :
  broken.2.1 = Panic ∧ sound broken.1 ∧
  ∃ s1 s2 resp, run_sys sample_oracle (apply_config sample_config) broken.1 = (s1, Value tt) ∧
    run_sys sample_oracle (connection_service (from_secs 30) sample_ip sample_request) s1
    = (s2, Value resp).
Proof.
  split; [vm_compute; reflexivity|].
  destruct (unusable_reloads_contained (from_secs 30) id sample_state broken.1 broken_pool
    (proj1 (proj1 sample_state_good)) broken_reachable) as (Hs & _ & Hnext).
  split; [exact Hs|]. apply Hnext; [exact sample_usable|].
  intros n. split; [|split].
  - intros k. vm_compute. discriminate.
  - reflexivity.
  - intros hi Hhi. simpl. lia.
Defined.
