(* ===== verification/Amplification.v ===== *)
(** Amplification: how many upstream calls the whole proxy makes.

    Per request, a monitor keeps a ledger: a request is worth one call, a retry
    the budget granted another, a call costs one.  Over the pool the ledgers add
    up, and the retries are bounded by the budget's history, which [History]
    shows to be a sequence of calls on one budget. *)

From S2P Require Import Prelude Float64 Prog Config Balancer Http Errors Router Health.
From S2P Require Import RetryBudget RateLimiter Metrics State Trace Proxy Middleware RetryPolicy.
From S2P Require Import Sample HeaderFacts MiddlewareFacts Reload HealthCheck Total System Tasks History Server.
Local Open Scope Z_scope.

Section ledger.
Context `{Hyper, Platform}.

Definition is_call {X} (a : awaitE X) : bool := match a with Call _ _ => true | _ => false end.

(** Whether the budget has recorded the request, and the calls it may make. *)
Record Ledger := mk_ledger { asked : bool; credit : Z }.

Definition spend (m : Ledger) (is_call : bool) : option Ledger :=
  if is_call then if decide (1 ≤ credit m) then Some (mk_ledger (asked m) (credit m - 1)) else None
  else Some m.

(** Objects to a call without credit and to a retry asked for before the
    request was recorded. *)
Definition ledger_step (m : Ledger) (o : obs sysE) : option Ledger :=
  match o with
  | @Obs _ _ e x =>
      match e in sysE X return X → option Ledger with
      | BudgetRequest => λ _, Some (mk_ledger true (credit m + 1))
      | BudgetRetry => λ granted,
          if asked m then Some (mk_ledger true (credit m + if granted : bool then 1 else 0)) else None
      | @Await _ _ a => λ _, spend m (is_call a)
      | @AwaitBy _ _ _ a => λ _, spend m (is_call a)
      | _ => λ _, Some m
      end x
  end.

Abbreviation ledgered m p Φ := (monitored ledger_step m p Φ).

(** Programs all of whose effects the ledger passes over. *)
Lemma ledgered_balance {A} m g i (p : prog balE A) Φ :
  (∀ a, Φ m a) → ledgered m (translate (λ X e, @Balance _ g i X e) p) Φ.
Proof. intros HΦ. induction p as [a| |X e k IH]; simpl; auto. Qed.

Lemma ledgered_check {A} m (p : prog rateE A) Φ :
  (∀ a, Φ m a) → ledgered m (translate (λ X e, @RateLimit _ X e) p) Φ.
Proof. intros HΦ. induction p as [a| |X e k IH]; simpl; auto. Qed.

Lemma ledgered_any_healthy m us Φ : (∀ b, Φ m b) → ledgered m (any_upstream_healthy us) Φ.
Proof. intros HΦ. induction us as [|u us IH]; simpl; [auto|]. intros []; simpl; auto. Qed.

Lemma ledgered_finish m c last Φ : (∀ r, Φ m r) → ledgered m (finish_failed c last) Φ.
Proof.
  intros HΦ now. simpl. intros []. intros []. apply HΦ.
Qed.

Section attempts.
Context (c : Attempt) (Hmax : at_max_attempts c < 2 ^ 64).

(** The ledger before an attempt after [k] attempts. *)
Definition ready (m : Ledger) (k : Z) : Prop :=
  asked m = true ∧ 0 ≤ credit m ∧ 0 ≤ k ∧ (k = 0 → 1 ≤ credit m).

Lemma ledgered_backoff m base k Φ : (∀ u, Φ m u) → ledgered m (backoff base k) Φ.
Proof.
  intros HΦ. unfold backoff. apply monitored_bind, monitored_lift. intros exp _.
  apply monitored_bind. intros jitter. simpl. apply monitored_bind, monitored_lift. intros total _ []. apply HΦ.
Qed.

Lemma ledgered_may_attempt m k : ready m k →
  ledgered m (may_attempt c k) (λ m' b, asked m' = true ∧ if b then 1 ≤ credit m' else True).
Proof.
  intros (Ha & Hc & Hk & Hk0). unfold may_attempt. case_decide as Hpos; [|simpl; split; [done|lia]].
  apply monitored_bind. intros allowed. simpl. rewrite Ha. simpl. destruct allowed; simpl; [|done].
  intros []. apply monitored_bind, ledgered_backoff. intros _. simpl. split; [done|lia].
Qed.

Lemma ledgered_after_attempt m u k answer (Φ : Ledger → loop_step → Prop) :
  (∀ r, Φ m (Return r)) → (∀ last, Φ m (Continue k last)) → ledgered m (after_attempt c u k answer) Φ.
Proof.
  intros Hret Hcont. unfold after_attempt. destruct answer as [resp|[]]; try (by apply Hret).
  - destruct (is_server_error (resp_status resp)); intros []; simpl; [intros []; apply Hcont|].
    intros now. simpl. intros []. intros []. apply Hret.
  - intros []. intros []. apply Hcont.
  - intros []. intros []. apply Hcont.
Qed.

Lemma ledgered_make_attempt m i u k : asked m = true → 1 ≤ credit m → 0 ≤ k < at_max_attempts c →
  ledgered m (make_attempt c i u k)
    (λ m' st, match st with Continue k' _ => ready m' k' | _ => True end).
Proof.
  intros Ha Hc Hk. unfold make_attempt, add_w. rewrite checked_fits by (split; lia). simpl.
  unfold on_balancer. apply monitored_bind, ledgered_balance. intros [].
  apply monitored_bind. apply monitored_mono with
    (Φ := λ m' _, asked m' = true ∧ 0 ≤ credit m').
  - unfold forward_once. destruct (uri_parse _) as [uri|]; [|simpl; split; [done|lia]].
    apply monitored_bind, monitored_lift. intros headers _. apply monitored_bind. intros answer. simpl.
    rewrite decide_True by done. destruct answer; simpl; (split; [done|lia]).
  - intros m' answer [Ha' Hc']. apply monitored_bind, ledgered_balance. intros [].
    apply ledgered_after_attempt; [done|]. intros last. split_and!; [done|lia|lia|lia].
Qed.

Lemma ledgered_loop_body m off k last : ready m k →
  ledgered m (loop_body c off k last)
    (λ m' st, match st with Continue k' _ => ready m' k' | _ => True end).
Proof.
  intros Hm. unfold loop_body. case_decide as Hdone; [done|].
  apply monitored_bind, monitored_lift. intros sum _. apply monitored_bind, monitored_lift. intros i _.
  apply monitored_bind, monitored_lift. intros u _. apply monitored_bind.
  assert (∀ skip : bool, ledgered m (if skip then Ret (Continue k last) else
    allowed ← may_attempt c k; if (allowed : bool) then make_attempt c i u k else Ret Break)
    (λ m' st, match st with Continue k' _ => ready m' k' | _ => True end)) as Hgo.
  { intros []; [done|]. apply monitored_bind. eapply monitored_mono; [by apply ledgered_may_attempt|].
    intros m' [] [Ha Hc]; [|done]. apply ledgered_make_attempt; [done|done|]. destruct Hm as (_ & _ & ? & _). lia. }
  unfold skip_upstream. destruct (at_any_healthy c); [intros healthy|]; apply Hgo.
Qed.

Lemma ledgered_attempt_loop offs m k last : ready m k →
  ledgered m (attempt_loop c offs k last) (λ _ _, True).
Proof.
  revert m k last. induction offs as [|off offs IH]; intros m k last Hm; cbn [attempt_loop];
    [by apply ledgered_finish|].
  apply monitored_bind. eapply monitored_mono; [by apply ledgered_loop_body|].
  intros m' [r| |k' last'] Hm'; [done|by apply ledgered_finish|by apply IH].
Qed.
End attempts.

(** A request that starts with an empty ledger keeps it. *)
Lemma ledgered_proxy_request req : ledgered (mk_ledger false 0) (proxy_request req) (λ _ _, True).
Proof.
  unfold proxy_request. intros start. simpl. intros id. simpl. intros cfg. simpl. intros arc. simpl.
  destruct (match_route _ _) as [[i route]|]; [|by intros []].
  intros body. simpl. destruct body as [body|]; [|done].
  apply monitored_bind, ledgered_balance. intros index. apply monitored_bind, ledgered_any_healthy. intros any.
  apply monitored_bind, monitored_lift. intros max Hmax []. simpl.
  apply ledgered_attempt_loop; [|done]. simpl.
  unfold add_w, checked in Hmax. case_decide as Hw; [simplify_eq; by destruct Hw|].
  case_match; simplify_eq. by apply (wrap_in_width 64).
Qed.

(** Every wait has some answer. *)
Definition some_answer {X} (a : awaitE X) : X :=
  match a in awaitE X return X with
  | ReadBody => None
  | Sleep _ => tt
  | Call _ _ => CallFailed
  | Probe _ _ => None
  end.

Lemma ledgered_deadline {A} m d (p : prog sysE A) :
  ledgered m p (λ _ _, True) → ledgered m (with_deadline d p) (λ _ _, True).
Proof.
  revert m. induction p as [a| |X e k IH]; intros m Hp; [done|done|].
  assert (∀ x : X, match ledger_step m (Obs e x) with
                   | Some m' => ledgered m' (with_deadline d (k x)) (λ _ _, True)
                   | None => False
                   end) as Hgo.
  { intros x. specialize (Hp x). cbn [monitored] in Hp. destruct (ledger_step m (Obs e x)); [by apply IH|done]. }
  destruct e as [| | | | | | | | | | | | | | |X a|d' X a]; cbn [with_deadline]; try case_decide; try exact Hgo.
  - intros [x|]; [exact (Hgo x)|]. specialize (Hgo (some_answer a)). simpl in *. by destruct (spend _ _).
  - intros [x|]; [exact (Hgo (Some x))|]. specialize (Hgo None). simpl in *. by destruct (spend _ _).
Qed.

Lemma ledgered_connection T ip req :
  ledgered (mk_ledger false 0) (connection_service T ip req) (λ _ _, True).
Proof.
  unfold connection_service, inject_addr, logging, rate_limit. cbn [remote_addr]. intros t. cbn [ledger_step].
  apply monitored_bind, monitored_bind, ledgered_check. intros allowed.
  apply monitored_mono with (Φ := λ _ _, True); [|by intros m resp _ t2].
  destruct allowed; [|apply monitored_lift; done]. intros now. cbn [ledger_step].
  apply monitored_bind. eapply monitored_mono; [|by intros].
  apply ledgered_deadline. apply monitored_bind.
  eapply monitored_mono; [apply ledgered_proxy_request|]. by intros.
Qed.

(** The background tasks neither call nor ask. *)
Lemma ledgered_apply_config cfg : ledgered (mk_ledger false 0) (apply_config cfg) (λ _ _, True).
Proof. by intros [] []. Qed.

Lemma ledgered_checker iterate n :
  ledgered (mk_ledger false 0) (spawn_active_health_checker iterate n) (λ _ _, True).
Proof.
  unfold spawn_active_health_checker, run_health_check_loop. intros cfg. simpl.
  destruct (health_check (server cfg)) as [hc|]; [|done]. intros cfg'. simpl.
  generalize (iterate (all_upstreams cfg')) as us. intros us.
  assert (ledgered (mk_ledger false 0) (probe_all hc us) (λ m _, m = mk_ledger false 0)) as Hround.
  { induction us as [|u us IH]; cbn [probe_all]; [done|].
    apply monitored_bind. intros answer. simpl. by destruct (probe_ok answer); intros []. }
  induction n as [|n IH]; cbn [health_check_rounds]; [done|]. intros []. simpl.
  apply monitored_bind. eapply monitored_mono; [exact Hround|]. intros m _ ->. exact IH.
Qed.
End ledger.

(** ** Counting *)
Section counts.
Context `{Hyper, Platform}.

Definition total (f : obs sysE → Z) (tr : list (obs sysE)) : Z := foldr (λ o n, f o + n) 0 tr.

Lemma total_app f tr1 tr2 : total f (tr1 ++ tr2) = total f tr1 + total f tr2.
Proof. induction tr1 as [|o tr1 IH]; simpl; [done|]. rewrite IH. lia. Qed.

#[global] Instance total_proper f : Proper ((≡ₚ) ==> (=)) (total f).
Proof. intros l l' Hp. induction Hp; simpl; lia. Qed.

(** Requests the budget recorded, retries it granted, calls that were begun
    (whether or not they were answered). *)
Definition is_recorded (o : obs sysE) : Z :=
  match o with @Obs _ _ e _ => match e with BudgetRequest => 1 | _ => 0 end end.
Definition is_granted (o : obs sysE) : Z :=
  match o with
  | @Obs _ _ e x =>
      match e in sysE X return X → Z with BudgetRetry => λ b, if b : bool then 1 else 0 | _ => λ _, 0 end x
  end.
Definition is_called (o : obs sysE) : Z :=
  match o with
  | @Obs _ _ e _ =>
      match e with @Await _ _ a | @AwaitBy _ _ _ a => if is_call a then 1 else 0 | _ => 0 end
  end.

Definition requests_recorded : list (obs sysE) → Z := total is_recorded.
Definition retries_granted : list (obs sysE) → Z := total is_granted.
Definition upstream_calls : list (obs sysE) → Z := total is_called.

Lemma ledger_step_balance m o m' : ledger_step m o = Some m' → 0 ≤ credit m →
  credit m' = credit m + is_recorded o + is_granted o - is_called o ∧ 0 ≤ credit m'.
Proof.
  destruct o as [X e x]. destruct e; simpl; intros Hm Hc; simplify_eq/=; try lia.
  - destruct (asked m); simplify_eq/=. destruct x; lia.
  - unfold spend in Hm. destruct (is_call a); [case_decide|]; simplify_eq/=; lia.
  - unfold spend in Hm. destruct (is_call a); [case_decide|]; simplify_eq/=; lia.
Qed.

Lemma observe_balance m tr m' : observe ledger_step m tr = Some m' → 0 ≤ credit m →
  credit m' = credit m + requests_recorded tr + retries_granted tr - upstream_calls tr ∧ 0 ≤ credit m'.
Proof.
  revert m. induction tr as [|o tr IH]; intros m; simpl; [intros [= ->]; simpl; lia|].
  intros (m1 & Hm1 & Hr)%bind_Some Hc. destruct (ledger_step_balance _ _ _ Hm1 Hc) as [Heq Hc1].
  destruct (IH m1 Hr Hc1) as [Heq' ?]. unfold requests_recorded, retries_granted, upstream_calls in *.
  simpl. lia.
Qed.

(** Nothing asks for a retry before a request was recorded. *)
Lemma observe_asked m tr1 b tr2 m' :
  observe ledger_step m (tr1 ++ Obs BudgetRetry b :: tr2) = Some m' → asked m = false →
  Obs BudgetRequest tt ∈ tr1.
Proof.
  revert m. induction tr1 as [|[X e x] tr1 IH]; intros m; cbn [observe app].
  - intros (m1 & Hm1 & _)%bind_Some Hf. simpl in Hm1. by rewrite Hf in Hm1.
  - intros (m1 & Hm1 & Hr)%bind_Some Hf.
    destruct e; simpl in Hm1; simplify_eq/=; try (right; by eapply IH).
    + destruct x. left.
    + by rewrite Hf in Hm1.
    + right. eapply IH; [exact Hr|]. unfold spend in Hm1. destruct (is_call a); [case_decide|]; by simplify_eq/=.
    + right. eapply IH; [exact Hr|]. unfold spend in Hm1. destruct (is_call a); [case_decide|]; by simplify_eq/=.
Qed.

Lemma observe_snoc m tr o m1 m2 :
  observe ledger_step m tr = Some m1 → ledger_step m1 o = Some m2 → observe ledger_step m (tr ++ [o]) = Some m2.
Proof.
  revert m. induction tr as [|o' tr IH]; intros m; simpl; [intros [= ->] ->; done|].
  intros (m' & -> & Hr)%bind_Some Ho. simpl. by apply IH.
Qed.

(** *** The budget's history *)

Definition budget_op_of (en : entry) : option budget_op :=
  match what en with
  | @Obs _ _ e _ =>
      match e with
      | BudgetRequest => Some (BRequest (clock (outside en) 0%nat))
      | BudgetRetry => Some (BRetry (clock (outside en)))
      | _ => None
      end
  end.

Definition budget_ops : list entry → list budget_op := omap budget_op_of.

Lemma handle_budget i o X (e : sysE X) s s' x : handle o X e s = (s', Value x) →
  let ops := option_list (budget_op_of (mk_entry i o (Obs e x))) in
  retry_budget s' = budget_run (retry_budget s) ops ∧
  granted (retry_budget s) ops = is_granted (Obs e x) ∧ request_count ops = is_recorded (Obs e x).
Proof.
  destruct e; cbn [handle]; unfold zoom; intros Heq; try (by simplify_eq/=).
  - destruct (cells s !! (gen, route)); by simplify_eq/=.
  - simplify_eq/=. unfold budget_run. simpl. by destruct (record_request (retry_budget s) _) as [? []].
  - simplify_eq/=. destruct (allow_retry (retry_budget s) (clock o)) as [b r]. simplify_eq/=.
    split_and!; [done| |done]. by destruct x.
Qed.

Lemma replays_budget s h s' : replays s h s' →
  granted (retry_budget s) (budget_ops h) = retries_granted (what <$> h) ∧
  request_count (budget_ops h) = requests_recorded (what <$> h).
Proof.
  revert s. induction h as [|[i o [X e x]] h IH]; intros s; [done|].
  intros (s1 & Hh & Hr). destruct (handle_budget i _ _ _ _ _ _ Hh) as (Hb & Hg & Hn).
  destruct (IH s1 Hr) as [IHg IHn]. rewrite Hb in IHg.
  unfold budget_ops, retries_granted, requests_recorded in *. cbn [omap list_omap fmap list_fmap total foldr what].
  destruct (budget_op_of _) as [op|].
  - change (option_list (Some op)) with [op] in *. cbn [budget_run foldl granted] in *.
    rewrite request_count_cons in Hn |- *. change (request_count []) with 0 in Hn. unfold total in *. lia.
  - change (option_list None) with (@nil budget_op) in *. cbn [budget_run foldl granted] in *.
    change (request_count []) with 0 in Hn. unfold total in *. lia.
Qed.
End counts.

(** ** The pool *)
Section pool.
Context `{HyperLaws, Platform} (overall_timeout : Duration) (iterate : list string → list string).

(** A task's ledger is in order. *)
Definition solvent (t : task) : Prop :=
  match t with
  | Task _ p tr _ => ∃ m, observe ledger_step (mk_ledger false 0) tr = Some m ∧
      monitored ledger_step m p (λ _ _, True)
  end.

Lemma reachable_solvent s0 s pool : state_ok s0 → reachable overall_timeout iterate s0 (s, pool) →
  Forall solvent pool.
Proof.
  intros Hs0 Hr. eapply (reachable_tasks overall_timeout iterate (λ _ _ t, solvent t)); [| |done|done|done].
  - intros C G t _ [ip req|cfg Hcfg|n]; (eexists; split; [reflexivity|]).
    + apply ledgered_connection.
    + apply ledgered_apply_config.
    + apply ledgered_checker.
  - intros C G A og X e k x tr _ _ (m & Hm & Hp). specialize (Hp x).
    destruct (ledger_step m (Obs e x)) as [m'|] eqn:Hstep; [|done]. exists m'. split; [|done].
    by eapply observe_snoc.
Qed.

Lemma solvent_calls pool : Forall solvent pool →
  upstream_calls (pool ≫= task_trace)
  ≤ requests_recorded (pool ≫= task_trace) + retries_granted (pool ≫= task_trace).
Proof.
  induction 1 as [|[A og p tr live] pool (m & Hm & _) _ IH]; [done|]. rewrite bind_cons.
  unfold upstream_calls, requests_recorded, retries_granted in *. rewrite !total_app. cbn [task_trace].
  apply observe_balance in Hm as [Heq Hc]; [|done]. simpl in Heq.
  unfold upstream_calls, requests_recorded, retries_granted in Heq. lia.
Qed.

(** The first call on the budget records a request. *)
Lemma budget_starts s0 c h : is_history s0 c h → Forall solvent c.2 →
  budget_ops h = [] ∨ ∃ now ops, budget_ops h = BRequest now :: ops.
Proof.
  intros Hh Hall. destruct (budget_ops h) as [|[now|clk] ops] eqn:Hops; [by left|right; by exists now, ops|].
  exfalso. assert (∃ h1 i o b h2, h = h1 ++ mk_entry i o (Obs BudgetRetry b) :: h2 ∧ budget_ops h1 = [])
    as (h1 & i & o & b & h2 & -> & Hnone).
  { clear Hh. revert Hops. induction h as [|[i o [X e x]] h IH]; [done|].
    unfold budget_ops in *. cbn [omap list_omap].
    destruct e; simpl; try (intros Hops; destruct (IH Hops) as (h1 & i' & o' & b & h2 & -> & Hn);
      eexists (mk_entry i o (Obs _ _) :: h1), i', o', b, h2; by split).
    - done.
    - intros _. by exists [], i, o, x, h. }
  pose proof (hist_who _ _ _ Hh) as Hwho. apply Forall_app in Hwho as [_ [Hi _]%Forall_cons]. simpl in Hi.
  destruct (lookup_lt_is_Some_2 _ _ Hi) as [t Ht]. pose proof (hist_task _ _ _ Hh i t Ht) as Htr.
  rewrite Forall_lookup in Hall. specialize (Hall i t Ht). destruct t as [A og p tr live].
  destruct Hall as (m & Hm & _). cbn [task_trace] in Htr. subst tr.
  unfold of_task in Hm. rewrite filter_app, fmap_app, filter_cons in Hm. cbn [who] in Hm.
  rewrite decide_True in Hm by done. cbn [fmap list_fmap what] in Hm.
  apply observe_asked in Hm; [|done].
  apply list_elem_of_fmap in Hm as ([i' o' ob] & Hob & Hin). apply list_elem_of_filter in Hin as [_ Hin].
  simpl in Hob. subst ob.
  assert (BRequest (clock o' 0%nat) ∈ budget_ops h1) as Hbad.
  { apply list_elem_of_omap. by eexists. }
  rewrite Hnone in Hbad. by apply not_elem_of_nil in Hbad.
Qed.

(** C11. Amplification: while all of the proxy's clock readings lie in one window
    of the retry budget, the upstream calls of all its requests together,
    answered or cut, are at most the requests it has recorded and, on top, the
    budgeted percentage of them, rounded up; whatever the interleaving, the
    routes, the retry limits of the configurations and the upstreams' answers, for
    a whole percentage and as long as binary64 is exact on the products. *)
Theorem amplification_bounded (s0 s : AppState) (pool : list task) (h : list entry)
    (p window_secs : Z) (lo : Instant) :
  state_ok s0 → retry_budget s0 = budget_new (f64_of_Z p) window_secs →
  reachable overall_timeout iterate s0 (s, pool) → is_history s0 (s, pool) h →
  let n := requests_recorded (pool ≫= task_trace) in
  0 ≤ p < 2 ^ 53 → n * p < 2 ^ 51 → n < 2 ^ 53 → instant_min ≤ lo - from_secs window_secs →
  Forall (λ en, ∀ k, lo ≤ clock (outside en) k < lo + from_secs window_secs) h →
  upstream_calls (pool ≫= task_trace) ≤ n + (n * p + 99) / 100.
Proof.
  intros Hs0 Hb Hr Hh n Hp Hnp Hn Hmin Hclk. pose proof (reachable_solvent s0 s pool Hs0 Hr) as Hall.
  pose proof (solvent_calls pool Hall) as Hcalls. fold n in Hcalls.
  pose proof (hist_replays _ _ _ Hh) as Hrep. cbn [fst] in Hrep.
  destruct (replays_budget s0 h s Hrep) as [Hg Hc].
  unfold requests_recorded, retries_granted in Hg, Hc, Hcalls. rewrite (hist_all _ _ _ Hh) in Hg, Hc.
  cbn [snd] in Hg, Hc. unfold requests_recorded in n. fold n in Hc. rewrite <-Hg, Hb in Hcalls.
  assert (Forall (reads_in lo (lo + from_secs window_secs)) (budget_ops h)) as Hreads.
  { clear -Hclk. induction Hclk as [|[i o [X e x]] h Hen _ IH]; [constructor|].
    unfold budget_ops in *. cbn [omap list_omap]. simpl in Hen.
    destruct e; simpl; try done; constructor; try done; apply Hen. }
  assert (0 ≤ n) as Hn0 by (rewrite <-Hc; unfold request_count, len; lia).
  destruct (budget_starts s0 _ h Hh Hall) as [Hnil|(now & ops & Hops)].
  - rewrite Hnil in Hcalls. simpl in Hcalls. assert (0 ≤ (n * p + 99) / 100) by (apply Z.div_pos; nia). lia.
  - rewrite Hops in *. pose proof (granted_in_window p window_secs lo now ops) as Hwin. cbv zeta in Hwin.
    rewrite Hc in Hwin. specialize (Hwin ltac:(lia) ltac:(lia) Hnp Hn Hmin Hreads). lia.
Qed.
End pool.

(** ** Witness: a request that waits for its second upstream, after a retry *)

Lemma amplification_bounded_witness :
  upstream_calls (waiting_pool ≫= task_trace) ≤ 1 + (1 * 20 + 99) / 100.
Proof.
  assert (requests_recorded (waiting_pool ≫= task_trace) = 1) as Hone by (vm_compute; reflexivity).
  rewrite <-Hone.
  refine (amplification_bounded (from_secs 30) id sample_state waiting.1 waiting_pool waiting_history
    20 10 (from_secs 995) (proj1 sample_state_good) _ waiting_reachable waiting_is_history _ _ _ _ _).
  - vm_compute. reflexivity.
  - split; [discriminate|reflexivity].
  - rewrite Hone. reflexivity.
  - rewrite Hone. reflexivity.
  - discriminate.
  - unfold waiting_history. apply Forall_fmap, Forall_true. intros ob k. split; [discriminate|reflexivity].
Defined.
