(* ===== verification/Requests.v ===== *)
(** Requests: what the tasks of the running proxy do to the outside.

    [ProxyFacts] is about a request that runs against one configuration and one
    router.  Here the request is a task of the pool, and reloads may replace
    both at any moment: it still follows the retry policy of one configuration
    that was current and one router generation that was stored, and no other
    task calls an upstream or records a metric. *)

From S2P Require Import Prelude Float64 Prog Config Balancer Http Errors Router Health.
From S2P Require Import RetryBudget RateLimiter Metrics State Trace Proxy Middleware RetryPolicy.
From S2P Require Import PolicyFacts ProxySpec Sample ProxyFacts HeaderFacts MiddlewareFacts.
From S2P Require Import Reload HealthCheck Total CutRequests System Tasks ActiveConnections Server.
From stdpp Require Import pretty.
Local Open Scope Z_scope.

(** The request as [InjectAddrService] hands it on. *)
Definition from_address `{Hyper} (ip : IpAddr) (req : Request) : Request :=
  mk_request (req_method req) (req_uri req) (req_headers req) (Some ip).

(** The rate limiter refused the client a token. *)
Definition refused `{Hyper} (req : Request) (tr : list (obs sysE)) : Prop :=
  ∃ ip, remote_addr req = Some ip ∧ Obs (RateLimit (RateAcquire ip)) false ∈ tr.

(** A wait ended because its deadline had passed. *)
Definition timed_out `{Hyper} (tr : list (obs sysE)) : Prop :=
  ∃ X d (a : awaitE X), Obs (AwaitBy d a) None ∈ tr.

Section answers.
Context `{HyperLaws, Platform} (C : list Config) (G : list Router).

(** Some configuration of [C] and some generation of [G] allow the events. *)
Definition follows_policy (req : Request) (es : list event) (res : result Response ProxyError) : Prop :=
  ∃ cfg arc, cfg ∈ C ∧ G !! generation arc = Some (the_router arc) ∧
    request_policy cfg (the_router arc) req es res.

(** How a finished request was answered. *)
Inductive answered (req : Request) (tr : list (obs sysE)) : Response → Prop :=
| limited resp : too_many_requests = Value resp → refused req tr → events tr = [] → answered req tr resp
| proxied res : follows_policy req (events tr) res → answered req tr (respond res)
| cut es res : follows_policy req (events tr ++ es) res → timed_out tr →
    answered req tr (build_response 504 "Request timed out").

Context (HC : Forall usable_config C) (HC0 : C ≠ []) (HG : ∃ arc, may_router (known G) arc).

Lemma seen_built arc : may_router (seen C G) arc → Forall built_route (router_routes (the_router arc)).
Proof.
  intros [_ Hr]. eapply Forall_impl; [exact Hr|]. intros route (rc & -> & _ & ? & _ & ?). by exists rc.
Qed.

Lemma seen_answers X (e : sysE X) : enabled G X e → ∃ x, sys_ok (seen C G) X e x.
Proof.
  destruct e as [| |hi| | | | |g i X e| | | | | |X e| |X a|d X a]; simpl; intros He; try by eexists.
  - by exists 0.
  - by exists ""%string.
  - destruct C as [|cfg C']; [done|]. exists cfg. by left.
  - exact HG.
  - destruct e; by exists 0.
  - by exists true.
  - by exists true.
  - destruct e; [by exists true|by exists 0|by exists tt|by exists true].
  - destruct a; [by exists None|by exists tt|by exists CallFailed|by exists None].
  - by exists None.
Qed.

(** A total program that was run so far can run to its end. *)
Lemma seen_completes {A} (p q : prog sysE A) tr :
  no_panic (sys_ok (known G)) (enabled G) p (λ _, True) → steps (sys_ok (seen C G)) p tr q →
  ∃ tr' a, steps (sys_ok (seen C G)) q tr' (Ret a).
Proof.
  intros Hp Hs.
  assert (no_panic (sys_ok (known G)) (enabled G) q (λ _, True)) as Hq.
  { eapply no_panic_steps; [exact Hp|]. eapply steps_weaken; [|exact Hs]. intros X e x. by apply seen_known. }
  apply (no_panic_extends _ _ _ q _ seen_answers (λ X e x, seen_known C G X e x HC) Hq).
Qed.

Lemma proxied_policy req tr res :
  steps (sys_ok (seen C G)) (proxy_request req) tr (Ret res) → follows_policy req (events tr) res.
Proof.
  intros Hs. eapply (emits_steps _ _ _ _ _ (proxy_request_shows (seen C G) req seen_built)) in Hs
    as (cfg & arc & Hcfg & [Harc _] & Hp). by exists cfg, arc.
Qed.

Lemma cut_policy req tr q : steps (sys_ok (seen C G)) (proxy_request req) tr q →
  ∃ es res, follows_policy req (events tr ++ es) res.
Proof.
  intros Hs. destruct (seen_completes _ _ _ (proxy_request_total G req) Hs) as (tr' & res & Hrest).
  exists (events tr'), res. rewrite <-events_app. apply proxied_policy. by eapply steps_app.
Qed.

Lemma checks_silent {A} (p : prog rateE A) tr a :
  steps (sys_ok (seen C G)) (translate (λ X e, RateLimit e) p) tr (Ret a) → events tr = [].
Proof.
  revert tr. induction p as [b| |X e k IH]; intros tr Hs.
  - by apply steps_ret_inv in Hs as [-> _].
  - by apply steps_inv in Hs as [[_ ?]|[]].
  - apply steps_vis_ret in Hs as (x & tr' & -> & _ & Hs). rewrite events_cons. simpl. by eapply IH.
Qed.

Lemma check_refused ip tr :
  steps (sys_ok (seen C G)) (translate (λ X e, RateLimit e) (check ip)) tr (Ret false) →
  Obs (RateLimit (RateAcquire ip)) false ∈ tr.
Proof.
  intros Hs. apply steps_vis_ret in Hs as (enabled & tr1 & -> & _ & Hs). right. destruct enabled.
  2: { by apply steps_ret_inv in Hs as [_ [=]]. }
  apply steps_vis_ret in Hs as (n & tr2 & -> & _ & Hs). right.
  assert (∀ tr, steps (sys_ok (seen C G)) (Vis (RateLimit (RateAcquire ip)) Ret) tr (Ret false) →
    Obs (RateLimit (RateAcquire ip)) false ∈ tr) as Hlast.
  { intros tr Ht. apply steps_vis_ret in Ht as (b & tr3 & -> & _ & Ht).
    apply steps_ret_inv in Ht as [_ [= <-]]. by left. }
  revert Hs. cbn [negb]. simpl. case_decide; intros Hs; [|by apply Hlast].
  apply steps_vis_ret in Hs as (u & tr3 & -> & _ & Hs). right. by apply Hlast.
Qed.

Lemma timeout_answered T req tr resp :
  steps (sys_ok (seen C G)) (request_timeout T proxy_service req) tr (Ret resp) → answered req tr resp.
Proof.
  intros Hs. apply request_timeout_steps in Hs as (tr1 & p & Hs & [Heq _] & Hp).
  apply steps_bind_inv in Hs as [(q & Hq & Hqp)|(res & tr2 & tr3 & -> & Hq & Hret)].
  - destruct Hp as [->|[Hp ->]].
    + destruct q; try done. injection Hqp as ->. rewrite <-(app_nil_r tr1) in Hq.
      apply proxied. rewrite Heq. apply proxied_policy. by rewrite app_nil_r in Hq.
    + destruct (cut_policy _ _ _ Hq) as (es & res & Hpol). destruct Hp as (X & a & d & tr0 & -> & _).
      eapply cut; [by rewrite Heq|]. exists X, d, a. apply elem_of_app. right. by left.
  - apply steps_ret_inv in Hret as [-> ->]. rewrite app_nil_r in Heq.
    destruct Hp as [[= <-]|[(X & a & d & tr0 & _ & [(k & ?)|(d' & k & ?)]) _]]; [|done|done].
    apply proxied. rewrite Heq. by apply proxied_policy.
Qed.

Lemma connection_answered T ip req tr resp :
  steps (sys_ok (seen C G)) (connection_service T ip req) tr (Ret resp) →
  answered (from_address ip req) tr resp.
Proof.
  unfold connection_service, inject_addr, logging. fold (from_address ip req). intros Hs.
  remember (rate_limit (request_timeout T proxy_service) (from_address ip req)) as p eqn:Hinner.
  apply steps_vis_ret in Hs as (t1 & tr1 & -> & _ & Hs). simpl in Hs.
  apply steps_bind_ret in Hs as (resp' & tr2 & tr3 & -> & Hs & Hlog).
  apply steps_vis_ret in Hlog as (t2 & tr4 & -> & _ & Hret). apply steps_ret_inv in Hret as [-> [= ->]].
  assert (∀ tr resp, answered (from_address ip req) tr resp → ∀ pre, events pre = [] →
    answered (from_address ip req) (Obs Now t1 :: (pre ++ tr) ++ [Obs Now t2]) resp) as Hsame.
  { intros tr r Hans pre Hpre.
    assert (events (Obs Now t1 :: (pre ++ tr) ++ [Obs Now t2]) = events tr) as Heq
      by (by rewrite events_cons, !events_app, Hpre, app_nil_r).
    assert (∀ o, o ∈ tr → o ∈ Obs Now t1 :: (pre ++ tr) ++ [Obs Now t2]) as Hin
      by (intros o Ho; right; rewrite !elem_of_app; tauto).
    destruct Hans as [r Hr (ip' & Hip & Href) He|res Hp|es res Hp (X & d & a & Ht)].
    - apply limited; [done|exists ip'; auto|by rewrite Heq].
    - apply proxied. by rewrite Heq.
    - eapply cut; [by rewrite Heq|]. exists X, d, a. auto. }
  subst p. unfold rate_limit in Hs. cbn [from_address remote_addr] in Hs.
  apply steps_bind_ret in Hs as (allowed & tr5 & tr6 & -> & Hcheck & Hs). destruct allowed.
  - apply checks_silent in Hcheck. apply Hsame; [by eapply timeout_answered|done].
  - pose proof (check_refused _ _ Hcheck) as Href. apply checks_silent in Hcheck.
    destruct too_many_requests as [r|] eqn:Hr; simpl in Hs; [|by apply steps_inv in Hs as [[_ ?]|[]]].
    apply steps_ret_inv in Hs as [-> [= ->]]. rewrite <-(app_nil_l (tr5 ++ [])). apply Hsame; [|done].
    apply limited; [done| |by rewrite app_nil_r].
    exists ip. split; [done|]. by rewrite app_nil_r.
Qed.
End answers.

(** ** The other tasks *)
Section background.
Context `{Hyper}.

Definition calls_nobody (X : Type) (e : sysE X) : Prop :=
  match e with
  | Metric _ => False
  | @Await _ _ a | @AwaitBy _ _ _ a => match a with Call _ _ => False | _ => True end
  | _ => True
  end.

Abbreviation bystander p := (no_panic (λ _ _ _, True) calls_nobody p (λ _, True)).

Lemma apply_config_bystander cfg : bystander (apply_config cfg).
Proof. by repeat split. Qed.

Lemma checker_bystander iterate n : bystander (spawn_active_health_checker iterate n).
Proof.
  unfold spawn_active_health_checker, run_health_check_loop. split; [done|]. intros cfg _. simpl.
  destruct (health_check (server cfg)) as [hc|]; [|done]. split; [done|]. intros cfg' _. simpl.
  generalize (iterate (all_upstreams cfg')) as us. intros us.
  assert (bystander (probe_all hc us)) as Hround.
  { induction us as [|u us IH]; cbn [probe_all]; [done|].
    split; [done|]. intros answer _. simpl. by destruct (probe_ok answer). }
  induction n as [|n IH]; cbn [health_check_rounds]; [done|]. split; [done|]. intros x _. simpl.
  apply no_panic_bind. eapply no_panic_mono; [exact Hround|]. intros _ _. exact IH.
Qed.

(** The metrics a trace recorded. *)
Definition recorded_metrics (tr : list (obs sysE)) : list metric_call := omap ev_metric (events tr).

Lemma recorded_app tr1 tr2 : recorded_metrics (tr1 ++ tr2) = recorded_metrics tr1 ++ recorded_metrics tr2.
Proof. unfold recorded_metrics. by rewrite events_app, omap_app. Qed.

Lemma bystander_trace {A} ok (p q : prog sysE A) tr : bystander p → steps ok p tr q →
  calls (events tr) = [] ∧ recorded_metrics tr = [].
Proof.
  intros Hp Hs. assert (steps (λ _ _ _, True) p tr q) as Hs' by (by eapply steps_weaken; [|exact Hs]).
  pose proof (no_panic_trace _ _ _ _ _ _ Hp Hs') as Htr. clear Hs Hs' Hp. unfold recorded_metrics.
  induction Htr as [|[X e x] tr He _ [IH1 IH2]]; [done|]. rewrite events_cons, calls_app, omap_app, IH1, IH2.
  destruct e as [| | | | | | | | | | | | | | |X a|d X a]; try done; destruct a; try done; by destruct x.
Qed.
End background.

(** ** The tasks of a reachable pool *)
Section pool.
Context `{HyperLaws, Platform} (overall_timeout : Duration) (iterate : list string → list string).

Definition background (og : origin) : Prop := match og with ForRequest _ _ => False | _ => True end.

(** A task is a run of what it was spawned for. *)
Inductive run_of (C : list Config) (G : list Router) : origin → ∀ A, prog sysE A → list (obs sysE) → Prop :=
| run_request ip req p tr : steps (sys_ok (seen C G)) (connection_service overall_timeout ip req) tr p →
    run_of C G (ForRequest ip req) Response p tr
| run_background og (p q : prog sysE unit) tr : background og →
    no_panic (λ _ _ _, True) calls_nobody p (λ _, True) →
    steps (sys_ok (seen C G)) p tr q → run_of C G og unit q tr.

Definition task_run (C : list Config) (G : list Router) (t : task) : Prop :=
  match t with @Task _ A og p tr _ => run_of C G og A p tr end.

Lemma spawnable_run C G t : spawnable overall_timeout iterate t → task_run C G t.
Proof.
  intros [ip req|cfg Hcfg|n]; simpl.
  - apply (run_request _ _ ip req). constructor.
  - eapply run_background; [done|apply (apply_config_bystander cfg)|constructor].
  - eapply run_background; [done|apply (checker_bystander iterate n)|constructor].
Qed.

Lemma run_step C G og A (q : prog sysE A) tr : run_of C G og A q tr →
  ∀ X (e : sysE X) k x, q = Vis e k → sys_ok (seen C G) X e x → run_of C G og A (k x) (tr ++ [Obs e x]).
Proof.
  intros [ip req p tr' Hs|og' p p' tr' Hog Hp Hs] X e k x -> Hx.
  - eapply run_request, steps_snoc; [exact Hs|done].
  - eapply run_background, steps_snoc; [done|exact Hp|exact Hs|done].
Qed.

Lemma reachable_runs s0 s pool : state_ok s0 → reachable overall_timeout iterate s0 (s, pool) →
  Forall usable_config (configs_of s0 pool) ∧ Forall (task_run (configs_of s0 pool) (routers s)) pool.
Proof.
  intros Hs0 Hr. eapply (reachable_tasks overall_timeout iterate task_run); [| |done|done|done].
  - intros C G t _. apply spawnable_run.
  - intros C G A og X e k x tr _ Hx Ht. by eapply run_step.
Qed.

(** What is left of a task, and what it did, conform: a request can be run to
    its end so that it was answered, and is answered when it has returned;
    another task neither calls nor counts.  The request is the one the task was
    spawned for. *)
Inductive conforms (C : list Config) (G : list Router) : origin → ∀ A, prog sysE A → list (obs sysE) → Prop :=
| request_conforms ip req p tr tr' resp :
    answered C G (from_address ip req) (tr ++ tr') resp →
    (∀ resp', p = Ret resp' → tr' = [] ∧ resp' = resp) →
    conforms C G (ForRequest ip req) Response p tr
| background_conforms og (p : prog sysE unit) tr : background og →
    calls (events tr) = [] → recorded_metrics tr = [] → conforms C G og unit p tr.

Lemma current_known s : state_ok s → ∃ arc, may_router (known (routers s)) arc.
Proof.
  intros ((_ & _ & _ & Hcur & _) & Hall & _). destruct (lookup_lt_is_Some_2 _ _ Hcur) as [r Hr].
  exists (mk_router_arc (current_router s) r). split; [done|]. by eapply Forall_lookup_1 in Hall.
Qed.

Lemma run_conforms C G og A (p : prog sysE A) tr : Forall usable_config C → C ≠ [] →
  (∃ arc, may_router (known G) arc) → run_of C G og A p tr → conforms C G og A p tr.
Proof.
  intros HC HC0 HG [ip req q tr0 Hs|og' q0 q tr0 Hog Hq Hs].
  - destruct (seen_completes C G HC HC0 HG _ _ _ (connection_service_total G overall_timeout ip req) Hs)
      as (tr' & resp & Hrest).
    assert (steps (sys_ok (seen C G)) (connection_service overall_timeout ip req) (tr0 ++ tr') (Ret resp))
      as Hall by (by eapply steps_app).
    apply (request_conforms _ _ ip req _ _ tr' resp); [by eapply connection_answered|].
    intros resp' ->. apply steps_ret_inv in Hrest as [-> [= ->]]. done.
  - destruct (bystander_trace _ _ _ _ Hq Hs). by apply background_conforms.
Qed.

Lemma reachable_conforms s0 s pool : state_ok s0 → reachable overall_timeout iterate s0 (s, pool) →
  Forall (λ t, match t with @Task _ A og p tr _ => conforms (configs_of s0 pool) (routers s) og A p tr end) pool.
Proof.
  intros Hs0 Hr. destruct (reachable_runs s0 s pool Hs0 Hr) as [Hu Hall].
  destruct (reachable_ok _ _ s0 (s, pool) Hs0 Hr) as [Hs _].
  eapply Forall_impl; [exact Hall|]. intros [A og p tr live] Ht.
  apply run_conforms; [done|done|by apply current_known|done].
Qed.

(** C4. The whole system follows the retry policy: in every state it can reach,
    whatever usable configurations were applied in the meantime, each task that
    was spawned for a request and has returned was refused a token by the rate
    limiter and shows no event, or shows the events and gives the response the
    policy allows for this very request, from its client's address, under one
    configuration that was current and one router generation that was stored,
    or was cut by the overall timeout at a wait after a prefix of such events; a
    request still under way, or dropped, can be continued to one of these ends;
    and the background tasks call no upstream and record no metric. *)
Theorem requests_follow_policy (s0 s : AppState) (pool : list task) :
  state_ok s0 → reachable overall_timeout iterate s0 (s, pool) →
  Forall usable_config (configs_of s0 pool) ∧
  ∀ t, t ∈ pool → match t with
    | @Task _ A og p tr _ => conforms (configs_of s0 pool) (routers s) og A p tr
    end.
Proof.
  intros Hs0 Hr. split; [by destruct (reachable_runs s0 s pool Hs0 Hr)|].
  apply Forall_forall. by apply reachable_conforms.
Qed.

Lemma follows_calls C G req es es' res : Forall usable_config C → follows_policy C G req (es ++ es') res →
  ∃ cfg arc, cfg ∈ C ∧ G !! generation arc = Some (the_router arc) ∧
    calls_within cfg (the_router arc) req (calls es).
Proof.
  intros HC (cfg & arc & Hcfg & Harc & Hp). exists cfg, arc. split_and!; [done|done|].
  eapply Forall_forall in HC as [_ (_ & Hmax & _)]; [|exact Hcfg].
  apply policy_calls_within in Hp; [|done]. rewrite calls_app in Hp. by eapply calls_within_prefix.
Qed.

(** C9. The limits hold for everybody: in every state the proxy can reach, each
    task, finished, running, cut or dropped, has called no upstream, or at most
    [max_retries + 1] different upstreams of one route, under a configuration
    that was current and a router generation that was stored. *)
Theorem calls_bounded_everywhere (s0 s : AppState) (pool : list task) :
  state_ok s0 → reachable overall_timeout iterate s0 (s, pool) →
  ∀ t, t ∈ pool → calls (events (task_trace t)) = [] ∨
    ∃ ip req cfg arc, task_origin t = ForRequest ip req ∧ cfg ∈ configs_of s0 pool ∧
      routers s !! generation arc = Some (the_router arc) ∧
      calls_within cfg (the_router arc) (from_address ip req) (calls (events (task_trace t))).
Proof.
  intros Hs0 Hr t Ht. destruct (reachable_runs s0 s pool Hs0 Hr) as [Hu _].
  pose proof (reachable_conforms s0 s pool Hs0 Hr) as Hall. rewrite Forall_forall in Hall.
  specialize (Hall t Ht). destruct t as [A og p tr live]. cbn [task_trace].
  destruct Hall as [ip req p tr tr' resp Hans _|og' p tr _ Hcalls _]; [|by left].
  destruct Hans as [resp _ _ He|res Hp|es res Hp _]; rewrite events_app in *.
  - apply app_eq_nil in He as [-> _]. by left.
  - destruct (follows_calls _ _ _ _ _ _ Hu Hp) as (cfg & arc & ?). right.
    by exists ip, req, cfg, arc.
  - rewrite <-app_assoc in Hp. destruct (follows_calls _ _ _ _ _ _ Hu Hp) as (cfg & arc & ?). right.
    by exists ip, req, cfg, arc.
Qed.

(** *** What the metrics count *)

Definition pool_metrics (pool : list task) : list metric_call :=
  pool ≫= λ t, recorded_metrics (task_trace t).

Lemma handle_metric o X (e : sysE X) s s' x : handle o X e s = (s', Value x) →
  metric_calls (metrics s') = metric_calls (metrics s) ++ recorded_metrics [Obs e x].
Proof.
  unfold recorded_metrics. destruct e; cbn [handle]; unfold zoom; intros Heq;
    try (by simplify_eq/=; rewrite app_nil_r).
  - destruct (cells s !! (gen, route)); simplify_eq/=; by rewrite app_nil_r.
  - unfold metrics_call in Heq. case_decide; by simplify_eq/=.
  - simplify_eq/=. destruct a; simpl; by rewrite app_nil_r.
  - simplify_eq/=. destruct a, (waited_by o _ deadline _); simpl; by rewrite app_nil_r.
Qed.

Definition metrics_ok (s0 : AppState) (c : AppState * list task) : Prop :=
  metric_calls (metrics c.1) ≡ₚ metric_calls (metrics s0) ++ pool_metrics c.2.

Lemma step_metrics s0 c c' : sys_step overall_timeout iterate c c' →
  system_ok c → metrics_ok s0 c → metrics_ok s0 c'.
Proof.
  intros Hstep Hok Hm. unfold metrics_ok in *. destruct Hstep as
    [l1 l2 A og X e k tr o s s' x Ho Hh|l1 l2 A og X e k tr o s s' Ho Hh|l1 l2 A og X e k tr s Hw|l t s Ht];
    simpl in *.
  - rewrite (handle_metric _ _ _ _ _ _ Hh), Hm. unfold pool_metrics. rewrite !bind_app, !bind_cons.
    cbn [task_trace]. rewrite recorded_app. solve_Permutation.
  - pose proof (effect_enabled _ _ _ _ _ _ _ _ _ _ Hok) as He. destruct Hok as [Hs _].
    destruct (handle_serves X e o s Hs Ho He) as (s1 & x1 & Heq & _). congruence.
  - rewrite Hm. unfold pool_metrics. by rewrite !bind_app, !bind_cons.
  - rewrite Hm. unfold pool_metrics. rewrite bind_app. destruct Ht; simpl; by rewrite app_nil_r.
Qed.

Lemma reachable_metrics s0 c : state_ok s0 → reachable overall_timeout iterate s0 c → metrics_ok s0 c.
Proof.
  intros Hs0 Hr.
  assert (∀ c c', rtc (sys_step overall_timeout iterate) c c' →
    system_ok c → metrics_ok s0 c → metrics_ok s0 c') as Hrtc.
  { induction 1 as [|c1 c2 c3 Hstep _ IH]; [done|]. intros Hok Hsl.
    apply IH; [by eapply step_preserves|by eapply step_metrics]. }
  apply (Hrtc _ _ Hr); [by split; [|constructor]|]. unfold metrics_ok. simpl. by rewrite app_nil_r.
Qed.

(** The lines a task adds to [requests_total]. *)
Definition request_lines (tr : list (obs sysE)) : list (list string) := incs requests_total (events tr).

(** The route a request is counted under. *)
Definition route_label (r : Router) (req : Request) : string :=
  from_option Router.prefix "unmatched" (matched r req).

(** How a request is counted: at most once, whatever happens to it; once it has
    returned, under its method, the route a stored router gives it and the status
    the client got, unless it left no trace in the metrics at all (it was refused
    a token, or its body could not be read) or the overall timeout cut it. *)
Definition counted_request (G : list Router) (ip : IpAddr) (req : Request) (p : prog sysE Response)
    (tr : list (obs sysE)) : Prop :=
  len (request_lines tr) ≤ 1 ∧
  ∀ resp, p = Ret resp →
    (∃ arc, G !! generation arc = Some (the_router arc) ∧
       request_lines tr = [[req_method req; route_label (the_router arc) (from_address ip req);
                            pretty (resp_status resp)]]) ∨
    (recorded_metrics tr = [] ∧
       (refused (from_address ip req) tr ∧ too_many_requests = Value resp ∨
        EBody None ∈ events tr ∧ resp = respond (Err UpstreamFailure))) ∨
    timed_out tr ∧ resp = build_response 504 "Request timed out".

Inductive counted_task (G : list Router) : origin → ∀ A, prog sysE A → list (obs sysE) → Prop :=
| counted_as_request ip req p tr : counted_request G ip req p tr →
    counted_task G (ForRequest ip req) Response p tr
| not_counted og (p : prog sysE unit) tr : background og → recorded_metrics tr = [] → counted_task G og unit p tr.

Lemma follows_counted C G req es res : follows_policy C G req es res →
  (∃ arc, G !! generation arc = Some (the_router arc) ∧ incs requests_total es
     = [[req_method req; route_label (the_router arc) req; pretty (resp_status (respond res))]]) ∨
  es = [EBody None] ∧ res = Err UpstreamFailure.
Proof.
  intros (cfg & arc & _ & Harc & Hp). pose proof Hp as Hc. apply policy_counted in Hc.
  unfold counted_as, route_label, matched in *.
  destruct (match_route _ _) as [[i route]|] eqn:Hm; simpl in Hc.
  - destruct Hc as [[-> ->]|[_ Hc]]; [by right|left]. exists arc. by rewrite Hm.
  - left. exists arc. split; [done|]. rewrite Hm, Hc. by destruct Hp; simplify_eq.
Qed.

Lemma follows_counted_once C G req es es' res : follows_policy C G req (es ++ es') res →
  len (incs requests_total es) ≤ 1.
Proof.
  intros Hf. unfold len.
  assert (length (incs requests_total (es ++ es')) ≤ 1)%nat as Hle.
  { by apply follows_counted in Hf as [(arc & _ & ->)|[-> _]]; [|apply le_S]. }
  rewrite incs_app, length_app in Hle. lia.
Qed.

Lemma answered_counted C G ip req p tr tr' resp :
  answered C G (from_address ip req) (tr ++ tr') resp → (∀ resp', p = Ret resp' → tr' = [] ∧ resp' = resp) →
  counted_request G ip req p tr.
Proof.
  intros Hans Hp. unfold counted_request, request_lines. split.
  - destruct Hans as [resp _ _ He|res Hf|es res Hf _]; rewrite events_app in *.
    + apply app_eq_nil in He as [-> _]. unfold len. simpl. lia.
    + by eapply follows_counted_once.
    + rewrite <-app_assoc in Hf. by eapply follows_counted_once.
  - intros resp' ->. destruct (Hp resp' eq_refl) as [-> ->]. rewrite app_nil_r in Hans.
    unfold recorded_metrics. destruct Hans as [resp Hr Href He|res Hf|es res Hf Ht].
    + right. left. rewrite He. by split; [|left].
    + destruct (follows_counted _ _ _ _ _ Hf) as [(arc & Harc & Hi)|[-> ->]]; [left; by exists arc|].
      right. left. split; [done|right]. by split; [left|].
    + by right; right.
Qed.

(** C13. The metrics account for the requests: in every state the proxy can reach,
    the recorded metrics are those of the start and those the tasks recorded,
    none lost and none twice, under every interleaving; each request is counted
    at most once in [requests_total], and one that has returned exactly once,
    under the method it arrived with, the route a stored router matches it to
    and the status the client received, unless the limiter refused it a token,
    its body could not be read or a wait of it ran into the overall timeout;
    nothing else is counted.  The configurations applied are usable ones. *)
Theorem metrics_account (s0 s : AppState) (pool : list task) :
  state_ok s0 → reachable overall_timeout iterate s0 (s, pool) →
  metric_calls (metrics s) ≡ₚ metric_calls (metrics s0) ++ pool_metrics pool ∧
  ∀ t, t ∈ pool → match t with @Task _ A og p tr _ => counted_task (routers s) og A p tr end.
Proof.
  intros Hs0 Hr. split; [exact (reachable_metrics s0 (s, pool) Hs0 Hr)|].
  apply Forall_forall. eapply Forall_impl; [by apply reachable_conforms|]. intros [A og p tr live] Ht.
  destruct Ht as [ip req p tr tr' resp Hans Hp|og' p tr Hog _ Hm]; [|by apply not_counted].
  apply counted_as_request. by eapply answered_counted.
Qed.
End pool.

(** ** Witnesses: a request that waits for its second upstream *)

Definition waiting_task : task :=
  Task (ForRequest sample_ip sample_request) waiting.2.1 waiting.2.2 true.

Lemma requests_follow_policy_witness :
  conforms (configs_of sample_state waiting_pool) (routers waiting.1) (ForRequest sample_ip sample_request)
    Response waiting.2.1 waiting.2.2.
Proof.
  exact (proj2 (requests_follow_policy (from_secs 30) id sample_state waiting.1 waiting_pool
    (proj1 sample_state_good) waiting_reachable) waiting_task (list_elem_of_here _ _)).
Defined.

Lemma calls_bounded_everywhere_witness :
  calls (events (task_trace waiting_task)) = [] ∨
  ∃ ip req cfg arc, task_origin waiting_task = ForRequest ip req ∧
    cfg ∈ configs_of sample_state waiting_pool ∧
    routers waiting.1 !! generation arc = Some (the_router arc) ∧
    calls_within cfg (the_router arc) (from_address ip req) (calls (events (task_trace waiting_task))).
Proof.
  exact (calls_bounded_everywhere (from_secs 30) id sample_state waiting.1 waiting_pool
    (proj1 sample_state_good) waiting_reachable waiting_task (list_elem_of_here _ _)).
Defined.

Lemma metrics_account_witness :
  metric_calls (metrics waiting.1) ≡ₚ metric_calls (metrics sample_state) ++ pool_metrics waiting_pool ∧
  counted_task (routers waiting.1) (ForRequest sample_ip sample_request) Response waiting.2.1 waiting.2.2.
Proof.
  destruct (metrics_account (from_secs 30) id sample_state waiting.1 waiting_pool
    (proj1 sample_state_good) waiting_reachable) as [Hm Hc].
  split; [exact Hm|exact (Hc waiting_task (list_elem_of_here _ _))].
Defined.
