(* ===== verification/Circuits.v ===== *)
(** Circuits: the circuit breakers decide where the running proxy calls.

    [History] gives the calls of all tasks on the one health tracker an order,
    [Breaker] says what each of them is answered, and [Requests] that a task
    follows the retry policy of its own request.  Together: before any call a
    task makes, the breaker of the called upstream had let it through, or the
    breakers of the whole route had refused. *)

From S2P Require Import Prelude Float64 Prog Config Balancer Http Errors Router Health Breaker.
From S2P Require Import RetryBudget RateLimiter Metrics State Trace Proxy Middleware RetryPolicy.
From S2P Require Import PolicyFacts ProxySpec Sample ProxyFacts HeaderFacts MiddlewareFacts.
From S2P Require Import Reload HealthCheck Total CutRequests System Tasks History Server Requests.
Local Open Scope Z_scope.

(** ** The checks before a call of one request *)
Section request.
Context `{Hyper, Platform}.

(** A call at [out] by a request of this route, after [pre]: at an upstream found
    healthy, or at any once none was. *)
Definition guarded (req : Request) (route : Route) (pre : list event) (out : Outgoing) : Prop :=
  ∃ u, u ∈ upstreams route ∧ uri_parse (u +:+ final_path (req_uri req) route) = Some (out_uri out) ∧
    (EChecked u true ∈ pre ∨ ∀ v, v ∈ upstreams route → EChecked v false ∈ pre).

Lemma probes_unhealthy us checks b : probes us checks b → b = false →
  ∀ v, v ∈ us → EChecked v false ∈ checks.
Proof.
  induction 1 as [|u us|u us es b Hp IH]; intros Hb v; [by intros ?%not_elem_of_nil|done|].
  intros [->|Hv]%elem_of_cons; [left|right; auto].
Qed.

Lemma rotate_subset n (us : list string) : rotate n us ⊆ us.
Proof.
  intros u. unfold rotate. generalize (n mod length us)%nat as m. intros m Hu.
  rewrite <-(take_drop m us), elem_of_app. rewrite elem_of_app in Hu. tauto.
Qed.

(** An event that is not of the first part is of the second. *)
Lemma app_middle {A} (l1 l2 pre post : list A) x : l1 ++ l2 = pre ++ x :: post → x ∉ l1 →
  ∃ pre', pre = l1 ++ pre' ∧ l2 = pre' ++ x :: post.
Proof.
  intros Heq Hx. apply app_eq_app in Heq as (l & [[-> Heq]|[-> ->]]); [|by exists l].
  destruct l as [|y l]; simpl in Heq; [by exists []; rewrite !app_nil_r|].
  simplify_eq. destruct Hx. apply elem_of_app. right. left.
Qed.

Lemma policy_guarded cfg r req pre out d answer post res :
  request_policy cfg r req (pre ++ ECalled out d answer :: post) res →
  ∃ i route, match_route r (uri_path (req_uri req)) = Some (i, route) ∧ guarded req route pre out.
Proof.
  remember (pre ++ ECalled out d answer :: post) as es eqn:Hes.
  destruct 1 as [Hm|i route Hm|i route c checks es res Hm Hc Hpr Hp].
  1,2: destruct pre as [|? [|]]; by simplify_eq.
  exists i, route. split; [done|].
  apply app_middle in Hes as (pre' & -> & ->).
  2: { intros Hin. destruct (opening_silent (Some (at_body c)) _ _ _ Hpr) as (Hcalls & _).
       assert ((out, answer) ∈ calls (EBody (Some (at_body c)) :: checks)) as Hout
         by (apply list_elem_of_omap; by eexists).
       rewrite Hcalls in Hout. by apply not_elem_of_nil in Hout. }
  apply (policy_checked_first _ (upstreams route)) with (pre := []) in Hp; [|apply rotate_subset].
  apply each_call_split in Hp as (u & Hu & Hat & Hchecked). exists u.
  split; [done|]. split; [by rewrite <-(of_path _ _ _ _ Hc)|].
  destruct (at_any_healthy c) eqn:Hany.
  - left. apply elem_of_app. right. by apply Hchecked.
  - right. intros v Hv. apply elem_of_app. left. right. by eapply probes_unhealthy.
Qed.

Lemma checked_observed u b tr : EChecked u b ∈ events tr → Obs (HealthCheck u) b ∈ tr.
Proof.
  intros ([X e x] & Ho & He)%list_elem_of_omap. simpl in He.
  destruct e as [| | | | | | | | | | | | | | |X a|d X a]; simpl in He; simplify_eq; try done.
  - by destruct a.
  - by destruct x as [x|]; [destruct a|].
Qed.

(** The call upstream an observation is. *)
Definition upstream_call (o : obs sysE) : option Outgoing :=
  match o with
  | @Obs _ _ e _ =>
      match e with
      | @Await _ _ a | @AwaitBy _ _ _ a => match a with Call out _ => Some out | _ => None end
      | _ => None
      end
  end.

(** A run that made a call could have seen it fail. *)
Lemma call_fails W {A} (p q : prog sysE A) tr1 o tr2 out :
  steps (sys_ok W) p (tr1 ++ o :: tr2) q → upstream_call o = Some out →
  ∃ o' q' d, steps (sys_ok W) p (tr1 ++ [o']) q' ∧ events [o'] = [ECalled out d CallFailed].
Proof.
  intros Hs Ho.
  assert (∃ X (e : sysE X) k x, o = Obs e x ∧ steps (sys_ok W) p tr1 (Vis e k)) as (X & e & k & x & -> & Hs1).
  { clear Ho. revert p Hs. induction tr1 as [|o1 tr1 IH]; intros p Hs;
      apply steps_inv in Hs as [[? _]|Hs]; try done; destruct p as [| |X e k]; try done;
      destruct Hs as (x & tr' & [= -> <-] & Hx & Hs).
    - eexists X, e, k, x. split; [done|constructor].
    - destruct (IH _ Hs) as (Y & e' & k' & y & -> & Hs').
      eexists Y, e', k', y. split; [done|by constructor]. }
  destruct e as [| | | | | | | | | | | | | | |X a|d X a]; try done; destruct a as [| |out' d'|]; try done;
    injection Ho as ->.
  - eexists (Obs (Await (Call out d')) CallFailed), _, d'. split; [by eapply steps_snoc|done].
  - eexists (Obs (AwaitBy d (Call out d')) (Some CallFailed)), _, d'. split; [by eapply steps_snoc|done].
Qed.
End request.

(** ** The running system *)
Section system.
Context `{HyperLaws, Platform} (overall_timeout : Duration) (iterate : list string → list string).

(** Before the end of [h], task [i] asked for the health of [u] and the breaker of
    [u], run on all calls made on the tracker until then, answered [b]. *)
Definition breaker_told (s0 : AppState) (h : list entry) (i : nat) (u : string) (b : bool) : Prop :=
  ∃ h1 o h2, h = h1 ++ mk_entry i o (Obs (HealthCheck u) b) :: h2 ∧
    b = admits (ht_cooldown (health s0))
          (breaker_run (ht_failure_threshold (health s0)) (ht_cooldown (health s0)) u
             (breaker (health s0) u) (health_ops h1)) (clock o 0%nat).

Lemma of_task_app i h1 h2 : of_task i (h1 ++ h2) = of_task i h1 ++ of_task i h2.
Proof. unfold of_task. by rewrite filter_app, fmap_app. Qed.

Lemma of_task_elem i h ob : ob ∈ of_task i h → ∃ h1 o h2, h = h1 ++ mk_entry i o ob :: h2.
Proof.
  intros ([j o ob'] & -> & [Hj Hin]%list_elem_of_filter)%list_elem_of_fmap. simpl in Hj. subst j.
  apply list_elem_of_split in Hin as (h1 & h2 & ->). by exists h1, o, h2.
Qed.

Lemma observed_told s0 c h h1 en h2 i u b : state_ok s0 → is_history s0 c h → h = h1 ++ en :: h2 →
  Obs (HealthCheck u) b ∈ of_task i h1 → breaker_told s0 h1 i u b.
Proof.
  intros Hs0 Hh -> (h3 & o & h4 & ->)%of_task_elem. exists h3, o, h4. split; [done|].
  destruct c as [s pool]. rewrite <-app_assoc in Hh.
  destruct (history_circuit s0 s pool _ Hs0 Hh) as [_ Hans].
  by eapply (Hans h3 (mk_entry i o (Obs (HealthCheck u) b)) (h4 ++ en :: h2)).
Qed.

(** A task that calls is a request, and its calls are guarded. *)
Lemma run_guarded C G og A (q : prog sysE A) tr1 o tr2 out :
  Forall usable_config C → C ≠ [] → (∃ arc, may_router (known G) arc) →
  run_of overall_timeout C G og A q (tr1 ++ o :: tr2) → upstream_call o = Some out →
  ∃ ip req arc i route, og = ForRequest ip req ∧ G !! generation arc = Some (the_router arc) ∧
    match_route (the_router arc) (uri_path (req_uri req)) = Some (i, route) ∧
    guarded req route (events tr1) out.
Proof.
  intros HC HC0 HG Hrun Ho. remember (tr1 ++ o :: tr2) as tr eqn:Htr.
  destruct Hrun as [ip req p tr Hs|og p p' tr Hog Hp Hs]; subst tr.
  - destruct (call_fails _ _ _ _ _ _ _ Hs Ho) as (o' & p' & d & Hs' & Ho').
    pose proof (run_conforms overall_timeout C G _ _ _ _ HC HC0 HG (run_request _ C G ip req _ _ Hs')) as Hcon.
    remember (tr1 ++ [o']) as tr eqn:Htr. remember (ForRequest ip req) as og eqn:Hog.
    clear Hs Hs'. destruct Hcon as [ip' req' p'' tr tr' resp Hans _|og p'' tr Hbg]; [|by subst og].
    injection Hog as -> ->. subst tr.
    assert (∃ post res, follows_policy C G (from_address ip req)
      (events tr1 ++ ECalled out d CallFailed :: post) res) as (post & res & cfg & arc & _ & Harc & Hpol).
    { rewrite <-app_assoc in Hans. destruct Hans as [resp _ _ He|res Hf|es res Hf _].
      - rewrite !events_app, Ho' in He. by destruct (events tr1).
      - rewrite !events_app, Ho' in Hf. by eexists _, res.
      - rewrite !events_app, Ho', <-!app_assoc in Hf. by eexists _, res. }
    apply policy_guarded in Hpol as (i & route & Hm & Hg). by exists ip, req, arc, i, route.
  - apply (steps_weaken _ (λ _ _ _, True)) in Hs; [|done].
    pose proof (no_panic_trace _ _ _ _ _ _ Hp Hs) as [_ [Hcalls _]%Forall_cons]%Forall_app.
    destruct o as [X e x]. by destruct e as [| | | | | | | | | | | | | | |X a|d X a]; try done; destruct a.
Qed.

(** C12. The circuit breakers decide where the running system calls: order the
    operations of all tasks of a reachable state as they happened; each
    upstream's health is then that of one breaker run on all the calls made on
    the tracker, by any request or the active checker.  Whenever a task calls an
    upstream, the task is a request, the upstream is one of the route a stored
    router gives it, and earlier in this order that request had asked for its
    health and its breaker had let it through, or the request had asked for all
    upstreams of the route and every breaker had refused.  The configurations
    applied are usable ones. *)
Theorem circuits_guard_calls (s0 s : AppState) (pool : list task) (h : list entry) :
  state_ok s0 → reachable overall_timeout iterate s0 (s, pool) → is_history s0 (s, pool) h →
  (∀ u, breaker (health s) u
        = breaker_run (ht_failure_threshold (health s0)) (ht_cooldown (health s0)) u
            (breaker (health s0) u) (health_ops h)) ∧
  ∀ before en after out, h = before ++ en :: after → upstream_call (what en) = Some out →
    ∃ ip req arc i route u, task_origin <$> pool !! who en = Some (ForRequest ip req) ∧
      routers s !! generation arc = Some (the_router arc) ∧
      match_route (the_router arc) (uri_path (req_uri req)) = Some (i, route) ∧
      u ∈ upstreams route ∧
      uri_parse (u +:+ final_path (req_uri req) route) = Some (out_uri out) ∧
      (breaker_told s0 before (who en) u true ∨
       ∀ v, v ∈ upstreams route → breaker_told s0 before (who en) v false).
Proof.
  intros Hs0 Hr Hh. split; [by apply (history_circuit s0 s pool)|].
  intros before en after out -> Hout.
  destruct (reachable_runs overall_timeout iterate s0 s pool Hs0 Hr) as [Hu Hall].
  destruct (reachable_ok _ _ s0 (s, pool) Hs0 Hr) as [Hs _].
  assert (who en < length pool)%nat as [t Ht]%lookup_lt_is_Some_2.
  { pose proof (hist_who _ _ _ Hh) as Hwho. by apply Forall_app in Hwho as [_ [? _]%Forall_cons]. }
  pose proof (hist_task _ _ _ Hh _ _ Ht) as Htr. eapply Forall_lookup_1 in Hall; [|exact Ht].
  destruct t as [A og p tr live]. simpl in Htr, Hall. subst tr.
  assert (of_task (who en) (before ++ en :: after)
          = of_task (who en) before ++ what en :: of_task (who en) after) as Hof.
  { rewrite of_task_app. f_equal. unfold of_task. by rewrite filter_cons, decide_True. }
  rewrite Hof in Hall.
  destruct (run_guarded _ _ _ _ _ _ _ _ _ Hu ltac:(done) (current_known s Hs) Hall Hout)
    as (ip & req & arc & i & route & -> & Harc & Hm & u & Hup & Hat & Hasked).
  exists ip, req, arc, i, route, u. rewrite Ht. split_and!; try done.
  destruct Hasked as [Ht'|Hf]; [left|right; intros v Hv];
    (eapply observed_told; [done|exact Hh|done|]); apply checked_observed; [done|by apply Hf].
Qed.
End system.

(** ** Witness: the call of the request that now waits to try again *)

Lemma waiting_called : ∃ en out, waiting_history !! 17%nat = Some en ∧ upstream_call (what en) = Some out.
Proof.
  assert (is_Some (waiting_history !! 17%nat ≫= λ en, upstream_call (what en))) as [out Hout]
    by (vm_compute; eexists; reflexivity).
  destruct (waiting_history !! 17%nat) as [en|]; [by exists en, out|done].
Qed.

Lemma circuits_guard_calls_witness :
  ∃ en out ip req route u, waiting_history !! 17%nat = Some en ∧ upstream_call (what en) = Some out ∧
    task_origin <$> waiting_pool !! who en = Some (ForRequest ip req) ∧ u ∈ upstreams route ∧
    uri_parse (u +:+ final_path (req_uri req) route) = Some (out_uri out) ∧
    (breaker_told sample_state (take 17 waiting_history) (who en) u true ∨
     ∀ v, v ∈ upstreams route → breaker_told sample_state (take 17 waiting_history) (who en) v false).
Proof.
  destruct waiting_called as (en & out & Hen & Hout).
  destruct (proj2 (circuits_guard_calls (from_secs 30) id sample_state waiting.1 waiting_pool waiting_history
    (proj1 sample_state_good) waiting_reachable waiting_is_history)
    (take 17 waiting_history) en (drop 18 waiting_history) out
    (eq_sym (take_drop_middle waiting_history 17 en Hen)) Hout)
    as (ip & req & arc & i & route & u & Hog & _ & _ & Hu & Hat & Htold).
  exists en, out, ip, req, route, u. split_and!; [exact Hen|exact Hout|exact Hog|exact Hu|exact Hat|exact Htold].
Defined.
