(* ===== verification/Timeliness.v ===== *)
(** Timeliness: when a request is answered.

    [timed] runs a program against a clock: computations take no time, a wait
    under a deadline ends when the deadline passes at the latest (what [tokio]'s
    timers promise), a wait without one may take for ever.  The overall timeout
    leaves a request no wait of the latter kind. *)

From S2P Require Import Prelude Float64 Prog Config Balancer Http Errors Router Health.
From S2P Require Import RetryBudget RateLimiter Metrics State Trace Proxy Middleware RetryPolicy.
From S2P Require Import Sample HeaderFacts MiddlewareFacts Total CutRequests System Tasks Server.
From S2P Require Import Requests Shutdown.
Local Open Scope Z_scope.

Section clock.
Context `{Hyper, Platform}.

(** An effect that is answered [x], begun at [now], ends at [now']. *)
Definition takes (X : Type) (e : sysE X) : X → Instant → Instant → Prop :=
  match e with
  | Now => λ x now now', x = now ∧ now' = now
  | @Await _ _ _ => λ _ now now', now ≤ now'
  | @AwaitBy _ deadline _ _ => λ x now now', now ≤ now' ≤ Z.max now deadline ∧ (x = None → deadline ≤ now')
  | _ => λ _ now now', now' = now
  end.

Inductive timed (ok : ∀ X, sysE X → X → Prop) {A} :
  Instant → prog sysE A → list (obs sysE) → Instant → prog sysE A → Prop :=
| timed_nil now p : timed ok now p [] now p
| timed_cons now now1 now2 X (e : sysE X) k x tr q :
    ok X e x → takes X e x now now1 → timed ok now1 (k x) tr now2 q →
    timed ok now (Vis e k) (Obs e x :: tr) now2 q.

Lemma timed_steps ok {A} now (p : prog sysE A) tr now' q : timed ok now p tr now' q → steps ok p tr q.
Proof. induction 1; by constructor. Qed.

(** The waits of a program end by [D]. *)
Definition within (D : Instant) (X : Type) (e : sysE X) : Prop :=
  match e with
  | @Await _ _ _ => False
  | @AwaitBy _ deadline _ _ => deadline ≤ D
  | _ => True
  end.

Context (G : list Router) (ok : ∀ X, sysE X → X → Prop) (D : Instant).

(** [punctual now p Ψ]: begun at [now], [p] performs only effects that are
    served and end by [D], does not panic, and satisfies [Ψ] at its end. *)
Fixpoint punctual {A} (now : Instant) (p : prog sysE A) (Ψ : Instant → A → Prop) : Prop :=
  match p with
  | Ret a => Ψ now a
  | Panic => False
  | Vis e k => (enabled G _ e ∧ within D _ e) ∧
      ∀ x now', ok _ e x → takes _ e x now now' → punctual now' (k x) Ψ
  end.

Lemma punctual_mono {A} now (p : prog sysE A) (Ψ Ψ' : Instant → A → Prop) :
  punctual now p Ψ → (∀ t a, Ψ t a → Ψ' t a) → punctual now p Ψ'.
Proof.
  intros Hp HΨ. revert now Hp. induction p as [a| |X e k IH]; intros now; simpl; [auto|done|].
  intros [He Hk]. split; [done|]. eauto.
Qed.

Lemma punctual_bind {A B} now (p : prog sysE A) (f : A → prog sysE B) Ψ :
  punctual now p (λ t a, punctual t (f a) Ψ) → punctual now (p ≫= f) Ψ.
Proof.
  unfold mbind, prog_mbind. revert now. induction p as [a| |X e k IH]; intros now; simpl; [done|done|].
  intros [He Hk]. split; [done|]. intros x now' Hx Ht. by eapply IH, Hk.
Qed.

Lemma punctual_timed {A} now (p : prog sysE A) tr now' q Ψ :
  punctual now p Ψ → now ≤ D → timed ok now p tr now' q → now' ≤ D ∧ punctual now' q Ψ.
Proof.
  intros Hp Hnow Hs. revert Hp Hnow. induction Hs as [now p|now now1 now2 X e k x tr q Hok Ht Hs IH]; [done|].
  intros [[_ Hw] Hk] Hnow. apply IH; [by eapply Hk|].
  destruct e; simpl in Ht, Hw; try (by subst); [by destruct Ht as [_ ->]|lia].
Qed.

(** A punctual program can always be continued to its end. *)
Lemma punctual_completes {A} now (p : prog sysE A) Ψ :
  (∀ X (e : sysE X) t, enabled G X e → ∃ x t', ok X e x ∧ takes X e x t t') →
  punctual now p Ψ → ∃ tr now' a, timed ok now p tr now' (Ret a) ∧ Ψ now' a.
Proof.
  intros Hans. revert now. induction p as [a| |X e k IH]; intros now; simpl; [|done|].
  - intros Ha. exists [], now, a. by split; [constructor|].
  - intros [[He _] Hk]. destruct (Hans X e now He) as (x & now1 & Hx & Ht).
    destruct (IH x now1 (Hk x now1 Hx Ht)) as (tr & now' & a & Hs & Ha).
    exists (Obs e x :: tr), now', a. split; [by econstructor|done].
Qed.

(** A total program whose waits are all under early deadlines is punctual. *)
Lemma no_panic_punctual {A} now (p : prog sysE A) :
  no_panic ok (λ X e, enabled G X e ∧ within D X e) p (λ _, True) → punctual now p (λ _ _, True).
Proof.
  revert now. induction p as [a| |X e k IH]; intros now; simpl; [done|done|].
  intros [He Hk]. split; [done|]. intros x now' Hx _. by apply IH, Hk.
Qed.
End clock.

Section requests.
Context `{HyperLaws, Platform} (C : list Config) (G : list Router).
Context (HC : Forall usable_config C) (HC0 : C ≠ []) (HG : ∃ arc, may_router (known G) arc).

Abbreviation world := (sys_ok (seen C G)).

Lemma timed_answers X (e : sysE X) t : enabled G X e → ∃ x t', world X e x ∧ takes X e x t t'.
Proof.
  intros He. destruct e as [| |hi| | | | |g i X e| | | | | |X e| |X a|d X a];
    try (destruct (seen_answers C G HC HC0 HG _ _ He) as [x Hx]; exists x, t; split; [exact Hx|done]).
  - by exists t, t.
  - exists None, (Z.max t d). split; [done|]. simpl. lia.
Qed.

(** Under a deadline there are only waits that end by it. *)
Lemma with_deadline_within {A} d D (p : prog sysE A) : d ≤ D →
  no_panic (sys_ok (known G)) (enabled G) p (λ _, True) →
  no_panic world (λ X e, enabled G X e ∧ within D X e) (with_deadline d p) (λ _, True).
Proof.
  intros Hd. induction p as [a| |X e k IH]; [done|done|]. intros [He Hk].
  assert (∀ x, world X e x →
    no_panic world (λ X e, enabled G X e ∧ within D X e) (with_deadline d (k x)) (λ _, True)) as Hgo
    by (intros x Hx; by eapply IH, Hk, seen_known).
  destruct e; cbn [with_deadline]; try case_decide;
    (split; [split; [done|simpl; done || lia]|]); intros x Hx; try (by apply Hgo).
  all: destruct x as [x|]; [by apply Hgo|done].
Qed.

Lemma connection_punctual T ip req now : 0 ≤ T →
  punctual G world (now + T) now (connection_service T ip req) (λ _ _, True).
Proof.
  intros HT. unfold connection_service, inject_addr, logging. split; [done|].
  intros ? ? _ [-> ->]. apply punctual_bind.
  apply punctual_mono with (Ψ := λ _ _, True); [|intros t resp _; by repeat split].
  unfold rate_limit. cbn [remote_addr]. apply punctual_bind.
  apply punctual_mono with (Ψ := λ t _, t = now).
  { generalize (check_total ip). generalize (check ip). intros p.
    induction p as [a| |X e k IH]; intros Hp; [done|done|]. destruct Hp as [_ Hk]. split; [done|].
    intros x now' _ ->. by apply IH, Hk. }
  intros t allowed ->. destruct allowed.
  - unfold request_timeout. split; [done|]. intros ? ? _ [-> ->]. apply punctual_bind.
    eapply punctual_mono; [|by intros].
    apply no_panic_punctual, with_deadline_within; [lia|]. apply no_panic_bind.
    eapply no_panic_mono; [apply proxy_request_total|]. by intros.
  - unfold too_many_requests. by destruct (from_str_visible "1" eq_refl) as (v & -> & _).
Qed.

(** C8. Requests are answered in time, as long as every configuration and every
    router they may load is usable: at every point of a run that began at
    [start], the clock is at most the overall timeout past [start]; the run never
    panics and never stands at a wait without such a deadline; and however it
    went so far, it can be continued to a response, by that time.  (An unusable
    configuration makes the request panic instead, see [Containment].) *)
Theorem answered_in_time (T : Duration) (ip : IpAddr) (req : Request) (start now : Instant)
    (tr : list (obs sysE)) (p : prog sysE Response) :
  0 ≤ T → timed world start (connection_service T ip req) tr now p →
  now ≤ start + T ∧
  match p with
  | Ret _ => True
  | Panic => False
  | Vis e _ => within (start + T) _ e
  end ∧
  ∃ tr' now' resp, timed world now p tr' now' (Ret resp) ∧ now' ≤ start + T.
Proof.
  intros HT Hs. pose proof (connection_punctual T ip req start HT) as Hp.
  destruct (punctual_timed _ _ _ _ _ _ _ _ _ Hp ltac:(lia) Hs) as [Hnow Hp']. split; [done|]. split.
  - destruct p; try done. by destruct Hp' as [[_ ?] _].
  - destruct (punctual_completes _ _ _ _ _ _ timed_answers Hp') as (tr' & now' & resp & Hrest & _).
    exists tr', now', resp. split; [done|]. by destruct (punctual_timed _ _ _ _ _ _ _ _ _ Hp' Hnow Hrest).
Qed.
End requests.

(** ** Shutting down while requests are under way *)
Section draining.
Context `{HyperLaws, Platform} (C : list Config) (G : list Router).
Context (HC : Forall usable_config C) (HC0 : C ≠ []) (HG : ∃ arc, may_router (known G) arc).

(** A request that began at [start] is answered at [finish]. *)
Definition answered_at (T : Duration) (start finish : Instant) : Prop :=
  ∃ ip req tr resp, timed (sys_ok (seen C G)) start (connection_service T ip req) tr finish (Ret resp).

Lemma answered_at_bounds T start finish : 0 ≤ T → answered_at T start finish → finish ≤ start + T.
Proof.
  intros HT (ip & req & tr & resp & Hs).
  pose proof (connection_punctual C G HC T ip req start HT) as Hp.
  by destruct (punctual_timed _ _ _ _ _ _ _ _ _ Hp ltac:(lia) Hs).
Qed.

(** A request under way: when it began, when its service answered it, and when
    the last byte of the response body was written and hyper let go of its
    connection, if ever.  The body is streamed from the upstream, and nothing
    bounds how long that takes. *)
Record Exchange := mk_exchange { begun : Instant; replied : Instant; closed : option Instant }.

Definition under_way (T : Duration) (s : Instant) (x : Exchange) : Prop :=
  begun x ≤ s ∧ answered_at T (begun x) (replied x) ∧ ∀ t, closed x = Some t → replied x ≤ t.

(** C15. A drain timeout no shorter than the overall timeout cuts no request
    before it is answered: as long as every configuration and router the
    requests load is usable, whenever [start_server] returns, each request that
    was under way at the signal has been answered by then.  It returns within
    the drain timeout; without forcing the shutdown when every response has been
    written to its end, and by force only when the drain timeout is up and some
    response, though answered, is still being written. *)
Theorem drain_covers_requests (env : Environment) (T drain_timeout : Duration) (s : Instant) (how : SignalEnd)
    (exchanges : list Exchange) :
  0 ≤ T ≤ drain_timeout → signal_task env = Some (s, how) →
  Forall (under_way T s) exchanges → graceful env (closed <$> exchanges) →
  (∃ t e, start_server_ends env drain_timeout t e) ∧
  ∀ t e, start_server_ends env drain_timeout t e →
    s ≤ t ≤ s + drain_timeout ∧ Forall (λ x, replied x ≤ t) exchanges ∧
    match e with
    | ServedOk => Forall (λ x, ∃ tc, closed x = Some tc ∧ tc ≤ t) exchanges
    | ServeFailed => False
    | DrainExceeded => t = s + drain_timeout ∧
        (drain_timeout = 0 ∨ Exists (λ x, ∀ tc, closed x = Some tc → t ≤ tc) exchanges)
    end.
Proof.
  intros HT Hs Hall Hg. destruct (drain_bounded env drain_timeout s how _ ltac:(lia) Hs Hg) as [Hex Hends].
  split; [exact Hex|]. intros t e He. destruct (Hends t e He) as [Ht Hcase].
  assert (Forall (λ x, replied x ≤ s + drain_timeout) exchanges) as Hreplied.
  { eapply Forall_impl; [exact Hall|]. intros x (Hb & Ha & _). apply answered_at_bounds in Ha; lia. }
  destruct e; [|done|].
  - assert (Forall (λ x, ∃ tc, closed x = Some tc ∧ tc ≤ t) exchanges) as Hclosed.
    { apply Forall_forall. intros x Hx. by apply Hcase, list_elem_of_fmap_2. }
    split_and!; [lia|lia| |done]. rewrite Forall_forall in Hall, Hclosed |- *. intros x Hx.
    destruct (Hclosed x Hx) as (tc & Hc & Htc), (Hall x Hx) as (_ & _ & Hlast). specialize (Hlast tc Hc). lia.
  - destruct Hcase as [-> Hlate]. split_and!; [lia|lia|done|done|].
    destruct Hlate as [|(c & (x & -> & Hx)%list_elem_of_fmap & Hlate)]; [by left|right].
    apply Exists_exists. by exists x.
Qed.
End draining.

(** ** Witnesses *)

(** A request that is limited at once: the empty bucket of [strict_state]. *)
Definition limited_trace : list (obs sysE) :=
  [Obs Now 5; Obs (RateLimit RateEnabled) true; Obs (RateLimit RateCount) 1;
   Obs (RateLimit (RateAcquire sample_ip)) false; Obs Now 5].

Definition limited_response : Response := value_or (build_response 0 "") too_many_requests.

Lemma limited_timed C G :
  timed (sys_ok (seen C G)) 5 (connection_service (from_secs 30) sample_ip sample_request) limited_trace 5
    (Ret limited_response).
Proof.
  unfold connection_service, inject_addr, logging, limited_trace.
  eapply timed_cons; [exact I|split; reflexivity|].
  do 3 (eapply timed_cons; [exact I|reflexivity|]).
  eapply timed_cons; [exact I|split; reflexivity|]. apply timed_nil.
Qed.

Lemma answered_in_time_witness : 5 ≤ 5 + from_secs 30.
Proof.
  refine (proj1 (answered_in_time [sample_config] [sample_router] _ _ _ (from_secs 30) sample_ip sample_request
    5 5 limited_trace (Ret limited_response) _ (limited_timed _ _))).
  - constructor; [exact sample_usable|constructor].
  - discriminate.
  - exists (mk_router_arc 0 sample_router). split; [reflexivity|].
    exact (build_router_ok sample_config sample_usable).
  - discriminate.
Defined.

(** A signal at second 5, one request begun and answered before, whose response
    is being written until second 50. *)
Definition slow_download : Exchange := mk_exchange 5 5 (Some (from_secs 50)).
Definition drained_environment : Environment :=
  mk_environment (shutdown_signal 0 true (Some (from_secs 5)) None)
    (λ g, match g with Some s => Some (last_end s [from_secs 50], Ok tt) | None => None end).

Lemma drain_covers_requests_witness :
  ∃ t e, start_server_ends drained_environment (from_secs 30) t e.
Proof.
  refine (proj1 (drain_covers_requests [sample_config] [sample_router] _ drained_environment
    (from_secs 30) (from_secs 30) (from_secs 5) Signalled [slow_download] _ eq_refl _ _)).
  - constructor; [exact sample_usable|constructor].
  - split; [discriminate|reflexivity].
  - constructor; [|constructor]. split; [discriminate|]. split.
    + exists sample_ip, sample_request, limited_trace, limited_response. apply limited_timed.
    + intros t [= <-]. discriminate.
  - intros s. reflexivity.
Defined.
