(* ===== verification/Main.v ===== *)
(** Main: start-up, from [main.rs] and the starters of [server.rs].

    [main] is a program over the effects of start-up: it reads the
    configuration, builds the shared state, listens, spawns the background tasks
    and serves.  [perform] gives the effects their meaning on a [Machine]; a
    SIGHUP that arrives while [main] still runs is a reload performed before the
    next load of the configuration.  The parsers of YAML and of socket
    addresses and the operating system's answer to a bind are parameters. *)

From S2P Require Import Prelude Float64 Prog Config Deserialize Balancer Http Errors Router Health.
From S2P Require Import RetryBudget RateLimiter Metrics State Sample Reload HealthCheck Total System MiddlewareFacts Server.
Local Open Scope Z_scope.

(** Who tells the server to shut down. *)
Inductive ShutdownSignal := ProcessSignal | NeverSignal | OneshotSignal.

Inductive MainError :=
| ReadFailed
| ParseFailed
| BadBind
| ListenFailed
| BadMetricsBind
| MetricsListenFailed.

(** ** The effects of start-up *)
Section effects.
Context {SocketAddr : Type}.

(** The tasks that are spawned and run beside the server. *)
Inductive Background :=
| HealthChecker (hc : HealthCheckConfig)
| ConfigReloader (path : string)
| MetricsServer (listener : SocketAddr).

(** What [start_server] is entered with; it returns when the server is down. *)
Record Serving := mk_serving {
  sv_listener : SocketAddr;
  sv_overall_timeout : Duration;
  sv_drain_timeout : Duration;
  sv_signal : ShutdownSignal;
}.

Variant mainE : Type → Type :=
| ReadToString (path : string) : mainE (option string)
| NewConnector : mainE unit (* [HttpsConnector::new] panics without a TLS context *)
| Share (s : AppState) : mainE unit (* [Arc::new] *)
| Listen (addr : SocketAddr) : mainE (option SocketAddr) (* the listener's own address *)
| LoadCurrent : mainE Config (* [state.config.load()] *)
| Spawn (task : Background) : mainE unit
| Serve (srv : Serving) : mainE unit
  (** [start_server] in a task of its own. *)
| SpawnServer (listener : SocketAddr) (signal : ShutdownSignal) : mainE unit.
End effects.
Arguments Background : clear implicits.
Arguments Serving : clear implicits.
Arguments mainE : clear implicits.

(** ** The programs *)
Section programs.
Context `{Document Y} (yaml : string → option Y).
Context {SocketAddr : Type} (parse_addr : string → option SocketAddr).
Abbreviation program := (prog (mainE SocketAddr)).

(** [spawn_active_health_checker]. *)
Definition spawn_health_checker : program unit :=
  cfg ← trigger LoadCurrent;
  match health_check (server cfg) with
  | Some hc => trigger (Spawn (HealthChecker hc))
  | None => Ret tt
  end.

(** [start_server], up to the race at its end. *)
Definition serving_from (listener : SocketAddr) (signal : ShutdownSignal) : program (Serving SocketAddr) :=
  cfg ← trigger LoadCurrent;
  Ret (mk_serving listener (from_secs (overall_timeout_secs (server cfg)))
         (from_secs (drain_timeout_secs (server cfg))) signal).

Definition serve (listener : SocketAddr) : program (result unit MainError) :=
  srv ← serving_from listener ProcessSignal;
  _ ← trigger (Serve srv);
  Ret (Ok tt).

Definition start_metrics (metrics_bind : string) : program (result unit MainError) :=
  match parse_addr metrics_bind with
  | None => Ret (Err BadMetricsBind)
  | Some addr =>
      listener ← trigger (Listen addr);
      match listener with
      | None => Ret (Err MetricsListenFailed)
      | Some listener => _ ← trigger (Spawn (MetricsServer listener)); Ret (Ok tt)
      end
  end.

(** [main] once it listens. *)
Definition main_with (listener : SocketAddr) : program (result unit MainError) :=
  _ ← spawn_health_checker;
  _ ← trigger (Spawn (ConfigReloader "config.yaml"));
  cfg ← trigger LoadCurrent;
  r ← match metrics_bind (server cfg) with
      | Some mb => start_metrics mb
      | None => Ret (Ok tt)
      end;
  match r with
  | Ok _ => serve listener
  | Err e => Ret (Err e)
  end.

Definition main : program (result unit MainError) :=
  content ← trigger (ReadToString "config.yaml");
  match content with
  | None => Ret (Err ReadFailed)
  | Some config_str =>
      match from_str yaml config_str with
      | None => Ret (Err ParseFailed)
      | Some config =>
          match parse_addr (bind (server config)) with
          | None => Ret (Err BadBind)
          | Some addr =>
              _ ← trigger NewConnector;
              state ← lift (build_state config);
              _ ← trigger (Share state);
              listener ← trigger (Listen addr);
              match listener with
              | None => Ret (Err ListenFailed)
              | Some listener => main_with listener
              end
          end
      end
  end.

(** [build_proxy]: as [main], on an ephemeral port and without a reloader. *)
Definition build_proxy (config : Config) : program SocketAddr :=
  addr ← lift (unwrap (parse_addr "127.0.0.1:0"));
  listener ← trigger (Listen addr);
  listener ← lift (unwrap listener);
  _ ← trigger NewConnector;
  state ← lift (build_state config);
  _ ← trigger (Share state);
  _ ← spawn_health_checker;
  Ret listener.

(** [start_proxy_with_config] and [start_proxy_with_shutdown]. *)
Definition start_proxy (signal : ShutdownSignal) (config : Config) : program SocketAddr :=
  listener ← build_proxy config;
  _ ← trigger (SpawnServer listener signal);
  Ret listener.

Definition start_proxy_with_config : Config → program SocketAddr := start_proxy NeverSignal.
Definition start_proxy_with_shutdown : Config → program SocketAddr := start_proxy OneshotSignal.
Definition start_proxy_for_test : program SocketAddr := start_proxy_with_config test_config.
End programs.

(** ** The machine start-up runs on *)
Section machine.
Context `{Hyper, Platform} `{Document Y} (yaml : string → option Y).
Context {SocketAddr : Type}.

Record Machine := mk_machine {
  files : string → option string;
  tls_available : bool;
  (** The contents found at the SIGHUPs before each load of the configuration. *)
  sighups : list (list (option string));
  listening : list SocketAddr;
  shared : option AppState;
  spawned : list (Background SocketAddr);
  serving : list (Serving SocketAddr);
}.

(** The address a bind gives, if any, to one who listens already on some. *)
Context (bindable : list SocketAddr → SocketAddr → option SocketAddr).
Context (os : nat → Oracle).

Definition set_shared (m : Machine) (s : AppState) : Machine :=
  mk_machine (files m) (tls_available m) (sighups m) (listening m) (Some s) (spawned m) (serving m).
Definition set_sighups (m : Machine) (l : list (list (option string))) : Machine :=
  mk_machine (files m) (tls_available m) l (listening m) (shared m) (spawned m) (serving m).
Definition add_listener (m : Machine) (a : SocketAddr) : Machine :=
  mk_machine (files m) (tls_available m) (sighups m) (listening m ++ [a]) (shared m) (spawned m) (serving m).
Definition add_task (m : Machine) (b : Background SocketAddr) : Machine :=
  mk_machine (files m) (tls_available m) (sighups m) (listening m) (shared m) (spawned m ++ [b]) (serving m).
Definition add_serving (m : Machine) (srv : Serving SocketAddr) : Machine :=
  mk_machine (files m) (tls_available m) (sighups m) (listening m) (shared m) (spawned m) (serving m ++ [srv]).

Definition is_reloader (b : Background SocketAddr) : bool :=
  match b with ConfigReloader _ => true | _ => false end.

(** The reloads due before a load: none before the reloader runs. *)
Definition due (m : Machine) : list (option string) :=
  if existsb is_reloader (spawned m) then default [] (head (sighups m)) else [].

Definition after_reloads (m : Machine) (s : AppState) : AppState :=
  (run_sys os (config_reloader yaml (due m)) s).1.

Definition perform (X : Type) (e : mainE SocketAddr X) (m : Machine) : Machine * outcome X :=
  match e with
  | ReadToString path => (m, Value (files m path))
  | NewConnector => (m, if tls_available m then Value tt else Panicked)
  | Share s => (set_shared m s, Value tt)
  | Listen addr =>
      match bindable (listening m) addr with
      | Some a => (add_listener m a, Value (Some a))
      | None => (m, Value None)
      end
  | LoadCurrent =>
      match shared m with
      | Some s =>
          let s' := after_reloads m s in
          (set_shared (set_sighups m (tail (sighups m))) s', Value (config s'))
      | None => (m, Panicked)
      end
  | Spawn b => (add_task m b, Value tt)
  | Serve srv => (add_serving m srv, Value tt)
  | SpawnServer listener signal =>
      match shared m with
      | Some s => (add_serving m (mk_serving listener
                     (from_secs (overall_timeout_secs (server (config s))))
                     (from_secs (drain_timeout_secs (server (config s)))) signal), Value tt)
      | None => (m, Panicked)
      end
  end.
End machine.
Arguments Machine : clear implicits.
Arguments mk_machine {SocketAddr} _ _ _ _ _ _ _.

(** ** Facts *)
Section facts.
Context `{HyperLaws, Platform} `{Document Y} (yaml : string → option Y).
Context {SocketAddr : Type} (parse_addr : string → option SocketAddr).
Context (bindable : list SocketAddr → SocketAddr → option SocketAddr).
Context (os : nat → Oracle) (overall_timeout : Duration) (iterate : list string → list string).

Lemma from_str_threshold text cfg : from_str yaml text = Some cfg → 0 ≤ failure_threshold (server cfg).
Proof.
  unfold from_str. intros (y & _ & Hy)%bind_Some.
  destruct (deserialize_config_range y cfg Hy) as [(_ & _ & [Hf _] & _) _]. exact Hf.
Qed.

(** What one SIGHUP does to the state. *)
Definition reloaded (s : AppState) (content : option string) : AppState :=
  match content ≫= from_str yaml with
  | Some cfg => set_config (store_router s (build_router cfg)) cfg
  | None => s
  end.

Lemma run_reloads (os' : nat → Oracle) contents s :
  (run_sys os' (config_reloader yaml contents) s).1 = foldl reloaded s contents.
Proof.
  revert os' s. induction contents as [|content contents IH]; intros os' s; [done|].
  cbn [config_reloader foldl]. unfold reloaded at 2. destruct content as [text|]; [|apply IH]. simpl.
  destruct (from_str yaml text) as [cfg|]; [|apply IH]. simpl. apply IH.
Qed.

(** Some answers that are always possible. *)
Definition quiet_oracle (s : AppState) : Oracle :=
  mk_oracle (λ _, instant_min + Z.max (window (retry_budget s)) (from_secs 300)) "" (λ _, 0)
    (λ X a, match a in awaitE X return X with
            | ReadBody => None | Sleep _ => tt | Call _ _ => CallFailed | Probe _ _ => None
            end)
    (λ X _ _, None).

Lemma quiet_oracle_ok s : oracle_ok s (quiet_oracle s).
Proof. split_and!; [done|done|]. intros hi Hhi. simpl. lia. Qed.

(** A reload, as steps of the system. *)
Lemma reload_steps s pool cfg : usable_config cfg →
  ∃ pool', rtc (sys_step overall_timeout iterate) (s, pool)
             (set_config (store_router s (build_router cfg)) cfg, pool').
Proof.
  intros Hcfg. eexists.
  eapply rtc_l; [apply step_spawn, spawn_reload, Hcfg|].
  eapply rtc_l; [apply (step_effect _ _ pool [] _ _ _ _ _ [] (quiet_oracle s)); [apply quiet_oracle_ok|done]|].
  eapply rtc_l; [|constructor].
  apply (step_effect _ _ pool [] _ _ _ _ _ _ (quiet_oracle (store_router s (build_router cfg)))); [|done].
  apply quiet_oracle_ok.
Qed.

(** The configurations the file and the reloads give. *)
Definition may_read (m : Machine SocketAddr) (cfg : Config) : Prop :=
  ∃ text, from_str yaml text = Some cfg ∧
    (files m "config.yaml" = Some text ∨ ∃ contents, contents ∈ sighups m ∧ Some text ∈ contents).

Lemma reloads_steps contents s pool :
  (∀ text cfg, Some text ∈ contents → from_str yaml text = Some cfg → usable_config cfg) →
  (∃ pool', rtc (sys_step overall_timeout iterate) (s, pool) (foldl reloaded s contents, pool')) ∧
  (config (foldl reloaded s contents) = config s ∨
   ∃ text, Some text ∈ contents ∧ from_str yaml text = Some (config (foldl reloaded s contents))).
Proof.
  revert s pool. induction contents as [|content contents IH]; intros s pool Hall.
  { split; [by exists pool; constructor|by left]. }
  assert (∃ pool1, rtc (sys_step overall_timeout iterate) (s, pool) (reloaded s content, pool1)) as (pool1 & Hone).
  { unfold reloaded. destruct content as [text|]; [|by exists pool; constructor]. simpl.
    destruct (from_str yaml text) as [cfg|] eqn:Htext; [|by exists pool; constructor].
    apply reload_steps. by apply (Hall text); [left|]. }
  destruct (IH (reloaded s content) pool1) as ((pool2 & Htwo) & Hc).
  { intros text cfg Htext. apply Hall. by right. }
  cbn [foldl]. split; [exists pool2; by etrans|]. destruct Hc as [->|(text & Htext & Hc)].
  - unfold reloaded. destruct content as [text|]; [|by left]. simpl.
    destruct (from_str yaml text) as [cfg|] eqn:Htext; [|by left]. right. exists text. by split; [left|].
  - right. exists text. by split; [right|].
Qed.

(** ** The start-up of [main] *)

Abbreviation perform' := (perform yaml bindable os).
Context (start : Machine SocketAddr).
Context (Hread : ∀ cfg, may_read start cfg → usable_config cfg).

(** While [main] runs: the shared state is one the system reaches. *)
Record running (s0 : AppState) (m : Machine SocketAddr) (s : AppState) : Prop := {
  run_shared : shared m = Some s;
  run_reachable : ∃ pool, reachable overall_timeout iterate s0 (s, pool);
  run_read : may_read start (config s);
  run_sighups : ∀ l, l ∈ sighups m → l ∈ sighups start;
}.

Lemma load_current s0 m s : running s0 m s →
  ∃ m' s', perform' _ LoadCurrent m = (m', Value (config s')) ∧ running s0 m' s' ∧
    spawned m' = spawned m ∧ listening m' = listening m ∧ serving m' = serving m ∧
    (existsb is_reloader (spawned m) = false → s' = s).
Proof.
  intros [Hs (pool & Hr) Hc Hsig]. unfold perform. rewrite Hs.
  assert (∀ text cfg, Some text ∈ due m → from_str yaml text = Some cfg → may_read start cfg) as Hdue.
  { intros text cfg Htext Hcfg. exists text. split; [done|right]. unfold due in Htext.
    destruct (existsb _ _); [|by apply not_elem_of_nil in Htext].
    destruct (sighups m) as [|l ls] eqn:Hm; [by apply not_elem_of_nil in Htext|].
    exists l. split; [|done]. apply Hsig. by left. }
  destruct (reloads_steps (due m) s pool) as ((pool' & Hsteps) & Hcfg).
  { intros text cfg Htext Hcfg. apply Hread. by eapply Hdue. }
  eexists _, (after_reloads yaml os m s). split; [done|]. unfold after_reloads. rewrite run_reloads.
  split_and!; try done.
  - split; [done| | |].
    + exists pool'. unfold reachable in *. by etrans.
    + destruct Hcfg as [->|(text & Htext & Hcfg)]; [done|]. by eapply Hdue.
    + simpl. intros l Hl. apply Hsig. destruct (sighups m); [done|]. by right.
  - intros Hno. unfold due. by rewrite Hno.
Qed.

Lemma running_add_task s0 m s b : running s0 m s → running s0 (add_task m b) s.
Proof. by intros []. Qed.

Lemma running_add_listener s0 m s a : running s0 m s → running s0 (add_listener m a) s.
Proof. by intros []. Qed.

Lemma run_trigger {X A} (e : mainE SocketAddr X) (k : X → prog (mainE SocketAddr) A) m m' x :
  perform' X e m = (m', Value x) → run perform' (trigger e ≫= k) m = run perform' (k x) m'.
Proof. intros He. simpl. by rewrite He. Qed.

Definition checkers (cfg : Config) : list (Background SocketAddr) :=
  match health_check (server cfg) with Some hc => [HealthChecker hc] | None => [] end.

Lemma spawn_health_checker_spec s0 m s : running s0 m s → spawned m = [] →
  ∃ m', run perform' spawn_health_checker m = (m', Value tt) ∧ running s0 m' s ∧
    spawned m' = checkers (config s) ∧ listening m' = listening m ∧ serving m' = serving m.
Proof.
  intros Hm Hsp. destruct (load_current s0 m s Hm) as (m1 & s1 & Hl & Hm1 & Hsp1 & Hli & Hse & Hsame).
  rewrite Hsp in *. specialize (Hsame eq_refl). subst s1. unfold spawn_health_checker.
  rewrite (run_trigger _ _ _ _ _ Hl). unfold checkers. destruct (health_check _) as [hc|]; simpl.
  - exists (add_task m1 (HealthChecker hc)). split_and!; try done; [by apply running_add_task|].
    simpl. by rewrite Hsp1.
  - by exists m1.
Qed.

(** The metrics server that [c] asks for, with what it listens on. *)
Definition metrics_started (listener : SocketAddr) (c : Config) (ls : list SocketAddr) : Prop :=
  match metrics_bind (server c) with
  | None => ls = []
  | Some mb => ∃ a l, parse_addr mb = Some a ∧ bindable [listener] a = Some l ∧ ls = [l]
  end.

(** Why [main] ends with an error. *)
Definition failure (e : MainError) : Prop :=
  match e with
  | ReadFailed => files start "config.yaml" = None
  | ParseFailed => ∃ text, files start "config.yaml" = Some text ∧ from_str yaml text = None
  | BadBind => ∃ cfg, may_read start cfg ∧ parse_addr (bind (server cfg)) = None
  | ListenFailed => ∃ cfg a, may_read start cfg ∧ parse_addr (bind (server cfg)) = Some a ∧ bindable [] a = None
  | BadMetricsBind => ∃ cfg mb, may_read start cfg ∧ metrics_bind (server cfg) = Some mb ∧ parse_addr mb = None
  | MetricsListenFailed => ∃ cfg mb a l, may_read start cfg ∧ metrics_bind (server cfg) = Some mb ∧
      parse_addr mb = Some a ∧ bindable [l] a = None
  end.

Definition served (s0 : AppState) (cfg : Config) (listener : SocketAddr) (m : Machine SocketAddr) : Prop :=
  ∃ s pool c ls,
    shared m = Some s ∧ reachable overall_timeout iterate s0 (s, pool) ∧ may_read start c ∧
    metrics_started listener c ls ∧ listening m = listener :: ls ∧
    spawned m = checkers cfg ++ ConfigReloader "config.yaml" :: (MetricsServer <$> ls) ∧
    serving m = [mk_serving listener (from_secs (overall_timeout_secs (server (config s))))
                   (from_secs (drain_timeout_secs (server (config s)))) ProcessSignal].

Lemma serve_spec s0 m s listener : running s0 m s → serving m = [] →
  ∃ m' s', run perform' (serve listener) m = (m', Value (Ok tt)) ∧ running s0 m' s' ∧
    spawned m' = spawned m ∧ listening m' = listening m ∧
    serving m' = [mk_serving listener (from_secs (overall_timeout_secs (server (config s'))))
                    (from_secs (drain_timeout_secs (server (config s')))) ProcessSignal].
Proof.
  intros Hm Hse. destruct (load_current s0 m s Hm) as (m1 & s1 & Hl & Hm1 & Hsp1 & Hli & Hse1 & _).
  eexists _, s1. split; [|split; [|split_and!]].
  - unfold serve, serving_from. simpl. unfold perform in Hl. rewrite Hl. simpl. done.
  - by destruct Hm1.
  - done.
  - done.
  - simpl. by rewrite Hse1, Hse.
Qed.

Lemma metrics_spec s0 m s c : running s0 m s → may_read start c → ∀ listener, listening m = [listener] →
  ∃ m' r, run perform' (match metrics_bind (server c) with
                        | Some mb => start_metrics parse_addr mb
                        | None => Ret (Ok tt)
                        end) m = (m', Value r) ∧ serving m' = serving m ∧
    match r with
    | Err e => failure e
    | Ok _ => running s0 m' s ∧ ∃ ls, metrics_started listener c ls ∧ listening m' = listener :: ls ∧
        spawned m' = spawned m ++ (MetricsServer <$> ls)
    end.
Proof.
  intros Hm Hc listener Hli. unfold metrics_started. destruct (metrics_bind (server c)) as [mb|] eqn:Hmb.
  - unfold start_metrics. destruct (parse_addr mb) as [a|] eqn:Ha.
    + destruct (bindable [listener] a) as [l|] eqn:Hb.
      * exists (add_task (add_listener m l) (MetricsServer l)), (Ok tt).
        assert (perform' _ (Listen a) m = (add_listener m l, Value (Some l))) as Hlisten
          by (unfold perform; by rewrite Hli, Hb).
        rewrite (run_trigger _ _ _ _ _ Hlisten). split_and!; try done.
        { by apply running_add_task, running_add_listener. }
        exists [l]. split_and!; [|simpl; by rewrite Hli|done]. by exists a, l.
      * exists m, (Err MetricsListenFailed).
        assert (perform' _ (Listen a) m = (m, Value None)) as Hlisten by (unfold perform; by rewrite Hli, Hb).
        rewrite (run_trigger _ _ _ _ _ Hlisten). split_and!; try done. by exists c, mb, a, listener.
    + exists m, (Err BadMetricsBind). split_and!; try done. by exists c, mb.
  - exists m, (Ok tt). split_and!; try done. exists []. split_and!; [done|done|]. by rewrite app_nil_r.
Qed.

Lemma main_with_spec s0 m s listener :
  running s0 m s → spawned m = [] → listening m = [listener] → serving m = [] →
  ∃ m' r, run perform' (main_with parse_addr listener) m = (m', Value r) ∧
    match r with
    | Err e => serving m' = [] ∧ failure e
    | Ok _ => served s0 (config s) listener m'
    end.
Proof.
  intros Hm Hsp Hli Hse. unfold main_with.
  destruct (spawn_health_checker_spec s0 m s Hm Hsp) as (m1 & H1' & Hm1 & Hsp1 & Hli1 & Hse1).
  rewrite (run_bind_value _ _ _ _ _ _ H1').
  set (m2 := add_task m1 (ConfigReloader "config.yaml")).
  rewrite (run_trigger (Spawn (ConfigReloader "config.yaml")) _ m1 m2 tt) by done.
  destruct (load_current s0 m2 s) as (m3 & s3 & H3' & Hm3 & Hsp3 & Hli3 & Hse3 & _);
    [by apply running_add_task|].
  rewrite (run_trigger _ _ _ _ _ H3').
  destruct (metrics_spec s0 m3 s3 (config s3) Hm3 (run_read _ _ _ Hm3) listener) as (m4 & r & H4' & Hse4 & Hr).
  { rewrite Hli3. simpl. by rewrite Hli1. }
  rewrite (run_bind_value _ _ _ _ _ _ H4'). rewrite Hse3 in Hse4. simpl in Hse4. rewrite Hse1, Hse in Hse4.
  destruct r as [[]|e]; [|by exists m4, (Err e)].
  destruct Hr as (Hm4 & ls & Hls & Hli4 & Hsp4).
  destruct (serve_spec s0 m4 s3 listener Hm4 Hse4) as (m5 & s5 & H5' & Hm5 & Hsp5 & Hli5 & Hse5).
  exists m5, (Ok tt). split; [done|]. destruct (run_reachable _ _ _ Hm5) as (pool & Hpool).
  exists s5, pool, (config s3), ls. split_and!; try done.
  - by destruct Hm5.
  - by destruct Hm3.
  - by rewrite Hli5.
  - rewrite Hsp5, Hsp4, Hsp3. simpl. by rewrite Hsp1, <-app_assoc.
Qed.
End facts.

(** The starters of the tests serve the configuration they are given on an
    ephemeral port, with no reloader and no metrics server. *)
Lemma start_proxy_spec `{Hyper, Platform} `{Document Y} (yaml : string → option Y) {SocketAddr : Type}
    (parse_addr : string → option SocketAddr)
    (bindable : list SocketAddr → SocketAddr → option SocketAddr) (os : nat → Oracle)
    (signal : ShutdownSignal) (cfg : Config) (start : Machine SocketAddr) a l s0 :
  spawned start = [] → serving start = [] → tls_available start = true → build_state cfg = Value s0 →
  config s0 = cfg → parse_addr "127.0.0.1:0" = Some a → bindable (listening start) a = Some l →
  ∃ m, run (perform yaml bindable os) (start_proxy parse_addr signal cfg) start = (m, Value l) ∧
    shared m = Some s0 ∧ spawned m = checkers cfg ∧
    serving m = [mk_serving l (from_secs (overall_timeout_secs (server cfg)))
                   (from_secs (drain_timeout_secs (server cfg))) signal].
Proof.
  intros Hsp Hse Htls Hs0 Hc Ha Hl. unfold start_proxy, build_proxy, spawn_health_checker, checkers.
  rewrite Ha, Hs0. simpl. rewrite Hl. simpl. rewrite Htls. simpl. unfold after_reloads, due. simpl.
  rewrite Hsp. simpl. rewrite Hc.
  destruct (health_check (server cfg)) as [hc|]; simpl; eexists; (split; [done|]); split_and!; simpl;
    rewrite ?Hsp, ?Hse, ?Hc; done.
Qed.

(** C14. Start-up: on a machine with a TLS context, and if every configuration
    that the file or a SIGHUP gives is usable and has a failure threshold below
    [2^32 - 1], [main] never panics.  It either ends with an error, and then
    serves nothing and the file, an address in it or a bind is at fault; or it
    serves on the address of the file's [bind], with one active checker if the
    file asks for it, the reloader, and the metrics server the configuration
    current at that moment asks for; the shared state then is one the system
    reaches from the state built of the file (by the reloads that came in the
    meantime), the timeouts are those of its configuration, and whatever the
    running proxy reaches from there, by reloads to usable configurations,
    satisfies the invariant. *)
Theorem main_serves `{HyperLaws, Platform} `{Document Y} (yaml : string → option Y) {SocketAddr : Type}
    (parse_addr : string → option SocketAddr)
    (bindable : list SocketAddr → SocketAddr → option SocketAddr) (os : nat → Oracle)
    (overall_timeout : Duration) (iterate : list string → list string) (start : Machine SocketAddr) :
  listening start = [] → spawned start = [] → serving start = [] → tls_available start = true →
  (∀ cfg, may_read yaml start cfg → usable_config cfg ∧ failure_threshold (server cfg) < 2 ^ 32 - 1) →
  ∃ m r, run (perform yaml bindable os) (main yaml parse_addr) start = (m, Value r) ∧
  match r with
  | Err e => serving m = [] ∧ failure yaml parse_addr bindable start e
  | Ok _ => ∃ text cfg addr listener s0,
      files start "config.yaml" = Some text ∧ from_str yaml text = Some cfg ∧
      parse_addr (bind (server cfg)) = Some addr ∧ bindable [] addr = Some listener ∧
      build_state cfg = Value s0 ∧
      served yaml parse_addr bindable overall_timeout iterate start s0 cfg listener m ∧
      ∀ s pool, reachable overall_timeout iterate s0 (s, pool) → state_ok s
  end.
Proof.
  intros Hli Hsp Hse Htls Hread. unfold main.
  rewrite (run_trigger _ _ _ (ReadToString "config.yaml") _ start start (files start "config.yaml")) by done.
  destruct (files start "config.yaml") as [text|] eqn:Hfile; [|by exists start, (Err ReadFailed)].
  destruct (from_str yaml text) as [cfg|] eqn:Hcfg; [|exists start, (Err ParseFailed); split_and!; [done..|by exists text]].
  assert (may_read yaml start cfg) as Hmay by (exists text; eauto).
  destruct (parse_addr (bind (server cfg))) as [addr|] eqn:Haddr; [|exists start, (Err BadBind); split_and!; [done..|by exists cfg]].
  rewrite (run_trigger _ _ _ NewConnector _ start start tt) by (unfold perform; by rewrite Htls).
  destruct (Hread cfg Hmay) as [Husable Hthr].
  destruct (build_state_good cfg Husable) as (s0 & Hs0 & Hok & _ & Hc & _).
  { split; [by apply from_str_threshold in Hcfg|done]. }
  rewrite Hs0. cbn [lift]. change (run ?h (Ret s0 ≫= ?k) start) with (run h (k s0) start). cbv beta.
  set (m1 := set_shared start s0).
  rewrite (run_trigger _ _ _ (Share s0) _ start m1 tt) by done.
  destruct (bindable [] addr) as [listener|] eqn:Hb.
  - set (m2 := add_listener m1 listener).
    rewrite (run_trigger _ _ _ (Listen addr) _ m1 m2 (Some listener)) by (simpl; by rewrite Hli, Hb).
    destruct (main_with_spec yaml parse_addr bindable os overall_timeout iterate start
      (λ c Hc, proj1 (Hread c Hc)) s0 m2 s0 listener) as (m & r & Hrun & Hr).
    + split; [done|by exists []; constructor|by rewrite Hc|done].
    + done.
    + simpl. by rewrite Hli.
    + done.
    + exists m, r. split; [done|]. destruct r as [[]|e]; [|done]. rewrite Hc in Hr.
      exists text, cfg, addr, listener, s0. split_and!; try done. intros s pool Hreach.
      by destruct (reachable_ok _ _ s0 (s, pool) Hok Hreach).
  - rewrite (run_trigger _ _ _ (Listen addr) _ m1 m1 None) by (simpl; by rewrite Hli, Hb).
    exists m1, (Err ListenFailed). split_and!; try done. exists cfg, addr. by split_and!.
Qed.

(** ** Witness: the shipped [config.yaml], and a SIGHUP that finds the file gone *)

Definition sample_yaml (text : string) : option Node :=
  if String.eqb text "config.yaml" then Some shipped_document else None.

Definition sample_machine : Machine string :=
  mk_machine (λ path, if String.eqb path "config.yaml" then Some "config.yaml"%string else None) true
    [[]; [None]] [] None [] [].

Lemma shipped_usable : usable_config shipped_config.
Proof.
  split.
  - constructor; [|constructor]. split_and!; try done.
  - split_and!; try done. by left.
Qed.

Lemma main_serves_witness :
  ∃ m, run (perform sample_yaml (λ _ a, Some a) sample_oracle) (main sample_yaml Some) sample_machine
       = (m, Value (Ok tt)) ∧ listening m = ["127.0.0.1:8080"; "127.0.0.1:9090"].
Proof.
  destruct (main_serves sample_yaml Some (λ _ a, Some a) sample_oracle 0 id sample_machine)
    as (m & r & Hrun & _).
  - reflexivity.
  - reflexivity.
  - reflexivity.
  - reflexivity.
  - intros cfg (text & Htext & Hfile). unfold from_str, sample_yaml in Htext.
    destruct (String.eqb text "config.yaml"); [|discriminate Htext].
    simpl in Htext. rewrite shipped_config_read in Htext. injection Htext as <-.
    split; [exact shipped_usable|reflexivity].
  - exists m. split.
    + rewrite Hrun. f_equal. apply (f_equal snd) in Hrun. revert Hrun. vm_compute. congruence.
    + change (listening m) with (listening (m, @Value (result unit MainError) r).1). rewrite <-Hrun.
      vm_compute. reflexivity.
Defined.
